(** * Lighterceptor: the recursive resource-discovery engine

    A shallow embedding of [lighterceptor.ts] (the variant with the
    [recursion] option): URL resolution, resource-kind inference, the
    memoising resource cache, the discovery queue and its drain loop, and the
    pattern-based dependency extractors for CSS and script text.  With
    it, the hooks [dom.ts] installs in the rendering environment and the
    resource loader of [resource-loader.ts], as far as they decide which
    calls reach the engine's interceptor.

    Conventions.
    - A JavaScript string is a sequence of UTF-16 code units.  The model uses
      Rocq strings and reads each character as one code unit below 256; the
      predicates on characters (white space, line terminators, word
      characters, case mapping) are the ECMAScript ones restricted to that
      range.
    - The platform and the collaborators the engine is injected with (the
      WHATWG [URL] parser, the global [fetch], the jsdom rendering
      environment and the clock) are fields of an environment record [Env].
    - Mutable run state ([requests], [pending], [processed],
      [resourceCache]) is threaded explicitly through every function. *)

From Stdlib Require Import String Ascii List ZArith NArith Lia Bool.
From stdpp Require Import base option list gmap strings.

Local Open Scope string_scope.
Local Open Scope list_scope.

#[local] Arguments String.append !_ _ / : simpl nomatch.

(* ===================================================================== *)
(** ** JavaScript string primitives *)
(* ===================================================================== *)

Module Js.

Definition code (c : ascii) : N := N_of_ascii c.

(** ECMAScript [WhiteSpace] and [LineTerminator] code units (what
    [String.prototype.trim] strips and the regular-expression escape
    [\s] matches). *)
Definition isSpace (c : ascii) : bool :=
  let n := code c in
  ((9 <=? n) && (n <=? 13) || (n =? 32) || (n =? 160))%N.

(** Line terminators: the characters [.] does not match. *)
Definition isLineTerminator (c : ascii) : bool :=
  let n := code c in ((n =? 10) || (n =? 13))%N.

(** [\w]: basic Latin letters, digits and the underscore. *)
Definition isWordChar (c : ascii) : bool :=
  let n := code c in
  ((65 <=? n) && (n <=? 90) || (97 <=? n) && (n <=? 122)
   || (48 <=? n) && (n <=? 57) || (n =? 95))%N.

Definition lowerChar (c : ascii) : ascii :=
  let n := code c in
  if ((65 <=? n) && (n <=? 90)
      || (192 <=? n) && (n <=? 222) && negb (n =? 215))%N
  then ascii_of_N (n + 32) else c.

(** [Canonicalize] of a regular expression with the [i] flag and without
    the [u] flag: the upper-case mapping when it is a single code unit
    that does not move a non-ASCII unit into ASCII. *)
Definition upperChar (c : ascii) : ascii :=
  let n := code c in
  if ((97 <=? n) && (n <=? 122)
      || (224 <=? n) && (n <=? 254) && negb (n =? 247))%N
  then ascii_of_N (n - 32) else c.

Fixpoint toLowerCase (s : string) : string :=
  match s with
  | EmptyString => EmptyString
  | String c s' => String (lowerChar c) (toLowerCase s')
  end.

(** [s.startsWith(p)] *)
Fixpoint startsWith (s p : string) : bool :=
  match p with
  | EmptyString => true
  | String b p' =>
      match s with
      | EmptyString => false
      | String a s' => Ascii.eqb a b && startsWith s' p'
      end
  end.

(** [s.includes(p)] *)
Fixpoint includes (s p : string) : bool :=
  startsWith s p ||
  match s with
  | EmptyString => false
  | String _ s' => includes s' p
  end.

Fixpoint trimStart (s : string) : string :=
  match s with
  | EmptyString => EmptyString
  | String c s' => if isSpace c then trimStart s' else s
  end.

Fixpoint trimEnd (s : string) : string :=
  match s with
  | EmptyString => EmptyString
  | String c s' =>
      match trimEnd s' with
      | EmptyString => if isSpace c then EmptyString else String c EmptyString
      | t => String c t
      end
  end.

Definition trim (s : string) : string := trimEnd (trimStart s).

(** [s.split(sep)] for a one-character separator: never empty. *)
Fixpoint split (sep : ascii) (s : string) : list string :=
  match s with
  | EmptyString => [EmptyString]
  | String c s' =>
      if Ascii.eqb c sep then EmptyString :: split sep s'
      else match split sep s' with
           | [] => [String c EmptyString]
           | piece :: rest => String c piece :: rest
           end
  end.

(** [candidate.split(/\s+/)[0]]: the text before the first white space. *)
Fixpoint firstToken (s : string) : string :=
  match s with
  | EmptyString => EmptyString
  | String c s' => if isSpace c then EmptyString else String c (firstToken s')
  end.

(** Truthiness of a string: [if (s)] holds for every non-empty string. *)
Definition truthy (s : string) : bool :=
  match s with EmptyString => false | _ => true end.

Fixpoint take (n : nat) (s : string) : string :=
  match n, s with
  | S n', String c s' => String c (take n' s')
  | _, _ => EmptyString
  end.

End Js.

(* ===================================================================== *)
(** ** Regular expressions: a backtracking matcher

    The fragment of ECMAScript regular expressions the engine's patterns
    use: literals, [.], character classes, [\s], [\b], sequence,
    alternation, greedy and lazy [*] (from which [+] and [?] derive),
    capture groups and back-references, with the flags [g] and [i].  The
    matcher is written in continuation-passing style, as the
    specification's [RepeatMatcher] is: the first successful path in
    priority order is the match. *)
(* ===================================================================== *)

Module Regex.

Inductive class_item :=
| CChar (c : ascii)
| CSpace.

Inductive regex :=
| Eps
| Lit (c : ascii)
| AnyChar
| Class (negated : bool) (items : list class_item)
| WordB
| Seq (r1 r2 : regex)
| Alt (r1 r2 : regex)
| Star (greedy : bool) (r : regex)
| Group (n : nat) (r : regex)
| Backref (n : nat).

(** [r+] and [r?] (both greedy). *)
Definition Plus (r : regex) : regex := Seq r (Star true r).
Definition Opt (r : regex) : regex := Alt r Eps.

Definition Space : regex := Class false [CSpace].

Fixpoint Str (s : string) : regex :=
  match s with
  | EmptyString => Eps
  | String c s' => Seq (Lit c) (Str s')
  end.

Fixpoint SeqAll (rs : list regex) : regex :=
  match rs with
  | [] => Eps
  | r :: rs' => Seq r (SeqAll rs')
  end.

(** The matcher's state: the input still to read, the character just
    before it (for [\b]) and the captures so far, most recent first. *)
Record mstate := MState {
  rest : string;
  prev : option ascii;
  caps : list (nat * string)
}.

Definition canon (ic : bool) (c : ascii) : ascii :=
  if ic then Js.upperChar c else c.

Definition item_matches (ic : bool) (a : ascii) (it : class_item) : bool :=
  match it with
  | CChar c => Ascii.eqb (canon ic a) (canon ic c)
  | CSpace => Js.isSpace a
  end.

Definition class_matches (ic negated : bool) (items : list class_item)
    (a : ascii) : bool :=
  xorb negated (existsb (item_matches ic a) items).

Definition advance (a : ascii) (s : string) (st : mstate) : mstate :=
  MState s (Some a) (caps st).

Fixpoint capture (n : nat) (cs : list (nat * string)) : option string :=
  match cs with
  | [] => None
  | (i, t) :: cs' => if Nat.eqb i n then Some t else capture n cs'
  end.

(** Reads [t] from the input, comparing canonicalised characters. *)
Fixpoint eat (ic : bool) (t : string) (st : mstate) : option mstate :=
  match t with
  | EmptyString => Some st
  | String c t' =>
      match rest st with
      | String a s' =>
          if Ascii.eqb (canon ic a) (canon ic c)
          then eat ic t' (advance a s' st) else None
      | EmptyString => None
      end
  end.

Definition isWordAt (o : option ascii) : bool :=
  match o with Some c => Js.isWordChar c | None => false end.

Definition next (st : mstate) : option ascii :=
  match rest st with String a _ => Some a | EmptyString => None end.

Definition orElse {A} (x y : option A) : option A :=
  match x with Some _ => x | None => y end.

(** The text a group consumed between two matcher states. *)
Definition consumed (st st' : mstate) : string :=
  Js.take (String.length (rest st) - String.length (rest st')) (rest st).

(** The repeat loop of [r*] and [r*?]: [step] matches [r] once.  An
    iteration that reads nothing is rejected, so the length [n] of the
    input bounds the number of iterations. *)
Fixpoint iterate (greedy : bool)
    (step : mstate -> (mstate -> option mstate) -> option mstate)
    (k : mstate -> option mstate) (n : nat) (st0 : mstate)
    {struct n} : option mstate :=
  match n with
  | O => k st0
  | S n' =>
      let again :=
        step st0 (fun st1 =>
          if Nat.ltb (String.length (rest st1)) (String.length (rest st0))
          then iterate greedy step k n' st1 else None) in
      if greedy then orElse again (k st0) else orElse (k st0) again
  end.

Fixpoint run (ic : bool) (r : regex) (st : mstate)
    (k : mstate -> option mstate) {struct r} : option mstate :=
  match r with
  | Eps => k st
  | Lit c =>
      match rest st with
      | String a s' =>
          if Ascii.eqb (canon ic a) (canon ic c)
          then k (advance a s' st) else None
      | EmptyString => None
      end
  | AnyChar =>
      match rest st with
      | String a s' =>
          if Js.isLineTerminator a then None else k (advance a s' st)
      | EmptyString => None
      end
  | Class negated items =>
      match rest st with
      | String a s' =>
          if class_matches ic negated items a
          then k (advance a s' st) else None
      | EmptyString => None
      end
  | WordB =>
      if xorb (isWordAt (prev st)) (isWordAt (next st)) then k st else None
  | Seq r1 r2 => run ic r1 st (fun st1 => run ic r2 st1 k)
  | Alt r1 r2 => orElse (run ic r1 st k) (run ic r2 st k)
  | Star greedy r1 =>
      iterate greedy (run ic r1) k (String.length (rest st)) st
  | Group n r1 =>
      run ic r1 st (fun st1 =>
        k (MState (rest st1) (prev st1) ((n, consumed st st1) :: caps st1)))
  | Backref n =>
      match capture n (caps st) with
      | None => k st
      | Some t => match eat ic t st with Some st1 => k st1 | None => None end
      end
  end.

(** A lower bound on the number of characters a match reads. *)
Fixpoint minLen (r : regex) : nat :=
  match r with
  | Eps | WordB | Star _ _ | Backref _ => 0
  | Lit _ | AnyChar | Class _ _ => 1
  | Seq r1 r2 => minLen r1 + minLen r2
  | Alt r1 r2 => Nat.min (minLen r1) (minLen r2)
  | Group _ r1 => minLen r1
  end.

(** One [exec]: the leftmost start at or after the current position from
    which the pattern matches. *)
Fixpoint search (ic : bool) (r : regex) (s : string) (p : option ascii)
    : option mstate :=
  match run ic r (MState s p []) Some with
  | Some fin => Some fin
  | None =>
      match s with
      | String a s' => search ic r s' (Some a)
      | EmptyString => None
      end
  end.

(** [while ((match = pattern.exec(text)) !== null) ...] for a pattern
    with the [g] flag: the captures of the successive matches.  [exec]
    restarts at [lastIndex], the end of the previous match; a match that
    leaves [lastIndex] where it was would be found again for ever, which
    the model reports as [None]. *)
Fixpoint execLoop (ic : bool) (r : regex) (fuel : nat) (s : string)
    (p : option ascii) : option (list (list (nat * string))) :=
  match search ic r s p with
  | None => Some []
  | Some fin =>
      if Nat.ltb (String.length (rest fin)) (String.length s)
      then match fuel with
           | O => None
           | S fuel' =>
               match execLoop ic r fuel' (rest fin) (prev fin) with
               | Some ms => Some (caps fin :: ms)
               | None => None
               end
           end
      else None
  end.

Definition matchAll (ic : bool) (r : regex) (s : string)
    : option (list (list (nat * string))) :=
  execLoop ic r (String.length s) s None.

(** [pattern.test(text)] for a pattern without the [g] flag. *)
Definition test (ic : bool) (r : regex) (s : string) : bool :=
  match search ic r s None with Some _ => true | None => false end.

(** [match[n]]; a group that took no part reads as the empty string here
    (every group of the engine's patterns takes part in every match). *)
Definition group (n : nat) (m : list (nat * string)) : string :=
  match capture n m with Some t => t | None => EmptyString end.

End Regex.

(* ===================================================================== *)
(** ** The engine's types *)
(* ===================================================================== *)

Inductive ResourceKind := html | css | js.

(** [RequestSource | "unknown"] *)
Inductive RequestSource :=
| SrcResource | SrcImg | SrcCss | SrcFetch | SrcXhr | SrcUnknown.

Record RequestRecord := {
  url : string;
  source : RequestSource;
  timestamp : Z
}.

Record ResourceContent := {
  text : string;
  contentType : option string
}.

Record CssDependencies := {
  css_imports : list string;
  css_urls : list string
}.

Record JsDependencies := {
  js_imports : list string;
  js_importScripts : list string;
  js_fetches : list string;
  js_xhrs : list string
}.

Record LighterceptorOptions := {
  settleTimeMs : option Z;
  recursion : option bool
}.

#[global] Instance ResourceKind_eq_dec : EqDecision ResourceKind.
Proof. solve_decision. Defined.

#[global] Instance RequestSource_eq_dec : EqDecision RequestSource.
Proof. solve_decision. Defined.

(* ===================================================================== *)
(** ** Dependency extractors *)
(* ===================================================================== *)

Module Patterns.
Import Regex.

Definition squote : ascii := "039"%char.
Definition dquote : ascii := "034"%char.

(** The character classes of the two quote characters and of everything
    else; the comments below write them [[Q]] and [[^Q]]. *)
Definition Quote : regex := Class false [CChar squote; CChar dquote].
Definition NotQuote : regex := Class true [CChar squote; CChar dquote].

(** [/url\(\s*([Q]?)(.*?)\1\s*\)/gi] *)
Definition cssUrlPattern : regex :=
  SeqAll [Str "url("; Star true Space; Group 1 (Opt Quote);
          Group 2 (Star false AnyChar); Backref 1; Star true Space;
          Lit ")"].

(** [/@import\s+(?:url\(\s* )?([Q]?)([^Q)\s]+)\1\s*\)?/gi] (the space
    after the second star is not part of the pattern). *)
Definition cssImportPattern : regex :=
  SeqAll [Str "@import"; Plus Space;
          Opt (Seq (Str "url(") (Star true Space));
          Group 1 (Opt Quote);
          Group 2 (Plus (Class true
                           [CChar squote; CChar dquote; CChar ")"; CSpace]));
          Backref 1; Star true Space; Opt (Lit ")")].

(** [/\bimport\s+(?:[^Q]+from\s+)?[Q]([^Q]+)[Q]/g] *)
Definition importPattern : regex :=
  SeqAll [WordB; Str "import"; Plus Space;
          Opt (SeqAll [Plus NotQuote; Str "from"; Plus Space]);
          Quote; Group 1 (Plus NotQuote); Quote].

(** [/\bimport\(\s*[Q]([^Q]+)[Q]\s*\)/g] *)
Definition dynamicImportPattern : regex :=
  SeqAll [WordB; Str "import("; Star true Space;
          Quote; Group 1 (Plus NotQuote); Quote; Star true Space; Lit ")"].

(** [/\bimportScripts\(\s*[Q]([^Q]+)[Q]\s*\)/g] *)
Definition importScriptsPattern : regex :=
  SeqAll [WordB; Str "importScripts("; Star true Space;
          Quote; Group 1 (Plus NotQuote); Quote; Star true Space; Lit ")"].

(** [/\bfetch\(\s*[Q]([^Q]+)[Q]/g] *)
Definition fetchPattern : regex :=
  SeqAll [WordB; Str "fetch("; Star true Space;
          Quote; Group 1 (Plus NotQuote); Quote].

(** [/\.open\(\s*[Q][^Q]+[Q]\s*,\s*[Q]([^Q]+)[Q]/g] *)
Definition xhrPattern : regex :=
  SeqAll [Str ".open("; Star true Space; Quote; Plus NotQuote; Quote;
          Star true Space; Lit ","; Star true Space;
          Quote; Group 1 (Plus NotQuote); Quote].

(** The patterns of [looksLikeJavaScript]. *)
Definition jsModulePattern : regex :=
  SeqAll [WordB; Group 1 (Alt (Str "import") (Str "export")); WordB].
Definition jsDeclPattern : regex :=
  SeqAll [WordB;
          Group 1 (Alt (Str "const")
                    (Alt (Str "let") (Alt (Str "var") (Str "function"))));
          WordB].
Definition jsFetchPattern : regex :=
  SeqAll [WordB; Str "fetch"; Star true Space; Lit "("].
Definition jsXhrPattern : regex :=
  SeqAll [WordB; Str "XMLHttpRequest"; WordB].
Definition jsImportScriptsPattern : regex :=
  SeqAll [WordB; Str "importScripts"; Star true Space; Lit "("].

(** The matches a [while (... exec ...)] loop visits.  Every pattern
    above reads at least one character per match, so the loop ends
    ([scan_total] below) and the default is never taken. *)
Definition scan (ic : bool) (r : regex) (s : string)
    : list (list (nat * string)) :=
  match matchAll ic r s with Some ms => ms | None => [] end.

End Patterns.

(** [const url = match[2].trim(); if (url.length > 0) out.push(url);] *)
Definition pushTrimmed (out : list string) (m : list (nat * string))
    : list string :=
  let u := Js.trim (Regex.group 2 m) in
  if Nat.ltb 0 (String.length u) then out ++ [u] else out.

Definition extractCssDependencies (cssText : string) : CssDependencies :=
  let urls :=
    fold_left pushTrimmed (Patterns.scan true Patterns.cssUrlPattern cssText) [] in
  let imports :=
    fold_left pushTrimmed
      (Patterns.scan true Patterns.cssImportPattern cssText) [] in
  {| css_imports := imports; css_urls := urls |}.

(** A JavaScript [Set<string>] keeps its elements in insertion order;
    [add] of a member changes nothing. *)
Definition set_has (s : list string) (x : string) : bool :=
  bool_decide (x ∈ s).

Definition set_add (s : list string) (x : string) : list string :=
  if set_has s x then s else s ++ [x].

(** [set.add(match[1])] *)
Definition addCapture (s : list string) (m : list (nat * string))
    : list string :=
  set_add s (Regex.group 1 m).

Definition extractJsDependencies (jsText : string) : JsDependencies :=
  let imports :=
    fold_left addCapture (Patterns.scan false Patterns.importPattern jsText) [] in
  let imports :=
    fold_left addCapture
      (Patterns.scan false Patterns.dynamicImportPattern jsText) imports in
  let importScripts :=
    fold_left addCapture
      (Patterns.scan false Patterns.importScriptsPattern jsText) [] in
  let fetches :=
    fold_left addCapture (Patterns.scan false Patterns.fetchPattern jsText) [] in
  let xhrs :=
    fold_left addCapture (Patterns.scan false Patterns.xhrPattern jsText) [] in
  {| js_imports := imports; js_importScripts := importScripts;
     js_fetches := fetches; js_xhrs := xhrs |}.

(** Splits at commas, trims each candidate, keeps its first
    white-space-separated token and drops the empty ones. *)
Definition parseSrcsetUrls (value : string) : list string :=
  List.filter Js.truthy
    (map (fun candidate => Js.firstToken (Js.trim candidate))
       (Js.split "," value)).

(* ===================================================================== *)
(** ** Resource-kind inference *)
(* ===================================================================== *)

Definition inferResourceKindFromUrl (url : string) : option ResourceKind :=
  let cleanUrl := List.hd "" (Js.split "#" (List.hd "" (Js.split "?" url))) in
  let extension := Js.toLowerCase (List.last (Js.split "." cleanUrl) "") in
  if negb (Js.truthy extension) then None
  else if String.eqb extension "html" || String.eqb extension "htm" then Some html
  else if String.eqb extension "css" then Some css
  else if String.eqb extension "js" || String.eqb extension "mjs"
          || String.eqb extension "cjs" then Some js
  else None.

Definition looksLikeJavaScript (text : string) : bool :=
  Regex.test false Patterns.jsModulePattern text
  || Regex.test false Patterns.jsDeclPattern text
  || Regex.test false Patterns.jsFetchPattern text
  || Regex.test false Patterns.jsXhrPattern text
  || Regex.test false Patterns.jsImportScriptsPattern text.

Definition detectResourceKind (url : string) (contentType : option string)
    (text : string) : option ResourceKind :=
  let normalized :=
    match contentType with Some c => Js.toLowerCase c | None => "" end in
  if Js.includes normalized "text/html" then Some html
  else if Js.includes normalized "text/css" then Some css
  else if Js.includes normalized "javascript" then Some js
  else
    match inferResourceKindFromUrl url with
    | Some inferred => Some inferred
    | None =>
        let trimmed := Js.trimStart text in
        if Js.startsWith trimmed "<!doctype" || Js.startsWith trimmed "<html"
        then Some html
        else if Js.startsWith trimmed "<" then Some html
        else if Js.startsWith trimmed "@" || Js.includes trimmed "url("
        then Some css
        else if looksLikeJavaScript trimmed then Some js
        else None
    end.

Definition detectInputKind (input : string) : ResourceKind :=
  let trimmed := Js.trimStart input in
  if Js.startsWith trimmed "<" then html
  else if Js.startsWith trimmed "@" || Js.includes trimmed "url(" then css
  else js.

Definition shouldInterceptLinkRel (rel : string) : bool :=
  let normalized := Js.toLowerCase rel in
  Js.includes normalized "preload"
  || Js.includes normalized "prefetch"
  || Js.includes normalized "stylesheet"
  || Js.includes normalized "icon".

Definition isSkippableUrl (url : string) : bool :=
  let lowered := Js.toLowerCase url in
  Js.startsWith lowered "data:"
  || Js.startsWith lowered "javascript:"
  || Js.startsWith lowered "about:".

(* ===================================================================== *)
(** ** The collaborators *)
(* ===================================================================== *)

(** An element of the tree the rendering environment built, as far as the
    harvest reads it. *)
Record Element := {
  tagName : string;
  isHTMLElement : bool;      (* [instanceof dom.window.HTML...Element] *)
  attributes : list (string * string);
  srcProp : string;          (* the reflected [src] property *)
  hrefProp : string;         (* the reflected [href] property *)
  textContent : string
}.

(** One call of the interception callback: [(url, options)]. *)
Record Interception := {
  i_url : string;
  i_referrer : option string;
  i_source : option RequestSource;
  i_element : option Element
}.

(** What [createJSDOMWithInterceptor] delivers synchronously: the requests
    intercepted while the document was parsed and its scripts ran, the
    elements of the document in tree order, and its title. *)
Record Rendering := {
  intercepted : list Interception;
  elements : list Element;
  title : string
}.

(** What [await fetch(url)] leads to: a rejection (or a synchronous
    throw), or a response.  [body = None] stands for a response whose
    [text()] or header access throws. *)
Inductive FetchOutcome :=
| FetchRejects
| FetchResponse (ok : bool) (body : option string) (header : option string).

Record Env := {
  (** [new URL(url, base).toString()]; [None] when the constructor throws *)
  URL_parse : option string -> string -> option string;
  (** [typeof fetch === "function"] *)
  fetch_available : bool;
  (** the outcome of the n-th invocation of the global [fetch] *)
  fetch : nat -> string -> FetchOutcome;
  (** the rendering environment; [None] when it throws *)
  render : string -> option string -> option Rendering;
  (** the interception callbacks that fire while the run is suspended for
      the n-th time (at a settle wait or while a retrieval is awaited) *)
  callbacks : nat -> list Interception;
  (** the n-th reading of [Date.now()] *)
  now : nat -> Z
}.

Definition with_clock (E : Env) (clock : nat -> Z) : Env :=
  {| URL_parse := URL_parse E; fetch_available := fetch_available E;
     fetch := fetch E; render := render E; callbacks := callbacks E;
     now := clock |}.

(* ===================================================================== *)
(** ** URL resolution *)
(* ===================================================================== *)

Definition truthyOpt (o : option string) : bool :=
  match o with Some s => Js.truthy s | None => false end.

Definition resolveUrl (E : Env) (baseUrl : option string) (url : string)
    : option string :=
  if negb (Js.truthy url) then None
  else if truthyOpt baseUrl then
    match URL_parse E baseUrl url with
    | Some s => Some s
    | None => Some url
    end
  else
    match URL_parse E None url with
    | Some s => Some s
    | None => Some url
    end.

(* ===================================================================== *)
(** ** The state of one discovery run *)
(* ===================================================================== *)

(** A promise made by [fetchResourceContent]: whether it has settled yet,
    and the value it resolves to.  It never rejects. *)
Record Promise := {
  settled : bool;
  value : option ResourceContent
}.

(** The closure variables of [run], and what the model observes on top of
    them: the heap of promises the cache refers to, the URLs the global
    [fetch] was invoked with, the URLs of the items the drain loop took off
    the queue, and how often the clock was read and the run suspended. *)
Record RunState := {
  requests : list RequestRecord;
  pending : list (string * option ResourceKind);
  processed : list string;            (* [Set<string>], insertion order *)
  resourceCache : gmap string nat;    (* URL to promise reference *)
  promises : list Promise;
  fetchLog : list string;
  expanded : list string;
  clockReads : nat;
  suspensions : nat
}.

Definition initialState : RunState :=
  {| requests := []; pending := []; processed := []; resourceCache := ∅;
     promises := []; fetchLog := []; expanded := []; clockReads := 0;
     suspensions := 0 |}.

Definition set_requests (f : list RequestRecord -> list RequestRecord)
    (n : nat) (st : RunState) : RunState :=
  {| requests := f (requests st); pending := pending st;
     processed := processed st; resourceCache := resourceCache st;
     promises := promises st; fetchLog := fetchLog st;
     expanded := expanded st; clockReads := n;
     suspensions := suspensions st |}.

Definition set_queue (q : list (string * option ResourceKind))
    (p : list string) (x : list string) (st : RunState) : RunState :=
  {| requests := requests st; pending := q; processed := p;
     resourceCache := resourceCache st; promises := promises st;
     fetchLog := fetchLog st; expanded := x; clockReads := clockReads st;
     suspensions := suspensions st |}.

Definition set_cache (c : gmap string nat) (ps : list Promise)
    (l : list string) (st : RunState) : RunState :=
  {| requests := requests st; pending := pending st;
     processed := processed st; resourceCache := c; promises := ps;
     fetchLog := l; expanded := expanded st; clockReads := clockReads st;
     suspensions := suspensions st |}.

Definition set_suspensions (n : nat) (st : RunState) : RunState :=
  {| requests := requests st; pending := pending st;
     processed := processed st; resourceCache := resourceCache st;
     promises := promises st; fetchLog := fetchLog st;
     expanded := expanded st; clockReads := clockReads st;
     suspensions := n |}.

(** How a part of the run ends: normally, with the rendering environment's
    exception, or (in the model only) with the iteration budget used up. *)
Inductive Outcome (A : Type) :=
| Done (a : A)
| EnvFailure
| OutOfFuel.
Arguments Done {A} a.
Arguments EnvFailure {A}.
Arguments OutOfFuel {A}.

Record LighterceptorResult := {
  res_title : option string;
  res_capturedAt : Z;
  res_requests : list RequestRecord
}.

(** The value and the continuation of [if (!resolved) continue/return]. *)
Definition whenResolved (o : option string)
    (f : string -> RunState -> RunState) (st : RunState) : RunState :=
  match o with
  | Some resolved => if Js.truthy resolved then f resolved st else st
  | None => st
  end.

Definition getAttribute (el : Element) (name : string) : option string :=
  snd <$> List.find (fun kv => String.eqb (fst kv) name) (attributes el).

Definition hasAttribute (el : Element) (name : string) : bool :=
  match getAttribute el name with Some _ => true | None => false end.

(** Type selectors match the lower-cased tag name. *)
Definition hasTag (el : Element) (tag : string) : bool :=
  String.eqb (Js.toLowerCase (tagName el)) tag.

Definition resourceOf (o : FetchOutcome) : option ResourceContent :=
  match o with
  | FetchRejects => None
  | FetchResponse false _ _ => None
  | FetchResponse true None _ => None
  | FetchResponse true (Some t) h => Some {| text := t; contentType := h |}
  end.

Definition inferKindFromElement (element : option Element)
    : option ResourceKind :=
  match element with
  | None => None
  | Some el =>
      let tag := Js.toLowerCase (tagName el) in
      if String.eqb tag "script" then Some js
      else if String.eqb tag "iframe" then Some html
      else if String.eqb tag "link" then
        let rel :=
          Js.toLowerCase (default "" (getAttribute el "rel")) in
        let asValue :=
          Js.toLowerCase (default "" (getAttribute el "as")) in
        if Js.includes rel "stylesheet" then Some css
        else if Js.includes rel "preload" || Js.includes rel "prefetch" then
          if String.eqb asValue "style" then Some css
          else if String.eqb asValue "script" then Some js
          else None
        else None
      else None
  end.

(** [list.forEach(f)] and [for (const x of list) f(x)] on the run state. *)
Definition forEach {A} (l : list A) (f : A -> RunState -> RunState)
    (st : RunState) : RunState :=
  fold_left (fun st x => f x st) l st.

(* ===================================================================== *)
(** ** The closures of [run] *)
(* ===================================================================== *)

Section Run.

Variable E : Env.
Variable recursive : bool.

Definition recordUrl (u : string) (src : RequestSource)
    (baseUrl : option string) (st : RunState) : RunState :=
  whenResolved (resolveUrl E baseUrl u)
    (fun resolved st =>
       set_requests
         (fun rs => rs ++ [{| url := resolved; source := src;
                              timestamp := now E (clockReads st) |}])
         (S (clockReads st)) st)
    st.

Definition enqueue (u : string) (kind : option ResourceKind)
    (st : RunState) : RunState :=
  if negb recursive || isSkippableUrl u then st
  else if set_has (processed st) u then st
  else set_queue (pending st ++ [(u, kind)]) (set_add (processed st) u)
         (expanded st) st.

Definition recordCssUrls (cssText : string) (baseUrl : option string)
    (st : RunState) : RunState :=
  let deps := extractCssDependencies cssText in
  let st :=
    forEach (css_imports deps) (fun u st =>
      whenResolved (resolveUrl E baseUrl u) (fun resolved st =>
        enqueue resolved (Some css) (recordUrl resolved SrcCss None st)) st)
      st in
  forEach (css_urls deps) (fun u st =>
    whenResolved (resolveUrl E baseUrl u) (fun resolved st =>
      recordUrl resolved SrcCss None st) st)
    st.

Definition analyzeJs (jsText : string) (baseUrl : option string)
    (st : RunState) : RunState :=
  let deps := extractJsDependencies jsText in
  let st :=
    forEach (js_imports deps) (fun u st =>
      whenResolved (resolveUrl E baseUrl u) (fun resolved st =>
        enqueue resolved
          (Some (default js (inferResourceKindFromUrl resolved)))
          (recordUrl resolved SrcResource None st)) st)
      st in
  let st :=
    forEach (js_importScripts deps) (fun u st =>
      whenResolved (resolveUrl E baseUrl u) (fun resolved st =>
        enqueue resolved (Some js)
          (recordUrl resolved SrcResource None st)) st)
      st in
  let st :=
    forEach (js_fetches deps) (fun u st =>
      whenResolved (resolveUrl E baseUrl u) (fun resolved st =>
        enqueue resolved (inferResourceKindFromUrl resolved)
          (recordUrl resolved SrcFetch None st)) st)
      st in
  forEach (js_xhrs deps) (fun u st =>
    whenResolved (resolveUrl E baseUrl u) (fun resolved st =>
      enqueue resolved (inferResourceKindFromUrl resolved)
        (recordUrl resolved SrcXhr None st)) st)
    st.

(** The [interceptor] callback handed to the rendering environment. *)
Definition interceptor (i : Interception) (st : RunState) : RunState :=
  whenResolved (resolveUrl E (i_referrer i) (i_url i))
    (fun resolved st =>
       let src := default SrcUnknown (i_source i) in
       let st := recordUrl resolved src None st in
       if recursive then
         match src with
         | SrcFetch | SrcXhr =>
             enqueue resolved (inferResourceKindFromUrl resolved) st
         | SrcResource =>
             match inferKindFromElement (i_element i) with
             | Some kind => enqueue resolved (Some kind) st
             | None => st
             end
         | _ => st
         end
       else st)
    st.

(** The run is suspended (a settle wait, an awaited retrieval): the
    callbacks the environment has for this suspension run. *)
Definition suspend (st : RunState) : RunState :=
  forEach (callbacks E (suspensions st)) interceptor
    (set_suspensions (S (suspensions st)) st).

(** The body of [document.querySelectorAll("link[rel]").forEach]. *)
Definition harvestLink (baseUrl : option string) (link : Element)
    (st : RunState) : RunState :=
  if negb (isHTMLElement link) then st
  else
    let rel := default "" (getAttribute link "rel") in
    let st :=
      if shouldInterceptLinkRel rel then
        let href := default (hrefProp link) (getAttribute link "href") in
        if Js.truthy href then
          let resolvedHref := default href (resolveUrl E baseUrl href) in
          let st := recordUrl resolvedHref SrcResource None st in
          if Js.includes (Js.toLowerCase rel) "stylesheet" then
            enqueue resolvedHref (Some css) st
          else if Js.includes (Js.toLowerCase rel) "preload" then
            match inferResourceKindFromUrl resolvedHref with
            | Some kind => enqueue resolvedHref (Some kind) st
            | None => st
            end
          else st
        else st
      else st in
    if Js.includes (Js.toLowerCase rel) "preload" then
      match getAttribute link "imagesrcset" with
      | Some imagesrcset =>
          if Js.truthy imagesrcset then
            forEach (parseSrcsetUrls imagesrcset) (fun u st =>
              recordUrl u SrcResource baseUrl st) st
          else st
      | None => st
      end
    else st.

(** [recordUrl(attr, "resource", baseUrl)] for a non-empty attribute. *)
Definition recordAttribute (name : string) (baseUrl : option string)
    (el : Element) (st : RunState) : RunState :=
  match getAttribute el name with
  | Some v => if Js.truthy v then recordUrl v SrcResource baseUrl st else st
  | None => st
  end.

Definition recordSrcset (src : RequestSource) (baseUrl : option string)
    (el : Element) (st : RunState) : RunState :=
  match getAttribute el "srcset" with
  | Some srcset =>
      if Js.truthy srcset then
        forEach (parseSrcsetUrls srcset) (fun u st =>
          recordUrl u src baseUrl st) st
      else st
  | None => st
  end.

Definition select (els : list Element) (p : Element -> bool)
    : list Element := List.filter p els.

(** The harvest of the element tree, one [querySelectorAll] after the
    other, in the order of the source. *)
Definition harvest (els : list Element) (baseUrl : option string)
    (st : RunState) : RunState :=
  let st :=
    forEach (select els (fun el => hasTag el "img")) (fun img st =>
      if isHTMLElement img && Js.truthy (srcProp img)
      then recordUrl (srcProp img) SrcImg None st else st) st in
  let st :=
    forEach (select els (fun el => hasTag el "img" && hasAttribute el "srcset"))
      (fun img st =>
         if negb (isHTMLElement img) then st
         else recordSrcset SrcImg baseUrl img st) st in
  let st :=
    forEach (select els (fun el => hasTag el "source" && hasAttribute el "src"))
      (recordAttribute "src" baseUrl) st in
  let st :=
    forEach
      (select els (fun el => hasTag el "source" && hasAttribute el "srcset"))
      (recordSrcset SrcResource baseUrl) st in
  let st :=
    forEach (select els (fun el => hasTag el "script" && hasAttribute el "src"))
      (fun script st =>
         if isHTMLElement script && Js.truthy (srcProp script)
         then enqueue (srcProp script) (Some js)
                (recordUrl (srcProp script) SrcResource None st)
         else st) st in
  let st :=
    forEach (select els (fun el => hasTag el "iframe" && hasAttribute el "src"))
      (fun iframe st =>
         if isHTMLElement iframe && Js.truthy (srcProp iframe)
         then enqueue (srcProp iframe) (Some html)
                (recordUrl (srcProp iframe) SrcResource None st)
         else st) st in
  let st :=
    forEach
      (select els (fun el =>
         (hasTag el "video" || hasTag el "audio") && hasAttribute el "src"))
      (recordAttribute "src" baseUrl) st in
  let st :=
    forEach
      (select els (fun el => hasTag el "video" && hasAttribute el "poster"))
      (recordAttribute "poster" baseUrl) st in
  let st :=
    forEach (select els (fun el => hasTag el "track" && hasAttribute el "src"))
      (recordAttribute "src" baseUrl) st in
  let st :=
    forEach (select els (fun el => hasTag el "embed" && hasAttribute el "src"))
      (recordAttribute "src" baseUrl) st in
  let st :=
    forEach (select els (fun el => hasTag el "object" && hasAttribute el "data"))
      (recordAttribute "data" baseUrl) st in
  let st :=
    forEach (select els (fun el => hasAttribute el "style")) (fun el st =>
      match getAttribute el "style" with
      | Some cssText =>
          if Js.truthy cssText then recordCssUrls cssText baseUrl st else st
      | None => st
      end) st in
  let st :=
    forEach (select els (fun el => hasTag el "style")) (fun style st =>
      if Js.truthy (textContent style)
      then recordCssUrls (textContent style) baseUrl st else st) st in
  forEach (select els (fun el => hasTag el "link" && hasAttribute el "rel"))
    (harvestLink baseUrl) st.

Definition analyzeHtml (htmlText : string) (baseUrl : option string)
    (captureTitle : bool) (st : RunState)
    : Outcome (option string * RunState) :=
  match render E htmlText baseUrl with
  | None => EnvFailure
  | Some dom =>
      let st := forEach (intercepted dom) interceptor st in
      let st := harvest (elements dom) baseUrl st in
      (* await new Promise(resolve => setTimeout(resolve, settleTimeMs)) *)
      let st := suspend st in
      Done (if captureTitle && Js.truthy (title dom)
            then Some (title dom) else None, st)
  end.

Definition fetchResourceContent (u : string) (st : RunState)
    : nat * RunState :=
  let loader := length (promises st) in
  if negb (fetch_available E) then
    (loader,
     set_cache (resourceCache st)
       (promises st ++ [{| settled := true; value := None |}])
       (fetchLog st) st)
  else
    let outcome := fetch E (length (fetchLog st)) u in
    (loader,
     set_cache (resourceCache st)
       (promises st ++ [{| settled := false; value := resourceOf outcome |}])
       (fetchLog st ++ [u]) st).

(** The promise [loadResource] hands on: the cached one, or the new one it
    has just put into the cache.  (Being [async], the function wraps it in
    a promise of its own that takes over its outcome; a caller that awaits
    the result cannot tell the two apart, and the model returns the promise
    of the [return] statement.) *)
Definition loadResource (u : string) (st : RunState) : nat * RunState :=
  match resourceCache st !! u with
  | Some existing => (existing, st)
  | None =>
      let '(loader, st1) := fetchResourceContent u st in
      (loader,
       set_cache (<[u := loader]> (resourceCache st1)) (promises st1)
         (fetchLog st1) st1)
  end.

(** [await promise]: the promise settles, the callbacks that were waiting
    run, and the awaiting code resumes with the promise's value. *)
Definition settle (p : nat) (st : RunState) : RunState :=
  set_cache (resourceCache st)
    (alter (fun pr => {| settled := true; value := value pr |}) p
       (promises st))
    (fetchLog st) st.

Definition awaitPromise (p : nat) (st : RunState)
    : option ResourceContent * RunState :=
  (match promises st !! p with Some pr => value pr | None => None end,
   suspend (settle p st)).

(** One turn of the [while (pending.length > 0)] loop. *)
Definition iteration (st : RunState) : Outcome RunState :=
  match pending st with
  | [] => Done st
  | next :: rest =>
      let st :=
        set_queue rest (processed st) (expanded st ++ [fst next]) st in
      let '(loader, st) := loadResource (fst next) st in
      let '(result, st) := awaitPromise loader st in
      match result with
      | None => Done st
      | Some result =>
          let kind :=
            match snd next with
            | Some k => Some k
            | None =>
                detectResourceKind (fst next) (contentType result)
                  (text result)
            end in
          match kind with
          | None => Done st
          | Some html =>
              match analyzeHtml (text result) (Some (fst next)) false st with
              | Done (_, st) => Done st
              | EnvFailure => EnvFailure
              | OutOfFuel => OutOfFuel
              end
          | Some css => Done (recordCssUrls (text result) (Some (fst next)) st)
          | Some js => Done (analyzeJs (text result) (Some (fst next)) st)
          end
      end
  end.

Fixpoint processPending (fuel : nat) (st : RunState) : Outcome RunState :=
  match pending st with
  | [] => Done st
  | _ :: _ =>
      match fuel with
      | O => OutOfFuel
      | S fuel' =>
          match iteration st with
          | Done st' => processPending fuel' st'
          | EnvFailure => EnvFailure
          | OutOfFuel => OutOfFuel
          end
      end
  end.

(** The first analysis pass of [run], by the kind of the input. *)
Definition analyzeInput (input : string) (st : RunState)
    : Outcome (option string * RunState) :=
  match detectInputKind input with
  | html => analyzeHtml input None true st
  | css => Done (None, recordCssUrls input None st)
  | js => Done (None, analyzeJs input None st)
  end.

End Run.

(** [new Lighterceptor(input, options).run()], with the budget [fuel] of
    drain-loop turns: first the state the run ends in, then the result it
    returns.  [capturedAt] takes the first reading of the clock. *)
Definition startState : RunState := set_requests (fun rs => rs) 1 initialState.

Definition runState (E : Env) (input : string) (options : LighterceptorOptions)
    (fuel : nat) : Outcome (option string * RunState) :=
  let recursive := default false (recursion options) in
  match analyzeInput E recursive input startState with
  | Done (t, st) =>
      match processPending E recursive fuel st with
      | Done st' => Done (t, st')
      | EnvFailure => EnvFailure
      | OutOfFuel => OutOfFuel
      end
  | EnvFailure => EnvFailure
  | OutOfFuel => OutOfFuel
  end.

Definition run (E : Env) (input : string) (options : LighterceptorOptions)
    (fuel : nat) : Outcome LighterceptorResult :=
  match runState E input options fuel with
  | Done (t, st) =>
      Done {| res_title := t; res_capturedAt := now E 0;
              res_requests := requests st |}
  | EnvFailure => EnvFailure
  | OutOfFuel => OutOfFuel
  end.

(* ===================================================================== *)
(** ** Reference descriptions used by the statements below *)
(* ===================================================================== *)

(** The elements of [l] without repeats, each at the place of its first
    occurrence. *)
Fixpoint firstOccurrences (l : list string) : list string :=
  match l with
  | [] => []
  | x :: l' => x :: filter (fun y => y <> x) (firstOccurrences l')
  end.

(** The text a match of a CSS pattern contributes: its second group,
    trimmed. *)
Definition cssCapture (m : list (nat * string)) : string :=
  Js.trim (Regex.group 2 m).

(** A string that is empty or consists of white space only. *)
Fixpoint isBlank (s : string) : bool :=
  match s with
  | EmptyString => true
  | String c s' => Js.isSpace c && isBlank s'
  end.

(** The characters an [@import] target is made of: the class [[^Q)\s]] of
    [cssImportPattern]. *)
Definition targetChar (c : ascii) : bool :=
  Regex.class_matches true true
    [Regex.CChar Patterns.squote; Regex.CChar Patterns.dquote;
     Regex.CChar ")"; Regex.CSpace] c.

Fixpoint allChars (p : ascii -> bool) (s : string) : bool :=
  match s with
  | EmptyString => true
  | String c s' => p c && allChars p s'
  end.

(** A non-empty reference without quotes, closing parentheses or white
    space. *)
Definition isTarget (t : string) : bool :=
  Js.truthy t && allChars targetChar t.


(** The rules of the resource-kind classifier as the specification lists
    them, each answering with a kind or with no opinion, and their
    first-match-wins composition. *)
Definition ruleContentType (contentType : option string)
    : option ResourceKind :=
  let normalized :=
    match contentType with Some c => Js.toLowerCase c | None => "" end in
  if Js.includes normalized "text/html" then Some html
  else if Js.includes normalized "text/css" then Some css
  else if Js.includes normalized "javascript" then Some js
  else None.

Definition ruleBody (text : string) : option ResourceKind :=
  let body := Js.trimStart text in
  if Js.startsWith body "<!doctype" || Js.startsWith body "<" then Some html
  else if Js.startsWith body "@" || Js.includes body "url(" then Some css
  else if looksLikeJavaScript body then Some js
  else None.

Fixpoint firstMatch (rules : list (option ResourceKind))
    : option ResourceKind :=
  match rules with
  | [] => None
  | Some k :: _ => Some k
  | None :: rules' => firstMatch rules'
  end.

(** The kind the extension [ext] stands for. *)
Definition kindOfExtension (ext : string) : option ResourceKind :=
  if String.eqb ext "html" || String.eqb ext "htm" then Some html
  else if String.eqb ext "css" then Some css
  else if String.eqb ext "js" || String.eqb ext "mjs" || String.eqb ext "cjs"
  then Some js
  else None.

(** [c] does not occur in [s]. *)
Definition lacks (c : ascii) (s : string) : bool :=
  allChars (fun a => negb (Ascii.eqb a c)) s.

(** What may follow the path of a URL: nothing, a query or a fragment. *)
Definition isUrlSuffix (s : string) : bool :=
  match s with
  | EmptyString => true
  | String c _ => Ascii.eqb c "?" || Ascii.eqb c "#"
  end.

(** The URL parser never serialises a URL to the empty string. *)
Definition nonEmptyURLs (E : Env) : Prop :=
  forall base u s, URL_parse E base u = Some s -> s <> "".


(** The discovery queue is consistent: no URL was enqueued twice, and the
    URLs enqueued so far are, in the order of their enqueueing, the ones the
    drain loop has taken followed by the ones still waiting. *)
Definition queueInv (st : RunState) : Prop :=
  NoDup (processed st)
  /\ processed st = expanded st ++ map fst (pending st).

(** No URL was fetched twice, and every fetched URL has its cache entry. *)
Definition cacheInv (st : RunState) : Prop :=
  NoDup (fetchLog st)
  /\ forall u, u ∈ fetchLog st -> is_Some (resourceCache st !! u).

(** [st'] comes from [st] by discovery only: records were appended to the
    log and URLs enqueued; the cache and the loop's position are as they
    were. *)
Definition discovers (st st' : RunState) : Prop :=
  requests st `prefix_of` requests st'
  /\ resourceCache st' = resourceCache st
  /\ promises st' = promises st
  /\ fetchLog st' = fetchLog st
  /\ expanded st' = expanded st
  /\ (queueInv st -> queueInv st').

(** The states a run passes through between the turns of its drain loop. *)
Inductive reachable (E : Env) (recursive : bool) (input : string)
    : RunState -> Prop :=
| reach_first t st :
    analyzeInput E recursive input startState = Done (t, st) ->
    reachable E recursive input st
| reach_turn st st' :
    reachable E recursive input st ->
    iteration E recursive st = Done st' ->
    reachable E recursive input st'.

(** Calls on the resource cache in an arbitrary order: loads, and promises
    settling in between. *)
Inductive CacheCall :=
| CallLoad (u : string)
| CallSettle (p : nat).

Definition cacheCall (E : Env) (st : RunState) (c : CacheCall) : RunState :=
  match c with
  | CallLoad u => snd (loadResource E u st)
  | CallSettle p => settle p st
  end.

Definition cacheCalls (E : Env) (cs : list CacheCall) (st : RunState)
    : RunState :=
  fold_left (cacheCall E) cs st.

(** A record without its time stamp. *)
Definition untimedRecord (r : RequestRecord) : string * RequestSource :=
  (url r, source r).


(** [st'] has the queue and the set of processed URLs of [st]. *)
Definition unqueued (st st' : RunState) : Prop :=
  pending st' = pending st /\ processed st' = processed st.


(** Two states that differ at most in the time stamps of their records. *)
Definition sameButTime (st1 st2 : RunState) : Prop :=
  map untimedRecord (requests st1) = map untimedRecord (requests st2)
  /\ pending st1 = pending st2
  /\ processed st1 = processed st2
  /\ resourceCache st1 = resourceCache st2
  /\ promises st1 = promises st2
  /\ fetchLog st1 = fetchLog st2
  /\ expanded st1 = expanded st2
  /\ clockReads st1 = clockReads st2
  /\ suspensions st1 = suspensions st2.

Definition sameAnalysis (a1 a2 : option string * RunState) : Prop :=
  fst a1 = fst a2 /\ sameButTime (snd a1) (snd a2).

Definition sameOutcome {A} (same : A -> A -> Prop) (o1 o2 : Outcome A) : Prop :=
  match o1, o2 with
  | Done a1, Done a2 => same a1 a2
  | EnvFailure, EnvFailure => True
  | OutOfFuel, OutOfFuel => True
  | _, _ => False
  end.

(** What a run returns, without [capturedAt] and the time stamps. *)
Definition untimedResult (o : Outcome LighterceptorResult)
    : Outcome (option string * list (string * RequestSource)) :=
  match o with
  | Done r => Done (res_title r, map untimedRecord (res_requests r))
  | EnvFailure => EnvFailure
  | OutOfFuel => OutOfFuel
  end.





(** An item waits in the queue without a kind hint only if the extension
    of its URL says nothing about its kind. *)
Definition hintsAgree (st : RunState) : Prop :=
  forall u, (u, None) ∈ pending st -> inferResourceKindFromUrl u = None.


(* ===================================================================== *)
(** ** A small concrete environment

    Two style sheets that import each other, a toy URL parser (absolute
    URLs are kept, anything else is appended to an absolute base) and a
    document with one icon link: the inputs the examples below run on. *)
(* ===================================================================== *)

Module Demo.

Definition isAbsolute (u : string) : bool :=
  Js.startsWith u "http://" || Js.startsWith u "https://"
  || Js.startsWith u "data:".

Definition parse (base : option string) (u : string) : option string :=
  if isAbsolute u then Some u
  else match base with
       | Some b => if isAbsolute b then Some (b +:+ "/" +:+ u) else None
       | None => None
       end.

Definition aCss : string := "https://e.com/a.css".
Definition bCss : string := "https://e.com/b.css".
Definition blob : string := "https://e.com/blob".

(** A state whose queue holds one item without a kind hint. *)
Definition blobQueued : RunState :=
  set_queue [(blob, None)] [blob] [] startState.

Definition fetchStub (n : nat) (u : string) : FetchOutcome :=
  if String.eqb u aCss then
    FetchResponse true
      (Some "@import 'https://e.com/b.css'; .x { background: url(https://e.com/p.png) }")
      (Some "text/css")
  else if String.eqb u bCss then
    FetchResponse true (Some "@import 'https://e.com/a.css';") None
  else if String.eqb u blob then
    FetchResponse true (Some "hello world") None
  else FetchRejects.

Definition iconLink : Element :=
  {| tagName := "LINK"; isHTMLElement := true;
     attributes := [("rel", "shortcut icon"); ("href", "/favicon.ico")];
     srcProp := ""; hrefProp := "https://e.com/favicon.ico";
     textContent := "" |}.

(** A link that is an icon and a style sheet at once. *)
Definition styledIcon : Element :=
  {| tagName := "LINK"; isHTMLElement := true;
     attributes := [("rel", "icon stylesheet");
                    ("href", "https://e.com/i.css")];
     srcProp := ""; hrefProp := "https://e.com/i.css";
     textContent := "" |}.

Definition page : Rendering :=
  {| intercepted := []; elements := [iconLink]; title := "demo" |}.

Definition env : Env :=
  {| URL_parse := parse; fetch_available := true; fetch := fetchStub;
     render := fun _ _ => Some page; callbacks := fun _ => [];
     now := fun n => Z.of_nat n |}.

Definition options (r : bool) : LighterceptorOptions :=
  {| settleTimeMs := None; recursion := Some r |}.

Definition cssInput : string := "@import 'https://e.com/a.css';".

(** The states the run on [cssInput] passes through: after the first pass
    and after each of the two turns of the drain loop. *)
Definition afterInput : RunState :=
  Eval vm_compute in
    match analyzeInput env true cssInput startState with
    | Done (_, st) => st
    | _ => startState
    end.

Definition afterTurn (st : RunState) : RunState :=
  match iteration env true st with Done st' => st' | _ => st end.

Definition afterFirstTurn : RunState := Eval vm_compute in afterTurn afterInput.
Definition afterSecondTurn : RunState :=
  Eval vm_compute in afterTurn afterFirstTurn.

End Demo.

(* ===================================================================== *)
(** ** The rendering environment's hooks ([dom.ts])

    [createJSDOMWithInterceptor] patches, before the document is parsed,
    the setters and methods through which a script changes an image source
    or a style; each patched member reports the URLs it sees to the
    interceptor and then does what the original did. *)
(* ===================================================================== *)

Module Dom.

(** [extractCssUrls] of [beforeParse]: the captures of the [url(...)]
    scan followed by the captures of the [@import] scan, in one array.
    (The two earlier variants of [lighterceptor.ts] have the same
    function at their top level.) *)
Definition extractCssUrls (cssText : string) : list string :=
  let urls :=
    fold_left pushTrimmed (Patterns.scan true Patterns.cssUrlPattern cssText) [] in
  fold_left pushTrimmed
    (Patterns.scan true Patterns.cssImportPattern cssText) urls.

(** The receiver [this] of a patched method or setter: the element and
    the two interfaces the hooks test it for. *)
Record Receiver := {
  element : Element;
  isImage : bool;     (* [this instanceof window.HTMLImageElement] *)
  isStyle : bool      (* [this instanceof window.HTMLStyleElement] *)
}.

Section Hooks.

(** [window.document.URL] *)
Variable documentURL : string.

(** Each hook is modelled by the calls of [options.interceptor] it makes,
    in order; what the interceptor returns is discarded
    ([void Promise.resolve(...)]). *)
Definition interceptCssText (cssText : string) : list Interception :=
  map (fun u => {| i_url := u; i_referrer := Some documentURL;
                   i_source := None; i_element := None |})
    (extractCssUrls cssText).

Definition interceptImgSrc (url : string) (el : option Receiver)
    : list Interception :=
  [{| i_url := url; i_referrer := Some documentURL; i_source := None;
      i_element :=
        match el with
        | Some r => if isImage r then Some (element r) else None
        | None => None
        end |}].

(** The setter of [HTMLImageElement.prototype.src]. *)
Definition setSrc (this : Receiver) (value : string) : list Interception :=
  interceptImgSrc value (Some this).

(** [Element.prototype.setAttribute] *)
Definition setAttribute (this : Receiver) (name value : string)
    : list Interception :=
  (if isImage this && String.eqb (Js.toLowerCase name) "src"
   then interceptImgSrc value (Some this) else [])
  ++ (if String.eqb (Js.toLowerCase name) "style"
      then interceptCssText value else []).

(** [CSSStyleDeclaration.prototype.setProperty]; [None] is a value that
    is not a string. *)
Definition setProperty (value : option string) : list Interception :=
  match value with
  | Some v => interceptCssText v
  | None => []
  end.

(** The setter of [CSSStyleDeclaration.prototype.cssText]. *)
Definition setCssText (value : string) : list Interception :=
  interceptCssText value.

(** The setter of [Node.prototype.textContent]. *)
Definition setTextContent (this : Receiver) (value : string)
    : list Interception :=
  if isStyle this then interceptCssText value else [].

End Hooks.

End Dom.

(* ===================================================================== *)
(** ** The intercepting resource loader ([resource-loader.ts]) *)
(* ===================================================================== *)

Module ResourceLoader.

(** What the call of the interceptor comes to: an exception, or a value
    (once a promise it returned has settled), or a rejection. *)
Inductive Reply :=
| Throws
| Rejects
| Nullish                (* [null] or [undefined] *)
| Text (s : string)
| Bytes (b : string)     (* a [Buffer] *)
| OtherValue.

(** How the promise [fetch] returns settles: with a buffer of its own, as
    the promise of jsdom's own loader does, or with a rejection. *)
Inductive Settlement (P : Type) :=
| Fulfils (b : string)
| Follows (p : P)
| Rejected.
Arguments Fulfils {P} b.
Arguments Follows {P} p.
Arguments Rejected {P}.

(** One call of [fetch]: the arguments the interceptor was called with,
    the promise returned ([None] when the call threw) and the variable
    [fallback] once that promise has settled. *)
Record Fetched (P : Type) := {
  call : Interception;
  promise : option (Settlement P);
  fallback : option P
}.
Arguments call {P} _.
Arguments promise {P} _.
Arguments fallback {P} _.

Section Loader.

(** The promises of jsdom's own loader. *)
Variable P : Type.
Variable interceptor : Interception -> Reply.
(** [super.fetch(url, options)]: a promise, or [null]. *)
Variable superFetch : Interception -> option P.

Definition fetch (request : Interception) : Fetched P :=
  let call :=
    {| i_url := i_url request; i_referrer := i_referrer request;
       i_source := Some SrcResource; i_element := i_element request |} in
  match interceptor call with
  | Throws => {| call := call; promise := None; fallback := None |}
  | Rejects => {| call := call; promise := Some Rejected; fallback := None |}
  | Nullish =>
      let fallback := superFetch request in
      {| call := call;
         promise := Some (match fallback with
                          | Some p => Follows p
                          | None => Fulfils ""
                          end);
         fallback := fallback |}
  | Text s => {| call := call; promise := Some (Fulfils s); fallback := None |}
  | Bytes b => {| call := call; promise := Some (Fulfils b); fallback := None |}
  | OtherValue =>
      {| call := call; promise := Some (Fulfils ""); fallback := None |}
  end.

(** [abortable.abort()], called after the promise has settled: the
    promises it aborts. *)
Definition abort (f : Fetched P) : list P :=
  match fallback f with
  | Some p => [p]
  | None => []
  end.

End Loader.

End ResourceLoader.

(** What the interceptor of [analyzeHtml] returns: the empty buffer, on
    both of its paths. *)
Definition interceptorReply (i : Interception) : ResourceLoader.Reply :=
  ResourceLoader.Bytes "".

(* ===================================================================== *)
(** ** Further descriptions used by the statements below *)
(* ===================================================================== *)

(** The characters of a URL in a [srcset]: no white space, no comma. *)
Definition srcsetChar (c : ascii) : bool :=
  negb (Js.isSpace c) && negb (Ascii.eqb c ",").

(** A non-empty text without white space and commas. *)
Definition isUrlToken (u : string) : bool :=
  Js.truthy u && allChars srcsetChar u.

(** What may follow the URL of a [srcset] candidate: nothing, or white
    space and a descriptor without a comma. *)
Definition isDescriptor (d : string) : bool :=
  match d with
  | EmptyString => true
  | String c _ => Js.isSpace c && lacks "," d
  end.

(** [u] occurs in [s] as a contiguous piece. *)
Definition occursIn (u s : string) : Prop :=
  exists before after, s = before +:+ u +:+ after.

(** A matcher state on the text [whole]: what is left to read is the end
    of the text, and every capture is a piece of the text. *)
Definition within (whole : string) (st : Regex.mstate) : Prop :=
  (exists before, whole = before +:+ Regex.rest st)
  /\ Forall (fun c => occursIn (snd c) whole) (Regex.caps st).

(** One of the two quote characters. *)
Definition isQuote (q : ascii) : bool :=
  Ascii.eqb q Patterns.squote || Ascii.eqb q Patterns.dquote.

(** The characters of a quoted reference: the class [[^Q]] of the script
    patterns. *)
Definition refChar (c : ascii) : bool :=
  Regex.class_matches false true
    [Regex.CChar Patterns.squote; Regex.CChar Patterns.dquote] c.

(** A non-empty text without quote characters. *)
Definition isReference (u : string) : bool :=
  Js.truthy u && allChars refChar u.

(** The bindings of an [import ... from] clause: a text without quote
    characters that starts with something else than white space. *)
Definition isBinding (b : string) : bool :=
  match b with
  | EmptyString => false
  | String c _ => negb (Js.isSpace c) && allChars refChar b
  end.

(** The cache has an entry for exactly the URLs the drain loop has taken,
    and [fetch] was invoked for them, in that order. *)
Definition cacheFollowsQueue (E : Env) (st : RunState) : Prop :=
  fetchLog st = (if fetch_available E then expanded st else [])
  /\ forall u, is_Some (resourceCache st !! u) <-> u ∈ expanded st.

(** The set of processed URLs only grows. *)
Definition grows (st st' : RunState) : Prop :=
  processed st ⊆ processed st'.

(** The clock was read once for [capturedAt] and once for every record,
    in the order of the log. *)
Definition stamped (E : Env) (st : RunState) : Prop :=
  clockReads st = S (length (requests st))
  /\ map timestamp (requests st) = map (now E) (seq 1 (length (requests st))).

(** [st'] has the log of [st] and, behind it, records that satisfy [P]. *)
Definition appends (P : RequestRecord -> Prop) (st st' : RunState) : Prop :=
  exists extra, requests st' = requests st ++ extra /\ Forall P extra.

Definition sourceIn (allowed : list RequestSource) (r : RequestRecord) : Prop :=
  source r ∈ allowed.

(** The log holds a record for [u]: a record whose URL is what [recordUrl]
    resolves [u] to. *)
Definition logged (E : Env) (u : string) (st : RunState) : Prop :=
  exists r, r ∈ requests st /\ resolveUrl E None u = Some (url r).

(** Every URL that was ever enqueued has its record in the log. *)
Definition queueLogged (E : Env) (st : RunState) : Prop :=
  forall u, u ∈ processed st -> logged E u st.

(** A text on one line without the character [q]: what may stand between
    two quotes [q] in a [url(...)]. *)
Definition quotedBy (q : ascii) (t : string) : bool :=
  allChars (fun c => negb (Ascii.eqb c q) && negb (Js.isLineTerminator c)) t.

(** Everything the style-sheet extractor finds in a text. *)
Definition cssReferences (cssText : string) : list string :=
  css_imports (extractCssDependencies cssText)
  ++ css_urls (extractCssDependencies cssText).

(** A character that the matcher, ignoring letter case, takes for [c]
    exactly when its lower-case form is [c]. *)
Definition foldsLike (c : ascii) : Prop :=
  forall a, Ascii.eqb (Regex.canon true a) (Regex.canon true c)
            = Ascii.eqb (Js.lowerChar a) c.

(** What the drain loop does with a body of kind [kind] that was loaded
    from [u]: the branches of [processPending] behind [if (!kind)]. *)
Definition analyzeAs (E : Env) (recursive : bool) (kind : ResourceKind)
    (body u : string) (st : RunState) : Outcome RunState :=
  match kind with
  | html =>
      match analyzeHtml E recursive body (Some u) false st with
      | Done (_, st') => Done st'
      | EnvFailure => EnvFailure
      | OutOfFuel => OutOfFuel
      end
  | css => Done (recordCssUrls E recursive body (Some u) st)
  | js => Done (analyzeJs E recursive body (Some u) st)
  end.

(** The sources a body of kind [kind] is reported under by the analysis
    of its text. *)
Definition sourcesOf (kind : ResourceKind) : list RequestSource :=
  match kind with
  | html => [SrcImg; SrcResource; SrcCss; SrcFetch; SrcXhr; SrcUnknown]
  | css => [SrcCss]
  | js => [SrcResource; SrcFetch; SrcXhr]
  end.

(** Discovery only appends to the queue. *)
Definition queueExtends (st st' : RunState) : Prop :=
  pending st `prefix_of` pending st'.

(** What a run without recursion asks of its environment besides the
    clock: the URL parser and, for a document, the rendering of the input
    and the callbacks that fire during the settle wait. *)
Definition sameReports (E1 E2 : Env) (input : string) : Prop :=
  (forall base u, URL_parse E1 base u = URL_parse E2 base u)
  /\ (detectInputKind input = html ->
      render E1 input None = render E2 input None
      /\ callbacks E1 0 = callbacks E2 0).




(** A pattern without [\b]: its matches do not depend on the character in
    front of the place where the matcher stands. *)
Fixpoint wordFree (r : Regex.regex) : bool :=
  match r with
  | Regex.WordB => false
  | Regex.Seq r1 r2 | Regex.Alt r1 r2 => wordFree r1 && wordFree r2
  | Regex.Star _ r1 | Regex.Group _ r1 => wordFree r1
  | _ => true
  end.

(** Two matcher states that differ at most in the character behind. *)
Definition alike (a b : Regex.mstate) : Prop :=
  Regex.rest a = Regex.rest b /\ Regex.caps a = Regex.caps b.

Definition alikeOpt (x y : option Regex.mstate) : Prop :=
  match x, y with
  | Some a, Some b => alike a b
  | None, None => True
  | _, _ => False
  end.

(** What one capture adds to the list of an extractor: its text without
    the white space around it, unless nothing is left. *)
Definition kept (t : string) : list string :=
  if Js.truthy (Js.trim t) then [Js.trim t] else [].

(** What may stand between [@import] and a quoted target: nothing, or
    [url(] in any letter case and white space. *)
Definition isWrapper (w : string) : Prop :=
  w = ""
  \/ exists kw ws, w = kw +:+ ws
                   /\ Js.toLowerCase kw = "url(" /\ isBlank ws = true.

(* ===================================================================== *)
(** ** A document with an image and a script

    The inputs of the examples on documents: the two elements, the
    rendering that holds them, an environment that renders every document
    that way, and one whose rendering throws. *)
(* ===================================================================== *)

Module Examples.

Definition picture : Element :=
  {| tagName := "IMG"; isHTMLElement := true;
     attributes := [("src", "https://example.com/a.png")];
     srcProp := "https://example.com/a.png"; hrefProp := "";
     textContent := "" |}.

Definition appScript : Element :=
  {| tagName := "SCRIPT"; isHTMLElement := true;
     attributes := [("src", "https://example.com/app.js")];
     srcProp := "https://example.com/app.js"; hrefProp := "";
     textContent := "" |}.

Definition gallery : Rendering :=
  {| intercepted := []; elements := [picture; appScript]; title := "" |}.

Definition env : Env :=
  {| URL_parse := Demo.parse; fetch_available := true;
     fetch := fun _ _ => FetchRejects;
     render := fun _ _ => Some gallery; callbacks := fun _ => [];
     now := fun n => Z.of_nat n |}.

Definition blind : Env :=
  {| URL_parse := Demo.parse; fetch_available := true;
     fetch := fun _ _ => FetchRejects;
     render := fun _ _ => None; callbacks := fun _ => [];
     now := fun n => Z.of_nat n |}.

Definition galleryInput : string :=
  "<img src='https://example.com/a.png'><script src='https://example.com/app.js'></script>".

(** The image as the receiver of a patched method, and a request of
    jsdom's for the script. *)
Definition pictureReceiver : Dom.Receiver :=
  {| Dom.element := picture; Dom.isImage := true; Dom.isStyle := false |}.

Definition scriptRequest : Interception :=
  {| i_url := "https://example.com/app.js"; i_referrer := None;
     i_source := None; i_element := Some appScript |}.

(** A document with a style element and an element with a [style]
    attribute, and an environment that renders every document that
    way. *)
Definition hero : Element :=
  {| tagName := "STYLE"; isHTMLElement := true; attributes := [];
     srcProp := ""; hrefProp := "";
     textContent :=
       ".hero { background-image: url('https://example.com/bg.png'); }" |}.

Definition banner : Element :=
  {| tagName := "DIV"; isHTMLElement := true;
     attributes := [("style", "background: url(https://example.com/b.png)")];
     srcProp := ""; hrefProp := ""; textContent := "" |}.

Definition styled : Rendering :=
  {| intercepted := []; elements := [hero; banner]; title := "" |}.

Definition styledEnv : Env :=
  {| URL_parse := Demo.parse; fetch_available := true;
     fetch := fun _ _ => FetchRejects;
     render := fun _ _ => Some styled; callbacks := fun _ => [];
     now := fun n => Z.of_nat n |}.

Definition styledInput : string :=
  "<style>.hero { background-image: url('https://example.com/bg.png'); }"
  +:+ "</style><div style='background: url(https://example.com/b.png)'></div>".

(** A response whose content type says script while its body starts like
    a style sheet, and an environment whose [fetch] returns it. *)
Definition mislabelled : string :=
  "@import 'https://e.com/b.css'; fetch('https://e.com/x')".

Definition typedEnv : Env :=
  {| URL_parse := Demo.parse; fetch_available := true;
     fetch := fun _ _ =>
       FetchResponse true (Some mislabelled) (Some "application/javascript");
     render := fun _ _ => None; callbacks := fun _ => [];
     now := fun n => Z.of_nat n |}.

(** A page whose script requests an image under a URL that carries the
    time of the request: what the rendering environment reports when the
    script runs at the time [stamp]. *)
Definition clockPage : string :=
  "<script>new Image().src = 'https://e.com/?t=' + Date.now()</script>".

Definition inlineScript : Element :=
  {| tagName := "SCRIPT"; isHTMLElement := true; attributes := [];
     srcProp := ""; hrefProp := "";
     textContent := "new Image().src = 'https://e.com/?t=' + Date.now()" |}.

Definition scriptedImage : Dom.Receiver :=
  {| Dom.element :=
       {| tagName := "IMG"; isHTMLElement := true; attributes := [];
          srcProp := ""; hrefProp := ""; textContent := "" |};
     Dom.isImage := true; Dom.isStyle := false |}.

Definition renderedAt (stamp : string) : Rendering :=
  {| intercepted :=
       Dom.setSrc "about:blank" scriptedImage ("https://e.com/?t=" +:+ stamp);
     elements := [inlineScript]; title := "" |}.

Definition ticking (stamp : string) : Env :=
  {| URL_parse := Demo.parse; fetch_available := true;
     fetch := fun _ _ => FetchRejects;
     render := fun _ _ => Some (renderedAt stamp); callbacks := fun _ => [];
     now := fun n => Z.of_nat n |}.





(** A style sheet with an import inside [url(...)], a quoted [url(...)]
    and a quoted import. *)
Definition sheet : string :=
  ".a{} @IMPORT url(a.css); .x { background: URL( 'b.png' ) } @import 'c.css';".

End Examples.

(* ===================================================================== *)
(** * Properties *)
(* ===================================================================== *)

(** ** The matcher reads forward *)

Section Matcher.
Import Regex.

Variable ic : bool.

Lemma eat_shorter t st st1 :
  eat ic t st = Some st1 ->
  String.length (rest st1) <= String.length (rest st).
Proof.
  revert st. induction t as [|c t IH]; intros st H; simpl in H.
  - by inversion H.
  - destruct (rest st) as [|a s'] eqn:Hr; [done|].
    destruct (Ascii.eqb _ _); [|done].
    apply IH in H. simpl in *. lia.
Qed.

(** A successful run hands its continuation a state that lies at least
    [minLen r] characters further on. *)
Lemma run_reads r : forall st k fin,
  run ic r st k = Some fin ->
  exists st', String.length (rest st') + minLen r <= String.length (rest st)
              /\ k st' = Some fin.
Proof.
  induction r as [| c | | negated items | | r1 IH1 r2 IH2 | r1 IH1 r2 IH2
                  | greedy r1 IH1 | n r1 IH1 | n]; intros st k fin H; simpl in H.
  - exists st. simpl. split; [lia|done].
  - destruct (rest st) as [|a s'] eqn:Hr; [done|].
    destruct (Ascii.eqb _ _); [|done].
    eexists. split; [|exact H]. simpl. lia.
  - destruct (rest st) as [|a s'] eqn:Hr; [done|].
    destruct (Js.isLineTerminator a); [done|].
    eexists. split; [|exact H]. simpl. lia.
  - destruct (rest st) as [|a s'] eqn:Hr; [done|].
    destruct (class_matches _ _ _ _); [|done].
    eexists. split; [|exact H]. simpl. lia.
  - destruct (xorb _ _); [|done]. exists st. simpl. split; [lia|done].
  - apply IH1 in H as (st1 & Hl1 & H). apply IH2 in H as (st2 & Hl2 & H).
    exists st2. simpl. split; [lia|done].
  - unfold orElse in H. destruct (run ic r1 st k) eqn:H1.
    + inversion H; subst. apply IH1 in H1 as (st1 & Hl & Hk).
      exists st1. simpl. split; [lia|done].
    + apply IH2 in H as (st1 & Hl & Hk).
      exists st1. simpl. split; [lia|done].
  - simpl.
    cut (forall n st0 x, iterate greedy (run ic r1) k n st0 = Some x ->
           exists st', String.length (rest st') + 0 <= String.length (rest st0)
                       /\ k st' = Some x); [by eauto|].
    clear st fin H. induction n as [|n IHn]; intros st fin H; simpl in H.
    + exists st. split; [lia|done].
    + assert (Hagain : forall x,
                run ic r1 st (fun st1 =>
                  if Nat.ltb (String.length (rest st1)) (String.length (rest st))
                  then iterate greedy (run ic r1) k n st1 else None) = Some x ->
                exists st', String.length (rest st') + 0 <= String.length (rest st)
                            /\ k st' = Some x).
      { intros x Hx. apply IH1 in Hx as (st1 & Hl & Hx).
        destruct (Nat.ltb _ _) eqn:Hlt; [|done].
        apply IHn in Hx as (st2 & Hl2 & Hx). apply Nat.ltb_lt in Hlt.
        exists st2. split; [lia|done]. }
      unfold orElse in H. destruct greedy.
      * destruct (run ic r1 st _) eqn:H1.
        -- inversion H; subst. by apply Hagain.
        -- exists st. split; [lia|done].
      * destruct (k st) eqn:Hk.
        -- inversion H; subst. exists st. split; [lia|done].
        -- by apply Hagain.
  - apply IH1 in H as (st1 & Hl & H). eexists. split; [|exact H]. simpl. lia.
  - destruct (capture n (caps st)); [|exists st; simpl; split; [lia|done]].
    destruct (eat ic s st) eqn:He; [|done]. apply eat_shorter in He.
    exists m. simpl. split; [lia|done].
Qed.

Lemma search_reads r s p fin :
  search ic r s p = Some fin ->
  String.length (rest fin) + minLen r <= String.length s.
Proof.
  revert p. induction s as [|a s IH]; intros p H; simpl in H.
  - destruct (run ic r _ Some) eqn:Hrun; [|done]. inversion H; subst.
    apply run_reads in Hrun as (st' & Hl & Hk). inversion Hk; subst.
    simpl in *. lia.
  - destruct (run ic r _ Some) eqn:Hrun.
    + inversion H; subst.
      apply run_reads in Hrun as (st' & Hl & Hk). inversion Hk; subst.
      simpl in *. lia.
    + apply IH in H. simpl. lia.
Qed.

(** A pattern that cannot match the empty string never stalls the
    [exec] loop. *)
Lemma execLoop_total r :
  1 <= minLen r ->
  forall fuel s p, String.length s <= fuel ->
  is_Some (execLoop ic r fuel s p).
Proof.
  intros Hmin. induction fuel as [|fuel IH]; intros s p Hs.
  - destruct s; [|simpl in Hs; lia]. simpl.
    destruct (run ic r _ Some) eqn:Hrun; [|by eexists].
    apply run_reads in Hrun as (st' & Hl & _). simpl in Hl. lia.
  - simpl. destruct (search ic r s p) eqn:Hsearch; [|by eexists].
    pose proof (search_reads _ _ _ _ Hsearch) as Hl.
    destruct (Nat.ltb _ _) eqn:Hlt.
    + destruct (IH (rest m) (prev m)) as [ms Hms]; [lia|].
      rewrite Hms. by eexists.
    + apply Nat.ltb_ge in Hlt. lia.
Qed.

Lemma matchAll_total r s :
  1 <= minLen r -> matchAll ic r s = Some (Patterns.scan ic r s).
Proof.
  intros Hmin. unfold Patterns.scan.
  destruct (execLoop_total r Hmin (String.length s) s None) as [ms Hms];
    [done|].
  unfold matchAll. by rewrite Hms.
Qed.

End Matcher.

(** ** The dependency extractors *)

Lemma set_has_spec (s : list string) x : set_has s x = true <-> x ∈ s.
Proof. unfold set_has. by rewrite bool_decide_eq_true. Qed.

Lemma set_add_NoDup (s : list string) x : NoDup s -> NoDup (set_add s x).
Proof.
  intros Hs. unfold set_add. destruct (set_has s x) eqn:Hx; [done|].
  apply NoDup_app. split; [done|]. split; [|apply NoDup_singleton].
  intros y Hy Hy'. apply list_elem_of_singleton in Hy'. subst.
  apply set_has_spec in Hy. congruence.
Qed.

Lemma addCapture_NoDup ms : forall acc,
  NoDup acc -> NoDup (fold_left addCapture ms acc).
Proof.
  induction ms as [|m ms IH]; intros acc Hacc; simpl; [done|].
  apply IH. by apply set_add_NoDup.
Qed.

Lemma fold_set_add_firstOccurrences (l : list string) : forall acc,
  fold_left set_add l acc
  = acc ++ filter (fun y => y ∉ acc) (firstOccurrences l).
Proof.
  induction l as [|x l IH]; intros acc; simpl.
  - by rewrite filter_nil, app_nil_r.
  - rewrite IH. unfold set_add. destruct (set_has acc x) eqn:Hx.
    + apply set_has_spec in Hx.
      rewrite filter_cons_False by tauto. f_equal.
      rewrite list_filter_filter. apply list_filter_iff.
      intros y. split; [|tauto]. intros Hy. split; [done|]. by intros ->.
    + assert (x ∉ acc) as Hx'.
      { intros Hin. apply set_has_spec in Hin. congruence. }
      rewrite filter_cons_True by done. rewrite <- app_assoc. simpl.
      do 2 f_equal. rewrite list_filter_filter. apply list_filter_iff.
      intros y. rewrite elem_of_app, list_elem_of_singleton. tauto.
Qed.

Lemma addCapture_firstOccurrences ms : forall acc,
  fold_left addCapture ms acc
  = fold_left set_add (map (Regex.group 1) ms) acc.
Proof. induction ms as [|m ms IH]; intros acc; simpl; [done|apply IH]. Qed.

Lemma scan_firstOccurrences ms :
  fold_left addCapture ms [] = firstOccurrences (map (Regex.group 1) ms).
Proof.
  rewrite addCapture_firstOccurrences, fold_set_add_firstOccurrences. simpl.
  induction (firstOccurrences _) as [|y l IH]; [done|].
  rewrite filter_cons_True by apply not_elem_of_nil. by f_equal.
Qed.

Lemma pushTrimmed_all ms : forall acc,
  fold_left pushTrimmed ms acc
  = acc ++ List.filter Js.truthy (map cssCapture ms).
Proof.
  induction ms as [|m ms IH]; intros acc; simpl.
  - by rewrite app_nil_r.
  - rewrite IH. unfold pushTrimmed. fold (cssCapture m).
    destruct (cssCapture m) as [|c t]; simpl; [done|].
    by rewrite <- app_assoc.
Qed.

(** C6 (counterexample).  The CSS extractor pushes every match: a
    reference written twice is returned twice.  And the script extractor
    lists the static imports before the dynamic ones, wherever they stand
    in the text. *)
Lemma css_repeats_and_import_order :
  ~ NoDup (css_urls (extractCssDependencies "url(a) url(a)"))
  /\ js_imports (extractJsDependencies "import('a'); import x from 'b';")
     = ["b"; "a"].
Proof.
  split; [|by vm_compute].
  vm_compute. intros H. apply NoDup_cons in H as [H _].
  apply H. apply list_elem_of_here.
Qed.

(** C6 (the amended claim).  For every script text each category of
    [extractJsDependencies] holds no reference twice and lists the
    references in the order of their first insertion: the matches of one
    scan in text order, and for [imports] the static imports before the
    dynamic ones.  For every CSS text [extractCssDependencies] returns the
    non-empty trimmed capture of every match, in scan order, repeats
    included. *)
Theorem extractors_order_and_repeats :
  (forall jsText,
     let d := extractJsDependencies jsText in
     let found p := map (Regex.group 1) (Patterns.scan false p jsText) in
     (NoDup (js_imports d) /\ NoDup (js_importScripts d)
      /\ NoDup (js_fetches d) /\ NoDup (js_xhrs d))
     /\ js_imports d
        = firstOccurrences (found Patterns.importPattern
                            ++ found Patterns.dynamicImportPattern)
     /\ js_importScripts d = firstOccurrences (found Patterns.importScriptsPattern)
     /\ js_fetches d = firstOccurrences (found Patterns.fetchPattern)
     /\ js_xhrs d = firstOccurrences (found Patterns.xhrPattern))
  /\ (forall cssText,
        let d := extractCssDependencies cssText in
        css_urls d
        = List.filter Js.truthy
            (map cssCapture (Patterns.scan true Patterns.cssUrlPattern cssText))
        /\ css_imports d
           = List.filter Js.truthy
               (map cssCapture
                  (Patterns.scan true Patterns.cssImportPattern cssText))).
Proof.
  split.
  - intros jsText d found. subst d found. unfold extractJsDependencies. simpl.
    split; [|split; [|split; [|split]]].
    + repeat split; repeat apply addCapture_NoDup; apply NoDup_nil_2.
    + rewrite <- fold_left_app, <- map_app. apply scan_firstOccurrences.
    + apply scan_firstOccurrences.
    + apply scan_firstOccurrences.
    + apply scan_firstOccurrences.
  - intros cssText d. subst d. unfold extractCssDependencies. simpl.
    by rewrite !pushTrimmed_all.
Qed.

Lemma patterns_total :
  Forall (fun p => forall s,
            Regex.matchAll (fst p) (snd p) s
            = Some (Patterns.scan (fst p) (snd p) s))
    [(true, Patterns.cssUrlPattern); (true, Patterns.cssImportPattern);
     (false, Patterns.importPattern); (false, Patterns.dynamicImportPattern);
     (false, Patterns.importScriptsPattern); (false, Patterns.fetchPattern);
     (false, Patterns.xhrPattern)].
Proof.
  repeat constructor; intros s; apply matchAll_total; vm_compute; lia.
Qed.

Lemma trimStart_head s :
  Js.trimStart s = "" \/
  exists c s', Js.trimStart s = String c s' /\ Js.isSpace c = false.
Proof.
  induction s as [|c s IH]; simpl; [by left|].
  destruct (Js.isSpace c) eqn:Hc; [done|]. right. by exists c, s.
Qed.

Lemma trimEnd_head c s :
  Js.isSpace c = false -> exists t, Js.trimEnd (String c s) = String c t.
Proof.
  intros Hc. simpl. destruct (Js.trimEnd s); rewrite ?Hc; by eexists.
Qed.

Lemma trim_not_blank s : Js.truthy (Js.trim s) = true -> isBlank (Js.trim s) = false.
Proof.
  unfold Js.trim. destruct (trimStart_head s) as [->|(c & s' & -> & Hc)].
  - done.
  - destruct (trimEnd_head c s' Hc) as [t ->]. intros _. simpl. by rewrite Hc.
Qed.

Lemma trimStart_blank s : isBlank s = true -> Js.trimStart s = "".
Proof.
  induction s as [|c s IH]; simpl; [done|].
  intros [Hc Hs]%andb_true_iff. rewrite Hc. auto.
Qed.

Lemma css_captures_not_blank ms :
  Forall (fun x => isBlank x = false)
    (List.filter Js.truthy (map cssCapture ms)).
Proof.
  apply Forall_forall. intros x Hx. apply list_elem_of_In in Hx.
  apply filter_In in Hx as [Hin Hx]. apply in_map_iff in Hin as (m & <- & _).
  by apply trim_not_blank.
Qed.

(** ** Matching a pattern against a text with a symbolic part *)

Section Symbolic.
Import Regex.

Local Arguments run : simpl never.
Local Arguments iterate : simpl never.
Local Arguments class_matches : simpl never.
Local Arguments canon : simpl never.
Local Arguments Nat.ltb : simpl never.

Lemma run_Seq ic r1 r2 st k :
run ic (Seq r1 r2) st k = run ic r1 st (fun st1 => run ic r2 st1 k).
Proof. reflexivity. Qed.

Lemma run_Eps ic st k : run ic Eps st k = k st.
Proof. reflexivity. Qed.

Lemma run_Lit ic c a s p cs k :
run ic (Lit c) (MState (String a s) p cs) k
= if Ascii.eqb (canon ic a) (canon ic c) then k (MState s (Some a) cs) else None.
Proof. reflexivity. Qed.

Lemma run_Lit_nil ic c p cs k : run ic (Lit c) (MState "" p cs) k = None.
Proof. reflexivity. Qed.

Lemma run_Class ic neg items a s p cs k :
run ic (Class neg items) (MState (String a s) p cs) k
= if class_matches ic neg items a then k (MState s (Some a) cs) else None.
Proof. reflexivity. Qed.

Lemma run_Class_nil ic neg items p cs k :
run ic (Class neg items) (MState "" p cs) k = None.
Proof. reflexivity. Qed.

Lemma run_AnyChar ic a s p cs k :
run ic AnyChar (MState (String a s) p cs) k
= if Js.isLineTerminator a then None else k (MState s (Some a) cs).
Proof. reflexivity. Qed.

Lemma run_Alt ic r1 r2 st k :
run ic (Alt r1 r2) st k = orElse (run ic r1 st k) (run ic r2 st k).
Proof. reflexivity. Qed.

Lemma run_Star ic g r st k :
run ic (Star g r) st k = iterate g (run ic r) k (String.length (rest st)) st.
Proof. reflexivity. Qed.

Lemma run_Group ic n r st k :
run ic (Group n r) st k
= run ic r st (fun st1 =>
    k (MState (rest st1) (prev st1) ((n, consumed st st1) :: caps st1))).
Proof. reflexivity. Qed.

Lemma run_Backref ic n st k :
run ic (Backref n) st k
= match capture n (caps st) with
  | None => k st
  | Some t => match eat ic t st with Some st1 => k st1 | None => None end
  end.
Proof. reflexivity. Qed.

Lemma iterate_S g step k n st :
iterate g step k (S n) st
= let again :=
    step st (fun st1 =>
      if Nat.ltb (String.length (rest st1)) (String.length (rest st))
      then iterate g step k n st1 else None) in
  if g then orElse again (k st) else orElse (k st) again.
Proof. reflexivity. Qed.

Lemma iterate_O g step k st : iterate g step k 0 st = k st.
Proof. reflexivity. Qed.

Lemma length_append (s t : string) :
String.length (s +:+ t) = String.length s + String.length t.
Proof. induction s; simpl; lia. Qed.

Lemma take_append (s t : string) : Js.take (String.length s) (s +:+ t) = s.
Proof. induction s; simpl; [by destruct t|congruence]. Qed.

(** A greedy class loop reads a whole run of class characters when what
  follows the run lets the rest of the pattern succeed. *)
Lemma iterate_greedy_run ic neg items k tail fin t : forall n p cs,
allChars (class_matches ic neg items) t = true ->
String.length t <= n ->
match tail with
| String c _ => class_matches ic neg items c = false
| EmptyString => True
end ->
(forall p', k (MState tail p' cs) = Some fin) ->
iterate true (run ic (Class neg items)) k n (MState (t +:+ tail) p cs)
= Some fin.
Proof.
induction t as [|c t IH]; intros n p cs Hall Hn Htail Hk; simpl in *.
- destruct n as [|n]; [rewrite iterate_O; apply Hk|].
  rewrite iterate_S. simpl. destruct tail as [|c tl].
  + rewrite run_Class_nil. apply Hk.
  + rewrite run_Class, Htail. apply Hk.
- destruct n as [|n]; [lia|]. rewrite iterate_S. simpl.
  apply andb_true_iff in Hall as [Hc Hall].
  rewrite run_Class, Hc. simpl.
  replace (Nat.ltb _ _) with true by (symmetry; apply Nat.ltb_lt; lia).
  rewrite (IH n); [done|done|lia|done|done].
Qed.


(** A lazy [.] loop stops at the first place where the rest of the pattern
  succeeds. *)
Lemma iterate_lazy_run ic (good : ascii -> bool) k tail fin t : forall n p cs,
allChars good t = true ->
(forall c, good c = true -> Js.isLineTerminator c = false) ->
String.length t <= n ->
(forall c r p', good c = true -> k (MState (String c r) p' cs) = None) ->
(forall p', k (MState tail p' cs) = Some fin) ->
iterate false (run ic AnyChar) k n (MState (t +:+ tail) p cs) = Some fin.
Proof.
induction t as [|c t IH]; intros n p cs Hall Hlt Hn Hfail Hk; simpl in *.
- destruct n as [|n]; [rewrite iterate_O; apply Hk|].
  rewrite iterate_S. simpl. by rewrite Hk.
- destruct n as [|n]; [lia|]. rewrite iterate_S. simpl.
  apply andb_true_iff in Hall as [Hc Hall].
  rewrite (Hfail c _ _ Hc). simpl. rewrite run_AnyChar, (Hlt c Hc). simpl.
  replace (Nat.ltb _ _) with true by (symmetry; apply Nat.ltb_lt; lia).
  rewrite (IH n); [done|done|done|lia|done|done].
Qed.

Local Ltac decide_char :=
match goal with
| |- context [Ascii.eqb (canon ?i ?a) (canon ?i ?c)] =>
    let b := eval vm_compute in (Ascii.eqb (canon i a) (canon i c)) in
    change (Ascii.eqb (canon i a) (canon i c)) with b
| |- context [class_matches ?i ?n ?items ?a] =>
    let b := eval vm_compute in (class_matches i n items a) in
    change (class_matches i n items a) with b
end; cbv iota.

Local Ltac lit := rewrite ?run_Seq; rewrite run_Lit; decide_char; cbv beta.

Lemma targetChar_facts c :
targetChar c = true ->
Js.isSpace c = false
/\ class_matches true false [CSpace] c = false
/\ class_matches true false [CChar Patterns.squote; CChar Patterns.dquote] c = false
/\ Ascii.eqb (canon true c) (canon true ")") = false
/\ Js.isLineTerminator c = false.
Proof.
unfold targetChar, class_matches. cbn [existsb item_matches xorb].
destruct (Ascii.eqb (canon true c) (canon true Patterns.squote)); [done|].
destruct (Ascii.eqb (canon true c) (canon true Patterns.dquote)); [done|].
destruct (Ascii.eqb (canon true c) (canon true ")")); [done|].
destruct (Js.isSpace c) eqn:Hs; [done|]. intros _.
repeat split; try done.
unfold Js.isLineTerminator, Js.isSpace in *.
destruct (Js.code c =? 10)%N eqn:H10.
{ apply N.eqb_eq in H10. rewrite H10 in Hs. done. }
destruct (Js.code c =? 13)%N eqn:H13.
{ apply N.eqb_eq in H13. rewrite H13 in Hs. done. }
done.
Qed.


Lemma starts_target t tail :
isTarget t = true ->
exists c r, t +:+ tail = String c r /\ targetChar c = true.
Proof.
intros [Hne Ht]%andb_true_iff. destruct t as [|c t]; [done|].
simpl in Ht. apply andb_true_iff in Ht as [Hc _]. by exists c, (t +:+ tail).
Qed.

Lemma iterate_greedy_stop ic neg items k n c r p cs :
class_matches ic neg items c = false ->
iterate true (run ic (Class neg items)) k n (MState (String c r) p cs)
= k (MState (String c r) p cs).
Proof.
intros Hc. destruct n as [|n]; [done|].
rewrite iterate_S. simpl. by rewrite run_Class, Hc.
Qed.

Lemma consumed_none st : consumed st st = "".
Proof. unfold consumed. rewrite Nat.sub_diag. by destruct (rest st). Qed.

Lemma consumed_prefix t tail p cs p' cs' :
consumed (MState (t +:+ tail) p cs) (MState tail p' cs') = t.
Proof.
unfold consumed. simpl. rewrite length_append.
replace (_ + _ - _) with (String.length t) by lia. apply take_append.
Qed.

(** [url(t)] at the current position: the pattern matches it and
  captures [t]. *)
Lemma cssUrlPattern_hit t tail p :
isTarget t = true ->
run true Patterns.cssUrlPattern
  (MState ("url(" +:+ t +:+ ")" +:+ tail) p []) Some
= Some (MState tail (Some ")"%char) [(2, t); (1, "")]).
Proof.
intros Ht. unfold Patterns.cssUrlPattern, Space. cbn [SeqAll Str].
simpl String.append. do 4 lit. rewrite run_Eps. cbv beta.
destruct (starts_target t (String ")" tail) Ht) as (c & r & Heq & Hc).
destruct (targetChar_facts c Hc) as (Hsp & Hsp' & Hq & Hparen & Hlt).
rewrite run_Seq, run_Star. rewrite Heq.
rewrite iterate_greedy_stop by done.
rewrite run_Seq, run_Group. unfold Opt, Patterns.Quote.
rewrite run_Alt, run_Class, Hq, run_Eps. simpl orElse. cbv beta.
rewrite consumed_none. simpl.
rewrite run_Seq, run_Group, run_Star. rewrite <- Heq.
apply andb_true_iff in Ht as [Hne Ht].
apply iterate_lazy_run with (good := targetChar).
- done.
- intros c' Hc'. by destruct (targetChar_facts c' Hc') as (_ & _ & _ & _ & ?).
- simpl. rewrite length_append. lia.
- intros c' r' p' Hc'.
  destruct (targetChar_facts c' Hc') as (Hsp1 & Hsp1' & Hq1 & Hparen1 & Hlt1).
  simpl. rewrite run_Seq, run_Backref. simpl.
  rewrite run_Seq, run_Star. rewrite iterate_greedy_stop by done.
  by rewrite run_Seq, run_Lit, Hparen1.
- intros p'. simpl. rewrite consumed_prefix.
  rewrite run_Seq, run_Backref. simpl.
  rewrite run_Seq, run_Star. rewrite iterate_greedy_stop by done.
  by lit.
Qed.

(** [@import url(t)] at the current position. *)
Lemma cssImportPattern_wrapped t tail p :
  isTarget t = true ->
  run true Patterns.cssImportPattern
    (MState ("@import url(" +:+ t +:+ ")" +:+ tail) p []) Some
  = Some (MState tail (Some ")"%char) [(2, t); (1, "")]).
Proof.
  intros Ht. unfold Patterns.cssImportPattern, Plus, Space. cbn [SeqAll Str].
  simpl String.append. do 7 lit. rewrite run_Eps. cbv beta.
  rewrite !run_Seq, run_Class. decide_char. cbv beta.
  rewrite run_Star. rewrite iterate_greedy_stop by reflexivity.
  unfold Opt at 1. rewrite run_Seq, run_Alt.
  assert (Hsome : forall (x : mstate) y, orElse (Some x) y = Some x) by done.
  match goal with |- orElse ?a _ = Some ?f => assert (a = Some f) as -> end;
    [|done].
  do 4 lit. rewrite run_Eps. cbv beta.
  destruct (starts_target t (String ")" tail) Ht) as (c & r & Heq & Hc).
  destruct (targetChar_facts c Hc) as (Hsp & Hsp' & Hq & Hparen & Hlt).
  rewrite run_Star, Heq. simpl rest.
  rewrite iterate_greedy_stop by done.
  rewrite run_Seq, run_Group. unfold Opt at 1. unfold Patterns.Quote.
  rewrite run_Alt, run_Class, Hq, run_Eps. simpl orElse. cbv beta.
  rewrite consumed_none. simpl.
  rewrite run_Seq, run_Group, run_Seq, run_Class.
  fold (targetChar c). rewrite Hc. simpl.
  rewrite run_Star. simpl.
  apply andb_true_iff in Ht as [Hne Ht].
  destruct t as [|c' t']; [done|]. simpl in Heq. injection Heq as -> <-.
  simpl in Ht. apply andb_true_iff in Ht as [_ Ht].
  apply iterate_greedy_run.
  - exact Ht.
  - rewrite length_append. lia.
  - reflexivity.
  - intros p'. simpl.
    change (String c (t' +:+ String ")" tail))
      with (String c t' +:+ String ")" tail).
    rewrite consumed_prefix.
    rewrite run_Seq, run_Backref. simpl.
    rewrite run_Seq, run_Star. rewrite iterate_greedy_stop by reflexivity.
    rewrite run_Seq. unfold Opt. rewrite run_Alt. by lit.
Qed.

(** The tail of [cssImportPattern] (optional white space and an optional
    closing parenthesis) matches whatever follows. *)
Lemma import_tail_total n : forall s p cs,
  exists fin,
    iterate true (run true (Class false [CSpace]))
      (fun st => run true (Seq (Opt (Lit ")")) Eps) st Some) n (MState s p cs)
    = Some fin /\ caps fin = cs.
Proof.
  assert (Hk : forall s p cs, exists fin,
            run true (Seq (Opt (Lit ")")) Eps) (MState s p cs) Some = Some fin
            /\ caps fin = cs).
  { intros s p cs. unfold Opt. rewrite run_Seq, run_Alt.
    destruct s as [|a s].
    - rewrite run_Lit_nil. simpl. eexists. by rewrite !run_Eps.
    - rewrite run_Lit. destruct (Ascii.eqb _ _); simpl;
        eexists; by rewrite !run_Eps. }
  induction n as [|n IH]; intros s p cs.
  - rewrite iterate_O. apply Hk.
  - rewrite iterate_S. simpl. destruct s as [|a s].
    + rewrite run_Class_nil. simpl. apply Hk.
    + rewrite run_Class. destruct (class_matches _ _ _ _); simpl; [|apply Hk].
      replace (Nat.ltb _ _) with true by (symmetry; apply Nat.ltb_lt; lia).
      destruct (IH s (Some a) cs) as (fin & -> & Hfin). simpl. by exists fin.
Qed.

(** [@import Qt Q], where [Q] is one of the two quote characters. *)
Lemma cssImportPattern_quoted q t tail p :
  q = Patterns.squote \/ q = Patterns.dquote ->
  isTarget t = true ->
  exists fin,
    run true Patterns.cssImportPattern
      (MState ("@import " +:+ String q (t +:+ String q tail)) p []) Some
    = Some fin /\ capture 2 (caps fin) = Some t.
Proof.
  intros Hq Ht. unfold Patterns.cssImportPattern, Plus, Space. cbn [SeqAll Str].
  simpl String.append. do 7 lit. rewrite run_Eps. cbv beta.
  rewrite !run_Seq, run_Class. decide_char. cbv beta.
  rewrite run_Star.
  assert (Hnsp : class_matches true false [CSpace] q = false)
    by (by destruct Hq as [-> | ->]).
  assert (Hnu : Ascii.eqb (canon true q) (canon true "u") = false)
    by (by destruct Hq as [-> | ->]).
  assert (Hquote : class_matches true false
                     [CChar Patterns.squote; CChar Patterns.dquote] q = true)
    by (by destruct Hq as [-> | ->]).
  assert (Hqq : Ascii.eqb (canon true q) (canon true q) = true)
    by (by destruct Hq as [-> | ->]).
  assert (Hnt : targetChar q = false) by (by destruct Hq as [-> | ->]).
  rewrite iterate_greedy_stop by done.
  unfold Opt at 1. rewrite run_Seq, run_Alt.
  rewrite !run_Seq, run_Lit, Hnu. simpl orElse. rewrite run_Eps.
  rewrite run_Seq, run_Group. unfold Opt at 1. unfold Patterns.Quote.
  rewrite run_Alt, run_Class, Hquote. cbv beta. simpl rest. simpl prev.
  simpl caps.
  assert (Hcons : consumed (MState (String q (t +:+ String q tail)) (Some " "%char) [])
                    (MState (t +:+ String q tail) (Some q) [])
                  = String q "").
  { change (String q (t +:+ String q tail))
      with (String q "" +:+ (t +:+ String q tail)).
    apply consumed_prefix. }
  rewrite Hcons. clear Hcons.
  destruct (import_tail_total (String.length tail) tail (Some q)
              [(2, t); (1, String q "")]) as (fin & Hfin & Hcaps).
  match goal with |- exists f, orElse ?a _ = Some f /\ _ =>
    assert (a = Some fin) as -> end.
  2:{ exists fin. split; [done|]. by rewrite Hcaps. }
  rewrite run_Seq, run_Group, run_Seq.
  apply andb_true_iff in Ht as [Hne Ht].
  destruct t as [|c t']; [done|]. simpl in Ht.
  apply andb_true_iff in Ht as [Hc Ht].
  simpl String.append. rewrite run_Class. fold (targetChar c). rewrite Hc.
  rewrite run_Star. simpl.
  apply iterate_greedy_run.
  - exact Ht.
  - rewrite length_append. lia.
  - exact Hnt.
  - intros p'. simpl.
    change (String c (t' +:+ String q tail))
      with (String c t' +:+ String q tail).
    rewrite consumed_prefix.
    rewrite run_Seq, run_Backref. simpl. rewrite Hqq. simpl.
    rewrite run_Seq, run_Star. exact Hfin.
Qed.


Lemma search_miss ic r a s p :
  run ic r (MState (String a s) p []) Some = None ->
  search ic r (String a s) p = search ic r s (Some a).
Proof. intros H. simpl. by rewrite H. Qed.

Lemma search_hit ic r s p fin :
  run ic r (MState s p []) Some = Some fin -> search ic r s p = Some fin.
Proof. intros H. destruct s; simpl; by rewrite H. Qed.

Lemma execLoop_hit ic r fuel s p fin :
  1 <= minLen r -> String.length s <= fuel ->
  search ic r s p = Some fin ->
  exists ms, execLoop ic r fuel s p = Some (caps fin :: ms).
Proof.
  intros Hmin Hlen Hs. pose proof (search_reads _ _ _ _ _ Hs) as Hr.
  destruct fuel as [|fuel]; [lia|]. simpl. rewrite Hs.
  replace (Nat.ltb _ _) with true by (symmetry; apply Nat.ltb_lt; lia).
  destruct (execLoop_total ic r Hmin fuel (rest fin) (prev fin)) as [ms ->];
    [lia|]. by exists ms.
Qed.

Lemma scan_hit ic r s fin :
  1 <= minLen r -> search ic r s None = Some fin ->
  exists ms, Patterns.scan ic r s = caps fin :: ms.
Proof.
  intros Hmin Hs. unfold Patterns.scan, matchAll.
  destruct (execLoop_hit ic r (String.length s) s None fin Hmin) as [ms ->];
    [lia|done|]. by exists ms.
Qed.

Lemma trimEnd_id s :
  allChars (fun c => negb (Js.isSpace c)) s = true -> Js.trimEnd s = s.
Proof.
  induction s as [|c s IH]; simpl; [done|].
  intros [Hc Hs]%andb_true_iff. rewrite (IH Hs).
  destruct s; [|done]. by destruct (Js.isSpace c).
Qed.

Lemma allChars_impl (P Q : ascii -> bool) s :
  (forall c, P c = true -> Q c = true) ->
  allChars P s = true -> allChars Q s = true.
Proof.
  intros HPQ. induction s as [|c s IH]; simpl; [done|].
  intros [Hc Hs]%andb_true_iff. rewrite (HPQ c Hc). auto.
Qed.

Lemma trim_target t : isTarget t = true -> Js.trim t = t.
Proof.
  intros [Hne Ht]%andb_true_iff. unfold Js.trim.
  assert (Hns : allChars (fun c => negb (Js.isSpace c)) t = true).
  { apply (allChars_impl targetChar); [|done]. intros c Hc.
    destruct (targetChar_facts c Hc) as (-> & _). done. }
  assert (Js.trimStart t = t) as ->; [|by apply trimEnd_id].
  destruct t as [|c t]; [done|]. simpl in *.
  apply andb_true_iff in Hns as [Hc _]. by destruct (Js.isSpace c).
Qed.

Lemma target_pushed t fin ms :
  isTarget t = true -> capture 2 (caps fin) = Some t ->
  t ∈ fold_left pushTrimmed (caps fin :: ms) [].
Proof.
  intros Ht Hcap. rewrite pushTrimmed_all. simpl.
  assert (cssCapture (caps fin) = t) as ->.
  { unfold cssCapture, group. by rewrite Hcap, (trim_target t Ht). }
  apply andb_true_iff in Ht as [-> _]. apply list_elem_of_here.
Qed.

Local Ltac miss :=
  rewrite search_miss;
  [|unfold Patterns.cssUrlPattern; cbn [SeqAll Str];
    rewrite !run_Seq, run_Lit; decide_char; reflexivity].

Lemma wrapped_import_in_both t tail :
  isTarget t = true ->
  let d := extractCssDependencies ("@import url(" +:+ t +:+ ")" +:+ tail) in
  t ∈ css_imports d /\ t ∈ css_urls d.
Proof.
  intros Ht d. subst d. unfold extractCssDependencies.
  cbn [css_imports css_urls]. split.
  - destruct (scan_hit true Patterns.cssImportPattern
                ("@import url(" +:+ t +:+ ")" +:+ tail)
                (MState tail (Some ")"%char) [(2, t); (1, "")]))
      as [ms ->].
    + vm_compute. lia.
    + apply search_hit. by apply cssImportPattern_wrapped.
    + by apply target_pushed.
  - destruct (scan_hit true Patterns.cssUrlPattern
                ("@import url(" +:+ t +:+ ")" +:+ tail)
                (MState tail (Some ")"%char) [(2, t); (1, "")]))
      as [ms ->].
    + vm_compute. lia.
    + simpl String.append. do 8 miss.
      apply search_hit. by apply cssUrlPattern_hit.
    + by apply target_pushed.
Qed.

Lemma quoted_import_in_imports q t tail :
  q = Patterns.squote \/ q = Patterns.dquote ->
  isTarget t = true ->
  t ∈ css_imports
        (extractCssDependencies
           ("@import " +:+ String q (t +:+ String q tail))).
Proof.
  intros Hq Ht. unfold extractCssDependencies. cbn [css_imports].
  destruct (cssImportPattern_quoted q t tail None Hq Ht) as (fin & Hrun & Hcap).
  destruct (scan_hit true Patterns.cssImportPattern
              ("@import " +:+ String q (t +:+ String q tail)) fin)
    as [ms ->].
  - vm_compute. lia.
  - by apply search_hit.
  - by apply target_pushed.
Qed.

Lemma plain_url_in_urls t tail :
  isTarget t = true ->
  t ∈ css_urls (extractCssDependencies ("url(" +:+ t +:+ ")" +:+ tail)).
Proof.
  intros Ht. unfold extractCssDependencies. cbn [css_urls].
  destruct (scan_hit true Patterns.cssUrlPattern
              ("url(" +:+ t +:+ ")" +:+ tail)
              (MState tail (Some ")"%char) [(2, t); (1, "")]))
    as [ms ->].
  - vm_compute. lia.
  - apply search_hit. by apply cssUrlPattern_hit.
  - by apply target_pushed.
Qed.

End Symbolic.

(** C7 (counterexample).  The only [url(...)] of this text is the target of
    its [@import], and it is returned in [urls] as well as in [imports]. *)
Lemma import_target_also_in_urls :
  extractCssDependencies "@import url(a.css);"
  = {| css_imports := ["a.css"]; css_urls := ["a.css"] |}.
Proof. vm_compute. reflexivity. Qed.

(** ** URL resolution *)

(** C5.  [resolveUrl] returns absent exactly for the empty reference; for
    any other reference it returns a string, and when the URL parser
    rejects the reference (against the base when there is a usable one,
    on its own otherwise) that string is the reference itself.  The parser's
    exception never escapes: the function is total. *)
Theorem resolveUrl_absent_iff_empty (E : Env) (baseUrl : option string)
    (reference : string) :
  (resolveUrl E baseUrl reference = None <-> reference = "")
  /\ (reference <> "" ->
      URL_parse E (if truthyOpt baseUrl then baseUrl else None) reference = None ->
      resolveUrl E baseUrl reference = Some reference).
Proof.
  unfold resolveUrl. destruct reference as [|c r]; simpl.
  - split; [done|]. by intros [].
  - split.
    + split; [|done]. destruct (truthyOpt baseUrl); by destruct (URL_parse _ _ _).
    + intros _ H. destruct (truthyOpt baseUrl); by rewrite H.
Qed.

(** C5 (witness): a reference the toy parser rejects is returned as it
    is. *)
Lemma resolveUrl_absent_iff_empty_witness :
  resolveUrl Demo.env (Some "nowhere") "::bad" = Some "::bad".
Proof.
  apply (proj2 (resolveUrl_absent_iff_empty Demo.env (Some "nowhere") "::bad"));
    [discriminate | reflexivity].
Defined.

(** ** The resource-kind classifier *)

Lemma append_assoc (a b c : string) : (a +:+ b) +:+ c = a +:+ (b +:+ c).
Proof. induction a; simpl; congruence. Qed.

Lemma split_nonempty c s : Js.split c s <> [].
Proof.
  destruct s as [|a s]; simpl; [done|].
  destruct (Ascii.eqb a c); [done|]. by destruct (Js.split c s).
Qed.

Lemma split_lacks c s : lacks c s = true -> Js.split c s = [s].
Proof.
  unfold lacks. induction s as [|a s IH]; simpl; [done|].
  intros [Ha Hs]%andb_true_iff. apply negb_true_iff in Ha. rewrite Ha.
  by rewrite (IH Hs).
Qed.

Lemma hd_split_app c s t :
  lacks c s = true ->
  List.hd "" (Js.split c (s +:+ t)) = s +:+ List.hd "" (Js.split c t).
Proof.
  unfold lacks. induction s as [|a s IH]; simpl; [done|].
  intros [Ha Hs]%andb_true_iff. apply negb_true_iff in Ha. rewrite Ha.
  specialize (IH Hs). destruct (Js.split c (s +:+ t)) eqn:Hsp.
  - by apply split_nonempty in Hsp.
  - simpl in *. by rewrite IH.
Qed.

Lemma hd_split_other c a r :
  Ascii.eqb a c = false ->
  List.hd "" (Js.split c (String a r)) = String a (List.hd "" (Js.split c r)).
Proof.
  intros Ha. simpl. rewrite Ha. destruct (Js.split c r) eqn:Hsp; [|done].
  by apply split_nonempty in Hsp.
Qed.

Lemma append_empty_r s : s +:+ "" = s.
Proof. induction s; simpl; congruence. Qed.

Lemma hd_split_suffix body suffix :
  lacks "?" body = true -> lacks "#" body = true ->
  isUrlSuffix suffix = true ->
  List.hd "" (Js.split "#" (List.hd "" (Js.split "?" (body +:+ suffix)))) = body.
Proof.
  intros Hq Hf Hs. rewrite (hd_split_app _ _ _ Hq).
  destruct suffix as [|a r].
  - simpl. rewrite append_empty_r. by rewrite (split_lacks _ _ Hf).
  - simpl in Hs. destruct (Ascii.eqb a "?") eqn:Ha.
    + simpl. rewrite Ha. simpl. rewrite append_empty_r.
      by rewrite (split_lacks _ _ Hf).
    + simpl in Hs. apply Ascii.eqb_eq in Hs. subst a.
      rewrite hd_split_other by done.
      rewrite (hd_split_app _ _ _ Hf). simpl. apply append_empty_r.
Qed.

Lemma last_split_app c s e :
  List.last (Js.split c (s +:+ String c e)) "" = List.last (Js.split c e) "".
Proof.
  induction s as [|a s IH]; simpl.
  - rewrite Ascii.eqb_refl. destruct (Js.split c e) eqn:Hsp; [|done].
    by apply split_nonempty in Hsp.
  - destruct (Ascii.eqb a c).
    + destruct (Js.split c (s +:+ String c e)) eqn:Hsp; [|done].
      by apply split_nonempty in Hsp.
    + assert (Htl : exists x y l, Js.split c (s +:+ String c e) = x :: y :: l).
      { clear. induction s as [|b s IH]; simpl.
        - rewrite Ascii.eqb_refl. destruct (Js.split c e) eqn:Hsp.
          + by apply split_nonempty in Hsp.
          + by eexists _, _, _.
        - destruct IH as (x & y & l & ->).
          destruct (Ascii.eqb b c); by eexists _, _, _. }
      destruct Htl as (x & y & l & Hsp). rewrite Hsp in *. done.
Qed.

Lemma lacks_app c s t : lacks c (s +:+ t) = lacks c s && lacks c t.
Proof.
  unfold lacks. induction s as [|a s IH]; simpl; [done|].
  by rewrite IH, andb_assoc.
Qed.

Lemma infer_by_extension stem ext suffix :
  lacks "?" stem = true -> lacks "#" stem = true ->
  lacks "?" ext = true -> lacks "#" ext = true -> lacks "." ext = true ->
  isUrlSuffix suffix = true ->
  inferResourceKindFromUrl (stem +:+ "." +:+ ext +:+ suffix)
  = kindOfExtension (Js.toLowerCase ext).
Proof.
  intros Hq Hf Hqe Hfe Hde Hs. unfold inferResourceKindFromUrl.
  replace (stem +:+ "." +:+ ext +:+ suffix)
    with ((stem +:+ String "." ext) +:+ suffix)
    by (by rewrite append_assoc).
  rewrite hd_split_suffix; [| | |done].
  - rewrite last_split_app, (split_lacks _ _ Hde). simpl.
    unfold kindOfExtension. by destruct (Js.toLowerCase ext).
  - rewrite lacks_app, Hq. unfold lacks in *. simpl. exact Hqe.
  - rewrite lacks_app, Hf. unfold lacks in *. simpl. exact Hfe.
Qed.

Lemma recordUrl_queue E u src base st :
  pending (recordUrl E u src base st) = pending st
  /\ processed (recordUrl E u src base st) = processed st.
Proof.
  unfold recordUrl, whenResolved. destruct (resolveUrl E base u) as [r|]; [|done].
  by destruct (Js.truthy r).
Qed.

(** ** Discovery steps

    Every analysis function changes the run state through [recordUrl],
    [enqueue] and the suspension counter only.  A relation between the
    state before and the state after that is reflexive and transitive and
    holds for these three steps therefore holds for all of them.  (Every
    call of [enqueue] passes a kind hint or, in its place, what the
    extension of the URL says.) *)

Section Steps.

Variable E : Env.
Variable recursive : bool.
Variable R : RunState -> RunState -> Prop.

Hypothesis R_refl : forall st, R st st.
Hypothesis R_trans : forall st1 st2 st3, R st1 st2 -> R st2 st3 -> R st1 st3.
Hypothesis R_record : forall u src base st, R st (recordUrl E u src base st).
Hypothesis R_enqueue :
  forall u kind st,
    (kind = None -> inferResourceKindFromUrl u = None) ->
    R st (enqueue recursive u kind st).
Hypothesis R_suspensions : forall n st, R st (set_suspensions n st).
Hypothesis R_pop :
  forall next rest st,
    pending st = next :: rest ->
    R st (set_queue rest (processed st) (expanded st ++ [fst next]) st).
Hypothesis R_cache : forall c ps l st, R st (set_cache c ps l st).

Lemma whenResolved_steps o f st :
  (forall r st0, R st0 (f r st0)) -> R st (whenResolved o f st).
Proof.
  intros Hf. unfold whenResolved. destruct o as [r|]; [|apply R_refl].
  destruct (Js.truthy r); [apply Hf|apply R_refl].
Qed.

Lemma forEach_steps {A} (l : list A) f st :
  (forall x st0, R st0 (f x st0)) -> R st (forEach l f st).
Proof.
  intros Hf. unfold forEach. revert st.
  induction l as [|x l IH]; intros st; simpl; [apply R_refl|].
  eapply R_trans; [apply Hf|apply IH].
Qed.

(** Takes a goal [R st (step ... st0)] apart along the shape of the
    step. *)
Local Ltac steps :=
  cbv zeta;
  lazymatch goal with
  | |- R ?st ?st => apply R_refl
  | |- R _ (forEach _ _ _) =>
      eapply R_trans; [|apply forEach_steps; intros; steps]; steps
  | |- R _ (whenResolved _ _ _) =>
      eapply R_trans; [|apply whenResolved_steps; intros; steps]; steps
  | |- R _ (recordUrl _ _ _ _ _) => eapply R_trans; [|apply R_record]; steps
  | |- R _ (enqueue _ _ _ _) =>
      eapply R_trans;
      [|apply R_enqueue;
        let H := fresh in intros H; first [discriminate H|exact H]];
      steps
  | |- R _ (set_suspensions _ _) =>
      eapply R_trans; [|apply R_suspensions]; steps
  | |- R _ (if ?b then _ else _) => destruct b; steps
  | |- R _ (match ?o with Some _ => _ | None => _ end) => destruct o; steps
  | |- R _ (match ?s with SrcResource => _ | _ => _ end) => destruct s; steps
  | |- R _ _ => fail
  end.

Lemma recordCssUrls_steps cssText base st :
  R st (recordCssUrls E recursive cssText base st).
Proof. unfold recordCssUrls. steps. Qed.

Lemma analyzeJs_steps jsText base st :
  R st (analyzeJs E recursive jsText base st).
Proof. unfold analyzeJs. steps. Qed.

Lemma interceptor_steps i st : R st (interceptor E recursive i st).
Proof. unfold interceptor. steps. Qed.

Lemma suspend_steps st : R st (suspend E recursive st).
Proof.
  unfold suspend. eapply R_trans; [apply R_suspensions|].
  apply forEach_steps. intros. apply interceptor_steps.
Qed.

Lemma harvestLink_steps base link st :
  R st (harvestLink E recursive base link st).
Proof. unfold harvestLink. steps. Qed.

Lemma recordAttribute_steps name base el st :
  R st (recordAttribute E name base el st).
Proof. unfold recordAttribute. steps. Qed.

Lemma recordSrcset_steps src base el st :
  R st (recordSrcset E src base el st).
Proof. unfold recordSrcset. steps. Qed.

Lemma harvest_steps els base st : R st (harvest E recursive els base st).
Proof.
  unfold harvest. cbv zeta.
  repeat (eapply R_trans; [|apply forEach_steps; intros x st0]);
    [apply R_refl|..].
  all: first [ apply recordAttribute_steps
             | apply recordSrcset_steps
             | apply harvestLink_steps
             | idtac ].
  all: repeat match goal with
         | |- R _ (if ?b then _ else _) => destruct b
         | |- R _ (match ?o with Some _ => _ | None => _ end) => destruct o
         end;
       first [ apply R_refl
             | apply recordSrcset_steps
             | apply recordCssUrls_steps
             | steps ].
Qed.

Lemma analyzeHtml_steps htmlText base captureTitle st t st' :
  analyzeHtml E recursive htmlText base captureTitle st = Done (t, st') ->
  R st st'.
Proof.
  unfold analyzeHtml. destruct (render E htmlText base) as [dom|]; [|done].
  intros [= _ <-].
  eapply R_trans; [|apply suspend_steps].
  eapply R_trans; [|apply harvest_steps].
  apply forEach_steps. intros. apply interceptor_steps.
Qed.

Lemma analyzeInput_steps input st t st' :
  analyzeInput E recursive input st = Done (t, st') -> R st st'.
Proof.
  unfold analyzeInput. destruct (detectInputKind input).
  - apply analyzeHtml_steps.
  - intros [= _ <-]. apply recordCssUrls_steps.
  - intros [= _ <-]. apply analyzeJs_steps.
Qed.

Lemma loadResource_steps u st : R st (snd (loadResource E u st)).
Proof.
  unfold loadResource, fetchResourceContent.
  destruct (resourceCache st !! u); [apply R_refl|].
  destruct (fetch_available E); simpl;
    (eapply R_trans; [apply R_cache|apply R_cache]).
Qed.

Lemma awaitPromise_steps p st : R st (snd (awaitPromise E recursive p st)).
Proof.
  unfold awaitPromise, settle. simpl.
  eapply R_trans; [apply R_cache|apply suspend_steps].
Qed.

Lemma iteration_steps st st' :
  iteration E recursive st = Done st' -> R st st'.
Proof.
  unfold iteration. destruct (pending st) as [|next rest] eqn:Hp.
  { intros [= <-]. apply R_refl. }
  set (popped := set_queue rest (processed st) (expanded st ++ [next.1]) st).
  assert (Hpop : R st popped) by (by apply R_pop).
  pose proof (loadResource_steps next.1 popped) as Hload.
  destruct (loadResource E next.1 popped) as [loader st1]. simpl in Hload.
  pose proof (awaitPromise_steps loader st1) as Hwait.
  destruct (awaitPromise E recursive loader st1) as [result st2].
  simpl in Hwait.
  assert (Hbase : R st st2) by eauto.
  destruct result as [result|]; [|by intros [= <-]].
  destruct (match next.2 with Some k => Some k | None => _ end) as [[| |]|].
  - destruct (analyzeHtml _ _ _ _ _ _) as [[t st3]| |] eqn:Hhtml; [|done|done].
    intros [= <-]. eapply R_trans; [exact Hbase|].
    by apply (analyzeHtml_steps _ _ _ _ _ _ Hhtml).
  - intros [= <-]. eapply R_trans; [exact Hbase|apply recordCssUrls_steps].
  - intros [= <-]. eapply R_trans; [exact Hbase|apply analyzeJs_steps].
  - by intros [= <-].
Qed.

End Steps.

(** *** Discovery leaves the cache and the loop's position alone *)

Lemma discovers_refl st : discovers st st.
Proof. unfold discovers. by split_and!. Qed.

Lemma discovers_trans st1 st2 st3 :
  discovers st1 st2 -> discovers st2 st3 -> discovers st1 st3.
Proof.
  intros (Hr & Hc & Hp & Hf & He & Hq) (Hr' & Hc' & Hp' & Hf' & He' & Hq').
  unfold discovers. split_and!; try congruence; [by etrans|auto].
Qed.

Lemma recordUrl_discovers E u src base st :
  discovers st (recordUrl E u src base st).
Proof.
  unfold recordUrl, whenResolved.
  destruct (resolveUrl E base u) as [r|]; [|apply discovers_refl].
  destruct (Js.truthy r); [|apply discovers_refl].
  unfold discovers. split_and!; try done. by apply prefix_app_r.
Qed.

Lemma enqueue_discovers recursive u kind st :
  discovers st (enqueue recursive u kind st).
Proof.
  unfold enqueue. destruct (negb recursive || isSkippableUrl u);
    [apply discovers_refl|].
  destruct (set_has (processed st) u) eqn:Hu; [apply discovers_refl|].
  unfold discovers. split_and!; try done. intros [Hnd Hq]. split; simpl.
  - by apply set_add_NoDup.
  - rewrite Hq at 1. unfold set_add. rewrite <- Hq, Hu, Hq.
    by rewrite map_app, app_assoc.
Qed.

Lemma set_suspensions_discovers n st : discovers st (set_suspensions n st).
Proof. unfold discovers. by split_and!. Qed.

Lemma forEach_discovers {A} (l : list A) f st :
  (forall x st0, discovers st0 (f x st0)) -> discovers st (forEach l f st).
Proof. apply forEach_steps; [apply discovers_refl|apply discovers_trans]. Qed.

Ltac discovers_instance :=
  first [ exact discovers_refl | exact discovers_trans
        | intros; apply recordUrl_discovers
        | intros; apply enqueue_discovers
        | intros; apply set_suspensions_discovers ].

Lemma recordCssUrls_discovers E recursive cssText base st :
  discovers st (recordCssUrls E recursive cssText base st).
Proof.
  apply recordCssUrls_steps; discovers_instance.
Qed.

Lemma analyzeJs_discovers E recursive jsText base st :
  discovers st (analyzeJs E recursive jsText base st).
Proof.
  apply analyzeJs_steps; discovers_instance.
Qed.

Lemma suspend_discovers E recursive st : discovers st (suspend E recursive st).
Proof.
  apply suspend_steps; discovers_instance.
Qed.

Lemma harvestLink_discovers E recursive base link st :
  discovers st (harvestLink E recursive base link st).
Proof.
  apply harvestLink_steps; discovers_instance.
Qed.

Lemma analyzeHtml_discovers E recursive htmlText base captureTitle st t st' :
  analyzeHtml E recursive htmlText base captureTitle st = Done (t, st') ->
  discovers st st'.
Proof.
  apply analyzeHtml_steps; discovers_instance.
Qed.

Lemma analyzeInput_discovers E recursive input st t st' :
  analyzeInput E recursive input st = Done (t, st') -> discovers st st'.
Proof.
  apply analyzeInput_steps; discovers_instance.
Qed.

(** *** Without recursion nothing is enqueued *)

Lemma analyzeInput_unqueued E input st t st' :
  analyzeInput E false input st = Done (t, st') -> unqueued st st'.
Proof.
  apply analyzeInput_steps; unfold unqueued; try done.
  - intros st1 st2 st3 [-> ->] [-> ->]. done.
  - intros u src base st0. apply recordUrl_queue.
Qed.

(** ** The resource cache *)

Lemma discovers_cacheInv st st' : discovers st st' -> cacheInv st -> cacheInv st'.
Proof.
  intros (_ & Hc & _ & Hf & _) [Hnd Hin]. unfold cacheInv.
  rewrite Hc, Hf. by split.
Qed.

Lemma loadResource_cached E u st p :
  resourceCache st !! u = Some p -> loadResource E u st = (p, st).
Proof. intros H. unfold loadResource. by rewrite H. Qed.

Lemma loadResource_fresh E u st :
  resourceCache st !! u = None ->
  loadResource E u st
  = (length (promises st),
     set_cache (<[u := length (promises st)]> (resourceCache st))
       (promises st ++
          [if fetch_available E
           then {| settled := false;
                   value := resourceOf (fetch E (length (fetchLog st)) u) |}
           else {| settled := true; value := None |}])
       (fetchLog st ++ (if fetch_available E then [u] else [])) st).
Proof.
  intros H. unfold loadResource, fetchResourceContent. rewrite H.
  destruct (fetch_available E); simpl; [done|]. by rewrite app_nil_r.
Qed.

(** A load leaves the log and the queue alone, keeps the entries the cache
    has, and keeps the cache invariant. *)
Lemma loadResource_frame E u st :
  let st' := snd (loadResource E u st) in
  requests st' = requests st /\ pending st' = pending st
  /\ processed st' = processed st /\ expanded st' = expanded st
  /\ (forall v p, resourceCache st !! v = Some p ->
                  resourceCache st' !! v = Some p)
  /\ (cacheInv st -> cacheInv st').
Proof.
  destruct (resourceCache st !! u) as [p|] eqn:Hu.
  - rewrite (loadResource_cached _ _ _ _ Hu). simpl. by split_and!.
  - rewrite (loadResource_fresh _ _ _ Hu). simpl. split_and!; try done.
    + intros v p Hv. rewrite lookup_insert_ne; [done|]. by intros ->; congruence.
    + intros [Hnd Hin]. split; simpl.
      * destruct (fetch_available E); [|by rewrite app_nil_r].
        apply NoDup_app. split_and!; [done| |apply NoDup_singleton].
        intros v Hv ->%list_elem_of_singleton.
        apply Hin in Hv as [p Hp]. congruence.
      * intros v Hv. destruct (decide (v = u)) as [->|Hne].
        -- rewrite lookup_insert_eq. by eexists.
        -- rewrite lookup_insert_ne by done. apply Hin.
           apply elem_of_app in Hv as [Hv|Hv]; [done|].
           destruct (fetch_available E).
           ++ apply list_elem_of_singleton in Hv. congruence.
           ++ by apply not_elem_of_nil in Hv.
Qed.

Lemma settle_frame p st :
  requests (settle p st) = requests st /\ pending (settle p st) = pending st
  /\ processed (settle p st) = processed st
  /\ expanded (settle p st) = expanded st
  /\ resourceCache (settle p st) = resourceCache st
  /\ fetchLog (settle p st) = fetchLog st.
Proof. by split_and!. Qed.

Lemma cacheCalls_frame E cs : forall st,
  (forall v p, resourceCache st !! v = Some p ->
               resourceCache (cacheCalls E cs st) !! v = Some p)
  /\ (cacheInv st -> cacheInv (cacheCalls E cs st)).
Proof.
  unfold cacheCalls. induction cs as [|c cs IH]; intros st; simpl; [done|].
  destruct (IH (cacheCall E st c)) as [IH1 IH2]. destruct c as [u|p]; simpl in *.
  - destruct (loadResource_frame E u st) as (_ & _ & _ & _ & Hk & Hi).
    split; [intros v p Hv; by apply IH1, Hk|intros Hc; by apply IH2, Hi].
  - split; [intros v q Hv; by apply IH1|].
    intros Hc. by apply IH2.
Qed.

(** ** The turns of the drain loop *)

Lemma iteration_spec E recursive st next rest st' :
  pending st = next :: rest ->
  iteration E recursive st = Done st' ->
  requests st `prefix_of` requests st'
  /\ expanded st' = expanded st ++ [fst next]
  /\ (queueInv st -> queueInv st')
  /\ (cacheInv st -> cacheInv st').
Proof.
  intros Hp. unfold iteration. rewrite Hp.
  set (popped := set_queue rest (processed st) (expanded st ++ [fst next]) st).
  pose proof (loadResource_frame E (fst next) popped) as Hload.
  destruct (loadResource E (fst next) popped) as [loader st1]. simpl in Hload.
  destruct Hload as (Hr1 & Hp1 & Hs1 & He1 & _ & Hc1).
  unfold awaitPromise.
  pose proof (suspend_discovers E recursive (settle loader st1)) as Hsus.
  set (st2 := suspend E recursive (settle loader st1)) in *.
  assert (Hbase : forall st3, discovers st2 st3 ->
            requests st `prefix_of` requests st3
            /\ expanded st3 = expanded st ++ [fst next]
            /\ (queueInv st -> queueInv st3)
            /\ (cacheInv st -> cacheInv st3)).
  { intros st3 H3. pose proof (discovers_trans _ _ _ Hsus H3) as Hd.
    destruct Hd as (Hr & Hc & Hpr & Hf & He & Hq). split_and!.
    - simpl in Hr. by rewrite Hr1 in Hr.
    - rewrite He. simpl. by rewrite He1.
    - intros [Hnd Hqi]. apply Hq. split; simpl.
      + by rewrite Hs1.
      + rewrite Hs1, He1, Hp1. simpl. rewrite Hqi, Hp. simpl.
        by rewrite <- app_assoc.
    - intros Hci. apply (discovers_cacheInv (settle loader st1)).
      + by unfold discovers; split_and!.
      + destruct (Hc1 Hci) as [Hnd Hin]. by split.
  }
  destruct (promises st1 !! loader) as [pr|]; [|intros [= <-];
    apply Hbase, discovers_refl].
  destruct (value pr) as [result|]; [|intros [= <-];
    apply Hbase, discovers_refl].
  destruct (match next.2 with Some k => Some k | None => _ end) as [[| |]|].
  - destruct (analyzeHtml _ _ _ _ _ _) as [[t st3]| |] eqn:Hhtml; [|done|done].
    intros [= <-]. by apply Hbase, (analyzeHtml_discovers _ _ _ _ _ _ _ _ Hhtml).
  - intros [= <-]. apply Hbase, recordCssUrls_discovers.
  - intros [= <-]. apply Hbase, analyzeJs_discovers.
  - intros [= <-]. apply Hbase, discovers_refl.
Qed.

Lemma processPending_spec E recursive fuel : forall st st',
  processPending E recursive fuel st = Done st' ->
  requests st `prefix_of` requests st'
  /\ pending st' = []
  /\ (queueInv st -> queueInv st')
  /\ (cacheInv st -> cacheInv st').
Proof.
  induction fuel as [|fuel IH]; intros st st'; simpl.
  - destruct (pending st) eqn:Hp; [|done]. intros [= <-]. by split_and!.
  - destruct (pending st) as [|next rest] eqn:Hp.
    + intros [= <-]. by split_and!.
    + destruct (iteration E recursive st) as [st1| |] eqn:Hit; [|done|done].
      intros Hrest. apply IH in Hrest as (Hr & Hpe & Hq & Hc).
      destruct (iteration_spec _ _ _ _ _ _ Hp Hit) as (Hr1 & _ & Hq1 & Hc1).
      split_and!; [by etrans|done|auto|auto].
Qed.

Lemma startState_inv : queueInv startState /\ cacheInv startState.
Proof.
  split; split; simpl; try apply NoDup_nil_2; try done.
  intros u Hu. by apply not_elem_of_nil in Hu.
Qed.

Lemma runState_spec E input options fuel t st :
  runState E input options fuel = Done (t, st) ->
  pending st = [] /\ queueInv st /\ cacheInv st.
Proof.
  unfold runState.
  destruct (analyzeInput _ _ _ _) as [[t0 st0]| |] eqn:Hin; [|done|done].
  destruct (processPending _ _ _ _) as [st1| |] eqn:Hpp; [|done|done].
  intros [= -> ->]. apply analyzeInput_discovers in Hin.
  apply processPending_spec in Hpp as (_ & Hp & Hq & Hc).
  destruct startState_inv as [Hq0 Hc0]. split_and!; [done| |].
  - apply Hq. by apply Hin.
  - apply Hc. by apply (discovers_cacheInv startState).
Qed.

Lemma reachable_cacheInv E recursive input st :
  reachable E recursive input st -> cacheInv st.
Proof.
  induction 1 as [t st Hin|st st' _ IH Hit].
  - apply analyzeInput_discovers in Hin.
    by apply (discovers_cacheInv startState), startState_inv.
  - destruct (pending st) as [|next rest] eqn:Hp.
    + unfold iteration in Hit. rewrite Hp in Hit. by injection Hit as <-.
    + destruct (iteration_spec _ _ _ _ _ _ Hp Hit) as (_ & _ & _ & Hc). auto.
Qed.

(** C1.  A load of a cached URL returns the cached promise and changes
    nothing; a load of a URL not yet cached stores its promise under the
    URL at once, still unsettled, and invokes [fetch] once (not at all when
    there is no [fetch]); whatever loads and settlements come in between, a
    later load of the same URL returns the same promise without a new
    retrieval; over any sequence of cache calls, and at every point of a
    run, no URL has been fetched twice; and a rejected fetch, a non-ok response and an
    unreadable body all resolve to the absent value, which is cached like
    any other. *)
Theorem resource_cache_memoises :
  (forall E u st p,
     resourceCache st !! u = Some p -> loadResource E u st = (p, st))
  /\ (forall E u st,
        resourceCache st !! u = None ->
        let r := loadResource E u st in
        resourceCache (snd r) !! u = Some (fst r)
        /\ promises (snd r) !! (fst r)
           = Some (if fetch_available E
                   then {| settled := false;
                           value := resourceOf
                                      (fetch E (length (fetchLog st)) u) |}
                   else {| settled := true; value := None |})
        /\ fetchLog (snd r)
           = fetchLog st ++ (if fetch_available E then [u] else []))
  /\ (forall E u calls st,
        let first := loadResource E u st in
        let later := loadResource E u (cacheCalls E calls (snd first)) in
        fst later = fst first /\ snd later = cacheCalls E calls (snd first))
  /\ (forall E calls, NoDup (fetchLog (cacheCalls E calls initialState)))
  /\ (forall E recursive input st,
        reachable E recursive input st -> NoDup (fetchLog st))
  /\ (forall E input options fuel t st,
        runState E input options fuel = Done (t, st) -> NoDup (fetchLog st))
  /\ (resourceOf FetchRejects = None
      /\ (forall body header, resourceOf (FetchResponse false body header) = None)
      /\ (forall header, resourceOf (FetchResponse true None header) = None)).
Proof.
  split_and!.
  - exact loadResource_cached.
  - intros E u st Hu r. subst r. rewrite (loadResource_fresh _ _ _ Hu). simpl.
    split_and!; [apply lookup_insert_eq| |done].
    by rewrite lookup_app_r, Nat.sub_diag.
  - intros E u calls st first later. subst later.
    assert (Hc : resourceCache (snd first) !! u = Some (fst first)).
    { subst first. destruct (resourceCache st !! u) as [p|] eqn:Hu.
      - by rewrite (loadResource_cached _ _ _ _ Hu).
      - rewrite (loadResource_fresh _ _ _ Hu). simpl. apply lookup_insert_eq. }
    apply (proj1 (cacheCalls_frame E calls (snd first))) in Hc.
    by rewrite (loadResource_cached _ _ _ _ Hc).
  - intros E calls. apply (proj2 (cacheCalls_frame E calls initialState)).
    split; simpl; [apply NoDup_nil_2|]. intros u Hu.
    by apply not_elem_of_nil in Hu.
  - intros E recursive input st Hreach.
    by destruct (reachable_cacheInv _ _ _ _ Hreach).
  - intros E input options fuel t st Hrun.
    by destruct (runState_spec _ _ _ _ _ _ Hrun) as (_ & _ & [Hnd _]).
  - done.
  - done.
  - done.
Qed.

(** C1 (witness): two loads of one URL with a settlement in between, and
    the run over the two style sheets that import each other. *)
Lemma resource_cache_memoises_witness :
  (let first := loadResource Demo.env Demo.aCss startState in
   let later :=
     loadResource Demo.env Demo.aCss
       (cacheCalls Demo.env [CallSettle 0; CallLoad Demo.bCss] (snd first)) in
   fst later = fst first
   /\ resourceCache (snd first) !! Demo.aCss = Some (fst first)
   /\ fetchLog (snd first) = [Demo.aCss]
   /\ loadResource Demo.env Demo.aCss (snd first) = (fst first, snd first))
  /\ NoDup (fetchLog Demo.afterSecondTurn)
  /\ (exists t st,
        runState Demo.env Demo.cssInput (Demo.options true) 5 = Done (t, st)
        /\ NoDup (fetchLog st)
        /\ fetchLog st = [Demo.aCss; Demo.bCss]).
Proof.
  destruct resource_cache_memoises as (H1 & H2 & H3 & _ & H5 & H6 & _).
  split; [|split].
  - split; [|split; [|split]].
    + apply (H3 Demo.env Demo.aCss [CallSettle 0; CallLoad Demo.bCss]
               startState).
    + apply (H2 Demo.env Demo.aCss startState). reflexivity.
    + apply (H2 Demo.env Demo.aCss startState). reflexivity.
    + apply H1. apply (H2 Demo.env Demo.aCss startState). reflexivity.
  - apply (H5 Demo.env true Demo.cssInput).
    apply reach_turn with (st := Demo.afterFirstTurn);
      [|vm_compute; reflexivity].
    apply reach_turn with (st := Demo.afterInput); [|vm_compute; reflexivity].
    apply reach_first with (t := None). vm_compute. reflexivity.
  - eexists _, _. split; [vm_compute; reflexivity|]. split.
    + eapply (H6 Demo.env Demo.cssInput (Demo.options true) 5).
      vm_compute. reflexivity.
    + reflexivity.
Defined.

(** ** The request log *)

Lemma recordUrl_appends E u src base st resolved :
  resolveUrl E base u = Some resolved -> resolved <> "" ->
  recordUrl E u src base st
  = set_requests
      (fun rs => rs ++ [{| url := resolved; source := src;
                           timestamp := now E (clockReads st) |}])
      (S (clockReads st)) st.
Proof.
  intros Hr Hne. unfold recordUrl, whenResolved. rewrite Hr.
  by destruct resolved.
Qed.

Lemma resolveUrl_nonempty E base u :
  nonEmptyURLs E -> u <> "" ->
  exists resolved, resolveUrl E base u = Some resolved /\ resolved <> "".
Proof.
  intros HE Hu. unfold resolveUrl. destruct u as [|c u]; [done|]. simpl.
  destruct (truthyOpt base).
  - destruct (URL_parse E base _) as [s|] eqn:Hp; eexists; split; try done.
    by apply HE in Hp.
  - destruct (URL_parse E None _) as [s|] eqn:Hp; eexists; split; try done.
    by apply HE in Hp.
Qed.

(** C9.  Every part of a run leaves the records already in the log where
    they are and only adds records behind them: the first analysis pass,
    each turn of the drain loop and the loop as a whole.  And [recordUrl]
    appends its record whatever the log already holds: a URL recorded
    before is recorded again. *)
Theorem request_log_append_only :
  (forall E recursive input st t st',
     analyzeInput E recursive input st = Done (t, st') ->
     requests st `prefix_of` requests st')
  /\ (forall E recursive st st',
        iteration E recursive st = Done st' ->
        requests st `prefix_of` requests st')
  /\ (forall E recursive fuel st st',
        processPending E recursive fuel st = Done st' ->
        requests st `prefix_of` requests st')
  /\ (forall E u src base st resolved,
        resolveUrl E base u = Some resolved -> resolved <> "" ->
        requests (recordUrl E u src base st)
        = requests st ++ [{| url := resolved; source := src;
                             timestamp := now E (clockReads st) |}]).
Proof.
  split_and!.
  - intros E recursive input st t st' H.
    by destruct (analyzeInput_discovers _ _ _ _ _ _ H).
  - intros E recursive st st' H. destruct (pending st) as [|next rest] eqn:Hp.
    + unfold iteration in H. rewrite Hp in H. by injection H as <-.
    + by destruct (iteration_spec _ _ _ _ _ _ Hp H).
  - intros E recursive fuel st st' H.
    by destruct (processPending_spec _ _ _ _ _ H).
  - intros E u src base st resolved Hr Hne.
    by rewrite (recordUrl_appends _ _ _ _ _ _ Hr Hne).
Qed.

(** C9 (witness): the same URL recorded through two mechanisms stays in
    the log twice, and the first pass, a turn and the whole drain loop of
    the demo run only add to the log they find. *)
Lemma request_log_append_only_witness :
  map untimedRecord
    (requests (recordUrl Demo.env "https://e.com/api" SrcXhr None
                 (recordUrl Demo.env "https://e.com/api" SrcFetch None
                    startState)))
  = [("https://e.com/api", SrcFetch); ("https://e.com/api", SrcXhr)]
  /\ requests startState `prefix_of` requests Demo.afterInput
  /\ requests Demo.afterInput `prefix_of` requests Demo.afterFirstTurn
  /\ (exists st',
        processPending Demo.env true 5 Demo.afterInput = Done st'
        /\ requests Demo.afterInput `prefix_of` requests st').
Proof.
  destruct request_log_append_only as (H1 & H2 & H3 & H4).
  split; [|split; [|split]].
  - rewrite (H4 Demo.env "https://e.com/api" SrcXhr None _ "https://e.com/api");
      [|reflexivity|discriminate].
    rewrite (H4 Demo.env "https://e.com/api" SrcFetch None _ "https://e.com/api");
      [|reflexivity|discriminate].
    reflexivity.
  - apply (H1 Demo.env true Demo.cssInput startState None).
    vm_compute. reflexivity.
  - apply (H2 Demo.env true). vm_compute. reflexivity.
  - eexists. split; [vm_compute; reflexivity|].
    eapply (H3 Demo.env true 5). vm_compute. reflexivity.
Defined.

(** ** Skippable schemes *)



Lemma reachable_queueInv E recursive input st :
  reachable E recursive input st -> queueInv st.
Proof.
  induction 1 as [t st Hin|st st' _ IH Hit].
  - apply analyzeInput_discovers in Hin. apply Hin, startState_inv.
  - destruct (pending st) as [|next rest] eqn:Hp.
    + unfold iteration in Hit. rewrite Hp in Hit. by injection Hit as <-.
    + destruct (iteration_spec _ _ _ _ _ _ Hp Hit) as (_ & _ & Hq & _). auto.
Qed.



Lemma reachable_hintsAgree E recursive input st :
  reachable E recursive input st -> hintsAgree st.
Proof.
  set (R := fun st st' : RunState => hintsAgree st -> hintsAgree st').
  assert (Hrefl : forall st0, R st0 st0) by (by intros st0 H).
  assert (Htrans : forall a b c, R a b -> R b c -> R a c)
    by (intros a b c Hab Hbc H; by apply Hbc, Hab).
  assert (Hrec : forall u src base st0, R st0 (recordUrl E u src base st0)).
  { intros u src base st0 H v.
    by rewrite (proj1 (recordUrl_queue E u src base st0)); apply H. }
  assert (Henq : forall u kind st0,
            (kind = None -> inferResourceKindFromUrl u = None) ->
            R st0 (enqueue recursive u kind st0)).
  { intros u kind st0 Hkind H. unfold enqueue.
    destruct (negb recursive || isSkippableUrl u); [done|].
    destruct (set_has (processed st0) u); [done|].
    intros v. simpl.
    intros [Hv | [= -> <-]%list_elem_of_singleton]%elem_of_app; [by apply H|].
    by apply Hkind. }
  assert (Hsus : forall n st0, R st0 (set_suspensions n st0)) by (by intros n st0 H).
  assert (Hpop : forall next rest st0,
            pending st0 = next :: rest ->
            R st0 (set_queue rest (processed st0) (expanded st0 ++ [next.1])
                     st0)).
  { intros next rest st0 Hp H v Hv. apply H. rewrite Hp.
    apply elem_of_cons. by right. }
  assert (Hcache : forall c ps l st0, R st0 (set_cache c ps l st0))
    by (by intros c ps l st0 H).
  induction 1 as [t st Hin|st st' _ IH Hit].
  - apply (analyzeInput_steps E recursive R Hrefl Htrans Hrec Henq Hsus
             _ _ _ _ Hin).
    intros u Hu. by apply not_elem_of_nil in Hu.
  - by apply (iteration_steps E recursive R Hrefl Htrans Hrec Henq Hsus Hpop
                Hcache _ _ Hit).
Qed.

Lemma demo_nonEmptyURLs : nonEmptyURLs Demo.env.
Proof.
  intros base u s. simpl. unfold Demo.parse.
  destruct (Demo.isAbsolute u) eqn:Hu.
  - intros [= <-] ->. done.
  - destruct base as [b|]; [|done]. destruct (Demo.isAbsolute b) eqn:Hb; [|done].
    intros [= <-]. by destruct b.
Defined.

(** ** The discovery queue *)

Lemma queueInv_expanded st : queueInv st -> NoDup (expanded st).
Proof. intros [Hnd Hq]. rewrite Hq in Hnd. by apply NoDup_app in Hnd as []. Qed.

Lemma NoDup_subseteq_length (l k : list string) :
  NoDup l -> l ⊆ k -> length l <= length k.
Proof. intros Hnd Hsub. apply submseteq_length. by apply NoDup_submseteq. Qed.

Lemma analyzeHtml_returns E recursive htmlText base captureTitle st :
  analyzeHtml E recursive htmlText base captureTitle st <> OutOfFuel.
Proof. unfold analyzeHtml. by destruct (render E htmlText base). Qed.

(** One turn of the loop always comes back: with a state, or with the
    rendering environment's failure. *)
Lemma iteration_returns E recursive st : iteration E recursive st <> OutOfFuel.
Proof.
  unfold iteration. destruct (pending st) as [|next rest]; [done|].
  destruct (loadResource _ _ _) as [loader st1].
  destruct (awaitPromise _ _ _ _) as [[result|] st2]; [|done].
  destruct (match next.2 with Some k => Some k | None => _ end) as [[| |]|];
    try done.
  pose proof (analyzeHtml_returns E recursive (text result) (Some next.1)
                false st2) as Hh.
  by destruct (analyzeHtml _ _ _ _ _ _) as [[t st3]| |].
Qed.

(** With every enqueued URL inside the finite [U], a loop that has already
    taken [length (expanded st)] items ends within the turns that are
    left. *)
Lemma processPending_terminates E recursive input (U : list string) :
  (forall st, reachable E recursive input st -> processed st ⊆ U) ->
  forall fuel st,
    reachable E recursive input st ->
    length U - length (expanded st) < fuel ->
    processPending E recursive fuel st <> OutOfFuel.
Proof.
  intros HU. induction fuel as [|fuel IH]; intros st Hreach Hfuel; [lia|].
  simpl. destruct (pending st) as [|next rest] eqn:Hp; [done|].
  pose proof (iteration_returns E recursive st) as Hret.
  destruct (iteration E recursive st) as [st'| |] eqn:Hit; [|done|done].
  pose proof (reachable_queueInv _ _ _ _ Hreach) as [Hnd Hq].
  destruct (iteration_spec _ _ _ _ _ _ Hp Hit) as (_ & He & _ & _).
  apply IH; [by eapply reach_turn|].
  pose proof (NoDup_subseteq_length _ _ Hnd (HU st Hreach)) as Hlen.
  rewrite Hq, Hp in Hlen. rewrite He. simpl in Hlen.
  rewrite !length_app in *. simpl in *. lia.
Qed.

(** C2.  [enqueue] does nothing for a URL that is in the set of processed
    URLs; when it does enqueue (recursion enabled, URL not skippable and
    not yet processed) it adds the URL to the set and the item to the end
    of the queue in one step, and it never does one without the other.  If
    all the URLs a run can enqueue lie in a finite list, the run ends after
    at most one turn per element of that list.  Each turn takes the item at
    the head of the queue; between turns the queue holds exactly the
    enqueued URLs not yet taken, in the order of their enqueueing, and no URL
    is taken twice; so when the run ends, the URLs taken are the URLs
    enqueued, in that order, each once. *)
Theorem drain_loop_terminates :
  (forall recursive u kind st,
     u ∈ processed st -> enqueue recursive u kind st = st)
  /\ (forall u kind st,
        isSkippableUrl u = false -> u ∉ processed st ->
        processed (enqueue true u kind st) = processed st ++ [u]
        /\ pending (enqueue true u kind st) = pending st ++ [(u, kind)])
  /\ (forall recursive u kind st,
        enqueue recursive u kind st = st
        \/ ((u ∉ processed st)
            /\ processed (enqueue recursive u kind st) = processed st ++ [u]
            /\ pending (enqueue recursive u kind st)
               = pending st ++ [(u, kind)]))
  /\ (forall E input options (U : list string),
        (forall st,
           reachable E (default false (recursion options)) input st ->
           processed st ⊆ U) ->
        forall fuel, length U < fuel ->
        runState E input options fuel <> OutOfFuel)
  /\ (forall E recursive st next rest st',
        pending st = next :: rest ->
        iteration E recursive st = Done st' ->
        expanded st' = expanded st ++ [fst next])
  /\ (forall E recursive input st,
        reachable E recursive input st ->
        NoDup (expanded st)
        /\ processed st = expanded st ++ map fst (pending st))
  /\ (forall E input options fuel t st,
        runState E input options fuel = Done (t, st) ->
        expanded st = processed st /\ NoDup (expanded st)).
Proof.
  split_and!.
  - intros recursive u kind st Hu. unfold enqueue.
    destruct (negb recursive || isSkippableUrl u); [done|].
    apply set_has_spec in Hu. by rewrite Hu.
  - intros u kind st Hs Hu. unfold enqueue. rewrite Hs. simpl.
    assert (set_has (processed st) u = false) as Hh.
    { destruct (set_has _ _) eqn:H; [|done]. by apply set_has_spec in H. }
    rewrite Hh. simpl. unfold set_add. by rewrite Hh.
  - intros recursive u kind st. unfold enqueue.
    destruct (negb recursive || isSkippableUrl u); [by left|].
    destruct (set_has (processed st) u) eqn:Hh; [by left|]. right. simpl.
    unfold set_add. rewrite Hh. split_and!; [|done|done].
    intros Hin. apply set_has_spec in Hin. congruence.
  - intros E input options U HU fuel Hfuel. unfold runState.
    destruct (analyzeInput _ _ _ _) as [[t st]| |] eqn:Hin; [|done|].
    + pose proof (processPending_terminates _ _ _ U HU fuel st) as Hterm.
      destruct (processPending _ _ _ _); [done|done|].
      exfalso. apply Hterm; [by eapply reach_first|lia|done].
    + unfold analyzeInput in Hin.
      destruct (detectInputKind input); [|done|done].
      by apply analyzeHtml_returns in Hin.
  - intros E recursive st next rest st' Hp Hit.
    by destruct (iteration_spec _ _ _ _ _ _ Hp Hit) as (_ & He & _).
  - intros E recursive input st Hreach.
    pose proof (reachable_queueInv _ _ _ _ Hreach) as Hq.
    split; [by apply queueInv_expanded|apply Hq].
  - intros E input options fuel t st Hrun.
    destruct (runState_spec _ _ _ _ _ _ Hrun) as (Hp & Hq & _).
    split; [|by apply queueInv_expanded].
    destruct Hq as [_ ->]. rewrite Hp. simpl. by rewrite app_nil_r.
Qed.

Lemma demo_reachable st :
  reachable Demo.env true Demo.cssInput st ->
  st = Demo.afterInput \/ st = Demo.afterFirstTurn \/ st = Demo.afterSecondTurn.
Proof.
  induction 1 as [t st Hin|st st' _ IH Hit].
  - left. vm_compute in Hin. by injection Hin as _ <-.
  - destruct IH as [-> | [-> | ->]].
    + right. left. vm_compute in Hit. by injection Hit as <-.
    + right. right. vm_compute in Hit. by injection Hit as <-.
    + right. right. vm_compute in Hit. by injection Hit as <-.
Defined.

(** C2 (witness): the run over the two style sheets that import each
    other ends, having taken each of them once, in the order they were
    enqueued; on the way, the second import of the first sheet is not
    enqueued again. *)
Lemma drain_loop_terminates_witness :
  runState Demo.env Demo.cssInput (Demo.options true) 3 <> OutOfFuel
  /\ enqueue true Demo.aCss (Some css) Demo.afterFirstTurn = Demo.afterFirstTurn
  /\ (processed (enqueue true Demo.bCss (Some css) Demo.afterInput)
      = [Demo.aCss; Demo.bCss]
      /\ pending (enqueue true Demo.bCss (Some css) Demo.afterInput)
         = [(Demo.aCss, Some css); (Demo.bCss, Some css)])
  /\ expanded Demo.afterFirstTurn = expanded Demo.afterInput ++ [Demo.aCss]
  /\ (NoDup (expanded Demo.afterFirstTurn)
      /\ processed Demo.afterFirstTurn
         = expanded Demo.afterFirstTurn ++ map fst (pending Demo.afterFirstTurn))
  /\ (exists t st,
        runState Demo.env Demo.cssInput (Demo.options true) 3 = Done (t, st)
        /\ expanded st = [Demo.aCss; Demo.bCss]
        /\ expanded st = processed st /\ NoDup (expanded st)).
Proof.
  destruct drain_loop_terminates as (H1 & H2 & _ & H4 & H5 & H6 & H7).
  assert (Hfirst : reachable Demo.env true Demo.cssInput Demo.afterInput)
    by (apply reach_first with (t := None); vm_compute; reflexivity).
  split; [|split; [|split; [|split; [|split]]]].
  - apply (H4 Demo.env Demo.cssInput (Demo.options true)
             [Demo.aCss; Demo.bCss]); [|simpl; lia].
    intros st Hreach. apply demo_reachable in Hreach.
    destruct Hreach as [-> | [-> | ->]]; simpl; intros u Hu;
      repeat (apply elem_of_cons in Hu as [->|Hu];
              [repeat constructor|]);
      by apply not_elem_of_nil in Hu.
  - apply H1. simpl. apply list_elem_of_here.
  - apply H2; [reflexivity|]. simpl.
    intros [[=]|Hin%not_elem_of_nil]%elem_of_cons. done.
  - apply (H5 Demo.env true Demo.afterInput (Demo.aCss, Some css) []);
      [reflexivity|vm_compute; reflexivity].
  - apply (H6 Demo.env true Demo.cssInput).
    apply reach_turn with (st := Demo.afterInput); [done|].
    vm_compute. reflexivity.
  - eexists _, _. split; [vm_compute; reflexivity|].
    split; [reflexivity|].
    eapply (H7 Demo.env Demo.cssInput (Demo.options true) 3).
    vm_compute. reflexivity.
Defined.

(** ** Link elements *)

Lemma discovers_member st st' r :
  discovers st st' -> r ∈ requests st -> r ∈ requests st'.
Proof.
  intros ([k Hk] & _) Hr. rewrite Hk. apply elem_of_app. by left.
Qed.

Lemma forEach_member {A} (l : list A) f x (P : RequestRecord -> Prop) :
  x ∈ l ->
  (forall y st0, discovers st0 (f y st0)) ->
  (forall st0, exists r, r ∈ requests (f x st0) /\ P r) ->
  forall st, exists r, r ∈ requests (forEach l f st) /\ P r.
Proof.
  intros Hx Hf Hrec. unfold forEach.
  induction l as [|y l IH]; intros st; [by apply not_elem_of_nil in Hx|].
  simpl. apply elem_of_cons in Hx as [<-|Hx]; [|by apply IH].
  destruct (Hrec st) as (r & Hr & HP). exists r. split; [|done].
  apply (discovers_member (f x st)); [|done].
  by apply (forEach_discovers l f (f x st)).
Qed.

Lemma harvestLink_icon E recursive base link rel st :
  nonEmptyURLs E ->
  isHTMLElement link = true ->
  getAttribute link "rel" = Some rel ->
  Js.includes (Js.toLowerCase rel) "icon" = true ->
  let href := default (hrefProp link) (getAttribute link "href") in
  Js.truthy href = true ->
  (exists r extra,
     requests (harvestLink E recursive base link st) = requests st ++ r :: extra
     /\ source r = SrcResource
     /\ resolveUrl E None (default href (resolveUrl E base href)) = Some (url r))
  /\ (Js.includes (Js.toLowerCase rel) "stylesheet" = false ->
      Js.includes (Js.toLowerCase rel) "preload" = false ->
      pending (harvestLink E recursive base link st) = pending st
      /\ processed (harvestLink E recursive base link st) = processed st).
Proof.
  intros HE Hhtml Hrel Hicon href Hhref.
  assert (Hne : href <> "") by (by intros Heq; rewrite Heq in Hhref).
  destruct (resolveUrl_nonempty E base href HE Hne) as (x & Hx & Hxne).
  destruct (resolveUrl_nonempty E None x HE Hxne) as (y & Hy & Hyne).
  unfold harvestLink. rewrite Hhtml, Hrel. simpl negb. cbv iota. simpl default.
  assert (shouldInterceptLinkRel rel = true) as ->.
  { unfold shouldInterceptLinkRel. by rewrite Hicon, !orb_true_r. }
  fold href. rewrite Hhref, Hx. simpl default.
  set (st1 := recordUrl E x SrcResource None st).
  assert (H1 : requests st1
               = requests st ++ [{| url := y; source := SrcResource;
                                    timestamp := now E (clockReads st) |}]).
  { subst st1. by rewrite (recordUrl_appends _ _ _ _ _ _ Hy Hyne). }
  split.
  - match goal with |- exists r extra, requests ?final = _ /\ _ =>
      assert (Hd : discovers st1 final)
    end.
    { repeat first
        [ apply discovers_refl
        | match goal with
          | |- discovers _ (if ?b then _ else _) => destruct b
          | |- discovers _ (match ?o with Some _ => _ | None => _ end) =>
              destruct o
          end
        | eapply discovers_trans;
          [|apply forEach_discovers; intros; apply recordUrl_discovers]
        | eapply discovers_trans; [|apply enqueue_discovers] ]. }
    destruct Hd as ([k Hk] & _). eexists _, k. rewrite Hk, H1.
    rewrite <- app_assoc. by split_and!.
  - intros -> ->. subst st1. apply recordUrl_queue.
Qed.

(** C10 (counterexample).  A link whose [rel] names an icon and a style
    sheet is an icon link, and the harvest enqueues it. *)
Lemma styled_icon_link_enqueued :
  Js.includes (Js.toLowerCase "icon stylesheet") "icon" = true
  /\ getAttribute Demo.styledIcon "rel" = Some "icon stylesheet"
  /\ pending (harvestLink Demo.env true None Demo.styledIcon startState)
     = [("https://e.com/i.css", Some css)].
Proof. by vm_compute. Qed.

(** C10 (the amended claim).  For a link element whose [rel] contains
    [icon] in any letter case and whose [href] is not empty, the harvest
    appends a record with source [resource] for the resolved [href] (the
    [href] resolved against the base, and that result once more on its
    own, as [recordUrl] does), the same way as for the other intercepted
    [rel] values; and when the [rel] contains neither [stylesheet] nor
    [preload], the link's step leaves the queue and the set of processed
    URLs as they were.  The record is in the log when the analysis of the
    document ends. *)
Theorem icon_link_recorded :
  (forall E recursive base link rel st,
     nonEmptyURLs E ->
     isHTMLElement link = true ->
     getAttribute link "rel" = Some rel ->
     Js.includes (Js.toLowerCase rel) "icon" = true ->
     let href := default (hrefProp link) (getAttribute link "href") in
     Js.truthy href = true ->
     (exists r extra,
        requests (harvestLink E recursive base link st)
        = requests st ++ r :: extra
        /\ source r = SrcResource
        /\ resolveUrl E None (default href (resolveUrl E base href))
           = Some (url r))
     /\ (Js.includes (Js.toLowerCase rel) "stylesheet" = false ->
         Js.includes (Js.toLowerCase rel) "preload" = false ->
         pending (harvestLink E recursive base link st) = pending st
         /\ processed (harvestLink E recursive base link st) = processed st))
  /\ (forall E recursive htmlText base captureTitle st t st' dom link rel,
        nonEmptyURLs E ->
        render E htmlText base = Some dom ->
        link ∈ elements dom ->
        hasTag link "link" = true ->
        isHTMLElement link = true ->
        getAttribute link "rel" = Some rel ->
        Js.includes (Js.toLowerCase rel) "icon" = true ->
        let href := default (hrefProp link) (getAttribute link "href") in
        Js.truthy href = true ->
        analyzeHtml E recursive htmlText base captureTitle st = Done (t, st') ->
        exists r,
          r ∈ requests st'
          /\ source r = SrcResource
          /\ resolveUrl E None (default href (resolveUrl E base href))
             = Some (url r)).
Proof.
  split; [exact harvestLink_icon|].
  intros E recursive htmlText base captureTitle st t st' dom link rel
    HE Hdom Hin Htag Hhtml Hrel Hicon href Hhref Hrun.
  unfold analyzeHtml in Hrun. rewrite Hdom in Hrun. injection Hrun as _ <-.
  set (P := fun r : RequestRecord =>
              source r = SrcResource
              /\ resolveUrl E None (default href (resolveUrl E base href))
                 = Some (url r)).
  cut (exists r, r ∈ requests
                       (harvest E recursive (elements dom) base
                          (forEach (intercepted dom) (interceptor E recursive) st))
                 /\ P r).
  { intros (r & Hr & HP). exists r. split; [|exact HP].
    by apply (discovers_member _ _ _ (suspend_discovers E recursive _)). }
  unfold harvest. cbv zeta.
  apply forEach_member with (x := link).
  - unfold select. apply list_elem_of_In, filter_In. split.
    + by apply list_elem_of_In.
    + rewrite Htag. unfold hasAttribute. by rewrite Hrel.
  - intros. apply harvestLink_discovers.
  - intros st0.
    destruct (harvestLink_icon E recursive base link rel st0 HE Hhtml Hrel
                Hicon Hhref) as [(r & extra & Hreq & Hsrc & Hurl) _].
    exists r. split; [|by split].
    rewrite Hreq. apply elem_of_app. right. apply list_elem_of_here.
Qed.

(** C10 (witness): the icon link of the demo page, in its own step and in
    the analysis of the page. *)
Lemma icon_link_recorded_witness :
  ((exists r extra,
      requests (harvestLink Demo.env true (Some "https://e.com") Demo.iconLink
                  startState)
      = requests startState ++ r :: extra
      /\ source r = SrcResource
      /\ resolveUrl Demo.env None
           (default "/favicon.ico"
              (resolveUrl Demo.env (Some "https://e.com") "/favicon.ico"))
         = Some (url r))
   /\ pending (harvestLink Demo.env true (Some "https://e.com") Demo.iconLink
                 startState) = []
   /\ processed (harvestLink Demo.env true (Some "https://e.com")
                   Demo.iconLink startState) = [])
  /\ (exists t st',
        analyzeHtml Demo.env true "<link rel='shortcut icon' href='/favicon.ico'>"
          (Some "https://e.com") true startState = Done (t, st')
        /\ exists r,
             r ∈ requests st'
             /\ source r = SrcResource
             /\ resolveUrl Demo.env None
                  (default "/favicon.ico"
                     (resolveUrl Demo.env (Some "https://e.com")
                        "/favicon.ico"))
                = Some (url r)).
Proof.
  destruct icon_link_recorded as [H1 H2]. split.
  - destruct (H1 Demo.env true (Some "https://e.com") Demo.iconLink
                "shortcut icon" startState demo_nonEmptyURLs)
      as [Hrec Hq]; try reflexivity.
    split; [exact Hrec|]. apply Hq; reflexivity.
  - eexists _, _. split; [vm_compute; reflexivity|].
    apply (H2 Demo.env true "<link rel='shortcut icon' href='/favicon.ico'>"
             (Some "https://e.com") true startState (Some "demo") _ Demo.page
             Demo.iconLink "shortcut icon" demo_nonEmptyURLs);
      try reflexivity.
    apply list_elem_of_here.
Defined.

(** ** Two runs that differ in the clock only *)

Section Clocks.

Variable E : Env.
Variables clock1 clock2 : nat -> Z.
Variable recursive : bool.

Local Abbreviation E1 := (with_clock E clock1).
Local Abbreviation E2 := (with_clock E clock2).

Lemma resolveUrl_clock clock base u :
  resolveUrl (with_clock E clock) base u = resolveUrl E base u.
Proof. reflexivity. Qed.

Lemma sameButTime_refl st : sameButTime st st.
Proof. unfold sameButTime. by split_and!. Qed.

Lemma whenResolved_same o f1 f2 st1 st2 :
  (forall r a b, sameButTime a b -> sameButTime (f1 r a) (f2 r b)) ->
  sameButTime st1 st2 ->
  sameButTime (whenResolved o f1 st1) (whenResolved o f2 st2).
Proof.
  intros Hf H. unfold whenResolved. destruct o as [r|]; [|done].
  destruct (Js.truthy r); [by apply Hf|done].
Qed.

Lemma forEach_same {A} (l : list A) f1 f2 : forall st1 st2,
  (forall x a b, sameButTime a b -> sameButTime (f1 x a) (f2 x b)) ->
  sameButTime st1 st2 ->
  sameButTime (forEach l f1 st1) (forEach l f2 st2).
Proof.
  unfold forEach. induction l as [|x l IH]; intros st1 st2 Hf H; simpl; [done|].
  apply IH; [done|]. by apply Hf.
Qed.

Lemma recordUrl_same u src base st1 st2 :
  sameButTime st1 st2 ->
  sameButTime (recordUrl E1 u src base st1) (recordUrl E2 u src base st2).
Proof.
  intros H. unfold recordUrl. rewrite !resolveUrl_clock.
  apply whenResolved_same; [|done]. clear. intros r a b H.
  destruct H as (Hr & Hp & Hs & Hc & Hpr & Hf & He & Hk & Hn).
  unfold sameButTime. split_and!; simpl; try congruence.
  rewrite !map_app. simpl. by rewrite Hr.
Qed.

Lemma enqueue_same rec u kind st1 st2 :
  sameButTime st1 st2 ->
  sameButTime (enqueue rec u kind st1) (enqueue rec u kind st2).
Proof.
  intros H. unfold enqueue.
  destruct (negb rec || isSkippableUrl u); [done|].
  destruct H as (Hr & Hp & Hs & Hc & Hpr & Hf & He & Hk & Hn).
  rewrite Hs. destruct (set_has (processed st2) u).
  - unfold sameButTime. by split_and!.
  - unfold sameButTime. split_and!; simpl; congruence.
Qed.

Lemma set_suspensions_same n st1 st2 :
  sameButTime st1 st2 ->
  sameButTime (set_suspensions n st1) (set_suspensions n st2).
Proof.
  intros (Hr & Hp & Hs & Hc & Hpr & Hf & He & Hk & Hn).
  unfold sameButTime. by split_and!.
Qed.

(** Takes a goal [sameButTime (step ... st1) (step ... st2)] apart along
    the shape of the step, which is the same on both sides. *)
Local Ltac same :=
  cbv zeta; rewrite ?resolveUrl_clock;
  lazymatch goal with
  | H : sameButTime ?a ?b |- sameButTime ?a ?b => exact H
  | |- sameButTime (forEach _ _ _) (forEach _ _ _) =>
      apply forEach_same; [intros; same|same]
  | |- sameButTime (whenResolved _ _ _) (whenResolved _ _ _) =>
      apply whenResolved_same; [intros; same|same]
  | |- sameButTime (recordUrl _ _ _ _ _) (recordUrl _ _ _ _ _) =>
      apply recordUrl_same; same
  | |- sameButTime (enqueue _ _ _ _) (enqueue _ _ _ _) =>
      apply enqueue_same; same
  | |- sameButTime (if ?b then _ else _) (if ?b then _ else _) =>
      destruct b; same
  | |- sameButTime (match ?o with Some _ => _ | None => _ end)
                   (match ?o with Some _ => _ | None => _ end) =>
      destruct o; same
  | |- sameButTime (match ?s with SrcResource => _ | _ => _ end)
                   (match ?s with SrcResource => _ | _ => _ end) =>
      destruct s; same
  | |- sameButTime _ _ => fail
  end.

Lemma recordCssUrls_same cssText base st1 st2 :
  sameButTime st1 st2 ->
  sameButTime (recordCssUrls E1 recursive cssText base st1)
    (recordCssUrls E2 recursive cssText base st2).
Proof. intros H. unfold recordCssUrls. same. Qed.

Lemma analyzeJs_same jsText base st1 st2 :
  sameButTime st1 st2 ->
  sameButTime (analyzeJs E1 recursive jsText base st1)
    (analyzeJs E2 recursive jsText base st2).
Proof. intros H. unfold analyzeJs. same. Qed.

Lemma interceptor_same i st1 st2 :
  sameButTime st1 st2 ->
  sameButTime (interceptor E1 recursive i st1) (interceptor E2 recursive i st2).
Proof. intros H. unfold interceptor. same. Qed.

Lemma suspend_same st1 st2 :
  sameButTime st1 st2 ->
  sameButTime (suspend E1 recursive st1) (suspend E2 recursive st2).
Proof.
  intros H. unfold suspend. simpl callbacks.
  assert (suspensions st1 = suspensions st2) as -> by apply H.
  apply forEach_same; [intros; by apply interceptor_same|].
  by apply set_suspensions_same.
Qed.

Lemma harvestLink_same base link st1 st2 :
  sameButTime st1 st2 ->
  sameButTime (harvestLink E1 recursive base link st1)
    (harvestLink E2 recursive base link st2).
Proof. intros H. unfold harvestLink. same. Qed.

Lemma recordAttribute_same name base el st1 st2 :
  sameButTime st1 st2 ->
  sameButTime (recordAttribute E1 name base el st1)
    (recordAttribute E2 name base el st2).
Proof. intros H. unfold recordAttribute. same. Qed.

Lemma recordSrcset_same src base el st1 st2 :
  sameButTime st1 st2 ->
  sameButTime (recordSrcset E1 src base el st1)
    (recordSrcset E2 src base el st2).
Proof. intros H. unfold recordSrcset. same. Qed.

Lemma harvest_same els base st1 st2 :
  sameButTime st1 st2 ->
  sameButTime (harvest E1 recursive els base st1)
    (harvest E2 recursive els base st2).
Proof.
  intros H. unfold harvest. cbv zeta.
  repeat (apply forEach_same; [intros x a b Hab|]); [..|exact H].
  all: first [ by apply recordAttribute_same
             | by apply recordSrcset_same
             | by apply harvestLink_same
             | idtac ].
  all: repeat match goal with
         | |- sameButTime (if ?c then _ else _) _ => destruct c
         | |- sameButTime (match ?o with Some _ => _ | None => _ end) _ =>
             destruct o
         end;
       first [ exact Hab
             | by apply recordSrcset_same
             | by apply recordCssUrls_same
             | same ].
Qed.

Lemma analyzeHtml_same htmlText base captureTitle st1 st2 :
  sameButTime st1 st2 ->
  sameOutcome sameAnalysis
    (analyzeHtml E1 recursive htmlText base captureTitle st1)
    (analyzeHtml E2 recursive htmlText base captureTitle st2).
Proof.
  intros H. unfold analyzeHtml. simpl render.
  destruct (render E htmlText base) as [dom|]; [|done]. simpl.
  split; [done|]. simpl. apply suspend_same, harvest_same.
  apply forEach_same; [intros; by apply interceptor_same|done].
Qed.

Lemma analyzeInput_same input st1 st2 :
  sameButTime st1 st2 ->
  sameOutcome sameAnalysis (analyzeInput E1 recursive input st1)
    (analyzeInput E2 recursive input st2).
Proof.
  intros H. unfold analyzeInput. destruct (detectInputKind input).
  - by apply analyzeHtml_same.
  - simpl. split; [done|]. by apply recordCssUrls_same.
  - simpl. split; [done|]. by apply analyzeJs_same.
Qed.

Lemma loadResource_same u st1 st2 :
  sameButTime st1 st2 ->
  fst (loadResource E1 u st1) = fst (loadResource E2 u st2)
  /\ sameButTime (snd (loadResource E1 u st1)) (snd (loadResource E2 u st2)).
Proof.
  intros (Hr & Hp & Hs & Hc & Hpr & Hf & He & Hk & Hn).
  unfold loadResource, fetchResourceContent. simpl fetch_available.
  simpl fetch. rewrite Hc, Hpr, Hf.
  destruct (resourceCache st2 !! u); simpl.
  - unfold sameButTime. by split_and!.
  - destruct (fetch_available E); simpl; unfold sameButTime;
      split_and!; simpl; congruence.
Qed.

Lemma awaitPromise_same p st1 st2 :
  sameButTime st1 st2 ->
  fst (awaitPromise E1 recursive p st1) = fst (awaitPromise E2 recursive p st2)
  /\ sameButTime (snd (awaitPromise E1 recursive p st1))
       (snd (awaitPromise E2 recursive p st2)).
Proof.
  intros H. unfold awaitPromise. simpl. split.
  - assert (promises st1 = promises st2) as -> by apply H. done.
  - apply suspend_same.
    destruct H as (Hr & Hp & Hs & Hc & Hpr & Hf & He & Hk & Hn).
    unfold sameButTime. split_and!; simpl; congruence.
Qed.

Lemma iteration_same st1 st2 :
  sameButTime st1 st2 ->
  sameOutcome sameButTime (iteration E1 recursive st1)
    (iteration E2 recursive st2).
Proof.
  intros H. unfold iteration.
  assert (Hp : pending st1 = pending st2) by apply H. rewrite Hp.
  destruct (pending st2) as [|next rest]; [done|].
  set (p1 := set_queue rest (processed st1) (expanded st1 ++ [next.1]) st1).
  set (p2 := set_queue rest (processed st2) (expanded st2 ++ [next.1]) st2).
  assert (Hpop : sameButTime p1 p2).
  { destruct H as (Hr & _ & Hs & Hc & Hpr & Hf & He & Hk & Hn).
    unfold sameButTime. split_and!; simpl; congruence. }
  destruct (loadResource_same next.1 p1 p2 Hpop) as [Hl1 Hl2].
  destruct (loadResource E1 next.1 p1) as [l1 s1].
  destruct (loadResource E2 next.1 p2) as [l2 s2]. simpl in Hl1, Hl2. subst l2.
  destruct (awaitPromise_same l1 s1 s2 Hl2) as [Ha1 Ha2].
  destruct (awaitPromise E1 recursive l1 s1) as [r1 t1].
  destruct (awaitPromise E2 recursive l1 s2) as [r2 t2]. simpl in Ha1, Ha2.
  subst r2. destruct r1 as [result|]; [|done].
  destruct (match next.2 with Some k => Some k | None => _ end) as [[| |]|].
  - pose proof (analyzeHtml_same (text result) (Some next.1) false t1 t2 Ha2)
      as Hh.
    destruct (analyzeHtml E1 _ _ _ _ _) as [[x1 y1]| |];
      destruct (analyzeHtml E2 _ _ _ _ _) as [[x2 y2]| |]; try done.
    apply Hh.
  - simpl. by apply recordCssUrls_same.
  - simpl. by apply analyzeJs_same.
  - done.
Qed.

Lemma processPending_same fuel : forall st1 st2,
  sameButTime st1 st2 ->
  sameOutcome sameButTime (processPending E1 recursive fuel st1)
    (processPending E2 recursive fuel st2).
Proof.
  induction fuel as [|fuel IH]; intros st1 st2 H; simpl;
    (assert (Hp : pending st1 = pending st2) by apply H); rewrite Hp;
    destruct (pending st2); try done.
  pose proof (iteration_same st1 st2 H) as Hit.
  destruct (iteration E1 recursive st1); destruct (iteration E2 recursive st2);
    try done.
  by apply IH.
Qed.

End Clocks.

Lemma run_same E clock1 clock2 input options fuel :
  untimedResult (run (with_clock E clock1) input options fuel)
  = untimedResult (run (with_clock E clock2) input options fuel).
Proof.
  unfold run, runState.
  pose proof (analyzeInput_same E clock1 clock2
                (default false (recursion options)) input startState startState
                (sameButTime_refl _)) as Hin.
  destruct (analyzeInput (with_clock E clock1) _ _ _) as [[t1 s1]| |];
    destruct (analyzeInput (with_clock E clock2) _ _ _) as [[t2 s2]| |];
    try done.
  destruct Hin as [Ht Hs]. simpl in Ht, Hs. subst t2.
  pose proof (processPending_same E clock1 clock2
                (default false (recursion options)) fuel s1 s2 Hs) as Hpp.
  destruct (processPending (with_clock E clock1) _ _ _) as [u1| |];
    destruct (processPending (with_clock E clock2) _ _ _) as [u2| |];
    try done.
  simpl. f_equal. f_equal. apply Hpp.
Qed.

Lemma run_without_recursion_returns E input options fuel :
  default false (recursion options) = false ->
  run E input options fuel <> OutOfFuel.
Proof.
  intros Hrec. unfold run, runState. rewrite Hrec.
  destruct (analyzeInput E false input startState) as [[t st]| |] eqn:Hin.
  - destruct (analyzeInput_unqueued _ _ _ _ _ Hin) as [Hp _].
    simpl in Hp. destruct fuel; simpl; by rewrite Hp.
  - done.
  - unfold analyzeInput in Hin. destruct (detectInputKind input); [|done|done].
    by apply analyzeHtml_returns in Hin.
Qed.

(** *** Two environments *)

Lemma forEach_ext {A} (l : list A) f g : forall st st',
  st = st' -> (forall x s, f x s = g x s) ->
  forEach l f st = forEach l g st'.
Proof.
  unfold forEach. induction l as [|x l IH]; intros st st' <- Hfg; simpl;
    [done|].
  apply IH; [apply Hfg|done].
Qed.

Lemma whenResolved_ext o o' f g st st' :
  o = o' -> st = st' -> (forall r s, f r s = g r s) ->
  whenResolved o f st = whenResolved o' g st'.
Proof.
  intros <- <- Hfg. unfold whenResolved. destruct o as [r|]; [|done].
  by rewrite Hfg.
Qed.

(** Two environments with the same URL parser and the same clock. *)
Section Agreement.

Variables E E' : Env.
Variable recursive : bool.
Hypothesis same_parser : forall base u, URL_parse E base u = URL_parse E' base u.
Hypothesis same_clock : forall n, now E n = now E' n.

Lemma resolveUrl_ext base u : resolveUrl E base u = resolveUrl E' base u.
Proof. unfold resolveUrl. by rewrite !same_parser. Qed.

Lemma recordUrl_ext u src base st :
  recordUrl E u src base st = recordUrl E' u src base st.
Proof.
  unfold recordUrl. apply whenResolved_ext; [apply resolveUrl_ext|done|].
  intros r s. by rewrite same_clock.
Qed.

Local Ltac ext :=
  cbv zeta;
  lazymatch goal with
  | |- ?a = ?a => reflexivity
  | |- forEach _ _ _ = forEach _ _ _ => apply forEach_ext; [ext|intros; ext]
  | |- whenResolved _ _ _ = whenResolved _ _ _ =>
      apply whenResolved_ext; [first [reflexivity|apply resolveUrl_ext]
                              |ext|intros; ext]
  | |- recordUrl E _ _ _ _ = recordUrl E' _ _ _ _ =>
      rewrite recordUrl_ext; first [reflexivity|f_equal; ext]
  | |- enqueue _ _ _ _ = enqueue _ _ _ _ => f_equal; ext
  | |- (if ?b then _ else _) = (if ?b then _ else _) => destruct b; ext
  | |- match ?o with Some _ => _ | None => _ end
       = match ?o with Some _ => _ | None => _ end => destruct o; ext
  | |- match ?s with SrcResource => _ | _ => _ end
       = match ?s with SrcResource => _ | _ => _ end => destruct s; ext
  | |- _ => rewrite ?resolveUrl_ext; first [reflexivity|f_equal; ext]
  end.

Lemma recordCssUrls_ext cssText base st :
  recordCssUrls E recursive cssText base st
  = recordCssUrls E' recursive cssText base st.
Proof. unfold recordCssUrls. ext. Qed.

Lemma analyzeJs_ext jsText base st :
  analyzeJs E recursive jsText base st = analyzeJs E' recursive jsText base st.
Proof. unfold analyzeJs. ext. Qed.

Lemma interceptor_ext i st :
  interceptor E recursive i st = interceptor E' recursive i st.
Proof. unfold interceptor. ext. Qed.

Lemma harvestLink_ext base link st :
  harvestLink E recursive base link st = harvestLink E' recursive base link st.
Proof. unfold harvestLink. ext. Qed.

Lemma harvest_ext els base st :
  harvest E recursive els base st = harvest E' recursive els base st.
Proof.
  unfold harvest, recordAttribute, recordSrcset. cbv zeta.
  repeat (apply forEach_ext; [|intros x s]); [reflexivity|..].
  all: first [apply harvestLink_ext|idtac].
  all: repeat match goal with
         | |- (if ?b then _ else _) = _ => destruct b
         | |- match ?o with Some _ => _ | None => _ end = _ => destruct o
         end;
       first [reflexivity|apply recordCssUrls_ext|ext].
Qed.

End Agreement.

Lemma suspensions_kept E recursive :
  (forall i st, suspensions (interceptor E recursive i st) = suspensions st)
  /\ (forall els base st,
        suspensions (harvest E recursive els base st) = suspensions st).
Proof.
  set (R := fun st st' : RunState => suspensions st' = suspensions st).
  assert (Hrefl : forall st, R st st) by done.
  assert (Htrans : forall a b c, R a b -> R b c -> R a c)
    by (unfold R; intros a b c H1 H2; congruence).
  assert (Hrec : forall u src base st, R st (recordUrl E u src base st)).
  { intros u src base st. unfold R, recordUrl, whenResolved.
    destruct (resolveUrl E base u) as [r|]; [|done]. by destruct (Js.truthy r). }
  assert (Henq : forall u kind st,
            (kind = None -> inferResourceKindFromUrl u = None) ->
            R st (enqueue recursive u kind st)).
  { intros u kind st _. unfold R, enqueue.
    destruct (negb recursive || isSkippableUrl u); [done|].
    by destruct (set_has (processed st) u). }
  split.
  - intros i st. by apply (interceptor_steps E recursive R).
  - intros els base st. by apply (harvest_steps E recursive R).
Qed.

Lemma analyzeHtml_ext E E' recursive htmlText base captureTitle st :
  (forall b u, URL_parse E b u = URL_parse E' b u) ->
  (forall n, now E n = now E' n) ->
  render E htmlText base = render E' htmlText base ->
  callbacks E (suspensions st) = callbacks E' (suspensions st) ->
  analyzeHtml E recursive htmlText base captureTitle st
  = analyzeHtml E' recursive htmlText base captureTitle st.
Proof.
  intros Hp Hn Hr Hc. unfold analyzeHtml. rewrite <- Hr.
  destruct (render E htmlText base) as [dom|]; [|done]. cbv zeta.
  assert (H1 : forEach (intercepted dom) (interceptor E recursive) st
               = forEach (intercepted dom) (interceptor E' recursive) st).
  { apply forEach_ext; [done|]. intros. by apply interceptor_ext. }
  rewrite <- H1. set (st0 := forEach _ _ st).
  assert (Hs0 : suspensions st0 = suspensions st).
  { subst st0. apply (forEach_steps
      (fun a b : RunState => suspensions b = suspensions a)); try done.
    - intros a b c H2 H3. congruence.
    - intros x s. apply (suspensions_kept E recursive). }
  rewrite <- (harvest_ext E E' recursive Hp Hn).
  set (st1 := harvest E recursive (elements dom) base st0).
  assert (Hs1 : suspensions st1 = suspensions st).
  { subst st1. by rewrite (proj2 (suspensions_kept E recursive)). }
  f_equal. f_equal. unfold suspend. rewrite Hs1, <- Hc.
  apply forEach_ext; [done|]. intros. by apply interceptor_ext.
Qed.

(** A run without recursion asks its environment for nothing but the URL
    parser, the clock and, for a document, the rendering of the input and
    the callbacks of the settle wait. *)
Lemma run_ext E E' input options fuel :
  default false (recursion options) = false ->
  (forall n, now E n = now E' n) ->
  sameReports E E' input ->
  run E input options fuel = run E' input options fuel.
Proof.
  intros Hrec Hn [Hp Hr]. unfold run, runState. rewrite Hrec.
  assert (Hin : analyzeInput E false input startState
                = analyzeInput E' false input startState).
  { unfold analyzeInput. destruct (detectInputKind input).
    - destruct Hr as [Hr Hc]; [done|]. by apply analyzeHtml_ext.
    - f_equal. f_equal. by apply recordCssUrls_ext.
    - f_equal. f_equal. by apply analyzeJs_ext. }
  rewrite <- Hin.
  destruct (analyzeInput E false input startState) as [[t st]| |] eqn:Ha;
    [|done|done].
  destruct (analyzeInput_unqueued _ _ _ _ _ Ha) as [Hq _]. simpl in Hq.
  destruct fuel; simpl; rewrite Hq; by rewrite Hn.
Qed.

Lemma with_own_clock E : with_clock E (now E) = E.
Proof. by destruct E. Qed.

(** C8 (counterexample).  The same page, the same URL parser, the same
    retrieval primitive and the same clock, recursion disabled: the page's
    script requests an image under a URL made from the time at which it
    runs, the hook on the image's source reports that URL, and the two
    runs log different URLs. *)
Lemma page_scripts_decide_the_log :
  (forall base u,
     URL_parse (Examples.ticking "1") base u
     = URL_parse (Examples.ticking "2") base u)
  /\ fetch_available (Examples.ticking "1")
     = fetch_available (Examples.ticking "2")
  /\ (forall n u,
        fetch (Examples.ticking "1") n u = fetch (Examples.ticking "2") n u)
  /\ (forall n, now (Examples.ticking "1") n = now (Examples.ticking "2") n)
  /\ untimedResult
       (run (Examples.ticking "1") Examples.clockPage (Demo.options false) 0)
     = Done (None, [("https://e.com/?t=1", SrcUnknown)])
  /\ untimedResult
       (run (Examples.ticking "2") Examples.clockPage (Demo.options false) 0)
     = Done (None, [("https://e.com/?t=2", SrcUnknown)])
  /\ untimedResult
       (run (Examples.ticking "1") Examples.clockPage (Demo.options false) 0)
     <> untimedResult
          (run (Examples.ticking "2") Examples.clockPage (Demo.options false)
             0).
Proof.
  split_and!; try done.
Qed.

(** C8 (the amended claim).  With recursion disabled, two runs on the
    same input whose environments have the same URL parser return the same
    title and request lists that agree record by record, in order, in URL
    and source, whatever the two clocks and the two retrieval primitives
    are, when the input is a style sheet or a script; when the input is a
    document they do so provided the rendering environment delivers the
    same rendering of the input and the same callbacks during the settle
    wait in both runs.  The results differ in [capturedAt] and the time
    stamps at most.  Both runs return (with a result, or with the
    rendering environment's failure), whatever the budget of the drain
    loop. *)
Theorem runs_equal_up_to_time E1 E2 input options fuel :
  default false (recursion options) = false ->
  sameReports E1 E2 input ->
  untimedResult (run E1 input options fuel)
  = untimedResult (run E2 input options fuel)
  /\ run E1 input options fuel <> OutOfFuel
  /\ run E2 input options fuel <> OutOfFuel.
Proof.
  intros Hrec Hsame. split_and!.
  - rewrite <- (with_own_clock E1) at 1.
    rewrite (run_same E1 (now E1) (now E2) input options fuel).
    f_equal. apply run_ext; [done|done|].
    destruct Hsame as [Hp Hr]. split; [exact Hp|exact Hr].
  - by apply run_without_recursion_returns.
  - by apply run_without_recursion_returns.
Qed.

(** C8 (witness): the demo style sheet in two environments that differ
    in the clock, the retrieval primitive and the rendering, and the page
    with the script under two clocks. *)
Lemma runs_equal_up_to_time_witness :
  untimedResult (run Demo.env Demo.cssInput (Demo.options false) 0)
  = untimedResult
      (run (with_clock (Examples.ticking "1")
              (fun n => (1000 + 7 * Z.of_nat n)%Z))
         Demo.cssInput (Demo.options false) 0)
  /\ untimedResult (run Demo.env Demo.cssInput (Demo.options false) 0)
     = Done (None, [(Demo.aCss, SrcCss)])
  /\ untimedResult
       (run (Examples.ticking "1") Examples.clockPage (Demo.options false) 0)
     = untimedResult
         (run (with_clock (Examples.ticking "1")
                 (fun n => (1000 + 7 * Z.of_nat n)%Z))
            Examples.clockPage (Demo.options false) 0).
Proof.
  split_and!.
  - apply (runs_equal_up_to_time _ _ Demo.cssInput (Demo.options false) 0).
    + reflexivity.
    + split; [reflexivity|]. intros H. vm_compute in H. discriminate H.
  - reflexivity.
  - apply (runs_equal_up_to_time _ _ Examples.clockPage
             (Demo.options false) 0).
    + reflexivity.
    + split; [reflexivity|]. intros _. split; reflexivity.
Defined.

(** ** Candidates of a [srcset] *)

Lemma split_pieces_lack c s :
  Forall (fun p => lacks c p = true) (Js.split c s).
Proof.
  induction s as [|a s IH]; simpl; [by repeat constructor|].
  destruct (Ascii.eqb a c) eqn:Hac; [by constructor|].
  destruct (Js.split c s) as [|p r]; simpl.
  - repeat constructor. unfold lacks. simpl. by rewrite Hac.
  - inversion IH; subst. constructor; [|done].
    unfold lacks in *. simpl. by rewrite Hac.
Qed.

Lemma allChars_trimStart P s :
  allChars P s = true -> allChars P (Js.trimStart s) = true.
Proof.
  induction s as [|a s IH]; simpl; [done|]. intros [Ha Hs]%andb_true_iff.
  destruct (Js.isSpace a); [auto|]. simpl. by rewrite Ha, Hs.
Qed.

Lemma allChars_trimEnd P s :
  allChars P s = true -> allChars P (Js.trimEnd s) = true.
Proof.
  induction s as [|a s IH]; simpl; [done|]. intros [Ha Hs]%andb_true_iff.
  specialize (IH Hs). destruct (Js.trimEnd s) as [|b t].
  - destruct (Js.isSpace a); simpl; [done|]. by rewrite Ha.
  - simpl in *. by rewrite Ha, IH.
Qed.

Lemma allChars_firstToken P s :
  allChars P s = true -> allChars P (Js.firstToken s) = true.
Proof.
  induction s as [|a s IH]; simpl; [done|]. intros [Ha Hs]%andb_true_iff.
  destruct (Js.isSpace a); simpl; [done|]. by rewrite Ha, IH.
Qed.

Lemma firstToken_noSpace s :
  allChars (fun c => negb (Js.isSpace c)) (Js.firstToken s) = true.
Proof.
  induction s as [|a s IH]; simpl; [done|].
  destruct (Js.isSpace a) eqn:Ha; simpl; [done|]. by rewrite Ha, IH.
Qed.

Lemma allChars_and P Q s :
  allChars (fun c => P c && Q c) s = allChars P s && allChars Q s.
Proof.
  induction s as [|a s IH]; simpl; [done|]. rewrite IH.
  destruct (P a), (Q a), (allChars P s), (allChars Q s); done.
Qed.

Lemma split_app c a b :
  Js.split c (a +:+ String c b) = Js.split c a ++ Js.split c b.
Proof.
  induction a as [|x a IH]; simpl.
  - by rewrite Ascii.eqb_refl.
  - destruct (Ascii.eqb x c); [by rewrite IH|]. rewrite IH.
    pose proof (split_nonempty c a) as Hne.
    by destruct (Js.split c a) as [|p r].
Qed.

Lemma trimStart_blank_app ws s :
  isBlank ws = true -> Js.trimStart (ws +:+ s) = Js.trimStart s.
Proof.
  induction ws as [|a ws IH]; simpl; [done|].
  intros [Ha Hws]%andb_true_iff. rewrite Ha. auto.
Qed.

Lemma trimEnd_first r :
  Js.trimEnd r = "" \/ exists c r' t, r = String c r' /\ Js.trimEnd r = String c t.
Proof.
  destruct r as [|c r']; [by left|]. simpl.
  destruct (Js.trimEnd r') as [|b t].
  - destruct (Js.isSpace c); [by left|right; by eexists _, _, _].
  - right. by eexists _, _, _.
Qed.

Lemma firstToken_cons c s :
  Js.isSpace c = false -> Js.firstToken (String c s) = String c (Js.firstToken s).
Proof. intros H. simpl. by rewrite H. Qed.

Lemma firstToken_trimEnd_token u d :
  isUrlToken u = true -> isDescriptor d = true ->
  Js.firstToken (Js.trimEnd (u +:+ d)) = u.
Proof.
  unfold isUrlToken. intros [Hne Hu]%andb_true_iff Hd.
  destruct u as [|c u]; [done|]. clear Hne. revert c Hu.
  induction u as [|b u IH]; intros c [Hc Hu]%andb_true_iff.
  - simpl. unfold srcsetChar in Hc. apply andb_true_iff in Hc as [Hc _].
    apply negb_true_iff in Hc.
    destruct (trimEnd_first d) as [->|(x & r' & t & -> & ->)].
    + rewrite Hc. simpl. by rewrite Hc.
    + simpl in Hd. apply andb_true_iff in Hd as [Hx _].
      simpl. by rewrite Hc, Hx.
  - specialize (IH b Hu). change (String c (String b u) +:+ d)
      with (String c (String b u +:+ d)).
    cbn [Js.trimEnd]. destruct (Js.trimEnd (String b u +:+ d)) as [|y t] eqn:Ht.
    + by simpl in IH.
    + unfold srcsetChar in Hc. apply andb_true_iff in Hc as [Hc _].
      apply negb_true_iff in Hc. rewrite (firstToken_cons _ _ Hc). by rewrite IH.
Qed.

Lemma parseSrcsetUrls_tokens (value : string) :
  Forall (fun u => isUrlToken u = true) (parseSrcsetUrls value).
Proof.
  unfold parseSrcsetUrls. apply Forall_forall. intros u Hu.
  apply list_elem_of_In, List.filter_In in Hu as [Hu Htr].
  apply list_elem_of_In, list_elem_of_fmap in Hu as (cand & -> & Hcand).
  unfold isUrlToken. apply andb_true_iff. split; [done|].
  unfold srcsetChar. rewrite allChars_and. apply andb_true_iff. split.
  - apply firstToken_noSpace.
  - pose proof (split_pieces_lack "," value) as Hl.
    rewrite Forall_forall in Hl. specialize (Hl _ Hcand).
    unfold lacks in Hl. unfold Js.trim.
    by apply allChars_firstToken, allChars_trimEnd, allChars_trimStart.
Qed.

(** A comma always separates two candidates: the URLs of a value are the
    URLs of what stands before a comma followed by the URLs of what stands
    behind it. *)
Theorem parseSrcsetUrls_splits_at_commas (a b : string) :
  parseSrcsetUrls (a +:+ "," +:+ b) = parseSrcsetUrls a ++ parseSrcsetUrls b.
Proof.
  unfold parseSrcsetUrls. change ("," +:+ b) with (String "," b).
  by rewrite split_app, map_app, List.filter_app.
Qed.

Lemma lacks_blank c ws : Js.isSpace c = false -> isBlank ws = true -> lacks c ws = true.
Proof.
  intros Hc. induction ws as [|a ws IH]; simpl; [done|].
  intros [Ha Hws]%andb_true_iff. unfold lacks in *. simpl. rewrite IH by done.
  destruct (Ascii.eqb a c) eqn:Hac; [|done]. apply Ascii.eqb_eq in Hac. congruence.
Qed.

(** A candidate made of optional white space, a URL without white space
    and commas, and then nothing or white space and a descriptor yields
    exactly the URL. *)
Theorem parseSrcsetUrls_drops_descriptor (ws u d : string) :
  isBlank ws = true -> isUrlToken u = true -> isDescriptor d = true ->
  parseSrcsetUrls (ws +:+ u +:+ d) = [u].
Proof.
  intros Hws Hu Hd. unfold parseSrcsetUrls.
  assert (Hl : lacks "," (ws +:+ u +:+ d) = true).
  { rewrite !lacks_app. pose proof Hu as Hu'. unfold isUrlToken in Hu'.
    apply andb_true_iff in Hu' as [_ Hu']. unfold srcsetChar in Hu'.
    rewrite allChars_and in Hu'. apply andb_true_iff in Hu' as [_ Hu'].
    rewrite (lacks_blank "," _ eq_refl Hws). unfold lacks at 1. rewrite Hu'.
    destruct d as [|c d]; [done|]. simpl in Hd.
    by apply andb_true_iff in Hd as [_ ->]. }
  rewrite (split_lacks _ _ Hl). simpl. unfold Js.trim.
  rewrite (trimStart_blank_app _ _ Hws).
  assert (Hts : Js.trimStart (u +:+ d) = u +:+ d).
  { unfold isUrlToken in Hu. destruct u as [|c u]; [done|]. simpl in *.
    apply andb_true_iff in Hu as [Hc _]. unfold srcsetChar in Hc.
    apply andb_true_iff in Hc as [Hc _]. apply negb_true_iff in Hc.
    by rewrite Hc. }
  rewrite Hts, (firstToken_trimEnd_token _ _ Hu Hd).
  unfold isUrlToken in Hu. apply andb_true_iff in Hu as [-> _]. done.
Qed.

(** (Witness) A candidate with a width descriptor. *)
Lemma parseSrcsetUrls_drops_descriptor_witness :
  parseSrcsetUrls " a.png 480w" = ["a.png"].
Proof.
  exact (parseSrcsetUrls_drops_descriptor " " "a.png" " 480w"
           eq_refl eq_refl eq_refl).
Defined.

(** ** The kind of a text and of a URL *)

Lemma startsWith_trans s p q :
  Js.startsWith s p = true -> Js.startsWith p q = true -> Js.startsWith s q = true.
Proof.
  revert s p. induction q as [|c q IH]; intros s p Hsp Hpq; [by destruct s|].
  destruct p as [|b p]; [done|]. destruct s as [|a s]; [done|].
  simpl in *. apply andb_true_iff in Hsp as [Hab Hsp].
  apply andb_true_iff in Hpq as [Hbc Hpq].
  apply Ascii.eqb_eq in Hab, Hbc. subst. rewrite Ascii.eqb_refl. simpl.
  by eapply IH.
Qed.

(** For a resource without a content type whose URL has no known
    extension, the kind [detectResourceKind] reads off the body is the kind
    [detectInputKind] gives the same text as an input; where
    [detectResourceKind] gives up, the text does not look like a script
    and [detectInputKind] falls back to [js]. *)
Theorem body_sniffing_agrees_with_input_kind (u : string) (body : string) :
  inferResourceKindFromUrl u = None ->
  match detectResourceKind u None body with
  | Some kind => detectInputKind body = kind
  | None => detectInputKind body = js
            /\ looksLikeJavaScript (Js.trimStart body) = false
  end.
Proof.
  intros Hu. unfold detectResourceKind, detectInputKind. rewrite Hu. simpl.
  set (t := Js.trimStart body).
  destruct (Js.startsWith t "<") eqn:Hlt.
  - destruct (Js.startsWith t "<!doctype" || Js.startsWith t "<html"); done.
  - assert (H1 : Js.startsWith t "<!doctype" = false).
    { destruct (Js.startsWith t "<!doctype") eqn:H; [|done].
      rewrite (startsWith_trans t "<!doctype" "<") in Hlt; done. }
    assert (H2 : Js.startsWith t "<html" = false).
    { destruct (Js.startsWith t "<html") eqn:H; [|done].
      rewrite (startsWith_trans t "<html" "<") in Hlt; done. }
    rewrite H1, H2. simpl.
    destruct (Js.startsWith t "@" || Js.includes t "url("); [done|].
    destruct (looksLikeJavaScript t); done.
Qed.


(** (Witness) A body of plain words behind a URL without an extension: the
    resource has no kind, the same text as an input is taken for a
    script. *)
Lemma body_sniffing_agrees_with_input_kind_witness :
  detectResourceKind Demo.blob None "hello world" = None
  /\ detectInputKind "hello world" = js.
Proof.
  pose proof (body_sniffing_agrees_with_input_kind Demo.blob "hello world"
                eq_refl) as H.
  split; [reflexivity|]. exact (proj1 H).
Defined.

(** White space in front of a text changes neither the kind
    [detectInputKind] gives it nor the kind [detectResourceKind] reads
    off it as a body. *)
Theorem leading_white_space_is_ignored (ws s : string) :
  isBlank ws = true ->
  detectInputKind (ws +:+ s) = detectInputKind s
  /\ forall u contentType,
       detectResourceKind u contentType (ws +:+ s)
       = detectResourceKind u contentType s.
Proof.
  intros Hws. unfold detectInputKind, detectResourceKind.
  by rewrite (trimStart_blank_app ws s Hws).
Qed.

(** (Witness) Two blanks in front of a tag. *)
Lemma leading_white_space_is_ignored_witness :
  detectInputKind "  <p>" = html
  /\ detectResourceKind "https://e.com/x" None "  <p>" = Some html.
Proof.
  destruct (leading_white_space_is_ignored "  " "<p>" eq_refl) as [H1 H2].
  split; [exact H1|].
  etrans; [exact (H2 "https://e.com/x" None)|reflexivity].
Defined.

(** A URL without a dot, a query and a fragment is read as being its own
    extension, so that a URL which is just [js] or [CSS] has that kind;
    and a URL whose path ends in a dot has no kind. *)
Theorem urls_without_an_extension :
  (forall u,
     lacks "." u = true -> lacks "?" u = true -> lacks "#" u = true ->
     inferResourceKindFromUrl u = kindOfExtension (Js.toLowerCase u))
  /\ (forall stem suffix,
        lacks "?" stem = true -> lacks "#" stem = true ->
        isUrlSuffix suffix = true ->
        inferResourceKindFromUrl (stem +:+ "." +:+ suffix) = None).
Proof.
  split.
  - intros u Hd Hq Hf. unfold inferResourceKindFromUrl, kindOfExtension.
    rewrite (split_lacks "?" u Hq). simpl List.hd.
    rewrite (split_lacks "#" u Hf). simpl List.hd.
    rewrite (split_lacks "." u Hd). simpl List.last.
    by destruct u.
  - intros stem suffix Hq Hf Hs.
    exact (infer_by_extension stem "" suffix Hq Hf eq_refl eq_refl eq_refl Hs).
Qed.

(** (Witness) A bare extension word, and a path that ends in a dot. *)
Lemma urls_without_an_extension_witness :
  inferResourceKindFromUrl "JS" = Some js
  /\ inferResourceKindFromUrl "https://e/readme.#top" = None.
Proof.
  destruct urls_without_an_extension as [H1 H2]. split.
  - by rewrite (H1 "JS" eq_refl eq_refl eq_refl).
  - exact (H2 "https://e/readme" "#top" eq_refl eq_refl eq_refl).
Defined.


(** ** What a run fetches *)

Lemma processPending_reachable E recursive input fuel : forall st st',
  reachable E recursive input st ->
  processPending E recursive fuel st = Done st' ->
  reachable E recursive input st'.
Proof.
  induction fuel as [|fuel IH]; intros st st' Hreach; simpl.
  - destruct (pending st); [|done]. by intros [= <-].
  - destruct (pending st); [by intros [= <-]|].
    destruct (iteration E recursive st) as [st1| |] eqn:Hit; [|done|done].
    apply IH. by eapply reach_turn.
Qed.

Lemma runState_reachable E input options fuel t st :
  runState E input options fuel = Done (t, st) ->
  reachable E (default false (recursion options)) input st.
Proof.
  unfold runState.
  destruct (analyzeInput _ _ _ _) as [[t0 st0]| |] eqn:Hin; [|done|done].
  destruct (processPending _ _ _ _) as [st1| |] eqn:Hpp; [|done|done].
  intros [= -> ->]. eapply processPending_reachable; [|exact Hpp].
  by eapply reach_first.
Qed.

(** One turn of the loop on an item whose URL the cache does not hold. *)
Lemma iteration_cache E recursive st next rest st' :
  pending st = next :: rest ->
  resourceCache st !! (fst next) = None ->
  iteration E recursive st = Done st' ->
  resourceCache st' = <[fst next := length (promises st)]> (resourceCache st)
  /\ fetchLog st'
     = fetchLog st ++ (if fetch_available E then [fst next] else [])
  /\ expanded st' = expanded st ++ [fst next].
Proof.
  intros Hp Hc. unfold iteration. rewrite Hp.
  set (popped := set_queue rest (processed st) (expanded st ++ [fst next]) st).
  rewrite (loadResource_fresh E (fst next) popped Hc).
  set (st1 := set_cache _ _ _ popped).
  unfold awaitPromise.
  pose proof (suspend_discovers E recursive (settle (length (promises popped)) st1))
    as Hsus.
  set (st2 := suspend E recursive (settle (length (promises popped)) st1)) in *.
  assert (Hbase : forall st3, discovers st2 st3 ->
            resourceCache st3
            = <[fst next := length (promises st)]> (resourceCache st)
            /\ fetchLog st3
               = fetchLog st ++ (if fetch_available E then [fst next] else [])
            /\ expanded st3 = expanded st ++ [fst next]).
  { intros st3 H3. pose proof (discovers_trans _ _ _ Hsus H3) as Hd.
    destruct Hd as (_ & Hc3 & _ & Hf3 & He3 & _).
    rewrite Hc3, Hf3, He3. done. }
  destruct (promises st1 !! _) as [pr|]; [|intros [= <-];
    apply Hbase, discovers_refl].
  destruct (value pr) as [result|]; [|intros [= <-];
    apply Hbase, discovers_refl].
  destruct (match next.2 with Some k => Some k | None => _ end) as [[| |]|].
  - destruct (analyzeHtml _ _ _ _ _ _) as [[t st3]| |] eqn:Hhtml; [|done|done].
    intros [= <-]. by apply Hbase, (analyzeHtml_discovers _ _ _ _ _ _ _ _ Hhtml).
  - intros [= <-]. apply Hbase, recordCssUrls_discovers.
  - intros [= <-]. apply Hbase, analyzeJs_discovers.
  - intros [= <-]. apply Hbase, discovers_refl.
Qed.

Lemma head_not_expanded st next rest :
  queueInv st -> pending st = next :: rest -> fst next ∉ expanded st.
Proof.
  intros [Hnd Hq] Hp Hin. rewrite Hq, Hp in Hnd. simpl in Hnd.
  apply NoDup_app in Hnd as (_ & Hdis & _).
  apply (Hdis _ Hin). apply elem_of_cons. by left.
Qed.

Lemma reachable_cacheFollowsQueue E recursive input st :
  reachable E recursive input st -> cacheFollowsQueue E st.
Proof.
  induction 1 as [t st Hin|st st' Hreach IH Hit].
  - apply analyzeInput_discovers in Hin as (_ & Hc & _ & Hf & He & _).
    unfold cacheFollowsQueue. rewrite Hc, Hf, He. simpl. split.
    + by destruct (fetch_available E).
    + intros u. rewrite lookup_empty. split; [by intros []|].
      intros Hu. by apply not_elem_of_nil in Hu.
  - destruct (pending st) as [|next rest] eqn:Hp.
    { unfold iteration in Hit. rewrite Hp in Hit. by injection Hit as <-. }
    destruct IH as [Hf Hc].
    pose proof (reachable_queueInv _ _ _ _ Hreach) as Hq.
    pose proof (head_not_expanded _ _ _ Hq Hp) as Hnew.
    assert (Hmiss : resourceCache st !! (fst next) = None).
    { destruct (resourceCache st !! (fst next)) eqn:Hl; [|done].
      exfalso. apply Hnew, Hc. by eexists. }
    destruct (iteration_cache _ _ _ _ _ _ Hp Hmiss Hit) as (Hc' & Hf' & He').
    unfold cacheFollowsQueue. rewrite Hc', Hf', He', Hf. split.
    + by destruct (fetch_available E).
    + intros u. rewrite elem_of_app, list_elem_of_singleton.
      destruct (decide (u = fst next)) as [->|Hne].
      * rewrite lookup_insert_eq. split; [by right|by eexists].
      * rewrite lookup_insert_ne by done. rewrite Hc.
        split; [by left|]. by intros [?|?].
Qed.

Lemma runState_fetchLog E input options fuel t st :
  runState E input options fuel = Done (t, st) ->
  fetchLog st = (if fetch_available E then processed st else []).
Proof.
  intros Hrun.
  pose proof (runState_reachable _ _ _ _ _ _ Hrun) as Hreach.
  destruct (reachable_cacheFollowsQueue _ _ _ _ Hreach) as [Hf _].
  destruct (runState_spec _ _ _ _ _ _ Hrun) as (Hp & [_ Hq] & _).
  rewrite Hf, Hq, Hp. simpl. by rewrite app_nil_r.
Qed.

(** Between the turns of the drain loop, and when [fetch] exists, the
    URLs [fetch] was invoked with are the URLs taken off the queue, in
    that order; the cache never holds the URL at the head of the queue, so
    that no load of a run is answered from the cache.  When the run
    returns, the URLs fetched are the URLs enqueued, in the order of their
    enqueueing. *)
Theorem every_dequeued_url_is_fetched_once :
  (forall E recursive input st,
     reachable E recursive input st ->
     fetchLog st = (if fetch_available E then expanded st else [])
     /\ (forall next rest,
           pending st = next :: rest -> resourceCache st !! (fst next) = None))
  /\ (forall E input options fuel t st,
        runState E input options fuel = Done (t, st) ->
        fetchLog st = (if fetch_available E then processed st else [])).
Proof.
  split.
  - intros E recursive input st Hreach.
    destruct (reachable_cacheFollowsQueue _ _ _ _ Hreach) as [Hf Hc].
    split; [done|]. intros next rest Hp.
    pose proof (reachable_queueInv _ _ _ _ Hreach) as Hq.
    pose proof (head_not_expanded _ _ _ Hq Hp) as Hnew.
    destruct (resourceCache st !! (fst next)) eqn:Hl; [|done].
    exfalso. apply Hnew, Hc. by eexists.
  - exact runState_fetchLog.
Qed.

(** (Witness) The run over the two style sheets that import each
    other. *)
Lemma every_dequeued_url_is_fetched_once_witness :
  fetchLog Demo.afterFirstTurn = expanded Demo.afterFirstTurn
  /\ (exists t st,
        runState Demo.env Demo.cssInput (Demo.options true) 5 = Done (t, st)
        /\ fetchLog st = processed st
        /\ fetchLog st = [Demo.aCss; Demo.bCss]).
Proof.
  destruct every_dequeued_url_is_fetched_once as [H1 H2]. split.
  - apply (H1 Demo.env true Demo.cssInput).
    apply reach_turn with (st := Demo.afterInput); [|vm_compute; reflexivity].
    apply reach_first with (t := None). vm_compute. reflexivity.
  - eexists _, _. split; [vm_compute; reflexivity|]. split.
    + apply (H2 Demo.env Demo.cssInput (Demo.options true) 5 None).
      vm_compute. reflexivity.
    + reflexivity.
Defined.

(** A run without the [recursion] option (or with the option off) never
    invokes [fetch]: when it returns, nothing was fetched, cached,
    enqueued or taken off the queue. *)
Theorem without_recursion_nothing_is_fetched E input options fuel t st :
  default false (recursion options) = false ->
  runState E input options fuel = Done (t, st) ->
  fetchLog st = [] /\ resourceCache st = ∅ /\ promises st = []
  /\ pending st = [] /\ processed st = [] /\ expanded st = [].
Proof.
  intros Hrec. unfold runState. rewrite Hrec.
  destruct (analyzeInput _ _ _ _) as [[t0 st0]| |] eqn:Hin; [|done|done].
  pose proof (analyzeInput_unqueued _ _ _ _ _ Hin) as [Hp Hs].
  apply analyzeInput_discovers in Hin as (_ & Hc & Hpr & Hf & He & _).
  destruct fuel; simpl; rewrite Hp; simpl; intros [= <- <-];
    rewrite Hc, Hpr, Hf, He, Hp, Hs; done.
Qed.

(** (Witness) The demo style sheet, analysed without recursion. *)
Lemma without_recursion_nothing_is_fetched_witness :
  exists t st,
    runState Demo.env Demo.cssInput (Demo.options false) 0 = Done (t, st)
    /\ fetchLog st = [] /\ processed st = []
    /\ map untimedRecord (requests st) = [(Demo.aCss, SrcCss)].
Proof.
  destruct (runState Demo.env Demo.cssInput (Demo.options false) 0)
    as [[t st]| |] eqn:Hrun; [|by vm_compute in Hrun..].
  exists t, st. split; [reflexivity|].
  destruct (without_recursion_nothing_is_fetched Demo.env Demo.cssInput
              (Demo.options false) 0 t st eq_refl Hrun)
    as (Hf & _ & _ & _ & Hs & _).
  split; [exact Hf|]. split; [exact Hs|].
  vm_compute in Hrun. by injection Hrun as <- <-.
Defined.

(** ** Time stamps and the title *)

Lemma recordUrl_stamped E u src base st :
  stamped E st -> stamped E (recordUrl E u src base st).
Proof.
  intros [Hc Ht]. unfold recordUrl, whenResolved.
  destruct (resolveUrl E base u) as [r|]; [|done].
  destruct (Js.truthy r); [|done]. unfold stamped. simpl.
  rewrite length_app, map_app, Ht, Hc. simpl.
  rewrite Nat.add_1_r. split; [done|].
  by rewrite seq_S, map_app.
Qed.

Lemma reachable_stamped E recursive input st :
  reachable E recursive input st -> stamped E st.
Proof.
  set (R := fun st st' : RunState => stamped E st -> stamped E st').
  assert (Hrefl : forall st0, R st0 st0) by (by intros st0 H).
  assert (Htrans : forall a b c, R a b -> R b c -> R a c)
    by (intros a b c Hab Hbc H; by apply Hbc, Hab).
  assert (Hrec : forall u src base st0, R st0 (recordUrl E u src base st0))
    by (intros u src base st0 H; by apply recordUrl_stamped).
  assert (Henq : forall u kind st0,
            (kind = None -> inferResourceKindFromUrl u = None) ->
            R st0 (enqueue recursive u kind st0)).
  { intros u kind st0 _ H. unfold enqueue.
    destruct (negb recursive || isSkippableUrl u); [done|].
    by destruct (set_has (processed st0) u). }
  assert (Hsus : forall n st0, R st0 (set_suspensions n st0)) by (by intros n st0 H).
  assert (Hpop : forall next rest st0,
            pending st0 = next :: rest ->
            R st0 (set_queue rest (processed st0) (expanded st0 ++ [next.1])
                     st0))
    by (by intros next rest st0 _ H).
  assert (Hcache : forall c ps l st0, R st0 (set_cache c ps l st0))
    by (by intros c ps l st0 H).
  induction 1 as [t st Hin|st st' _ IH Hit].
  - apply (analyzeInput_steps E recursive R Hrefl Htrans Hrec Henq Hsus
             _ _ _ _ Hin).
    by split.
  - by apply (iteration_steps E recursive R Hrefl Htrans Hrec Henq Hsus Hpop
                Hcache _ _ Hit).
Qed.

Lemma run_Done E input options fuel r :
  run E input options fuel = Done r ->
  exists st,
    runState E input options fuel = Done (res_title r, st)
    /\ res_capturedAt r = now E 0 /\ res_requests r = requests st.
Proof.
  unfold run. destruct (runState E input options fuel) as [[t st]| |];
    [|done|done].
  intros [= <-]. by exists st.
Qed.

(** [capturedAt] is the first reading of the clock, and the record at
    place [n] of the returned log carries the reading after that and after
    the readings of the records before it.  With a clock that never runs
    backwards the time stamps therefore ascend along the log, and none is
    earlier than [capturedAt]. *)
Theorem records_are_stamped_in_log_order E input options fuel r :
  run E input options fuel = Done r ->
  res_capturedAt r = now E 0
  /\ map timestamp (res_requests r)
     = map (now E) (seq 1 (length (res_requests r)))
  /\ ((forall m n, m <= n -> (now E m <= now E n)%Z) ->
      forall i j ri rj,
        i <= j ->
        res_requests r !! i = Some ri -> res_requests r !! j = Some rj ->
        (res_capturedAt r <= timestamp ri <= timestamp rj)%Z).
Proof.
  intros (st & Hrun & Hcap & Hreq)%run_Done.
  apply runState_reachable, reachable_stamped in Hrun as [_ Ht].
  rewrite <- Hreq in Ht. split; [done|]. split; [done|].
  intros Hmono i j ri rj Hij Hi Hj.
  assert (Hstamp : forall k rk, res_requests r !! k = Some rk ->
                                timestamp rk = now E (S k)).
  { intros k rk Hk.
    assert (Hl : (map timestamp (res_requests r)) !! k = Some (timestamp rk))
      by (by rewrite list_lookup_fmap, Hk).
    rewrite Ht, list_lookup_fmap in Hl.
    apply lookup_lt_Some in Hk.
    rewrite lookup_seq_lt in Hl by done. simpl in Hl. congruence. }
  rewrite (Hstamp _ _ Hi), (Hstamp _ _ Hj), Hcap.
  split; apply Hmono; lia.
Qed.

(** (Witness) A script with two calls of [fetch], under the clock that
    counts its readings. *)
Lemma records_are_stamped_in_log_order_witness :
  exists r,
    run Demo.env "fetch('https://e.com/a'); fetch('https://e.com/b')"
      (Demo.options false) 0 = Done r
    /\ res_capturedAt r = 0%Z
    /\ map timestamp (res_requests r) = [1%Z; 2%Z].
Proof.
  destruct (run Demo.env "fetch('https://e.com/a'); fetch('https://e.com/b')"
              (Demo.options false) 0) as [r| |] eqn:Hrun;
    [|by vm_compute in Hrun..].
  exists r. split; [reflexivity|].
  destruct (records_are_stamped_in_log_order _ _ _ _ _ Hrun) as (Hc & Ht & _).
  split; [exact Hc|]. rewrite Ht.
  vm_compute in Hrun. by injection Hrun as <-.
Defined.

(** The title a run returns is the title of the input document when the
    input is a document and its title is not empty, and absent otherwise:
    a style sheet or a script has no title, an empty title is absent, and
    the documents analysed in the drain loop never set it. *)
Theorem title_comes_from_the_input E input options fuel r :
  run E input options fuel = Done r ->
  res_title r
  = match detectInputKind input with
    | html =>
        match render E input None with
        | Some dom => if Js.truthy (title dom) then Some (title dom) else None
        | None => None
        end
    | _ => None
    end.
Proof.
  intros (st & Hrun & _)%run_Done. revert Hrun. unfold runState, analyzeInput.
  destruct (detectInputKind input).
  - unfold analyzeHtml. destruct (render E input None) as [dom|]; [|done].
    destruct (processPending _ _ _ _); [|done|done]. by intros [= -> _].
  - destruct (processPending _ _ _ _); [|done|done]. by intros [= <- _].
  - destruct (processPending _ _ _ _); [|done|done]. by intros [= <- _].
Qed.

(** (Witness) A document with a title, and a style sheet. *)
Lemma title_comes_from_the_input_witness :
  (exists r, run Demo.env "<title>demo</title>" (Demo.options true) 3 = Done r
             /\ res_title r = Some "demo")
  /\ (exists r, run Demo.env Demo.cssInput (Demo.options true) 3 = Done r
                /\ res_title r = None).
Proof.
  split.
  - destruct (run Demo.env "<title>demo</title>" (Demo.options true) 3)
      as [r| |] eqn:Hrun; [|by vm_compute in Hrun..].
    exists r. split; [reflexivity|].
    by rewrite (title_comes_from_the_input _ _ _ _ _ Hrun).
  - destruct (run Demo.env Demo.cssInput (Demo.options true) 3)
      as [r| |] eqn:Hrun; [|by vm_compute in Hrun..].
    exists r. split; [reflexivity|].
    by rewrite (title_comes_from_the_input _ _ _ _ _ Hrun).
Defined.

(** ** The sources of the records, and failure *)

Lemma appends_refl P st : appends P st st.
Proof. exists []. by rewrite app_nil_r. Qed.

Lemma appends_trans P st1 st2 st3 :
  appends P st1 st2 -> appends P st2 st3 -> appends P st1 st3.
Proof.
  intros (e1 & H1 & F1) (e2 & H2 & F2). exists (e1 ++ e2).
  rewrite H2, H1, app_assoc. split; [done|]. by apply Forall_app.
Qed.

Lemma recordUrl_sourceIn allowed E u src base st :
  src ∈ allowed -> appends (sourceIn allowed) st (recordUrl E u src base st).
Proof.
  intros Hsrc. unfold recordUrl, whenResolved.
  destruct (resolveUrl E base u) as [r|]; [|apply appends_refl].
  destruct (Js.truthy r); [|apply appends_refl].
  eexists [_]. split; [reflexivity|]. by repeat constructor.
Qed.

Lemma enqueue_appends P recursive u kind st :
  appends P st (enqueue recursive u kind st).
Proof.
  unfold enqueue. destruct (negb recursive || isSkippableUrl u);
    [apply appends_refl|].
  destruct (set_has (processed st) u); [apply appends_refl|].
  exists []. by rewrite app_nil_r.
Qed.

Lemma whenResolved_appends P o f st :
  (forall r st0, appends P st0 (f r st0)) -> appends P st (whenResolved o f st).
Proof.
  intros Hf. unfold whenResolved. destruct o as [r|]; [|apply appends_refl].
  destruct (Js.truthy r); [apply Hf|apply appends_refl].
Qed.

Lemma forEach_appends {A} P (l : list A) f st :
  (forall x st0, appends P st0 (f x st0)) -> appends P st (forEach l f st).
Proof.
  intros Hf. unfold forEach. revert st.
  induction l as [|x l IH]; intros st; simpl; [apply appends_refl|].
  eapply appends_trans; [apply Hf|apply IH].
Qed.

(** Takes a goal [appends (sourceIn allowed) st (step ... st0)] apart
    along the shape of the step. *)
Ltac sources :=
  cbv zeta;
  lazymatch goal with
  | |- appends _ ?st ?st => apply appends_refl
  | |- appends _ _ (forEach _ _ _) =>
      eapply appends_trans; [|apply forEach_appends; intros; sources]; sources
  | |- appends _ _ (whenResolved _ _ _) =>
      eapply appends_trans; [|apply whenResolved_appends; intros; sources];
      sources
  | |- appends _ _ (recordUrl _ _ _ _ _) =>
      eapply appends_trans;
      [|apply recordUrl_sourceIn; repeat first [apply list_elem_of_here | apply list_elem_of_further]];
      sources
  | |- appends _ _ (enqueue _ _ _ _) =>
      eapply appends_trans; [|apply enqueue_appends]; sources
  | |- appends _ _ (if ?b then _ else _) => destruct b; sources
  | |- appends _ _ (match ?o with Some _ => _ | None => _ end) =>
      destruct o; sources
  | |- appends _ _ _ => fail
  end.

Lemma recordCssUrls_sources E recursive cssText base st :
  appends (sourceIn [SrcCss]) st (recordCssUrls E recursive cssText base st).
Proof. unfold recordCssUrls. sources. Qed.

Lemma analyzeJs_sources E recursive jsText base st :
  appends (sourceIn [SrcResource; SrcFetch; SrcXhr]) st
    (analyzeJs E recursive jsText base st).
Proof. unfold analyzeJs. sources. Qed.

Lemma appends_weaken (P Q : RequestRecord -> Prop) st st' :
  (forall r, P r -> Q r) -> appends P st st' -> appends Q st st'.
Proof.
  intros HPQ (e & He & Hf). exists e. split; [done|].
  eapply Forall_impl; [exact Hf|exact HPQ].
Qed.

Lemma harvest_sources E recursive els base st :
  appends (sourceIn [SrcImg; SrcResource; SrcCss]) st
    (harvest E recursive els base st).
Proof.
  unfold harvest, harvestLink, recordAttribute, recordSrcset. cbv zeta.
  repeat (eapply appends_trans; [|apply forEach_appends; intros x st0]);
    [apply appends_refl|..].
  all: repeat match goal with
         | |- appends _ _ (if ?b then _ else _) => destruct b
         | |- appends _ _ (match ?o with Some _ => _ | None => _ end) =>
             destruct o
         end;
       first [ apply appends_refl
             | eapply appends_weaken; [|apply recordCssUrls_sources];
               intros r Hr; unfold sourceIn in *;
               apply list_elem_of_singleton in Hr; rewrite Hr;
               repeat first [apply list_elem_of_here | apply list_elem_of_further]
             | sources ].
Qed.

(** The analysis of a style sheet only adds records with source [css],
    the analysis of a script only records with source [resource], [fetch]
    or [xhr], and the harvest of a document only records with source
    [img], [resource] or [css].  So a run without recursion on a style
    sheet returns records with source [css] only, and on a script records
    with source [resource], [fetch] or [xhr] only. *)
Theorem sources_by_kind_of_analysis :
  (forall E recursive cssText base st,
     exists extra,
       requests (recordCssUrls E recursive cssText base st)
       = requests st ++ extra
       /\ Forall (fun r => source r = SrcCss) extra)
  /\ (forall E recursive jsText base st,
        exists extra,
          requests (analyzeJs E recursive jsText base st) = requests st ++ extra
          /\ Forall (fun r => source r ∈ [SrcResource; SrcFetch; SrcXhr]) extra)
  /\ (forall E recursive els base st,
        exists extra,
          requests (harvest E recursive els base st) = requests st ++ extra
          /\ Forall (fun r => source r ∈ [SrcImg; SrcResource; SrcCss]) extra)
  /\ (forall E input options fuel r,
        default false (recursion options) = false ->
        run E input options fuel = Done r ->
        match detectInputKind input with
        | css => Forall (fun r => source r = SrcCss) (res_requests r)
        | js => Forall (fun r => source r ∈ [SrcResource; SrcFetch; SrcXhr])
                  (res_requests r)
        | html => True
        end).
Proof.
  split_and!.
  - intros E recursive cssText base st.
    destruct (recordCssUrls_sources E recursive cssText base st)
      as (extra & He & Hf).
    exists extra. split; [done|]. eapply Forall_impl; [exact Hf|].
    intros r Hr. by apply list_elem_of_singleton in Hr.
  - intros E recursive jsText base st. apply analyzeJs_sources.
  - intros E recursive els base st. apply harvest_sources.
  - intros E input options fuel r Hrec (st & Hrun & _ & Hreq)%run_Done.
    revert Hrun. unfold runState, analyzeInput. rewrite Hrec, Hreq.
    destruct (detectInputKind input); [done| |].
    + pose proof (recordCssUrls_sources E false input None startState)
        as (extra & He & Hf).
      assert (Hp : pending (recordCssUrls E false input None startState) = []).
      { apply (recordCssUrls_steps E false unqueued); unfold unqueued; try done.
        - intros st1 st2 st3 [-> ->] [-> ->]. done.
        - intros u src base st0. apply recordUrl_queue. }
      destruct fuel; simpl; rewrite Hp; intros [= _ <-]; rewrite He; simpl;
        (eapply Forall_impl; [exact Hf|]);
        intros r0 Hr; by apply list_elem_of_singleton in Hr.
    + pose proof (analyzeJs_sources E false input None startState)
        as (extra & He & Hf).
      assert (Hp : pending (analyzeJs E false input None startState) = []).
      { apply (analyzeJs_steps E false unqueued); unfold unqueued; try done.
        - intros st1 st2 st3 [-> ->] [-> ->]. done.
        - intros u src base st0. apply recordUrl_queue. }
      destruct fuel; simpl; rewrite Hp; intros [= _ <-]; by rewrite He.
Qed.

(** (Witness) The demo style sheet. *)
Lemma sources_by_kind_of_analysis_witness :
  exists r,
    run Demo.env Demo.cssInput (Demo.options false) 0 = Done r
    /\ Forall (fun r => source r = SrcCss) (res_requests r)
    /\ map untimedRecord (res_requests r) = [(Demo.aCss, SrcCss)].
Proof.
  destruct (run Demo.env Demo.cssInput (Demo.options false) 0)
    as [r| |] eqn:Hrun; [|by vm_compute in Hrun..].
  exists r. split; [reflexivity|]. split.
  - destruct sources_by_kind_of_analysis as (_ & _ & _ & H).
    apply (H Demo.env Demo.cssInput (Demo.options false) 0 r eq_refl Hrun).
  - vm_compute in Hrun. by injection Hrun as <-.
Defined.

Lemma iteration_no_failure E recursive st :
  (forall h b, is_Some (render E h b)) -> iteration E recursive st <> EnvFailure.
Proof.
  intros Hr. unfold iteration. destruct (pending st) as [|next rest]; [done|].
  destruct (loadResource _ _ _) as [loader st1].
  destruct (awaitPromise _ _ _ _) as [[result|] st2]; [|done].
  destruct (match next.2 with Some k => Some k | None => _ end) as [[| |]|];
    try done.
  unfold analyzeHtml. by destruct (Hr (text result) (Some next.1)) as [dom ->].
Qed.

Lemma processPending_no_failure E recursive fuel : forall st,
  (forall h b, is_Some (render E h b)) ->
  processPending E recursive fuel st <> EnvFailure.
Proof.
  induction fuel as [|fuel IH]; intros st Hr; simpl.
  - by destruct (pending st).
  - destruct (pending st); [done|].
    pose proof (iteration_no_failure E recursive st Hr).
    destruct (iteration E recursive st); [by apply IH|done|done].
Qed.

(** A run fails only when the rendering environment does: if rendering
    never throws, no run ends in its failure; a run without recursion on a
    style sheet or a script always returns a result, without a title; and
    a run on a document whose rendering throws fails. *)
Theorem run_fails_only_with_the_renderer :
  (forall E input options fuel,
     (forall h b, is_Some (render E h b)) ->
     run E input options fuel <> EnvFailure)
  /\ (forall E input options fuel,
        default false (recursion options) = false ->
        detectInputKind input <> html ->
        exists r, run E input options fuel = Done r /\ res_title r = None)
  /\ (forall E input options fuel,
        detectInputKind input = html ->
        render E input None = None ->
        run E input options fuel = EnvFailure).
Proof.
  split_and!.
  - intros E input options fuel Hr. unfold run, runState, analyzeInput.
    destruct (detectInputKind input).
    + unfold analyzeHtml. destruct (Hr input None) as [dom ->].
      pose proof (processPending_no_failure E (default false (recursion options))
                    fuel (suspend E (default false (recursion options))
                            (harvest E (default false (recursion options))
                               (elements dom) None
                               (forEach (intercepted dom)
                                  (interceptor E (default false (recursion options)))
                                  startState))) Hr).
      by destruct (processPending _ _ _ _).
    + pose proof (processPending_no_failure E (default false (recursion options))
                    fuel (recordCssUrls E (default false (recursion options))
                            input None startState) Hr).
      by destruct (processPending _ _ _ _).
    + pose proof (processPending_no_failure E (default false (recursion options))
                    fuel (analyzeJs E (default false (recursion options))
                            input None startState) Hr).
      by destruct (processPending _ _ _ _).
  - intros E input options fuel Hrec Hk. unfold run, runState.
    rewrite Hrec.
    destruct (analyzeInput E false input startState) as [[t st]| |] eqn:Hin.
    + pose proof (analyzeInput_unqueued _ _ _ _ _ Hin) as [Hp _].
      assert (Ht : t = None).
      { unfold analyzeInput in Hin.
        destruct (detectInputKind input); [done| |]; by injection Hin as <- _. }
      subst t. destruct fuel; simpl; rewrite Hp; simpl; by eexists.
    + unfold analyzeInput in Hin. by destruct (detectInputKind input).
    + unfold analyzeInput in Hin. by destruct (detectInputKind input).
  - intros E input options fuel Hk Hr. unfold run, runState, analyzeInput.
    rewrite Hk. unfold analyzeHtml. by rewrite Hr.
Qed.

(** (Witness) The demo style sheet with recursion, a script without, and
    a document in the environment whose rendering throws. *)
Lemma run_fails_only_with_the_renderer_witness :
  run Demo.env Demo.cssInput (Demo.options true) 5 <> EnvFailure
  /\ (exists r, run Demo.env "fetch('https://e.com/blob')" (Demo.options false) 0
                = Done r /\ res_title r = None)
  /\ run Examples.blind "<p>" (Demo.options false) 0 = EnvFailure.
Proof.
  destruct run_fails_only_with_the_renderer as (H1 & H2 & H3).
  split; [|split].
  - apply H1. intros h b. by eexists.
  - apply H2; [reflexivity|by vm_compute].
  - apply H3; reflexivity.
Defined.

(** ** The log covers the queue *)

Lemma resolved_default_nonempty E base href :
  nonEmptyURLs E -> Js.truthy href = true ->
  default href (resolveUrl E base href) <> "".
Proof.
  intros HE Hh. assert (Hne : href <> "") by (by intros ->).
  destruct (resolveUrl_nonempty E base href HE Hne) as (r & -> & Hr). done.
Qed.

(** Every call of [enqueue] comes right after a call of [recordUrl] for
    the same, non-empty URL.  A relation that holds for [recordUrl], for
    such a pair and for the other steps holds for every analysis function
    and for a turn of the drain loop. *)
Section PairedSteps.

Variable E : Env.
Variable recursive : bool.
Variable R : RunState -> RunState -> Prop.

Hypothesis nonEmpty : nonEmptyURLs E.
Hypothesis R_refl : forall st, R st st.
Hypothesis R_trans : forall st1 st2 st3, R st1 st2 -> R st2 st3 -> R st1 st3.
Hypothesis R_record : forall u src base st, R st (recordUrl E u src base st).
Hypothesis R_record_enqueue :
  forall u src kind st,
    u <> "" -> R st (enqueue recursive u kind (recordUrl E u src None st)).
Hypothesis R_suspensions : forall n st, R st (set_suspensions n st).
Hypothesis R_pop :
  forall next rest st,
    pending st = next :: rest ->
    R st (set_queue rest (processed st) (expanded st ++ [fst next]) st).
Hypothesis R_cache : forall c ps l st, R st (set_cache c ps l st).

Lemma whenResolved_truthy o f st :
  (forall r st0, Js.truthy r = true -> R st0 (f r st0)) ->
  R st (whenResolved o f st).
Proof.
  intros Hf. unfold whenResolved. destruct o as [r|]; [|apply R_refl].
  destruct (Js.truthy r) eqn:Hr; [by apply Hf|apply R_refl].
Qed.

Local Ltac nonempty :=
  match goal with
  | H : Js.truthy ?u = true |- ?u <> "" =>
      let Heq := fresh in intros Heq; rewrite Heq in H; discriminate H
  | H : _ && Js.truthy ?u = true |- ?u <> "" =>
      let Heq := fresh in
      apply andb_true_iff in H as [_ H]; intros Heq; rewrite Heq in H;
      discriminate H
  | H : Js.truthy ?h = true |- default ?h (resolveUrl _ _ ?h) <> "" =>
      exact (resolved_default_nonempty E _ h nonEmpty H)
  end.

Local Ltac paired :=
  cbv zeta;
  lazymatch goal with
  | |- R ?st ?st => apply R_refl
  | |- R _ (forEach _ _ _) =>
      eapply R_trans;
      [|apply (forEach_steps R R_refl R_trans); intros; paired]; paired
  | |- R _ (whenResolved _ _ _) =>
      eapply R_trans; [|apply whenResolved_truthy; intros; paired]; paired
  | |- R _ (enqueue _ ?u _ (recordUrl _ ?u _ None _)) =>
      eapply R_trans; [|apply R_record_enqueue; nonempty]; paired
  | |- R _ (recordUrl _ _ _ _ _) => eapply R_trans; [|apply R_record]; paired
  | |- R _ (set_suspensions _ _) =>
      eapply R_trans; [|apply R_suspensions]; paired
  | |- R _ (if ?b then _ else _) => destruct b eqn:?; paired
  | |- R _ (match ?o with Some _ => _ | None => _ end) =>
      destruct o eqn:?; paired
  | |- R _ (match ?s with SrcResource => _ | _ => _ end) =>
      destruct s eqn:?; paired
  | |- R _ _ => fail
  end.

Lemma recordCssUrls_paired cssText base st :
  R st (recordCssUrls E recursive cssText base st).
Proof. unfold recordCssUrls. paired. Qed.

Lemma analyzeJs_paired jsText base st :
  R st (analyzeJs E recursive jsText base st).
Proof. unfold analyzeJs. paired. Qed.

Lemma interceptor_paired i st : R st (interceptor E recursive i st).
Proof. unfold interceptor. paired. Qed.

Lemma suspend_paired st : R st (suspend E recursive st).
Proof.
  unfold suspend. eapply R_trans; [apply R_suspensions|].
  apply (forEach_steps R R_refl R_trans). intros. apply interceptor_paired.
Qed.

Lemma harvestLink_paired base link st :
  R st (harvestLink E recursive base link st).
Proof. unfold harvestLink. paired. Qed.

Lemma harvest_paired els base st : R st (harvest E recursive els base st).
Proof.
  unfold harvest. cbv zeta.
  repeat (eapply R_trans;
          [|apply (forEach_steps R R_refl R_trans); intros x st0]);
    [apply R_refl|..].
  all: first [ apply harvestLink_paired
             | unfold recordAttribute, recordSrcset; idtac ].
  all: repeat match goal with
         | |- R _ (if ?b then _ else _) => destruct b eqn:?
         | |- R _ (match ?o with Some _ => _ | None => _ end) =>
             destruct o eqn:?
         end;
       first [ apply R_refl
             | apply recordCssUrls_paired
             | paired ].
Qed.

Lemma analyzeHtml_paired htmlText base captureTitle st t st' :
  analyzeHtml E recursive htmlText base captureTitle st = Done (t, st') ->
  R st st'.
Proof.
  unfold analyzeHtml. destruct (render E htmlText base) as [dom|]; [|done].
  intros [= _ <-].
  eapply R_trans; [|apply suspend_paired].
  eapply R_trans; [|apply harvest_paired].
  apply (forEach_steps R R_refl R_trans). intros. apply interceptor_paired.
Qed.

Lemma analyzeInput_paired input st t st' :
  analyzeInput E recursive input st = Done (t, st') -> R st st'.
Proof.
  unfold analyzeInput. destruct (detectInputKind input).
  - apply analyzeHtml_paired.
  - intros [= _ <-]. apply recordCssUrls_paired.
  - intros [= _ <-]. apply analyzeJs_paired.
Qed.

Lemma iteration_paired st st' :
  iteration E recursive st = Done st' -> R st st'.
Proof.
  unfold iteration. destruct (pending st) as [|next rest] eqn:Hp.
  { intros [= <-]. apply R_refl. }
  set (popped := set_queue rest (processed st) (expanded st ++ [next.1]) st).
  assert (Hpop : R st popped) by (by apply R_pop).
  pose proof (loadResource_steps E R R_refl R_trans R_cache next.1 popped)
    as Hload.
  destruct (loadResource E next.1 popped) as [loader st1]. simpl in Hload.
  assert (Hwait : R st1 (snd (awaitPromise E recursive loader st1))).
  { unfold awaitPromise, settle. simpl.
    eapply R_trans; [apply R_cache|apply suspend_paired]. }
  destruct (awaitPromise E recursive loader st1) as [result st2].
  simpl in Hwait.
  assert (Hbase : R st st2) by eauto.
  destruct result as [result|]; [|by intros [= <-]].
  destruct (match next.2 with Some k => Some k | None => _ end) as [[| |]|].
  - destruct (analyzeHtml _ _ _ _ _ _) as [[t st3]| |] eqn:Hhtml; [|done|done].
    intros [= <-]. eapply R_trans; [exact Hbase|].
    by apply (analyzeHtml_paired _ _ _ _ _ _ Hhtml).
  - intros [= <-]. eapply R_trans; [exact Hbase|apply recordCssUrls_paired].
  - intros [= <-]. eapply R_trans; [exact Hbase|apply analyzeJs_paired].
  - by intros [= <-].
Qed.

End PairedSteps.

Lemma logged_mono E u st st' :
  requests st `prefix_of` requests st' -> logged E u st -> logged E u st'.
Proof.
  intros [k Hk] (r & Hr & Hu). exists r. split; [|done].
  rewrite Hk. apply elem_of_app. by left.
Qed.

Lemma recordUrl_queueLogged E u src base st :
  queueLogged E st -> queueLogged E (recordUrl E u src base st).
Proof.
  intros H v Hv. rewrite (proj2 (recordUrl_queue E u src base st)) in Hv.
  eapply logged_mono; [|by apply H].
  by destruct (recordUrl_discovers E u src base st).
Qed.

Lemma record_enqueue_queueLogged E recursive u src kind st :
  nonEmptyURLs E -> u <> "" ->
  queueLogged E st ->
  queueLogged E (enqueue recursive u kind (recordUrl E u src None st)).
Proof.
  intros HE Hu H.
  destruct (resolveUrl_nonempty E None u HE Hu) as (resolved & Hres & Hne).
  pose proof (recordUrl_appends E u src None st resolved Hres Hne) as Hrec.
  set (st1 := recordUrl E u src None st) in *.
  assert (H1 : queueLogged E st1) by (by apply recordUrl_queueLogged).
  assert (Hu1 : logged E u st1).
  { exists {| url := resolved; source := src;
               timestamp := now E (clockReads st) |}.
    split; [|exact Hres]. rewrite Hrec. simpl.
    apply elem_of_app. right. by apply list_elem_of_singleton. }
  unfold enqueue. destruct (negb recursive || isSkippableUrl u); [done|].
  destruct (set_has (processed st1) u) eqn:Hhas; [done|].
  intros v. simpl. unfold set_add. rewrite Hhas.
  intros [Hv| ->%list_elem_of_singleton]%elem_of_app.
  - destruct (H1 v Hv) as (r & Hr & Hv'). by exists r.
  - destruct Hu1 as (r & Hr & Hv'). by exists r.
Qed.

Lemma reachable_queueLogged E recursive input st :
  nonEmptyURLs E -> reachable E recursive input st -> queueLogged E st.
Proof.
  intros HE.
  set (R := fun st st' : RunState => queueLogged E st -> queueLogged E st').
  assert (Hrefl : forall st0, R st0 st0) by (by intros st0 H).
  assert (Htrans : forall a b c, R a b -> R b c -> R a c)
    by (intros a b c Hab Hbc H; by apply Hbc, Hab).
  assert (Hrec : forall u src base st0, R st0 (recordUrl E u src base st0))
    by (intros u src base st0 H; by apply recordUrl_queueLogged).
  assert (Hpair : forall u src kind st0, u <> "" ->
            R st0 (enqueue recursive u kind (recordUrl E u src None st0)))
    by (intros u src kind st0 Hu H; by apply record_enqueue_queueLogged).
  assert (Hsus : forall n st0, R st0 (set_suspensions n st0)) by (by intros n st0 H).
  assert (Hpop : forall next rest st0,
            pending st0 = next :: rest ->
            R st0 (set_queue rest (processed st0) (expanded st0 ++ [next.1])
                     st0))
    by (by intros next rest st0 _ H).
  assert (Hcache : forall c ps l st0, R st0 (set_cache c ps l st0))
    by (by intros c ps l st0 H).
  induction 1 as [t st Hin|st st' _ IH Hit].
  - apply (analyzeInput_paired E recursive R HE Hrefl Htrans Hrec Hpair Hsus
             _ _ _ _ Hin).
    intros u Hu. by apply not_elem_of_nil in Hu.
  - by apply (iteration_paired E recursive R HE Hrefl Htrans Hrec Hpair Hsus
                Hpop Hcache _ _ Hit).
Qed.

(** With a URL parser that never returns the empty string, every URL
    that was enqueued has a record in the log, whose URL is the resolution
    of the enqueued one; so when a run returns, every URL [fetch] was
    invoked with is reported in the log. *)
Theorem every_fetched_url_is_in_the_log :
  (forall E recursive input st u,
     nonEmptyURLs E ->
     reachable E recursive input st ->
     u ∈ processed st ->
     exists r, r ∈ requests st /\ resolveUrl E None u = Some (url r))
  /\ (forall E input options fuel t st u,
        nonEmptyURLs E ->
        runState E input options fuel = Done (t, st) ->
        u ∈ fetchLog st ->
        exists r, r ∈ requests st /\ resolveUrl E None u = Some (url r)).
Proof.
  split.
  - intros E recursive input st u HE Hreach Hu.
    by apply (reachable_queueLogged E recursive input st HE Hreach).
  - intros E input options fuel t st u HE Hrun Hu.
    pose proof (runState_reachable _ _ _ _ _ _ Hrun) as Hreach.
    apply (reachable_queueLogged E _ input st HE Hreach).
    destruct (reachable_cacheFollowsQueue _ _ _ _ Hreach) as [Hf _].
    destruct (reachable_queueInv _ _ _ _ Hreach) as [_ Hq].
    rewrite Hq. apply elem_of_app. left. rewrite Hf in Hu.
    destruct (fetch_available E); [done|]. by apply not_elem_of_nil in Hu.
Qed.

(** (Witness) The second style sheet of the demo run. *)
Lemma every_fetched_url_is_in_the_log_witness :
  exists t st,
    runState Demo.env Demo.cssInput (Demo.options true) 5 = Done (t, st)
    /\ fetchLog st = [Demo.aCss; Demo.bCss]
    /\ exists r, r ∈ requests st
                 /\ resolveUrl Demo.env None Demo.bCss = Some (url r).
Proof.
  destruct (runState Demo.env Demo.cssInput (Demo.options true) 5)
    as [[t st]| |] eqn:Hrun; [|by vm_compute in Hrun..].
  exists t, st. split; [reflexivity|].
  assert (Hf : fetchLog st = [Demo.aCss; Demo.bCss]).
  { vm_compute in Hrun. by injection Hrun as <- <-. }
  split; [exact Hf|].
  apply (proj2 every_fetched_url_is_in_the_log Demo.env Demo.cssInput
           (Demo.options true) 5 t st Demo.bCss demo_nonEmptyURLs Hrun).
  rewrite Hf. apply elem_of_cons. right. apply elem_of_cons. by left.
Defined.

(** ** References are pieces of the text *)

Lemma startsWith_spec s p :
  Js.startsWith s p = true <-> exists t, s = p +:+ t.
Proof.
  revert s. induction p as [|b p IH]; intros s.
  - split; [intros _; by exists s|by destruct s].
  - destruct s as [|a s]; cbn [Js.startsWith].
    + split; [done|]. by intros [t Ht].
    + split.
      * intros [Hab [t ->]%IH]%andb_true_iff. apply Ascii.eqb_eq in Hab.
        subst. by exists t.
      * intros [t [= -> ->]]. rewrite Ascii.eqb_refl. simpl. apply IH.
        by exists t.
Qed.

Lemma includes_spec s p : Js.includes s p = true <-> occursIn p s.
Proof.
  induction s as [|a s IH].
  - cbn [Js.includes]. rewrite orb_false_r. split.
    + intros [t Ht]%startsWith_spec. by exists "", t.
    + intros (x & y & H). apply startsWith_spec. destruct x; simpl in H.
      * by exists y.
      * discriminate H.
  - cbn [Js.includes]. rewrite orb_true_iff. split.
    + intros [[t Ht]%startsWith_spec|(x & y & ->)%IH].
      * by exists "", t.
      * by exists (String a x), y.
    + intros (x & y & H). destruct x as [|c x]; simpl in H.
      * left. apply startsWith_spec. by exists y.
      * injection H as -> ->. right. apply IH. by exists x, y.
Qed.

Lemma occursIn_refl s : occursIn s s.
Proof. exists "", "". simpl. by rewrite append_empty_r. Qed.

Lemma occursIn_trans a b c : occursIn a b -> occursIn b c -> occursIn a c.
Proof.
  intros (x & y & ->) (x' & y' & ->).
  exists (x' +:+ x), (y +:+ y'). by rewrite !append_assoc.
Qed.

Lemma occursIn_empty s : occursIn "" s.
Proof. by exists "", s. Qed.

Lemma trimStart_suffix s : exists ws, s = ws +:+ Js.trimStart s.
Proof.
  induction s as [|a s [ws IH]]; simpl; [by exists ""|].
  destruct (Js.isSpace a); [|by exists ""].
  exists (String a ws). simpl. by rewrite <- IH.
Qed.

Lemma trimEnd_prefix s : exists ws, s = Js.trimEnd s +:+ ws.
Proof.
  induction s as [|a s [ws IH]]; simpl; [by exists ""|].
  destruct (Js.trimEnd s) as [|b t] eqn:Ht.
  - destruct (Js.isSpace a).
    + exists (String a s). done.
    + exists ws. simpl in *. by rewrite <- IH.
  - exists ws. simpl in *. by rewrite <- IH.
Qed.

Lemma trim_occursIn s : occursIn (Js.trim s) s.
Proof.
  unfold Js.trim. destruct (trimStart_suffix s) as [ws Hs].
  destruct (trimEnd_prefix (Js.trimStart s)) as [ws' Hs'].
  exists ws, ws'. by rewrite <- Hs'.
Qed.

Lemma take_prefix n : forall s, exists t, s = Js.take n s +:+ t.
Proof.
  induction n as [|n IH]; intros s; [by exists s|].
  destruct s as [|a s]; [by exists ""|]. destruct (IH s) as [t Ht].
  exists t. simpl. by rewrite <- Ht.
Qed.

Section Within.
Import Regex.

Variable ic : bool.
Variable whole : string.

Lemma within_advance a s st :
  rest st = String a s -> within whole st -> within whole (advance a s st).
Proof.
  intros Hr [[pre Hp] Hc]. split; [|done]. simpl.
  exists (pre +:+ String a ""). rewrite Hp, Hr, append_assoc. done.
Qed.

Lemma eat_within t : forall st st1,
  within whole st -> eat ic t st = Some st1 -> within whole st1.
Proof.
  induction t as [|c t IH]; intros st st1 Hw H; simpl in H.
  - by injection H as <-.
  - destruct (rest st) as [|a s'] eqn:Hr; [done|].
    destruct (Ascii.eqb _ _); [|done].
    eapply IH; [|exact H]. by apply within_advance.
Qed.

Lemma consumed_occursIn st st1 :
  within whole st -> occursIn (consumed st st1) whole.
Proof.
  intros [[pre Hp] _]. unfold consumed.
  destruct (take_prefix (String.length (rest st) - String.length (rest st1))
              (rest st)) as [t Ht].
  exists pre, t. by rewrite <- Ht.
Qed.

Lemma run_within r : forall st k fin,
  within whole st ->
  run ic r st k = Some fin ->
  exists st', within whole st' /\ k st' = Some fin.
Proof.
  induction r as [| c | | negated items | | r1 IH1 r2 IH2 | r1 IH1 r2 IH2
                  | greedy r1 IH1 | n r1 IH1 | n]; intros st k fin Hw H;
    simpl in H.
  - by exists st.
  - destruct (rest st) as [|a s'] eqn:Hr; [done|].
    destruct (Ascii.eqb _ _); [|done].
    eexists. split; [|exact H]. by apply within_advance.
  - destruct (rest st) as [|a s'] eqn:Hr; [done|].
    destruct (Js.isLineTerminator a); [done|].
    eexists. split; [|exact H]. by apply within_advance.
  - destruct (rest st) as [|a s'] eqn:Hr; [done|].
    destruct (class_matches _ _ _ _); [|done].
    eexists. split; [|exact H]. by apply within_advance.
  - destruct (xorb _ _); [|done]. by exists st.
  - apply IH1 in H as (st1 & Hw1 & H); [|done].
    apply IH2 in H as (st2 & Hw2 & H); [|done]. by exists st2.
  - unfold orElse in H. destruct (run ic r1 st k) eqn:H1.
    + inversion H; subst. by apply IH1 in H1.
    + by apply IH2 in H.
  - revert H. generalize (String.length (rest st)). intros n. revert st fin Hw.
    induction n as [|n IHn]; intros st fin Hw H; simpl in H.
    + by exists st.
    + assert (Hagain : forall x,
                run ic r1 st (fun st1 =>
                  if Nat.ltb (String.length (rest st1)) (String.length (rest st))
                  then iterate greedy (run ic r1) k n st1 else None) = Some x ->
                exists st', within whole st' /\ k st' = Some x).
      { intros x Hx. apply IH1 in Hx as (st1 & Hw1 & Hx); [|done].
        destruct (Nat.ltb _ _); [|done]. by apply IHn in Hx. }
      unfold orElse in H. destruct greedy.
      * destruct (run ic r1 st _) eqn:H1.
        -- inversion H; subst. by apply Hagain.
        -- by exists st.
      * destruct (k st) eqn:Hk.
        -- inversion H; subst. by exists st.
        -- by apply Hagain.
  - apply IH1 in H as (st1 & Hw1 & H); [|done].
    eexists. split; [|exact H]. destruct Hw1 as [Hp Hc]. split; [done|].
    simpl. constructor; [|done]. simpl. by apply consumed_occursIn.
  - destruct (capture n (caps st)) as [t|]; [|by exists st].
    destruct (eat ic t st) as [st1|] eqn:He; [|done].
    exists st1. split; [|done]. by eapply eat_within.
Qed.

Lemma search_within r : forall s p fin,
  (exists before, whole = before +:+ s) ->
  search ic r s p = Some fin -> within whole fin.
Proof.
  induction s as [|a s IH]; intros p fin Hs H; simpl in H.
  - destruct (run ic r _ Some) eqn:Hrun; [|done]. inversion H; subst.
    apply run_within in Hrun as (st' & Hw & [= ->]); [done|].
    split; [done|constructor].
  - destruct (run ic r _ Some) eqn:Hrun.
    + inversion H; subst.
      apply run_within in Hrun as (st' & Hw & [= ->]); [done|].
      split; [done|constructor].
    + eapply IH; [|exact H]. destruct Hs as [pre ->].
      exists (pre +:+ String a ""). by rewrite append_assoc.
Qed.

Lemma execLoop_within r fuel : forall s p ms,
  (exists before, whole = before +:+ s) ->
  execLoop ic r fuel s p = Some ms ->
  Forall (Forall (fun c => occursIn (snd c) whole)) ms.
Proof.
  induction fuel as [|fuel IH]; intros s p ms Hs H; simpl in H.
  - destruct (search ic r s p) as [fin|]; [|by injection H as <-].
    by destruct (Nat.ltb _ _).
  - destruct (search ic r s p) as [fin|] eqn:Hsearch; [|by injection H as <-].
    destruct (Nat.ltb _ _); [|done].
    destruct (execLoop ic r fuel (rest fin) (prev fin)) as [ms'|] eqn:Hrec;
      [|done].
    injection H as <-. apply search_within in Hsearch as [Hp Hc]; [|done].
    constructor; [done|]. by eapply IH.
Qed.

Lemma scan_within r :
  Forall (Forall (fun c => occursIn (snd c) whole)) (Patterns.scan ic r whole).
Proof.
  unfold Patterns.scan, matchAll.
  destruct (execLoop ic r _ whole None) as [ms|] eqn:H; [|constructor].
  eapply execLoop_within; [|exact H]. by exists "".
Qed.

Lemma group_occursIn n m :
  Forall (fun c => occursIn (snd c) whole) m -> occursIn (group n m) whole.
Proof.
  unfold group. induction m as [|[i t] m IH]; intros Hm; simpl.
  - apply occursIn_empty.
  - inversion Hm; subst. destruct (Nat.eqb i n); [done|]. by apply IH.
Qed.

End Within.

Lemma addCapture_members ms : forall acc x,
  x ∈ fold_left addCapture ms acc ->
  x ∈ acc \/ x ∈ map (Regex.group 1) ms.
Proof.
  induction ms as [|m ms IH]; intros acc x Hx; simpl in *; [by left|].
  apply IH in Hx as [Hx|Hx].
  - unfold addCapture, set_add in Hx. destruct (set_has acc _); [by left|].
    apply elem_of_app in Hx as [Hx|Hx%list_elem_of_singleton]; [by left|].
    right. subst. apply elem_of_cons. by left.
  - right. apply elem_of_cons. by right.
Qed.

Lemma css_captures_occur ic r cssText :
  Forall (fun u => occursIn u cssText)
    (fold_left pushTrimmed (Patterns.scan ic r cssText) []).
Proof.
  rewrite pushTrimmed_all. simpl. apply Forall_forall. intros u Hu.
  apply list_elem_of_In, List.filter_In in Hu as [Hu _].
  apply list_elem_of_In, list_elem_of_fmap in Hu as (m & -> & Hm).
  pose proof (scan_within ic cssText r) as Hs. rewrite Forall_forall in Hs.
  unfold cssCapture. eapply occursIn_trans; [apply trim_occursIn|].
  by apply group_occursIn, Hs.
Qed.

Lemma js_captures_occur r jsText acc :
  Forall (fun u => occursIn u jsText) acc ->
  Forall (fun u => occursIn u jsText)
    (fold_left addCapture (Patterns.scan false r jsText) acc).
Proof.
  intros Hacc. apply Forall_forall. intros u Hu.
  apply addCapture_members in Hu as [Hu|Hu].
  - rewrite Forall_forall in Hacc. by apply Hacc.
  - apply list_elem_of_fmap in Hu as (m & -> & Hm).
    pose proof (scan_within false jsText r) as Hs. rewrite Forall_forall in Hs.
    by apply group_occursIn, Hs.
Qed.

(** Every reference the two extractors return is a piece of the text
    they were given: [String.prototype.includes] finds it there. *)
Theorem extracted_references_occur_in_the_text :
  (forall cssText,
     let d := extractCssDependencies cssText in
     Forall (fun u => Js.includes cssText u = true)
       (css_imports d ++ css_urls d))
  /\ (forall jsText,
        let d := extractJsDependencies jsText in
        Forall (fun u => Js.includes jsText u = true)
          (js_imports d ++ js_importScripts d ++ js_fetches d ++ js_xhrs d)).
Proof.
  split.
  - intros cssText d. subst d. unfold extractCssDependencies. simpl.
    apply Forall_app. split;
      (eapply Forall_impl; [apply css_captures_occur|]);
      intros u Hu; by apply includes_spec.
  - intros jsText d. subst d. unfold extractJsDependencies. simpl.
    rewrite !Forall_app. split_and!;
      (eapply Forall_impl;
       [repeat apply js_captures_occur; constructor
       |intros u Hu; by apply includes_spec]).
Qed.

Lemma split_pieces c s :
  exists p r, Js.split c s = p :: r
              /\ (exists t, s = p +:+ t)
              /\ Forall (fun x => occursIn x s) r.
Proof.
  induction s as [|a s (p & r & Hs & [t Ht] & Hr)]; simpl.
  - exists "", []. split; [done|]. split; [by exists ""|constructor].
  - assert (Hlift : forall x, occursIn x s -> occursIn x (String a s)).
    { intros x (y & z & ->). by exists (String a y), z. }
    rewrite Hs. destruct (Ascii.eqb a c).
    + exists "", (p :: r). split; [done|]. split; [by eexists|].
      constructor.
      * apply Hlift. exists "", t. by rewrite Ht at 1.
      * eapply Forall_impl; [exact Hr|exact Hlift].
    + exists (String a p), r. split; [done|]. split.
      * exists t. simpl. by rewrite Ht at 1.
      * eapply Forall_impl; [exact Hr|exact Hlift].
Qed.

Lemma split_occurs c s : Forall (fun p => occursIn p s) (Js.split c s).
Proof.
  destruct (split_pieces c s) as (p & r & -> & [t Ht] & Hr).
  constructor; [|done]. exists "", t. by rewrite Ht at 1.
Qed.

Lemma firstToken_prefix s : exists t, s = Js.firstToken s +:+ t.
Proof.
  induction s as [|a s [t Ht]]; simpl; [by exists ""|].
  destruct (Js.isSpace a); [by eexists|]. exists t. simpl. by rewrite <- Ht.
Qed.

Lemma srcset_urls_occur value :
  Forall (fun u => occursIn u value) (parseSrcsetUrls value).
Proof.
  unfold parseSrcsetUrls. apply Forall_forall. intros u Hu.
  apply list_elem_of_In, List.filter_In in Hu as [Hu _].
  apply list_elem_of_In, list_elem_of_fmap in Hu as (cand & -> & Hcand).
  pose proof (split_occurs "," value) as Hs. rewrite Forall_forall in Hs.
  eapply occursIn_trans; [|by apply Hs].
  eapply occursIn_trans; [|apply trim_occursIn].
  destruct (firstToken_prefix (Js.trim cand)) as [t Ht].
  exists "", t. by rewrite Ht at 1.
Qed.


(** Every URL that [parseSrcsetUrls] returns is not empty, holds neither
    white space nor a comma, and is a piece of the attribute value. *)
Theorem srcset_urls_are_tokens_of_the_value (value : string) :
  Forall (fun u => isUrlToken u = true /\ Js.includes value u = true)
    (parseSrcsetUrls value).
Proof.
  apply Forall_forall. intros u Hu. split.
  - pose proof (parseSrcsetUrls_tokens value) as H.
    rewrite Forall_forall in H. by apply H.
  - apply includes_spec. pose proof (srcset_urls_occur value) as H.
    rewrite Forall_forall in H. by apply H.
Qed.

(** ** Imports are followed *)

Lemma enqueue_grows recursive u kind st :
  processed st ⊆ processed (enqueue recursive u kind st).
Proof.
  unfold enqueue. destruct (negb recursive || isSkippableUrl u);
    [by intros v Hv|].
  destruct (set_has (processed st) u) eqn:Hh; [by intros v Hv|]. simpl.
  unfold set_add. rewrite Hh. intros v Hv. apply elem_of_app. by left.
Qed.

Lemma enqueue_member u kind st :
  isSkippableUrl u = false -> u ∈ processed (enqueue true u kind st).
Proof.
  intros Hs. unfold enqueue. rewrite Hs. simpl.
  destruct (set_has (processed st) u) eqn:Hh; [by apply set_has_spec|].
  simpl. unfold set_add. rewrite Hh. apply elem_of_app. right.
  by apply list_elem_of_singleton.
Qed.

Section Grows.

Variable E : Env.
Variable recursive : bool.

Lemma grows_refl st : grows st st.
Proof. by intros v Hv. Qed.

Lemma grows_trans st1 st2 st3 : grows st1 st2 -> grows st2 st3 -> grows st1 st3.
Proof. unfold grows. intros H1 H2 v Hv. by apply H2, H1. Qed.

Lemma grows_record u src base st : grows st (recordUrl E u src base st).
Proof.
  unfold grows. rewrite (proj2 (recordUrl_queue E u src base st)).
  by intros v Hv.
Qed.

Lemma grows_enqueue u kind st :
  (kind = None -> inferResourceKindFromUrl u = None) ->
  grows st (enqueue recursive u kind st).
Proof. intros _. apply enqueue_grows. Qed.

Lemma grows_forEach {A} (l : list A) f st :
  (forall x st0, grows st0 (f x st0)) -> grows st (forEach l f st).
Proof. apply forEach_steps; [exact grows_refl|exact grows_trans]. Qed.

Lemma grows_iteration st st' :
  iteration E recursive st = Done st' -> grows st st'.
Proof.
  apply iteration_steps.
  - exact grows_refl.
  - exact grows_trans.
  - exact grows_record.
  - exact grows_enqueue.
  - intros n st0 v Hv. exact Hv.
  - intros next rest st0 _ v Hv. exact Hv.
  - intros c ps l st0 v Hv. exact Hv.
Qed.

Lemma grows_processPending fuel : forall st st',
  processPending E recursive fuel st = Done st' -> grows st st'.
Proof.
  induction fuel as [|fuel IH]; intros st st'; simpl.
  - destruct (pending st); [|done]. intros [= <-]. apply grows_refl.
  - destruct (pending st); [intros [= <-]; apply grows_refl|].
    destruct (iteration E recursive st) as [st1| |] eqn:Hit; [|done|done].
    intros Hpp. eapply grows_trans; [by apply grows_iteration|by apply IH].
Qed.

End Grows.

Lemma forEach_enqueues {A} (l : list A) f x v :
  x ∈ l ->
  (forall y st0, grows st0 (f y st0)) ->
  (forall st0, v ∈ processed (f x st0)) ->
  forall st, v ∈ processed (forEach l f st).
Proof.
  intros Hx Hf Hv. unfold forEach.
  induction l as [|y l IH]; intros st; [by apply not_elem_of_nil in Hx|].
  simpl. apply elem_of_cons in Hx as [<-|Hx]; [|by apply IH].
  by apply (grows_forEach l f (f x st)), Hv.
Qed.

Lemma recordCssUrls_enqueues_import E cssText base st t resolved :
  t ∈ css_imports (extractCssDependencies cssText) ->
  resolveUrl E base t = Some resolved -> Js.truthy resolved = true ->
  isSkippableUrl resolved = false ->
  resolved ∈ processed (recordCssUrls E true cssText base st).
Proof.
  intros Ht Hres Htr Hskip. unfold recordCssUrls. cbv zeta.
  apply grows_forEach.
  { intros x st0. apply whenResolved_steps; [exact grows_refl|].
    intros r st1. apply grows_record. }
  apply forEach_enqueues with (x := t); [done| |].
  - intros y st0. apply whenResolved_steps; [exact grows_refl|].
    intros r st1. eapply grows_trans; [apply grows_record|].
    by apply grows_enqueue.
  - intros st0. unfold whenResolved. rewrite Hres, Htr.
    by apply enqueue_member.
Qed.

Lemma queueExtends_refl st : queueExtends st st.
Proof. unfold queueExtends. reflexivity. Qed.

Lemma queueExtends_trans st1 st2 st3 :
  queueExtends st1 st2 -> queueExtends st2 st3 -> queueExtends st1 st3.
Proof. unfold queueExtends. intros H1 H2. by etrans. Qed.

Lemma recordUrl_queueExtends E u src base st :
  queueExtends st (recordUrl E u src base st).
Proof.
  unfold queueExtends. by rewrite (proj1 (recordUrl_queue E u src base st)).
Qed.

Lemma enqueue_queueExtends recursive u kind st :
  queueExtends st (enqueue recursive u kind st).
Proof.
  unfold queueExtends, enqueue.
  destruct (negb recursive || isSkippableUrl u); [reflexivity|].
  destruct (set_has (processed st) u); [reflexivity|]. simpl.
  by apply prefix_app_r.
Qed.

Lemma whenResolved_queueExtends o f st :
  (forall r st0, queueExtends st0 (f r st0)) ->
  queueExtends st (whenResolved o f st).
Proof.
  apply whenResolved_steps. exact queueExtends_refl.
Qed.

Lemma wrapped_import_first t tail :
  isTarget t = true ->
  exists others,
    css_imports (extractCssDependencies ("@import url(" +:+ t +:+ ")" +:+ tail))
    = t :: others.
Proof.
  intros Ht. unfold extractCssDependencies. cbn [css_imports].
  destruct (scan_hit true Patterns.cssImportPattern
              ("@import url(" +:+ t +:+ ")" +:+ tail)
              (Regex.MState tail (Some ")"%char) [(2, t); (1, "")]))
    as [ms ->].
  - vm_compute. lia.
  - apply search_hit. by apply cssImportPattern_wrapped.
  - rewrite pushTrimmed_all. simpl. unfold cssCapture.
    change (Regex.group 2 [(2, t); (1, "")]) with t.
    rewrite (trim_target t Ht).
    apply andb_true_iff in Ht as [-> _]. by eexists.
Qed.

Lemma iteration_css_returns E recursive st u rest :
  pending st = (u, Some css) :: rest ->
  exists st', iteration E recursive st = Done st'.
Proof.
  intros Hp. unfold iteration. rewrite Hp. cbn [fst snd].
  destruct (loadResource E u _) as [loader st1].
  destruct (awaitPromise E recursive loader st1) as [[result|] st2];
    by eexists.
Qed.

(** With recursion enabled and [fetch] at hand, a run on a style sheet
    that starts with an [@import url(...)] fetches the target of that
    import, unless the target resolves to a URL of a skipped scheme: the
    first pass puts the resolved target at the head of the queue, the
    first turn of the drain loop returns and has invoked [fetch] with it
    and with nothing else, and the run goes on from there; the fetch log
    of a run that returns holds the target. *)
Theorem css_imports_are_followed E t tail options resolved :
  isTarget t = true ->
  recursion options = Some true ->
  fetch_available E = true ->
  resolveUrl E None t = Some resolved ->
  Js.truthy resolved = true ->
  isSkippableUrl resolved = false ->
  let input := "@import url(" +:+ t +:+ ")" +:+ tail in
  (exists st0 rest st1,
     analyzeInput E true input startState = Done (None, st0)
     /\ pending st0 = (resolved, Some css) :: rest
     /\ iteration E true st0 = Done st1
     /\ fetchLog st1 = [resolved]
     /\ forall fuel,
          runState E input options (S fuel)
          = match processPending E true fuel st1 with
            | Done st' => Done (None, st')
            | EnvFailure => EnvFailure
            | OutOfFuel => OutOfFuel
            end)
  /\ (forall fuel title st,
        runState E input options fuel = Done (title, st) ->
        resolved ∈ fetchLog st).
Proof.
  intros Ht Hrec Hfetch Hres Htr Hskip input.
  assert (Hkind : detectInputKind input = css) by reflexivity.
  split.
  - set (st0 := recordCssUrls E true input None startState).
    assert (Hin : analyzeInput E true input startState = Done (None, st0)).
    { unfold analyzeInput. by rewrite Hkind. }
    assert (Hq : exists rest, pending st0 = (resolved, Some css) :: rest).
    { subst st0 input. unfold recordCssUrls. cbv zeta.
      destruct (wrapped_import_first t tail Ht) as [others ->].
      match goal with
      | |- exists rest, pending (forEach ?l2 ?f2 (forEach _ ?f1 _)) = _ =>
          set (F1 := f1); set (F2 := f2); set (L2 := l2)
      end.
      assert (Hfirst : pending (F1 t startState) = [(resolved, Some css)]).
      { subst F1. cbv beta. unfold whenResolved. rewrite Hres, Htr.
        unfold enqueue. rewrite Hskip. simpl negb. simpl orb. cbv iota.
        rewrite (proj2 (recordUrl_queue E resolved SrcCss None startState)).
        rewrite (proj1 (recordUrl_queue E resolved SrcCss None startState)).
        reflexivity. }
      assert (Hext : queueExtends (F1 t startState)
                       (forEach L2 F2 (forEach others F1 (F1 t startState)))).
      { apply (queueExtends_trans _ (forEach others F1 (F1 t startState)));
          apply (forEach_steps queueExtends queueExtends_refl
                   queueExtends_trans);
          intros x st; apply whenResolved_queueExtends; intros r st0.
        - eapply queueExtends_trans;
            [apply recordUrl_queueExtends|apply enqueue_queueExtends].
        - apply recordUrl_queueExtends. }
      change (forEach (t :: others) F1 startState)
        with (forEach others F1 (F1 t startState)).
      destruct Hext as [k Hk]. rewrite Hk, Hfirst. by eexists. }
    destruct Hq as [rest Hq].
    destruct (iteration_css_returns E true st0 resolved rest Hq) as [st1 Hit].
    assert (Hd : discovers startState st0)
      by (by apply (analyzeInput_discovers _ _ _ _ _ _ Hin)).
    destruct Hd as (_ & Hc & _ & Hf & _).
    destruct (iteration_cache E true st0 _ _ st1 Hq) as (_ & Hlog & _);
      [by rewrite Hc|done|].
    exists st0, rest, st1. split_and!; try done.
    + by rewrite Hlog, Hf, Hfetch.
    + intros fuel. unfold runState. rewrite Hrec. simpl default.
      rewrite Hin. simpl. by rewrite Hq, Hit.
  - intros fuel title st Hrun.
    rewrite (runState_fetchLog _ _ _ _ _ _ Hrun), Hfetch.
    revert Hrun. unfold runState, analyzeInput. rewrite Hrec. simpl default.
    rewrite Hkind.
    destruct (processPending _ _ _ _) as [st'| |] eqn:Hpp; [|done|done].
    intros [= _ <-]. apply (grows_processPending _ _ _ _ _ Hpp).
    apply (recordCssUrls_enqueues_import E _ None startState t resolved);
      try done.
    by destruct (wrapped_import_in_both t tail Ht).
Qed.

(** (Witness) An import of the first demo style sheet. *)
Lemma css_imports_are_followed_witness :
  exists st0 rest st1,
    analyzeInput Demo.env true "@import url(https://e.com/a.css);" startState
    = Done (None, st0)
    /\ pending st0 = (Demo.aCss, Some css) :: rest
    /\ iteration Demo.env true st0 = Done st1
    /\ fetchLog st1 = [Demo.aCss].
Proof.
  destruct (css_imports_are_followed Demo.env "https://e.com/a.css" ";"
              (Demo.options true) Demo.aCss)
    as [(st0 & rest & st1 & H0 & H1 & H2 & H3 & _) _]; [reflexivity..|].
  by exists st0, rest, st1.
Defined.

(** ** The hooks and the loader of the rendering environment *)

Lemma interceptor_without_source E recursive i st :
  i_source i = None ->
  unqueued st (interceptor E recursive i st)
  /\ appends (sourceIn [SrcUnknown]) st (interceptor E recursive i st).
Proof.
  intros Hs. unfold interceptor, whenResolved.
  destruct (resolveUrl E (i_referrer i) (i_url i)) as [r|];
    [|split; [done|apply appends_refl]].
  destruct (Js.truthy r); [|split; [done|apply appends_refl]].
  rewrite Hs. simpl.
  assert (H : unqueued st (recordUrl E r SrcUnknown None st)
              /\ appends (sourceIn [SrcUnknown]) st
                   (recordUrl E r SrcUnknown None st)).
  { split; [apply recordUrl_queue|].
    apply recordUrl_sourceIn, list_elem_of_here. }
  by destruct recursive.
Qed.

Lemma interceptor_from_loader E recursive i st :
  i_source i = Some SrcResource ->
  appends (sourceIn [SrcResource]) st (interceptor E recursive i st).
Proof.
  intros Hs. unfold interceptor, whenResolved.
  destruct (resolveUrl E (i_referrer i) (i_url i)) as [r|];
    [|apply appends_refl].
  destruct (Js.truthy r); [|apply appends_refl].
  rewrite Hs. simpl.
  assert (H : appends (sourceIn [SrcResource]) st
                (recordUrl E r SrcResource None st))
    by apply recordUrl_sourceIn, list_elem_of_here.
  destruct recursive; [|done].
  destruct (inferKindFromElement (i_element i)); [|done].
  eapply appends_trans; [exact H|apply enqueue_appends].
Qed.

(** Every call the patched setters and methods make of the interceptor
    carries the URL of the document as referrer and no source; and the
    interceptor of [analyzeHtml] records a call without a source with
    source [unknown] and never enqueues its URL, whether recursion is on
    or off. *)
Theorem hooked_mutations_are_logged_as_unknown :
  (forall documentURL this name value text property,
     Forall (fun i => i_source i = None /\ i_referrer i = Some documentURL)
       (Dom.setAttribute documentURL this name value
        ++ Dom.setSrc documentURL this value
        ++ Dom.setProperty documentURL property
        ++ Dom.setCssText documentURL text
        ++ Dom.setTextContent documentURL this text))
  /\ (forall E recursive i st,
        i_source i = None ->
        pending (interceptor E recursive i st) = pending st
        /\ processed (interceptor E recursive i st) = processed st
        /\ exists extra,
             requests (interceptor E recursive i st) = requests st ++ extra
             /\ Forall (fun r => source r = SrcUnknown) extra).
Proof.
  split.
  - intros documentURL this name value text property.
    assert (Hcss : forall t,
              Forall (fun i => i_source i = None
                               /\ i_referrer i = Some documentURL)
                (Dom.interceptCssText documentURL t)).
    { intros t. unfold Dom.interceptCssText. apply Forall_forall.
      by intros i (u & -> & _)%list_elem_of_fmap. }
    rewrite !Forall_app. unfold Dom.setAttribute, Dom.setSrc, Dom.setProperty,
      Dom.setCssText, Dom.setTextContent, Dom.interceptImgSrc.
    split_and!.
    + apply Forall_app. split.
      * destruct (_ && _); by repeat constructor.
      * destruct (String.eqb _ _); [apply Hcss|constructor].
    + by repeat constructor.
    + destruct property; [apply Hcss|constructor].
    + apply Hcss.
    + destruct (Dom.isStyle this); [apply Hcss|constructor].
  - intros E recursive i st Hs.
    destruct (interceptor_without_source E recursive i st Hs)
      as [[Hp Hq] (extra & He & Hf)].
    split; [done|]. split; [done|]. exists extra. split; [done|].
    eapply Forall_impl; [exact Hf|]. intros r Hr.
    by apply list_elem_of_singleton in Hr.
Qed.

(** (Witness) A script sets the source of an image through
    [setAttribute], the attribute name in capitals. *)
Lemma hooked_mutations_are_logged_as_unknown_witness :
  exists i,
    Dom.setAttribute "https://e.com/" Examples.pictureReceiver "SRC"
      "https://e.com/b.png" = [i]
    /\ pending (interceptor Demo.env true i startState) = []
    /\ map untimedRecord (requests (interceptor Demo.env true i startState))
       = [("https://e.com/b.png", SrcUnknown)].
Proof.
  eexists. split; [reflexivity|].
  split; [|reflexivity].
  apply (proj2 hooked_mutations_are_logged_as_unknown Demo.env true).
  reflexivity.
Defined.

(** [extractCssUrls] returns what [extractCssDependencies] returns, in
    one array: the [url(...)] references and behind them the targets of
    the [@import]s; the hooks call the interceptor once for each of them,
    in that order; and the target of an [@import url(...)] is reported
    twice. *)
Theorem css_hooks_report_urls_then_imports :
  (forall cssText,
     Dom.extractCssUrls cssText
     = css_urls (extractCssDependencies cssText)
       ++ css_imports (extractCssDependencies cssText))
  /\ (forall documentURL cssText,
        map i_url (Dom.interceptCssText documentURL cssText)
        = Dom.extractCssUrls cssText)
  /\ (forall t tail,
        isTarget t = true ->
        exists l1 l2 l3,
          Dom.extractCssUrls ("@import url(" +:+ t +:+ ")" +:+ tail)
          = l1 ++ t :: l2 ++ t :: l3).
Proof.
  assert (H1 : forall cssText,
     Dom.extractCssUrls cssText
     = css_urls (extractCssDependencies cssText)
       ++ css_imports (extractCssDependencies cssText)).
  { intros cssText. unfold Dom.extractCssUrls, extractCssDependencies. simpl.
    by rewrite !pushTrimmed_all. }
  split; [exact H1|]. split.
  - intros documentURL cssText. unfold Dom.interceptCssText.
    rewrite map_map. simpl. apply map_id.
  - intros t tail Ht. rewrite H1.
    destruct (wrapped_import_in_both t tail Ht) as [Hi Hu].
    apply list_elem_of_split in Hi as (c & d & ->).
    apply list_elem_of_split in Hu as (a & b & ->).
    exists a, (b ++ c), d. by rewrite <- !app_assoc.
Qed.

(** (Witness) A style sheet whose one reference is the target of its
    [@import]: the reference is reported twice. *)
Lemma css_hooks_report_urls_then_imports_witness :
  exists l1 l2 l3,
    Dom.extractCssUrls "@import url(a.css);"
    = l1 ++ "a.css" :: l2 ++ "a.css" :: l3.
Proof.
  destruct css_hooks_report_urls_then_imports as (_ & _ & H).
  exact (H "a.css" ";" eq_refl).
Defined.

(** The loader calls the interceptor with the source [resource],
    whatever source the options carried; jsdom's own loader is asked if
    and only if the interceptor answers [null] or [undefined], and
    [abort] reaches that loader's promise only.  With the interceptor of
    [analyzeHtml], which records the call with source [resource] and
    answers with an empty buffer, jsdom's own loader is never asked and
    every resource loads as the empty buffer. *)
Theorem loader_falls_back_only_on_null :
  (forall P interceptor superFetch request,
     let f := ResourceLoader.fetch P interceptor superFetch request in
     ResourceLoader.call f
     = {| i_url := i_url request; i_referrer := i_referrer request;
          i_source := Some SrcResource; i_element := i_element request |}
     /\ (is_Some (ResourceLoader.fallback f)
         <-> interceptor (ResourceLoader.call f) = ResourceLoader.Nullish
             /\ is_Some (superFetch request))
     /\ (ResourceLoader.abort P f = []
         <-> ResourceLoader.fallback f = None))
  /\ (forall P superFetch request,
        let f := ResourceLoader.fetch P interceptorReply superFetch request in
        ResourceLoader.promise f = Some (ResourceLoader.Fulfils "")
        /\ ResourceLoader.fallback f = None
        /\ ResourceLoader.abort P f = [])
  /\ (forall E recursive P superFetch request st,
        let f := ResourceLoader.fetch P interceptorReply superFetch request in
        exists extra,
          requests (interceptor E recursive (ResourceLoader.call f) st)
          = requests st ++ extra
          /\ Forall (fun r => source r = SrcResource) extra).
Proof.
  split.
  - intros P interceptor superFetch request f. subst f.
    unfold ResourceLoader.fetch, ResourceLoader.abort.
    set (c := {| i_url := i_url request; i_referrer := i_referrer request;
                 i_source := Some SrcResource;
                 i_element := i_element request |}).
    destruct (interceptor c) eqn:Hc; simpl; fold c; rewrite Hc;
      (split; [reflexivity|]); (split; [|by destruct (superFetch request)]);
      try (split; [by intros []|intros [? _]; congruence]).
    split; [by intros H|by intros [_ H]].
  - split; [done|]. intros E recursive P superFetch request st f. subst f.
    destruct (interceptor_from_loader E recursive
                (ResourceLoader.call
                   (ResourceLoader.fetch P interceptorReply superFetch request))
                st eq_refl) as (extra & He & Hf).
    exists extra. split; [done|]. eapply Forall_impl; [exact Hf|].
    intros r Hr. by apply list_elem_of_singleton in Hr.
Qed.

(** ** Calls at the start of a script *)

Section ScriptForms.
Import Regex.

Local Arguments run : simpl never.
Local Arguments iterate : simpl never.
Local Arguments class_matches : simpl never.
Local Arguments canon : simpl never.
Local Arguments Nat.ltb : simpl never.

Local Ltac decide_char :=
  match goal with
  | |- context [Ascii.eqb (canon ?i ?a) (canon ?i ?c)] =>
      let b := eval vm_compute in (Ascii.eqb (canon i a) (canon i c)) in
      change (Ascii.eqb (canon i a) (canon i c)) with b
  | |- context [class_matches ?i ?n ?items ?a] =>
      let b := eval vm_compute in (class_matches i n items a) in
      change (class_matches i n items a) with b
  end; cbv iota.

Local Ltac lit := rewrite ?run_Seq; rewrite run_Lit; decide_char; cbv beta.

Lemma orElse_None_r {A} (x : option A) : orElse x None = x.
Proof. by destruct x. Qed.

(** A greedy class loop in front of a continuation that cannot start with
    a character of the class: the loop reads the whole run of class
    characters, and the result is the continuation's there. *)
Lemma iterate_greedy_exact ic neg items k tail t : forall n p cs,
  allChars (class_matches ic neg items) t = true ->
  String.length t <= n ->
  match tail with
  | String c _ => class_matches ic neg items c = false
  | EmptyString => True
  end ->
  (forall c r p', class_matches ic neg items c = true ->
                  k (MState (String c r) p' cs) = None) ->
  (forall p1 p2, k (MState tail p1 cs) = k (MState tail p2 cs)) ->
  iterate true (run ic (Class neg items)) k n (MState (t +:+ tail) p cs)
  = k (MState tail p cs).
Proof.
  induction t as [|c t IH]; intros n p cs Hall Hn Htail Hfail Hprev;
    simpl in *.
  - destruct n as [|n]; [by rewrite iterate_O|].
    rewrite iterate_S. simpl. destruct tail as [|c tl].
    + by rewrite run_Class_nil.
    + by rewrite run_Class, Htail.
  - destruct n as [|n]; [lia|]. rewrite iterate_S. simpl.
    apply andb_true_iff in Hall as [Hc Hall].
    rewrite run_Class, Hc. simpl.
    replace (Nat.ltb _ _) with true by (symmetry; apply Nat.ltb_lt; lia).
    rewrite (IH n); [|done|lia|done|done|done].
    rewrite (Hfail c _ _ Hc), orElse_None_r. apply Hprev.
Qed.

Lemma quote_facts q :
  isQuote q = true ->
  class_matches false false [CChar Patterns.squote; CChar Patterns.dquote] q
  = true
  /\ refChar q = false
  /\ class_matches false false [CSpace] q = false
  /\ Js.isSpace q = false.
Proof.
  unfold isQuote. intros [H|H]%orb_true_iff; apply Ascii.eqb_eq in H; by subst.
Qed.

Lemma refChar_not_quote c :
  refChar c = true ->
  class_matches false false [CChar Patterns.squote; CChar Patterns.dquote] c
  = false.
Proof.
  unfold refChar, class_matches. simpl.
  by destruct (_ || _).
Qed.

Lemma space_facts c :
  Js.isSpace c = true ->
  class_matches false false [CSpace] c = true
  /\ class_matches false false [CChar Patterns.squote; CChar Patterns.dquote] c
     = false
  /\ refChar c = true.
Proof.
  intros Hc. unfold refChar, class_matches. simpl. rewrite Hc. simpl.
  unfold canon.
  destruct (Ascii.eqb c Patterns.squote) eqn:H1.
  { apply Ascii.eqb_eq in H1. by subst. }
  destruct (Ascii.eqb c Patterns.dquote) eqn:H2.
  { apply Ascii.eqb_eq in H2. by subst. }
  done.
Qed.

Lemma blank_spaces ws :
  isBlank ws = true -> allChars (class_matches false false [CSpace]) ws = true.
Proof.
  induction ws as [|c ws IH]; simpl; [done|].
  intros [Hc Hws]%andb_true_iff. destruct (space_facts c Hc) as (-> & _).
  by rewrite IH.
Qed.

(** [Q u Q] at the current position, for a pattern that goes on with
    [[Q]([^Q]+)[Q]]: the group captures [u]. *)
Lemma quoted_group rs q1 u q2 tail p cs k :
  isQuote q1 = true -> isQuote q2 = true -> isReference u = true ->
  run false
    (SeqAll (Patterns.Quote :: Group 1 (Plus Patterns.NotQuote)
             :: Patterns.Quote :: rs))
    (MState (String q1 (u +:+ String q2 tail)) p cs) k
  = run false (SeqAll rs) (MState tail (Some q2) ((1, u) :: cs)) k.
Proof.
  intros Hq1 Hq2 [Hne Hu]%andb_true_iff.
  destruct (quote_facts q1 Hq1) as (Hc1 & _).
  destruct (quote_facts q2 Hq2) as (Hc2 & Hr2 & _).
  destruct u as [|c u]; [done|]. simpl in Hu.
  apply andb_true_iff in Hu as [Hc Hu].
  cbn [SeqAll]. unfold Patterns.Quote, Patterns.NotQuote, Plus.
  rewrite run_Seq, run_Class, Hc1. rewrite run_Seq, run_Group, run_Seq.
  simpl String.append. rewrite run_Class. fold (refChar c). rewrite Hc.
  rewrite run_Star. simpl rest.
  rewrite iterate_greedy_exact.
  - simpl.
    change (String c (u +:+ String q2 tail))
      with (String c u +:+ String q2 tail).
    rewrite consumed_prefix. by rewrite run_Seq, run_Class, Hc2.
  - exact Hu.
  - rewrite length_append. lia.
  - exact Hr2.
  - intros c0 r p' Hc0. simpl.
    by rewrite run_Seq, run_Class, (refChar_not_quote c0 Hc0).
  - intros p1 p2. simpl. by rewrite !run_Seq, !run_Class, Hc2.
Qed.

(** The same without the group: [[Q][^Q]+[Q]]. *)
Lemma quoted_plain rs q1 u q2 tail p cs k :
  isQuote q1 = true -> isQuote q2 = true -> isReference u = true ->
  run false
    (SeqAll (Patterns.Quote :: Plus Patterns.NotQuote :: Patterns.Quote :: rs))
    (MState (String q1 (u +:+ String q2 tail)) p cs) k
  = run false (SeqAll rs) (MState tail (Some q2) cs) k.
Proof.
  intros Hq1 Hq2 [Hne Hu]%andb_true_iff.
  destruct (quote_facts q1 Hq1) as (Hc1 & _).
  destruct (quote_facts q2 Hq2) as (Hc2 & Hr2 & _).
  destruct u as [|c u]; [done|]. simpl in Hu.
  apply andb_true_iff in Hu as [Hc Hu].
  cbn [SeqAll]. unfold Patterns.Quote, Patterns.NotQuote, Plus.
  rewrite run_Seq, run_Class, Hc1. rewrite !run_Seq.
  simpl String.append. rewrite run_Class. fold (refChar c). rewrite Hc.
  rewrite run_Star. simpl rest.
  rewrite iterate_greedy_exact.
  - by rewrite run_Seq, run_Class, Hc2.
  - exact Hu.
  - rewrite length_append. lia.
  - exact Hr2.
  - intros c0 r p' Hc0.
    by rewrite run_Seq, run_Class, (refChar_not_quote c0 Hc0).
  - intros p1 p2. by rewrite !run_Seq, !run_Class, Hc2.
Qed.

(** Optional white space in front of a quote. *)
Lemma spaces_then_quote rs ws q rest0 p cs k :
  isBlank ws = true -> isQuote q = true ->
  (forall p1 p2,
     run false (SeqAll (Patterns.Quote :: rs)) (MState (String q rest0) p1 cs) k
     = run false (SeqAll (Patterns.Quote :: rs))
         (MState (String q rest0) p2 cs) k) ->
  run false (SeqAll (Star true Space :: Patterns.Quote :: rs))
    (MState (ws +:+ String q rest0) p cs) k
  = run false (SeqAll (Patterns.Quote :: rs)) (MState (String q rest0) p cs) k.
Proof.
  intros Hws Hq Hprev. destruct (quote_facts q Hq) as (_ & _ & Hs & _).
  change (SeqAll (Star true Space :: Patterns.Quote :: rs))
    with (Seq (Star true Space) (SeqAll (Patterns.Quote :: rs))).
  rewrite run_Seq, run_Star. unfold Space. simpl rest.
  apply iterate_greedy_exact.
  - by apply blank_spaces.
  - rewrite length_append. lia.
  - exact Hs.
  - intros c r p' Hc. cbn [SeqAll]. unfold Patterns.Quote.
    rewrite run_Seq, run_Class.
    assert (Js.isSpace c = true) as Hsp.
    { unfold class_matches in Hc. simpl in Hc. by rewrite orb_false_r in Hc. }
    by destruct (space_facts c Hsp) as (_ & -> & _).
  - exact Hprev.
Qed.

Lemma run_SeqAll_cons ic r rs st k :
  run ic (SeqAll (r :: rs)) st k
  = run ic r st (fun st1 => run ic (SeqAll rs) st1 k).
Proof. reflexivity. Qed.

Lemma run_SeqAll_nil ic st k : run ic (SeqAll []) st k = k st.
Proof. reflexivity. Qed.

Lemma run_WordB ic st k :
  run ic WordB st k
  = if xorb (isWordAt (prev st)) (isWordAt (next st)) then k st else None.
Proof. reflexivity. Qed.

Lemma quoted_group_prev rs q1 u q2 tail cs k p1 p2 :
  isQuote q1 = true -> isQuote q2 = true -> isReference u = true ->
  run false
    (SeqAll (Patterns.Quote :: Group 1 (Plus Patterns.NotQuote)
             :: Patterns.Quote :: rs))
    (MState (String q1 (u +:+ String q2 tail)) p1 cs) k
  = run false
      (SeqAll (Patterns.Quote :: Group 1 (Plus Patterns.NotQuote)
               :: Patterns.Quote :: rs))
      (MState (String q1 (u +:+ String q2 tail)) p2 cs) k.
Proof. intros H1 H2 Hu. by rewrite !quoted_group. Qed.

(** [fetch( Q u Q] at the start of the text. *)
Lemma fetchPattern_hit ws q1 u q2 tail :
  isBlank ws = true -> isQuote q1 = true -> isQuote q2 = true ->
  isReference u = true ->
  run false Patterns.fetchPattern
    (MState ("fetch(" +:+ ws +:+ String q1 (u +:+ String q2 tail)) None [])
    Some
  = Some (MState tail (Some q2) [(1, u)]).
Proof.
  intros Hws Hq1 Hq2 Hu. unfold Patterns.fetchPattern.
  simpl String.append. rewrite run_SeqAll_cons, run_WordB. simpl xorb.
  cbv iota. rewrite run_SeqAll_cons. cbn [Str]. do 6 lit. rewrite run_Eps.
  rewrite spaces_then_quote, quoted_group; done.
Qed.

(** [importScripts( Q u Q )] at the start of the text. *)
Lemma importScriptsPattern_hit ws q1 u q2 ws' tail :
  isBlank ws = true -> isQuote q1 = true -> isQuote q2 = true ->
  isReference u = true -> isBlank ws' = true ->
  run false Patterns.importScriptsPattern
    (MState ("importScripts(" +:+ ws
             +:+ String q1 (u +:+ String q2 (ws' +:+ String ")" tail)))
       None []) Some
  = Some (MState tail (Some ")"%char) [(1, u)]).
Proof.
  intros Hws Hq1 Hq2 Hu Hws'. unfold Patterns.importScriptsPattern.
  simpl String.append. rewrite run_SeqAll_cons, run_WordB. simpl xorb.
  cbv iota. rewrite run_SeqAll_cons. cbn [Str]. do 14 lit. rewrite run_Eps.
  rewrite spaces_then_quote, quoted_group; try done.
  rewrite run_SeqAll_cons, run_Star. unfold Space. simpl rest.
    rewrite iterate_greedy_exact.
    + rewrite run_SeqAll_cons, run_Lit. decide_char. done.
    + by apply blank_spaces.
    + rewrite length_append. lia.
    + done.
    + intros c r p' Hc. rewrite run_SeqAll_cons, run_Lit.
      assert (Js.isSpace c = true) as Hsp.
      { unfold class_matches in Hc. simpl in Hc. by rewrite orb_false_r in Hc. }
      destruct (Ascii.eqb (canon false c) (canon false ")")) eqn:He; [|done].
      apply Ascii.eqb_eq in He. unfold canon in He. by subst.
    + intros p1 p2. by rewrite !run_SeqAll_cons, !run_Lit.
Qed.

(** [import( Q u Q )] at the start of the text. *)
Lemma dynamicImportPattern_hit ws q1 u q2 ws' tail :
  isBlank ws = true -> isQuote q1 = true -> isQuote q2 = true ->
  isReference u = true -> isBlank ws' = true ->
  run false Patterns.dynamicImportPattern
    (MState ("import(" +:+ ws
             +:+ String q1 (u +:+ String q2 (ws' +:+ String ")" tail)))
       None []) Some
  = Some (MState tail (Some ")"%char) [(1, u)]).
Proof.
  intros Hws Hq1 Hq2 Hu Hws'. unfold Patterns.dynamicImportPattern.
  simpl String.append. rewrite run_SeqAll_cons, run_WordB. simpl xorb.
  cbv iota. rewrite run_SeqAll_cons. cbn [Str]. do 7 lit. rewrite run_Eps.
  rewrite spaces_then_quote, quoted_group; try done.
  rewrite run_SeqAll_cons, run_Star. unfold Space. simpl rest.
    rewrite iterate_greedy_exact.
    + rewrite run_SeqAll_cons, run_Lit. decide_char. done.
    + by apply blank_spaces.
    + rewrite length_append. lia.
    + done.
    + intros c r p' Hc. rewrite run_SeqAll_cons, run_Lit.
      assert (Js.isSpace c = true) as Hsp.
      { unfold class_matches in Hc. simpl in Hc. by rewrite orb_false_r in Hc. }
      destruct (Ascii.eqb (canon false c) (canon false ")")) eqn:He; [|done].
      apply Ascii.eqb_eq in He. unfold canon in He. by subst.
    + intros p1 p2. by rewrite !run_SeqAll_cons, !run_Lit.
Qed.

(** Optional white space in front of a literal that is not white
    space. *)
Lemma spaces_then_lit rs ws c rest0 p cs k :
  isBlank ws = true -> Js.isSpace c = false ->
  run false (SeqAll (Star true Space :: Lit c :: rs))
    (MState (ws +:+ String c rest0) p cs) k
  = run false (SeqAll rs) (MState rest0 (Some c) cs) k.
Proof.
  intros Hws Hc. rewrite run_SeqAll_cons, run_Star. unfold Space. simpl rest.
  assert (Hcc : Ascii.eqb (canon false c) (canon false c) = true)
    by apply Ascii.eqb_refl.
  rewrite iterate_greedy_exact.
  - by rewrite run_SeqAll_cons, run_Lit, Hcc.
  - by apply blank_spaces.
  - rewrite length_append. lia.
  - unfold class_matches. simpl. by rewrite Hc.
  - intros c0 r p' Hc0. rewrite run_SeqAll_cons, run_Lit.
    assert (Js.isSpace c0 = true) as Hsp.
    { unfold class_matches in Hc0. simpl in Hc0.
      by rewrite orb_false_r in Hc0. }
    destruct (Ascii.eqb (canon false c0) (canon false c)) eqn:He; [|done].
    apply Ascii.eqb_eq in He. unfold canon in He. congruence.
  - intros p1 p2. by rewrite !run_SeqAll_cons, !run_Lit.
Qed.

(** One or more white-space characters in front of something that is
    not white space and lets the rest of the pattern succeed. *)
Lemma spaces1_then rs sp ws c rest0 p cs k fin :
  Js.isSpace sp = true -> isBlank ws = true -> Js.isSpace c = false ->
  (forall p', run false (SeqAll rs) (MState (String c rest0) p' cs) k
              = Some fin) ->
  run false (SeqAll (Plus Space :: rs))
    (MState (String sp (ws +:+ String c rest0)) p cs) k
  = Some fin.
Proof.
  intros Hsp Hws Hc Hk. rewrite run_SeqAll_cons. unfold Plus, Space.
  rewrite run_Seq, run_Class. destruct (space_facts sp Hsp) as (-> & _).
  rewrite run_Star. simpl rest. apply iterate_greedy_run.
  - by apply blank_spaces.
  - rewrite length_append. lia.
  - unfold class_matches. simpl. by rewrite Hc.
  - exact Hk.
Qed.

(** [import Q u Q] at the start of the text: an import for its side
    effects. *)
Lemma importPattern_bare sp ws q1 u q2 tail :
  Js.isSpace sp = true -> isBlank ws = true ->
  isQuote q1 = true -> isQuote q2 = true -> isReference u = true ->
  run false Patterns.importPattern
    (MState ("import" +:+ String sp (ws +:+ String q1 (u +:+ String q2 tail)))
       None []) Some
  = Some (MState tail (Some q2) [(1, u)]).
Proof.
  intros Hsp Hws Hq1 Hq2 Hu. unfold Patterns.importPattern.
  simpl String.append. rewrite run_SeqAll_cons, run_WordB. simpl xorb.
  cbv iota. rewrite run_SeqAll_cons. cbn [Str]. do 6 lit. rewrite run_Eps.
  destruct (quote_facts q1 Hq1) as (_ & Hr1 & _ & Hs1).
  apply spaces1_then; [done|done|done|]. intros p'.
  rewrite run_SeqAll_cons. unfold Opt at 1. rewrite run_Alt.
  rewrite run_SeqAll_cons. unfold Plus at 1, Patterns.NotQuote at 1.
  rewrite run_Seq, run_Class. fold (refChar q1). rewrite Hr1.
  simpl orElse. rewrite run_Eps.
  exact (quoted_group [] q1 u q2 tail p' [] Some Hq1 Hq2 Hu).
Qed.

(** A greedy class loop over a text in which the continuation succeeds
    nowhere. *)
Lemma iterate_greedy_none ic neg items k (ok : ascii -> bool) t q r0 :
  forall n p cs,
  (forall c r p', ok c = false -> k (MState (String c r) p' cs) = None) ->
  allChars (fun c => negb (ok c)) t = true ->
  ok q = false -> class_matches ic neg items q = false ->
  iterate true (run ic (Class neg items)) k n (MState (t +:+ String q r0) p cs)
  = None.
Proof.
  intros n p cs Hk. revert n p.
  induction t as [|c t IH]; intros n p Ht Hq Hcq; simpl in *.
  - destruct n as [|n]; [rewrite iterate_O; by apply Hk|].
    rewrite iterate_S. simpl. rewrite run_Class, Hcq. simpl. by apply Hk.
  - apply andb_true_iff in Ht as [Hc Ht]. apply negb_true_iff in Hc.
    destruct n as [|n]; [rewrite iterate_O; by apply Hk|].
    rewrite iterate_S. simpl. rewrite run_Class.
    rewrite (Hk c _ _ Hc).
    destruct (class_matches ic neg items c); [|done]. simpl.
    destruct (Nat.ltb _ _); [|done]. by rewrite IH.
Qed.

(** A greedy class loop reads on over class characters as long as a
    later stop lets the rest of the pattern succeed. *)
Lemma iterate_greedy_skip ic neg items k t rest0 fin : forall n p cs,
  allChars (class_matches ic neg items) t = true ->
  (forall p', iterate true (run ic (Class neg items)) k n
                (MState rest0 p' cs) = Some fin) ->
  iterate true (run ic (Class neg items)) k (String.length t + n)
    (MState (t +:+ rest0) p cs)
  = Some fin.
Proof.
  induction t as [|c t IH]; intros n p cs Hall Hk; simpl in *; [apply Hk|].
  apply andb_true_iff in Hall as [Hc Hall].
  rewrite iterate_S. simpl. rewrite run_Class, Hc. simpl.
  replace (Nat.ltb _ _) with true by (symmetry; apply Nat.ltb_lt; lia).
  by rewrite (IH n).
Qed.

Lemma blank_not c ws :
  Js.isSpace c = false -> isBlank ws = true ->
  allChars (fun a => negb (Ascii.eqb a c)) ws = true.
Proof.
  intros Hc. induction ws as [|a ws IH]; simpl; [done|].
  intros [Ha Hws]%andb_true_iff. rewrite IH by done.
  destruct (Ascii.eqb a c) eqn:Hac; [|done].
  apply Ascii.eqb_eq in Hac. congruence.
Qed.

(** [import b from Q u Q] at the start of the text. *)
Lemma importPattern_from sp ws b sp' ws' q1 u q2 tail :
  Js.isSpace sp = true -> isBlank ws = true -> isBinding b = true ->
  Js.isSpace sp' = true -> isBlank ws' = true ->
  isQuote q1 = true -> isQuote q2 = true -> isReference u = true ->
  run false Patterns.importPattern
    (MState ("import"
             +:+ String sp
                   (ws +:+ b +:+ "from"
                    +:+ String sp' (ws' +:+ String q1 (u +:+ String q2 tail))))
       None []) Some
  = Some (MState tail (Some q2) [(1, u)]).
Proof.
  intros Hsp Hws Hb Hsp' Hws' Hq1 Hq2 Hu. unfold Patterns.importPattern.
  simpl String.append. rewrite run_SeqAll_cons, run_WordB. simpl xorb.
  cbv iota. rewrite run_SeqAll_cons. cbn [Str]. do 6 lit. rewrite run_Eps.
  destruct b as [|c0 b']; [done|]. simpl in Hb.
  apply andb_true_iff in Hb as [Hc0 [Hr0 Hb']%andb_true_iff].
  apply negb_true_iff in Hc0.
  destruct (quote_facts q1 Hq1) as (_ & Hr1 & _ & Hs1).
  simpl String.append.
  apply spaces1_then; [done|done|done|]. intros p'.
  rewrite run_SeqAll_cons. unfold Opt at 1. rewrite run_Alt.
  match goal with |- orElse ?a _ = Some ?fin =>
    assert (a = Some fin) as ->; [|done] end.
  rewrite run_SeqAll_cons. unfold Plus at 1, Patterns.NotQuote at 1.
  rewrite run_Seq, run_Class. fold (refChar c0). rewrite Hr0.
  rewrite run_Star. simpl rest. rewrite length_append.
  apply iterate_greedy_skip; [exact Hb'|]. intros p1.
  simpl String.length. rewrite iterate_S. cbv beta zeta iota.
  rewrite run_Class. decide_char. cbn [rest].
  replace (Nat.ltb _ _) with true by (symmetry; apply Nat.ltb_lt; simpl; lia).
  change (String "r" (String "o" (String "m"
            (String sp' (ws' +:+ String q1 (u +:+ String q2 tail))))))
    with (String "r" (String "o" (String "m" (String sp' ws')))
          +:+ String q1 (u +:+ String q2 tail)).
  rewrite (iterate_greedy_none false true _ _ (fun c => Ascii.eqb c "f")).
  - cbn [orElse]. simpl String.append.
    rewrite run_SeqAll_cons. cbn [Str]. do 4 lit.
    rewrite run_Eps.
    apply spaces1_then; [done|done|done|]. intros p2.
    rewrite run_SeqAll_nil.
    exact (quoted_group [] q1 u q2 tail p2 [] Some Hq1 Hq2 Hu).
  - intros c r p2 Hc. rewrite run_SeqAll_cons. cbn [Str].
    rewrite run_Seq, run_Lit. unfold canon. by rewrite Hc.
  - simpl. rewrite (blank_not "f" ws' eq_refl Hws').
    destruct (Ascii.eqb sp' "f") eqn:He; [|done].
    apply Ascii.eqb_eq in He. by subst.
  - unfold isQuote in Hq1.
    apply orb_true_iff in Hq1 as [H|H]; apply Ascii.eqb_eq in H; by subst.
  - exact Hr1.
Qed.

(** The search passes over a stretch of text in which the pattern can
    start nowhere. *)
Lemma search_skip ic r (skipped : ascii -> bool) s fin t : forall p,
  (forall a s' p', skipped a = true ->
                   run ic r (MState (String a s') p' []) Some = None) ->
  allChars skipped t = true ->
  (forall p', run ic r (MState s p' []) Some = Some fin) ->
  search ic r (t +:+ s) p = Some fin.
Proof.
  induction t as [|a t IH]; intros p Hskip Ht Hs; simpl String.append.
  - by apply search_hit.
  - simpl in Ht. apply andb_true_iff in Ht as [Ha Ht].
    rewrite search_miss; [by apply IH|]. by apply Hskip.
Qed.

(** [.open( Q m Q , Q u Q] behind a receiver without a dot. *)
Lemma xhrPattern_hit recv ws1 q m q' ws2 ws3 q1 u q2 tail :
  lacks "." recv = true ->
  isBlank ws1 = true -> isQuote q = true -> isReference m = true ->
  isQuote q' = true -> isBlank ws2 = true -> isBlank ws3 = true ->
  isQuote q1 = true -> isQuote q2 = true -> isReference u = true ->
  search false Patterns.xhrPattern
    (recv +:+ ".open(" +:+ ws1
     +:+ String q (m +:+ String q' (ws2 +:+ String ","
           (ws3 +:+ String q1 (u +:+ String q2 tail)))))
    None
  = Some (MState tail (Some q2) [(1, u)]).
Proof.
  intros Hrecv Hws1 Hq Hm Hq' Hws2 Hws3 Hq1 Hq2 Hu.
  unfold Patterns.xhrPattern. cbn [SeqAll Str].
  apply (search_skip _ _ (fun a => negb (Ascii.eqb a "."))).
  { intros a s' p' Ha. apply negb_true_iff in Ha.
    rewrite !run_Seq, run_Lit. unfold canon. by rewrite Ha. }
  { exact Hrecv. }
  intros p'. simpl String.append. do 6 lit. rewrite run_Eps.
  change (Seq (Star true Space)
            (Seq Patterns.Quote
               (Seq (Plus Patterns.NotQuote)
                  (Seq Patterns.Quote
                     (Seq (Star true Space)
                        (Seq (Lit ",")
                           (Seq (Star true Space)
                              (Seq Patterns.Quote
                                 (Seq (Group 1 (Plus Patterns.NotQuote))
                                    (Seq Patterns.Quote Eps))))))))))
    with (SeqAll [Star true Space; Patterns.Quote; Plus Patterns.NotQuote;
                  Patterns.Quote; Star true Space; Lit ","; Star true Space;
                  Patterns.Quote; Group 1 (Plus Patterns.NotQuote);
                  Patterns.Quote]).
  rewrite spaces_then_quote; [|done|done|].
  2:{ intros p1 p2. by rewrite !quoted_plain. }
  rewrite quoted_plain by done.
  rewrite spaces_then_lit by done.
  destruct (quote_facts q1 Hq1) as (_ & _ & _ & Hs1).
  rewrite spaces_then_quote; [|done|done|].
  2:{ intros p1 p2. by rewrite !quoted_group. }
  by rewrite quoted_group.
Qed.

End ScriptForms.

Lemma addCapture_extends ms : forall acc,
  exists extra, fold_left addCapture ms acc = acc ++ extra.
Proof.
  induction ms as [|m ms IH]; intros acc; simpl.
  - exists []. by rewrite app_nil_r.
  - destruct (IH (addCapture acc m)) as [extra ->].
    unfold addCapture, set_add. destruct (set_has acc _).
    + by exists extra.
    + exists (Regex.group 1 m :: extra). by rewrite <- app_assoc.
Qed.

Lemma scan_head ic r s fin u :
  1 <= Regex.minLen r ->
  Regex.search ic r s None = Some fin ->
  Regex.caps fin = [(1, u)] ->
  exists others, fold_left addCapture (Patterns.scan ic r s) [] = u :: others.
Proof.
  intros Hmin Hs Hcaps. destruct (scan_hit ic r s fin Hmin Hs) as [ms ->].
  simpl. rewrite Hcaps. change (addCapture [] [(1, u)]) with [u].
  destruct (addCapture_extends ms [u]) as [extra ->]. by exists extra.
Qed.

Lemma addCapture_keeps ms : forall acc x,
  x ∈ acc -> x ∈ fold_left addCapture ms acc.
Proof.
  intros acc x Hx. destruct (addCapture_extends ms acc) as [extra ->].
  apply elem_of_app. by left.
Qed.

(** A script that starts with one of the calls the extractor looks for
    has the URL of that call in the category of the call, at its first
    place (for [import(...)]: among the imports): [fetch(Q u Q],
    [r.open(Q m Q, Q u Q], [importScripts(Q u Q)], [import Q u Q],
    [import b from Q u Q] and [import(Q u Q)], where [Q] stands for either
    quote character, [u] for a non-empty text without quotes, and white
    space may stand where the patterns allow it. *)
Theorem script_calls_are_found :
  (forall ws q1 u q2 tail,
     isBlank ws = true -> isQuote q1 = true -> isQuote q2 = true ->
     isReference u = true ->
     exists others,
       js_fetches
         (extractJsDependencies
            ("fetch(" +:+ ws +:+ String q1 (u +:+ String q2 tail)))
       = u :: others)
  /\ (forall recv ws1 q m q' ws2 ws3 q1 u q2 tail,
        lacks "." recv = true ->
        isBlank ws1 = true -> isQuote q = true -> isReference m = true ->
        isQuote q' = true -> isBlank ws2 = true -> isBlank ws3 = true ->
        isQuote q1 = true -> isQuote q2 = true -> isReference u = true ->
        exists others,
          js_xhrs
            (extractJsDependencies
               (recv +:+ ".open(" +:+ ws1
                +:+ String q (m +:+ String q' (ws2 +:+ String ","
                      (ws3 +:+ String q1 (u +:+ String q2 tail))))))
          = u :: others)
  /\ (forall ws q1 u q2 ws' tail,
        isBlank ws = true -> isQuote q1 = true -> isQuote q2 = true ->
        isReference u = true -> isBlank ws' = true ->
        exists others,
          js_importScripts
            (extractJsDependencies
               ("importScripts(" +:+ ws
                +:+ String q1 (u +:+ String q2 (ws' +:+ String ")" tail))))
          = u :: others)
  /\ (forall sp ws q1 u q2 tail,
        Js.isSpace sp = true -> isBlank ws = true ->
        isQuote q1 = true -> isQuote q2 = true -> isReference u = true ->
        exists others,
          js_imports
            (extractJsDependencies
               ("import"
                +:+ String sp (ws +:+ String q1 (u +:+ String q2 tail))))
          = u :: others)
  /\ (forall sp ws b sp' ws' q1 u q2 tail,
        Js.isSpace sp = true -> isBlank ws = true -> isBinding b = true ->
        Js.isSpace sp' = true -> isBlank ws' = true ->
        isQuote q1 = true -> isQuote q2 = true -> isReference u = true ->
        exists others,
          js_imports
            (extractJsDependencies
               ("import"
                +:+ String sp
                      (ws +:+ b +:+ "from"
                       +:+ String sp'
                             (ws' +:+ String q1 (u +:+ String q2 tail)))))
          = u :: others)
  /\ (forall ws q1 u q2 ws' tail,
        isBlank ws = true -> isQuote q1 = true -> isQuote q2 = true ->
        isReference u = true -> isBlank ws' = true ->
        u ∈ js_imports
              (extractJsDependencies
                 ("import(" +:+ ws
                  +:+ String q1 (u +:+ String q2 (ws' +:+ String ")" tail))))).
Proof.
  split_and!.
  - intros ws q1 u q2 tail Hws Hq1 Hq2 Hu.
    unfold extractJsDependencies. cbn [js_fetches].
    apply (scan_head _ _ _ (Regex.MState tail (Some q2) [(1, u)]));
      [vm_compute; lia| |reflexivity].
    apply search_hit. by apply fetchPattern_hit.
  - intros recv ws1 q m q' ws2 ws3 q1 u q2 tail
      Hrecv Hws1 Hq Hm Hq' Hws2 Hws3 Hq1 Hq2 Hu.
    unfold extractJsDependencies. cbn [js_xhrs].
    apply (scan_head _ _ _ (Regex.MState tail (Some q2) [(1, u)]));
      [vm_compute; lia| |reflexivity].
    by apply xhrPattern_hit.
  - intros ws q1 u q2 ws' tail Hws Hq1 Hq2 Hu Hws'.
    unfold extractJsDependencies. cbn [js_importScripts].
    apply (scan_head _ _ _ (Regex.MState tail (Some ")"%char) [(1, u)]));
      [vm_compute; lia| |reflexivity].
    apply search_hit. by apply importScriptsPattern_hit.
  - intros sp ws q1 u q2 tail Hsp Hws Hq1 Hq2 Hu.
    unfold extractJsDependencies. cbn [js_imports].
    destruct (scan_head false Patterns.importPattern
                ("import"
                 +:+ String sp (ws +:+ String q1 (u +:+ String q2 tail)))
                (Regex.MState tail (Some q2) [(1, u)]) u)
      as [others ->]; [vm_compute; lia| |reflexivity|].
    { apply search_hit. by apply importPattern_bare. }
    match goal with |- context [fold_left addCapture ?ms (u :: others)] =>
      destruct (addCapture_extends ms (u :: others)) as [extra ->] end.
    by eexists.
  - intros sp ws b sp' ws' q1 u q2 tail Hsp Hws Hb Hsp' Hws' Hq1 Hq2 Hu.
    unfold extractJsDependencies. cbn [js_imports].
    destruct (scan_head false Patterns.importPattern
                ("import"
                 +:+ String sp
                       (ws +:+ b +:+ "from"
                        +:+ String sp'
                              (ws' +:+ String q1 (u +:+ String q2 tail))))
                (Regex.MState tail (Some q2) [(1, u)]) u)
      as [others ->]; [vm_compute; lia| |reflexivity|].
    { apply search_hit. by apply importPattern_from. }
    match goal with |- context [fold_left addCapture ?ms (u :: others)] =>
      destruct (addCapture_extends ms (u :: others)) as [extra ->] end.
    by eexists.
  - intros ws q1 u q2 ws' tail Hws Hq1 Hq2 Hu Hws'.
    unfold extractJsDependencies. cbn [js_imports].
    destruct (scan_hit false Patterns.dynamicImportPattern
                ("import(" +:+ ws
                 +:+ String q1 (u +:+ String q2 (ws' +:+ String ")" tail)))
                (Regex.MState tail (Some ")"%char) [(1, u)]))
      as [ms ->]; [vm_compute; lia| |].
    { apply search_hit. by apply dynamicImportPattern_hit. }
    cbn [fold_left]. apply addCapture_keeps.
    unfold addCapture at 1, set_add.
    change (Regex.group 1 (Regex.caps _)) with u.
    match goal with |- context [set_has ?acc u] =>
      destruct (set_has acc u) eqn:Hh end; [by apply set_has_spec|].
    apply elem_of_app. right. by apply list_elem_of_singleton.
Qed.

(** (Witness) A call of [fetch], a call of [open] and an import with
    bindings. *)
Lemma script_calls_are_found_witness :
  (exists others,
     js_fetches (extractJsDependencies "fetch('https://example.com/api');")
     = "https://example.com/api" :: others)
  /\ (exists others,
        js_xhrs (extractJsDependencies "x.open('GET', '/data.json');")
        = "/data.json" :: others)
  /\ (exists others,
        js_imports
          (extractJsDependencies "import { a } from './a.js'; import('./b.js')")
        = "./a.js" :: others).
Proof.
  destruct script_calls_are_found as (Hf & Hx & _ & _ & Hi & _).
  split; [|split].
  - apply (Hf "" Patterns.squote "https://example.com/api" Patterns.squote ");");
      reflexivity.
  - apply (Hx "x" "" Patterns.squote "GET" Patterns.squote "" " "
             Patterns.squote "/data.json" Patterns.squote ");"); reflexivity.
  - apply (Hi " "%char "" "{ a } " " "%char "" Patterns.squote "./a.js"
             Patterns.squote "; import('./b.js')"); reflexivity.
Defined.

(** ** Elements of the document *)


(** Solves [discovers st (step st)] for the step of one harvest pass. *)
Ltac pass_discovers :=
  repeat match goal with
    | |- discovers _ (if ?b then _ else _) => destruct b
    | |- discovers _ (match ?o with Some _ => _ | None => _ end) => destruct o
    end;
  first [ apply discovers_refl
        | apply recordCssUrls_discovers
        | apply harvestLink_discovers
        | apply recordAttribute_steps; discovers_instance
        | apply recordSrcset_steps; discovers_instance
        | eapply discovers_trans; [apply recordUrl_discovers|];
          apply enqueue_discovers
        | apply recordUrl_discovers ].

Lemma member_of_discovers st st' (P : RequestRecord -> Prop) :
  discovers st st' ->
  (exists r, r ∈ requests st /\ P r) -> exists r, r ∈ requests st' /\ P r.
Proof.
  intros Hd (r & Hr & HP). exists r. split; [|done].
  by apply (discovers_member st).
Qed.

Lemma member_through {A} (l : list A) f st (P : RequestRecord -> Prop) :
  (forall x st0, discovers st0 (f x st0)) ->
  (exists r, r ∈ requests st /\ P r) ->
  exists r, r ∈ requests (forEach l f st) /\ P r.
Proof.
  intros Hf (r & Hr & HP). exists r. split; [|done].
  by apply (discovers_member st), Hr; apply forEach_discovers.
Qed.

Lemma harvest_img E recursive els base st img :
  nonEmptyURLs E ->
  img ∈ els -> hasTag img "img" = true ->
  isHTMLElement img = true -> Js.truthy (srcProp img) = true ->
  exists r, r ∈ requests (harvest E recursive els base st)
            /\ (source r = SrcImg
                /\ resolveUrl E None (srcProp img) = Some (url r)).
Proof.
  intros HE Hin Htag Hhtml Hsrc.
  assert (Hne : srcProp img <> "") by (by intros Heq; rewrite Heq in Hsrc).
  destruct (resolveUrl_nonempty E None _ HE Hne) as (x & Hx & Hxne).
  unfold harvest. cbv zeta.
  do 13 (apply member_through; [intros; pass_discovers|]).
  apply forEach_member with (x := img).
  - unfold select. apply list_elem_of_In, filter_In. split; [|done].
    by apply list_elem_of_In.
  - intros. pass_discovers.
  - intros st0. rewrite Hhtml, Hsrc. simpl.
    rewrite (recordUrl_appends _ _ _ _ _ _ Hx Hxne). simpl.
    eexists. split; [apply elem_of_app; right; apply list_elem_of_here|].
    by split.
Qed.

Lemma harvest_script E recursive els base st el :
  nonEmptyURLs E ->
  el ∈ els -> hasTag el "script" = true -> hasAttribute el "src" = true ->
  isHTMLElement el = true -> Js.truthy (srcProp el) = true ->
  exists r, r ∈ requests (harvest E recursive els base st)
            /\ (source r = SrcResource
                /\ resolveUrl E None (srcProp el) = Some (url r)).
Proof.
  intros HE Hin Htag Hattr Hhtml Hsrc.
  assert (Hne : srcProp el <> "") by (by intros Heq; rewrite Heq in Hsrc).
  destruct (resolveUrl_nonempty E None _ HE Hne) as (x & Hx & Hxne).
  unfold harvest. cbv zeta.
  do 9 (apply member_through; [intros; pass_discovers|]).
  apply forEach_member with (x := el).
  - unfold select. apply list_elem_of_In, filter_In. split.
    + by apply list_elem_of_In.
    + by rewrite Htag, Hattr.
  - intros. pass_discovers.
  - intros st0. rewrite Hhtml, Hsrc. simpl.
    eapply (member_of_discovers _ _ _ (enqueue_discovers _ _ _ _)).
    rewrite (recordUrl_appends _ _ _ _ _ _ Hx Hxne). simpl.
    eexists. split; [apply elem_of_app; right; apply list_elem_of_here|].
    by split.
Qed.

Lemma harvest_iframe E recursive els base st el :
  nonEmptyURLs E ->
  el ∈ els -> hasTag el "iframe" = true -> hasAttribute el "src" = true ->
  isHTMLElement el = true -> Js.truthy (srcProp el) = true ->
  exists r, r ∈ requests (harvest E recursive els base st)
            /\ (source r = SrcResource
                /\ resolveUrl E None (srcProp el) = Some (url r)).
Proof.
  intros HE Hin Htag Hattr Hhtml Hsrc.
  assert (Hne : srcProp el <> "") by (by intros Heq; rewrite Heq in Hsrc).
  destruct (resolveUrl_nonempty E None _ HE Hne) as (x & Hx & Hxne).
  unfold harvest. cbv zeta.
  do 8 (apply member_through; [intros; pass_discovers|]).
  apply forEach_member with (x := el).
  - unfold select. apply list_elem_of_In, filter_In. split.
    + by apply list_elem_of_In.
    + by rewrite Htag, Hattr.
  - intros. pass_discovers.
  - intros st0. rewrite Hhtml, Hsrc. simpl.
    eapply (member_of_discovers _ _ _ (enqueue_discovers _ _ _ _)).
    rewrite (recordUrl_appends _ _ _ _ _ _ Hx Hxne). simpl.
    eexists. split; [apply elem_of_app; right; apply list_elem_of_here|].
    by split.
Qed.

(** What the harvest of a document has recorded is in the result of the
    run on that document. *)
Lemma harvested_in_result E input options fuel r dom
    (P : RequestRecord -> Prop) :
  detectInputKind input = html ->
  render E input None = Some dom ->
  run E input options fuel = Done r ->
  (forall recursive st,
     exists rec, rec ∈ requests (harvest E recursive (elements dom) None st)
                 /\ P rec) ->
  exists rec, rec ∈ res_requests r /\ P rec.
Proof.
  intros Hk Hdom (st & Hrun & _ & Hreq)%run_Done Hharvest.
  revert Hrun. unfold runState, analyzeInput. rewrite Hk.
  unfold analyzeHtml. rewrite Hdom.
  destruct (processPending _ _ _ _) as [st'| |] eqn:Hpp; [|done|done].
  intros [= _ ->]. rewrite Hreq.
  apply processPending_spec in Hpp as ([k Hk'] & _).
  match type of Hk' with requests _ = requests (suspend _ _ (harvest _ ?rec _ _ ?st0)) ++ _ =>
    destruct (Hharvest rec st0) as (rec0 & Hrec & HP) end.
  exists rec0. split; [|done]. rewrite Hk'. apply elem_of_app. left.
  by apply (discovers_member _ _ _ (suspend_discovers E _ _)).
Qed.

(** When a run on a document returns, its log holds a record with
    source [img] for every image element with a non-empty source, and a
    record with source [resource] for every script and frame element with
    one; the URL of the record is the resolution of the element's
    source. *)
Theorem document_elements_are_reported E input options fuel r dom el :
  nonEmptyURLs E ->
  detectInputKind input = html ->
  render E input None = Some dom ->
  run E input options fuel = Done r ->
  el ∈ elements dom ->
  isHTMLElement el = true ->
  Js.truthy (srcProp el) = true ->
  (hasTag el "img" = true ->
   exists rec, rec ∈ res_requests r
               /\ (source rec = SrcImg
                   /\ resolveUrl E None (srcProp el) = Some (url rec)))
  /\ (hasTag el "script" = true \/ hasTag el "iframe" = true ->
      hasAttribute el "src" = true ->
      exists rec, rec ∈ res_requests r
                  /\ (source rec = SrcResource
                      /\ resolveUrl E None (srcProp el) = Some (url rec))).
Proof.
  intros HE Hk Hdom Hrun Hin Hhtml Hsrc. split.
  - intros Htag. eapply harvested_in_result; try eassumption.
    intros recursive st. by apply harvest_img.
  - intros Htag Hattr. eapply harvested_in_result; try eassumption.
    intros recursive st. destruct Htag as [Htag|Htag].
    + by apply harvest_script.
    + by apply harvest_iframe.
Qed.

(** (Witness) The document with one image and one script. *)
Lemma document_elements_are_reported_witness :
  exists r,
    run Examples.env Examples.galleryInput (Demo.options false) 0 = Done r
    /\ (exists rec, rec ∈ res_requests r
                    /\ (source rec = SrcImg
                        /\ resolveUrl Examples.env None
                             "https://example.com/a.png" = Some (url rec)))
    /\ (exists rec, rec ∈ res_requests r
                    /\ (source rec = SrcResource
                        /\ resolveUrl Examples.env None
                             "https://example.com/app.js" = Some (url rec))).
Proof.
  destruct (run Examples.env Examples.galleryInput (Demo.options false) 0)
    as [r| |] eqn:Hrun; [|by vm_compute in Hrun..].
  exists r. split; [reflexivity|].
  assert (HE : nonEmptyURLs Examples.env) by exact demo_nonEmptyURLs.
  split.
  - apply (document_elements_are_reported Examples.env Examples.galleryInput
             (Demo.options false) 0 r Examples.gallery Examples.picture HE
             eq_refl eq_refl Hrun); [|reflexivity..].
    apply list_elem_of_here.
  - apply (document_elements_are_reported Examples.env Examples.galleryInput
             (Demo.options false) 0 r Examples.gallery Examples.appScript HE
             eq_refl eq_refl Hrun); [|reflexivity|reflexivity| |reflexivity].
    + apply list_elem_of_further, list_elem_of_here.
    + by left.
Defined.

(** ** Style sheets of the document *)

(** Every reference of a style sheet is non-empty. *)

Lemma cssReferences_nonempty cssText u :
  u ∈ cssReferences cssText -> u <> "".
Proof.
  unfold cssReferences, extractCssDependencies. simpl.
  rewrite !pushTrimmed_all. simpl.
  intros [Hu|Hu]%elem_of_app Heq; subst u;
    apply list_elem_of_In, filter_In in Hu as [_ Hu]; done.
Qed.

Lemma whenResolved_discovers o f st :
  (forall s st0, discovers st0 (f s st0)) ->
  discovers st (whenResolved o f st).
Proof.
  intros Hf. unfold whenResolved. destruct o as [s|]; [|apply discovers_refl].
  destruct (Js.truthy s); [apply Hf|apply discovers_refl].
Qed.

Lemma recordCssUrls_reports E recursive cssText base st u :
  nonEmptyURLs E ->
  u ∈ cssReferences cssText ->
  exists r, r ∈ requests (recordCssUrls E recursive cssText base st)
            /\ (source r = SrcCss
                /\ exists x, resolveUrl E base u = Some x
                             /\ resolveUrl E None x = Some (url r)).
Proof.
  intros HE Hu. pose proof (cssReferences_nonempty _ _ Hu) as Hne.
  destruct (resolveUrl_nonempty E base _ HE Hne) as (x & Hx & Hxne).
  destruct (resolveUrl_nonempty E None _ HE Hxne) as (y & Hy & Hyne).
  unfold recordCssUrls. cbv zeta.
  apply elem_of_app in Hu as [Hu|Hu].
  - apply member_through.
    { intros v st0. apply whenResolved_discovers. intros.
      apply recordUrl_discovers. }
    apply forEach_member with (x := u); [done| |].
    + intros v st0. apply whenResolved_discovers. intros.
      eapply discovers_trans; [apply recordUrl_discovers|].
      apply enqueue_discovers.
    + intros st0. unfold whenResolved. rewrite Hx.
      assert (Js.truthy x = true) as -> by (by destruct x).
      eapply (member_of_discovers _ _ _ (enqueue_discovers _ _ _ _)).
      rewrite (recordUrl_appends _ _ _ _ _ _ Hy Hyne). simpl.
      eexists. split; [apply elem_of_app; right; apply list_elem_of_here|].
      split; [done|]. by exists x.
  - apply forEach_member with (x := u); [done| |].
    + intros v st0. apply whenResolved_discovers. intros.
      apply recordUrl_discovers.
    + intros st0. unfold whenResolved. rewrite Hx.
      assert (Js.truthy x = true) as -> by (by destruct x).
      rewrite (recordUrl_appends _ _ _ _ _ _ Hy Hyne). simpl.
      eexists. split; [apply elem_of_app; right; apply list_elem_of_here|].
      split; [done|]. by exists x.
Qed.

Lemma harvest_style_element E recursive els base st el u :
  nonEmptyURLs E ->
  el ∈ els -> hasTag el "style" = true ->
  u ∈ cssReferences (textContent el) ->
  exists r, r ∈ requests (harvest E recursive els base st)
            /\ (source r = SrcCss
                /\ exists x, resolveUrl E base u = Some x
                             /\ resolveUrl E None x = Some (url r)).
Proof.
  intros HE Hin Htag Hu.
  unfold harvest. cbv zeta.
  do 1 (apply member_through; [intros; pass_discovers|]).
  apply forEach_member with (x := el).
  - unfold select. apply list_elem_of_In, filter_In. split; [|done].
    by apply list_elem_of_In.
  - intros. pass_discovers.
  - intros st0. destruct (textContent el) as [|c t] eqn:Ht.
    { by apply elem_of_app in Hu as [Hu|Hu]; apply not_elem_of_nil in Hu. }
    simpl Js.truthy. cbv iota. by apply recordCssUrls_reports.
Qed.

Lemma harvest_style_attribute E recursive els base st el cssText u :
  nonEmptyURLs E ->
  el ∈ els -> getAttribute el "style" = Some cssText ->
  u ∈ cssReferences cssText ->
  exists r, r ∈ requests (harvest E recursive els base st)
            /\ (source r = SrcCss
                /\ exists x, resolveUrl E base u = Some x
                             /\ resolveUrl E None x = Some (url r)).
Proof.
  intros HE Hin Hattr Hu.
  unfold harvest. cbv zeta.
  do 2 (apply member_through; [intros; pass_discovers|]).
  apply forEach_member with (x := el).
  - unfold select. apply list_elem_of_In, filter_In. split.
    + by apply list_elem_of_In.
    + unfold hasAttribute. by rewrite Hattr.
  - intros. pass_discovers.
  - intros st0. rewrite Hattr. destruct cssText as [|c t].
    { by apply elem_of_app in Hu as [Hu|Hu]; apply not_elem_of_nil in Hu. }
    simpl Js.truthy. cbv iota. by apply recordCssUrls_reports.
Qed.

(** When a run on a document returns, its log holds a record with source
    [css] for every reference the style-sheet extractor finds in the text
    of a style element or in a [style] attribute; the URL of the record
    is the reference, resolved once by [recordCssUrls] and once more by
    [recordUrl]. *)
Theorem document_styles_are_reported E input options fuel r dom el u :
  nonEmptyURLs E ->
  detectInputKind input = html ->
  render E input None = Some dom ->
  run E input options fuel = Done r ->
  el ∈ elements dom ->
  (hasTag el "style" = true /\ u ∈ cssReferences (textContent el))
  \/ (exists cssText, getAttribute el "style" = Some cssText
                      /\ u ∈ cssReferences cssText) ->
  exists rec, rec ∈ res_requests r
              /\ (source rec = SrcCss
                  /\ exists x, resolveUrl E None u = Some x
                               /\ resolveUrl E None x = Some (url rec)).
Proof.
  intros HE Hk Hdom Hrun Hin Hu.
  eapply harvested_in_result; try eassumption.
  intros recursive st. destruct Hu as [[Htag Hu]|(cssText & Hattr & Hu)].
  - by apply harvest_style_element with (el := el).
  - by apply harvest_style_attribute with (el := el) (cssText := cssText).
Qed.

(** (Witness) The document with a style element and a styled block. *)
Lemma document_styles_are_reported_witness :
  exists r,
    run Examples.styledEnv Examples.styledInput (Demo.options false) 0
    = Done r
    /\ (exists rec, rec ∈ res_requests r
                    /\ (source rec = SrcCss
                        /\ url rec = "https://example.com/bg.png"))
    /\ (exists rec, rec ∈ res_requests r
                    /\ (source rec = SrcCss
                        /\ url rec = "https://example.com/b.png")).
Proof.
  destruct (run Examples.styledEnv Examples.styledInput
              (Demo.options false) 0) as [r| |] eqn:Hrun;
    [|by vm_compute in Hrun..].
  exists r. split; [reflexivity|].
  assert (HE : nonEmptyURLs Examples.styledEnv) by exact demo_nonEmptyURLs.
  split.
  - destruct (document_styles_are_reported Examples.styledEnv
                Examples.styledInput (Demo.options false) 0 r
                Examples.styled Examples.hero "https://example.com/bg.png"
                HE eq_refl eq_refl Hrun)
      as (rec & Hrec & Hsrc & x & Hx & Hurl).
    + apply list_elem_of_here.
    + left. split; [reflexivity|]. vm_compute. apply list_elem_of_here.
    + exists rec. split; [done|]. split; [done|].
      vm_compute in Hx. injection Hx as <-. vm_compute in Hurl.
      injection Hurl as Hurl. symmetry. exact Hurl.
  - destruct (document_styles_are_reported Examples.styledEnv
                Examples.styledInput (Demo.options false) 0 r
                Examples.styled Examples.banner "https://example.com/b.png"
                HE eq_refl eq_refl Hrun)
      as (rec & Hrec & Hsrc & x & Hx & Hurl).
    + apply list_elem_of_further, list_elem_of_here.
    + right. eexists. split; [reflexivity|]. vm_compute.
      apply list_elem_of_here.
    + exists rec. split; [done|]. split; [done|].
      vm_compute in Hx. injection Hx as <-. vm_compute in Hurl.
      injection Hurl as Hurl. symmetry. exact Hurl.
Defined.

(** ** Texts without the keywords, and the first [url(...)] *)

Section Keywords.
Import Regex.

Local Arguments run : simpl never.
Local Arguments iterate : simpl never.
Local Arguments class_matches : simpl never.
Local Arguments canon : simpl never.
Local Arguments Nat.ltb : simpl never.

Local Ltac decide_char :=
  match goal with
  | |- context [Ascii.eqb (canon ?i ?a) (canon ?i ?c)] =>
      let b := eval vm_compute in (Ascii.eqb (canon i a) (canon i c)) in
      change (Ascii.eqb (canon i a) (canon i c)) with b
  | |- context [class_matches ?i ?n ?items ?a] =>
      let b := eval vm_compute in (class_matches i n items a) in
      change (class_matches i n items a) with b
  end; cbv iota.

Local Ltac lit := rewrite ?run_Seq; rewrite run_Lit; decide_char; cbv beta.

(** The characters of the keywords of the style-sheet patterns. *)
Lemma keyword_chars_fold :
  Forall foldsLike (list_ascii_of_string "url(@impot").
Proof.
  simpl list_ascii_of_string.
  repeat (apply Forall_cons_2); try by apply Forall_nil.
  all: intros [[] [] [] [] [] [] [] []]; vm_compute; reflexivity.
Qed.

Lemma run_keyword_folded kw more : forall s p cs k,
  Forall foldsLike (list_ascii_of_string kw) ->
  Js.startsWith (Js.toLowerCase s) kw = false ->
  run true (Str (kw +:+ more)) (MState s p cs) k = None.
Proof.
  induction kw as [|c kw IH]; intros s p cs k Hkw Hs; simpl in *.
  { by destruct (Js.toLowerCase s). }
  apply Forall_cons in Hkw as [Hc Hkw].
  rewrite run_Seq. destruct s as [|a s]; [apply run_Lit_nil|].
  rewrite run_Lit, Hc. simpl in Hs.
  destruct (Ascii.eqb (Js.lowerChar a) c); [|done]. by apply IH.
Qed.

Lemma run_keyword kw more : forall s p cs k,
  Js.startsWith s kw = false ->
  run false (Str (kw +:+ more)) (MState s p cs) k = None.
Proof.
  induction kw as [|c kw IH]; intros s p cs k Hs; simpl in *.
  { by destruct s. }
  rewrite run_Seq. destruct s as [|a s]; [apply run_Lit_nil|].
  rewrite run_Lit. unfold canon. simpl in Hs.
  destruct (Ascii.eqb a c); [|done]. by apply IH.
Qed.

(** A pattern that cannot start at a place without its keyword finds
    nothing in a text without the keyword. *)
Lemma search_nowhere ic r (view : string -> string) kw :
  (forall s p, Js.startsWith (view s) kw = false ->
               run ic r (MState s p []) Some = None) ->
  (forall a s, exists b, view (String a s) = String b (view s)) ->
  forall s p, Js.includes (view s) kw = false -> search ic r s p = None.
Proof.
  intros Hrun Hview. induction s as [|a s IH]; intros p Hs.
  - simpl. rewrite Hrun; [done|]. destruct (view ""); simpl in Hs.
    + by rewrite orb_false_r in Hs.
    + by apply orb_false_iff in Hs as [Hs _].
  - destruct (Hview a s) as [b Hb]. rewrite Hb in Hs. simpl in Hs.
    apply orb_false_iff in Hs as [Hs1 Hs2].
    rewrite search_miss; [by apply IH|]. apply Hrun. by rewrite Hb.
Qed.

Lemma scan_nowhere ic r s :
  search ic r s None = None -> Patterns.scan ic r s = [].
Proof.
  intros Hs. unfold Patterns.scan, matchAll.
  destruct (String.length s); simpl; by rewrite Hs.
Qed.

Lemma view_lower a s :
  exists b, Js.toLowerCase (String a s) = String b (Js.toLowerCase s).
Proof. by eexists. Qed.

Lemma view_id a s : exists b, id (String a s) = String b (id s).
Proof. by eexists. Qed.

Lemma scan_without_keyword_folded kw rs s :
  Forall foldsLike (list_ascii_of_string kw) ->
  Js.includes (Js.toLowerCase s) kw = false ->
  Patterns.scan true (SeqAll (Str kw :: rs)) s = [].
Proof.
  intros Hkw Hs. apply scan_nowhere.
  apply (search_nowhere true _ Js.toLowerCase kw); [|apply view_lower|done].
  intros s' p Hs'. cbn [SeqAll]. rewrite run_Seq.
  replace kw with (kw +:+ "") at 1 by (clear; induction kw; simpl; congruence).
  by apply run_keyword_folded.
Qed.

Lemma scan_without_keyword kw more rs s :
  Js.includes s kw = false ->
  Patterns.scan false (SeqAll (Str (kw +:+ more) :: rs)) s = [].
Proof.
  intros Hs. apply scan_nowhere.
  apply (search_nowhere false _ id kw); [|apply view_id|done].
  intros s' p Hs'. cbn [SeqAll]. rewrite run_Seq.
  by apply run_keyword.
Qed.

Lemma scan_without_word kw more rs s :
  Js.includes s kw = false ->
  Patterns.scan false (SeqAll (WordB :: Str (kw +:+ more) :: rs)) s = [].
Proof.
  intros Hs. apply scan_nowhere.
  apply (search_nowhere false _ id kw); [|apply view_id|done].
  intros s' p Hs'. cbn [SeqAll]. rewrite run_Seq, run_WordB.
  destruct (xorb _ _); [|done]. rewrite run_Seq. by apply run_keyword.
Qed.

(** An extractor returns nothing for a text that lacks the keyword of its
    pattern: no URL without [url(] and no style-sheet import without
    [@import], in any letter case; no import and no [importScripts]
    without [import], no fetch without [fetch(] and no XHR without
    [.open(]. *)
Theorem texts_without_keywords_have_no_references (text : string) :
  (Js.includes (Js.toLowerCase text) "url(" = false ->
   css_urls (extractCssDependencies text) = [])
  /\ (Js.includes (Js.toLowerCase text) "@import" = false ->
      css_imports (extractCssDependencies text) = [])
  /\ (Js.includes text "import" = false ->
      js_imports (extractJsDependencies text) = []
      /\ js_importScripts (extractJsDependencies text) = [])
  /\ (Js.includes text "fetch(" = false ->
      js_fetches (extractJsDependencies text) = [])
  /\ (Js.includes text ".open(" = false ->
      js_xhrs (extractJsDependencies text) = []).
Proof.
  pose proof keyword_chars_fold as Hk.
  repeat (apply Forall_cons in Hk as [? Hk]).
  unfold extractCssDependencies, extractJsDependencies. cbn [css_urls css_imports js_imports js_importScripts js_fetches js_xhrs].
  split_and!.
  - intros H'. unfold Patterns.cssUrlPattern.
    rewrite scan_without_keyword_folded; [done| |done].
    by repeat (apply Forall_cons; split).
  - intros H'. unfold Patterns.cssImportPattern.
    rewrite scan_without_keyword_folded; [done| |done].
    by repeat (apply Forall_cons; split).
  - intros H'. unfold Patterns.importPattern, Patterns.dynamicImportPattern.
    unfold Patterns.importScriptsPattern.
    by rewrite (scan_without_word "import" ""),
      (scan_without_word "import" "("),
      (scan_without_word "import" "Scripts(").
  - intros H'. unfold Patterns.fetchPattern.
    by rewrite (scan_without_word "fetch(" "").
  - intros H'. unfold Patterns.xhrPattern.
    by rewrite (scan_without_keyword ".open(" "").
Qed.


(** ** The first [url(...)] of a style sheet *)

Lemma quote_folded q :
  isQuote q = true ->
  class_matches true false [CChar Patterns.squote; CChar Patterns.dquote] q
  = true
  /\ class_matches true false [CSpace] q = false
  /\ forall c, Ascii.eqb (canon true c) (canon true q) = Ascii.eqb c q.
Proof.
  unfold isQuote. intros [H|H]%orb_true_iff; apply Ascii.eqb_eq in H; subst q;
    (split; [reflexivity|split; [reflexivity|]]);
    intros [[] [] [] [] [] [] [] []]; vm_compute; reflexivity.
Qed.

Lemma blank_spaces_folded ws :
  isBlank ws = true -> allChars (class_matches true false [CSpace]) ws = true.
Proof. exact (blank_spaces ws). Qed.

Lemma consumed_one a s p cs p' cs' :
  consumed (MState (String a s) p cs) (MState s p' cs') = String a "".
Proof.
  unfold consumed. simpl rest.
  replace (String.length (String a s) - String.length s) with 1
    by (simpl; lia).
  done.
Qed.

(** [url( Q t Q )] at the current position, with white space where the
    pattern allows it: the pattern matches up to the parenthesis and
    captures [t]. *)
Lemma cssUrlPattern_quoted ws q t ws' tail p :
  isBlank ws = true -> isQuote q = true -> quotedBy q t = true ->
  isBlank ws' = true ->
  run true Patterns.cssUrlPattern
    (MState ("url(" +:+ ws
             +:+ String q (t +:+ String q (ws' +:+ String ")" tail))) p [])
    Some
  = Some (MState tail (Some ")"%char) [(2, t); (1, String q "")]).
Proof.
  intros Hws Hq Ht Hws'. destruct (quote_folded q Hq) as (Hq1 & Hq2 & Hq3).
  unfold Patterns.cssUrlPattern, Space. cbn [SeqAll Str].
  simpl String.append. do 4 lit. rewrite run_Eps. cbv beta.
  rewrite run_Seq, run_Star. simpl rest.
  apply iterate_greedy_run;
    [by apply blank_spaces_folded|rewrite length_append; lia|exact Hq2|].
  intros p1. rewrite run_Seq, run_Group. unfold Opt, Patterns.Quote.
  rewrite run_Alt, run_Class, Hq1.
  match goal with |- orElse ?a _ = Some ?f => assert (a = Some f) as -> end;
    [|done].
  cbv beta. simpl rest. simpl prev. simpl caps. rewrite consumed_one.
  rewrite run_Seq, run_Group, run_Star. simpl rest.
  apply iterate_lazy_run
    with (good := fun c => negb (Ascii.eqb c q) && negb (Js.isLineTerminator c)).
  - exact Ht.
  - intros c [_ Hc]%andb_true_iff. by apply negb_true_iff in Hc.
  - rewrite length_append. lia.
  - intros c r p' [Hc _]%andb_true_iff. apply negb_true_iff in Hc.
    simpl. rewrite run_Seq, run_Backref. simpl. by rewrite Hq3, Hc.
  - intros p'. simpl. rewrite consumed_prefix.
    rewrite run_Seq, run_Backref. simpl.
    rewrite Hq3, Ascii.eqb_refl. unfold advance. simpl.
    rewrite run_Seq, run_Star. simpl rest.
    apply iterate_greedy_run;
      [by apply blank_spaces_folded|rewrite length_append; lia|reflexivity|].
    intros p2. by lit.
Qed.

Lemma startsWith_empty s : Js.startsWith s "" = true.
Proof. by destruct s. Qed.

Lemma no_start_across a pre x :
  Js.startsWith (Js.toLowerCase (String a pre)) "url(" = false ->
  Js.startsWith (Js.toLowerCase (String a (pre +:+ "url(" +:+ x))) "url("
  = false.
Proof.
  destruct pre as [|b [|c [|d pre]]]; simpl; rewrite ?startsWith_empty;
    repeat match goal with
      | |- context [Ascii.eqb (Js.lowerChar ?v) ?k] =>
          is_var v; destruct (Ascii.eqb (Js.lowerChar v) k)
      end; try done; by vm_compute.
Qed.

(** The search passes over a text without [url(] in front of a place
    where the pattern matches. *)
Lemma search_first_url pre x fin : forall p,
  Js.includes (Js.toLowerCase pre) "url(" = false ->
  (forall p', run true Patterns.cssUrlPattern (MState ("url(" +:+ x) p' [])
                Some = Some fin) ->
  search true Patterns.cssUrlPattern (pre +:+ "url(" +:+ x) p = Some fin.
Proof.
  induction pre as [|a pre IH]; intros p Hpre Hx.
  - by apply search_hit.
  - change (Js.toLowerCase (String a pre))
      with (String (Js.lowerChar a) (Js.toLowerCase pre)) in Hpre.
    simpl Js.includes in Hpre. apply orb_false_iff in Hpre as [Hs Hpre].
    simpl String.append. rewrite search_miss; [by apply IH|].
    unfold Patterns.cssUrlPattern. cbn [SeqAll]. rewrite run_Seq.
    change (Str "url(") with (Str ("url(" +:+ "")).
    apply run_keyword_folded.
    + pose proof keyword_chars_fold as Hk.
      repeat (apply Forall_cons in Hk as [? Hk]).
      by repeat (apply Forall_cons; split).
    + by apply (no_start_across a pre x).
Qed.

(** The first [url(...)] of a style sheet is found: behind a text without
    [url(] in any letter case, [url( Q t Q )] yields [t] without the white
    space around it as the first URL, where [Q] is either quote character,
    [t] has no such quote and no line break, and white space may stand
    inside the parentheses; so does [url(t)] for a [t] without quotes,
    parentheses and white space. *)
Theorem first_url_of_a_style_sheet pre tail :
  Js.includes (Js.toLowerCase pre) "url(" = false ->
  (forall ws q t ws',
     isBlank ws = true -> isQuote q = true -> quotedBy q t = true ->
     isBlank ws' = true -> Js.truthy (Js.trim t) = true ->
     exists others,
       css_urls
         (extractCssDependencies
            (pre +:+ "url(" +:+ ws
             +:+ String q (t +:+ String q (ws' +:+ String ")" tail))))
       = Js.trim t :: others)
  /\ (forall t,
        isTarget t = true ->
        exists others,
          css_urls (extractCssDependencies
                      (pre +:+ "url(" +:+ t +:+ ")" +:+ tail))
          = t :: others).
Proof.
  intros Hpre. split.
  - intros ws q t ws' Hws Hq Ht Hws' Hne.
    unfold extractCssDependencies. cbn [css_urls].
    edestruct (scan_hit true Patterns.cssUrlPattern) as [ms ->];
      [vm_compute; lia| |].
    { apply search_first_url; [exact Hpre|]. intros p'.
      by apply cssUrlPattern_quoted. }
    rewrite pushTrimmed_all. simpl. unfold cssCapture.
    change (group 2 [(2, t); (1, String q "")]) with t.
    rewrite Hne. by eexists.
  - intros t Ht.
    unfold extractCssDependencies. cbn [css_urls].
    edestruct (scan_hit true Patterns.cssUrlPattern) as [ms ->];
      [vm_compute; lia| |].
    { apply search_first_url; [exact Hpre|]. intros p'.
      by apply cssUrlPattern_hit. }
    rewrite pushTrimmed_all. simpl. unfold cssCapture.
    change (group 2 [(2, t); (1, "")]) with t.
    rewrite (trim_target t Ht).
    apply andb_true_iff in Ht as [-> _]. by eexists.
Qed.

(** (Witness) The rule of the style element of the examples. *)
Lemma first_url_of_a_style_sheet_witness :
  exists others,
    css_urls (extractCssDependencies (textContent Examples.hero))
    = "https://example.com/bg.png" :: others.
Proof.
  exact (proj1 (first_url_of_a_style_sheet ".hero { background-image: "
                  "; }" eq_refl)
           "" "'"%char "https://example.com/bg.png" ""
           eq_refl eq_refl eq_refl eq_refl eq_refl).
Defined.

End Keywords.

(** (Witness) A rule without references, read as a style sheet and as a
    script. *)
Lemma texts_without_keywords_have_no_references_witness :
  css_urls (extractCssDependencies "body { color: red }") = []
  /\ css_imports (extractCssDependencies "body { color: red }") = []
  /\ js_fetches (extractJsDependencies "body { color: red }") = [].
Proof.
  pose proof (texts_without_keywords_have_no_references "body { color: red }")
    as (H1 & H2 & _ & H4 & _).
  split; [exact (H1 eq_refl)|]. split; [exact (H2 eq_refl)|].
  exact (H4 eq_refl).
Defined.

(** ** Skipped schemes on the discovery paths *)



















(** ** Classification in the drain loop *)

(** One turn of the loop on an item without a hint whose content was
    loaded. *)
Lemma iteration_hintless E recursive st u rest content :
  pending st = (u, None) :: rest ->
  let popped := set_queue rest (processed st) (expanded st ++ [u]) st in
  let load := loadResource E u popped in
  let awaited := awaitPromise E recursive (fst load) (snd load) in
  fst awaited = Some content ->
  iteration E recursive st
  = match detectResourceKind u (contentType content) (text content) with
    | Some kind => analyzeAs E recursive kind (text content) u (snd awaited)
    | None => Done (snd awaited)
    end.
Proof.
  intros Hp popped load awaited Hres.
  subst awaited load popped. unfold iteration. rewrite Hp. cbn [fst snd].
  destruct (loadResource E u _) as [loader st1]. cbn [fst snd] in *.
  destruct (awaitPromise E recursive loader st1) as [result st2].
  cbn [fst snd] in *. subst result.
  by destruct (detectResourceKind _ _ _) as [[| |]|].
Qed.

Lemma analyzeAs_sources E recursive kind body u st st' :
  kind <> html ->
  analyzeAs E recursive kind body u st = Done st' ->
  appends (sourceIn (sourcesOf kind)) st st'.
Proof.
  intros Hk. destruct kind; [done| |]; simpl; intros [= <-].
  - apply recordCssUrls_sources.
  - apply analyzeJs_sources.
Qed.

(** C4.  [detectResourceKind] is the first-match-wins chain of the three
    rules in the order content type, file extension, body; the extension
    rule reads the text after the last dot of the URL once query and
    fragment are cut off, whatever its letter case; and a queue item
    without a hint whose content no rule recognises ends its turn of the
    drain loop right after the load: nothing is analysed, recorded or
    enqueued for it.  (An item reaches the head of the queue without a hint
    only when the extension rule has no opinion on its URL, so that its
    kind is decided by the content type or else by the body.)  An item
    without a hint whose content a rule recognises is treated as the kind
    the classifier returns: its turn of the loop is the analysis of a
    document, of a style sheet or of a script for that kind, and for a
    style sheet or a script the turn returns and every record it adds
    behind the load has a source of that analysis.  In a run, the turn on
    an item without a hint is the analysis for the first kind that the
    content type or else the body gives. *)
Theorem classifier_first_match_wins :
  (forall u contentType body,
     detectResourceKind u contentType body
     = firstMatch [ruleContentType contentType; inferResourceKindFromUrl u;
                   ruleBody body])
  /\ (forall stem ext suffix,
        lacks "?" stem = true -> lacks "#" stem = true ->
        lacks "?" ext = true -> lacks "#" ext = true -> lacks "." ext = true ->
        isUrlSuffix suffix = true ->
        inferResourceKindFromUrl (stem +:+ "." +:+ ext +:+ suffix)
        = kindOfExtension (Js.toLowerCase ext))
  /\ (forall E recursive st u rest content,
        pending st = (u, None) :: rest ->
        let popped := set_queue rest (processed st) (expanded st ++ [u]) st in
        let load := loadResource E u popped in
        let awaited := awaitPromise E recursive (fst load) (snd load) in
        fst awaited = Some content ->
        detectResourceKind u (contentType content) (text content) = None ->
        iteration E recursive st = Done (snd awaited))
  /\ (forall E recursive input st u rest,
        reachable E recursive input st ->
        pending st = (u, None) :: rest ->
        inferResourceKindFromUrl u = None
        /\ forall contentType body,
             detectResourceKind u contentType body
             = firstMatch [ruleContentType contentType; ruleBody body])
  /\ (forall E recursive st u rest content kind,
        pending st = (u, None) :: rest ->
        let popped := set_queue rest (processed st) (expanded st ++ [u]) st in
        let load := loadResource E u popped in
        let awaited := awaitPromise E recursive (fst load) (snd load) in
        fst awaited = Some content ->
        detectResourceKind u (contentType content) (text content)
        = Some kind ->
        iteration E recursive st
        = analyzeAs E recursive kind (text content) u (snd awaited)
        /\ (kind <> html ->
            exists st',
              iteration E recursive st = Done st'
              /\ appends (sourceIn (sourcesOf kind)) (snd awaited) st'))
  /\ (forall E recursive input st u rest content,
        reachable E recursive input st ->
        pending st = (u, None) :: rest ->
        let popped := set_queue rest (processed st) (expanded st ++ [u]) st in
        let load := loadResource E u popped in
        let awaited := awaitPromise E recursive (fst load) (snd load) in
        fst awaited = Some content ->
        iteration E recursive st
        = match firstMatch [ruleContentType (contentType content);
                            ruleBody (text content)] with
          | Some kind =>
              analyzeAs E recursive kind (text content) u (snd awaited)
          | None => Done (snd awaited)
          end).
Proof.
  assert (Hchain : forall u contentType body,
            detectResourceKind u contentType body
            = firstMatch [ruleContentType contentType;
                          inferResourceKindFromUrl u; ruleBody body]).
  { intros u ct body. unfold detectResourceKind, ruleContentType, ruleBody.
    simpl. generalize (Js.trimStart body). intros t.
    destruct (Js.includes _ "text/html"); [done|].
    destruct (Js.includes _ "text/css"); [done|].
    destruct (Js.includes _ "javascript"); [done|].
    destruct (inferResourceKindFromUrl u); [done|].
    assert (H1 : forall p a r, Js.startsWith t (String a r) = true ->
                 p = String a "" -> Js.startsWith t p = true).
    { intros p a r H ->. destruct t as [|b t']; [done|]. simpl in *.
      destruct (Ascii.eqb b a); [|done]. by destruct t'. }
    destruct (Js.startsWith t "<!doctype") eqn:E1.
    { assert (E3 : Js.startsWith t "<" = true) by (by eapply H1).
      by rewrite E3. }
    destruct (Js.startsWith t "<html") eqn:E2.
    { assert (E3 : Js.startsWith t "<" = true) by (by eapply H1).
      by rewrite E3. }
    simpl. by destruct (if Js.startsWith t "<" then _ else _). }
  assert (Hhint : forall E recursive input st u rest,
            reachable E recursive input st ->
            pending st = (u, None) :: rest ->
            inferResourceKindFromUrl u = None).
  { intros E recursive input st u rest Hreach Hp.
    apply (reachable_hintsAgree _ _ _ _ Hreach). rewrite Hp.
    apply list_elem_of_here. }
  split_and!.
  - exact Hchain.
  - exact infer_by_extension.
  - intros E recursive st u rest content Hp popped load awaited Hres Hkind.
    subst awaited load popped.
    by rewrite (iteration_hintless _ _ _ _ _ _ Hp Hres), Hkind.
  - intros E recursive input st u rest Hreach Hp.
    pose proof (Hhint _ _ _ _ _ _ Hreach Hp) as Hu.
    split; [done|]. intros ct body. rewrite Hchain. simpl. by rewrite Hu.
  - intros E recursive st u rest content kind Hp popped load awaited Hres
      Hkind.
    subst awaited load popped.
    rewrite (iteration_hintless _ _ _ _ _ _ Hp Hres), Hkind.
    split; [done|]. intros Hne.
    destruct kind; [done| |]; simpl; eexists; (split; [reflexivity|]).
    + apply recordCssUrls_sources.
    + apply analyzeJs_sources.
  - intros E recursive input st u rest content Hreach Hp popped load awaited
      Hres.
    subst awaited load popped.
    rewrite (iteration_hintless _ _ _ _ _ _ Hp Hres), Hchain. simpl.
    by rewrite (Hhint _ _ _ _ _ _ Hreach Hp).
Qed.

(** C4 (witness): an upper-case extension before a query, the turn of the
    drain loop for a body no rule recognises, an item a script scan
    enqueued without a hint, and the turn for a body that starts like a
    style sheet under a script content type: it is analysed as a script. *)
Lemma classifier_first_match_wins_witness :
  inferResourceKindFromUrl "https://e.com/a.CSS?v=1" = Some css
  /\ (exists st', iteration Demo.env true Demo.blobQueued = Done st'
                  /\ requests st' = [] /\ pending st' = [])
  /\ (exists t st,
        analyzeInput Demo.env true "fetch('https://e.com/blob')" startState
        = Done (t, st)
        /\ pending st = [(Demo.blob, None)]
        /\ inferResourceKindFromUrl Demo.blob = None)
  /\ (exists st',
        iteration Examples.typedEnv true Demo.blobQueued = Done st'
        /\ map untimedRecord (requests st')
           = [("https://e.com/b.css", SrcResource);
              ("https://e.com/x", SrcFetch)]).
Proof.
  destruct classifier_first_match_wins as (_ & H2 & H3 & H4 & H5 & _).
  split_and!.
  - apply (H2 "https://e.com/a" "CSS" "?v=1"); reflexivity.
  - eexists. split.
    + apply (H3 Demo.env true Demo.blobQueued Demo.blob []
               {| text := "hello world"; contentType := None |});
        reflexivity.
    + split; reflexivity.
  - eexists _, _. split; [vm_compute; reflexivity|]. split; [reflexivity|].
    eapply (H4 Demo.env true "fetch('https://e.com/blob')" _ Demo.blob []).
    + apply reach_first with (t := None). vm_compute. reflexivity.
    + reflexivity.
  - eexists. split.
    + destruct (H5 Examples.typedEnv true Demo.blobQueued Demo.blob []
                  {| text := Examples.mislabelled;
                     contentType := Some "application/javascript" |} js)
        as [Has _];
        [reflexivity|vm_compute; reflexivity|vm_compute; reflexivity|].
      rewrite Has. vm_compute. reflexivity.
    + vm_compute. reflexivity.
Defined.

(** ** Matches one after the other *)

Section Successive.
Import Regex.

Variable ic : bool.

Lemma alikeOpt_refl x : alikeOpt x x.
Proof. by destruct x. Qed.

Lemma orElse_alike x x' y y' :
  alikeOpt x x' -> alikeOpt y y' -> alikeOpt (orElse x y) (orElse x' y').
Proof. by destruct x, x'. Qed.

Lemma eat_alike t : forall st st',
  alike st st' -> alikeOpt (eat ic t st) (eat ic t st').
Proof.
  induction t as [|c t IH]; intros st st' [Hr Hc]; simpl; [done|].
  rewrite <- Hr. destruct (rest st) as [|a s]; [done|].
  destruct (Ascii.eqb _ _); [|done]. apply IH. by split.
Qed.

Lemma iterate_alike g step k k' :
  (forall st st' c c',
     alike st st' ->
     (forall a b, alike a b -> alikeOpt (c a) (c' b)) ->
     alikeOpt (step st c) (step st' c')) ->
  (forall a b, alike a b -> alikeOpt (k a) (k' b)) ->
  forall n st st',
    alike st st' ->
    alikeOpt (iterate g step k n st) (iterate g step k' n st').
Proof.
  intros Hstep Hk. induction n as [|n IH]; intros st st' Hst; simpl.
  - by apply Hk.
  - assert (Hagain :
      alikeOpt
        (step st (fun st1 =>
           if Nat.ltb (String.length (rest st1)) (String.length (rest st))
           then iterate g step k n st1 else None))
        (step st' (fun st1 =>
           if Nat.ltb (String.length (rest st1)) (String.length (rest st'))
           then iterate g step k' n st1 else None))).
    { apply Hstep; [done|]. intros a b Hab.
      destruct Hst as [Hr _]. destruct Hab as [Hr' Hc']. rewrite Hr, Hr'.
      destruct (Nat.ltb _ _); [|done]. apply IH. by split. }
    destruct g; apply orElse_alike; auto.
Qed.

Lemma run_alike r :
  wordFree r = true ->
  forall st st' k k',
    alike st st' ->
    (forall a b, alike a b -> alikeOpt (k a) (k' b)) ->
    alikeOpt (run ic r st k) (run ic r st' k').
Proof.
  induction r as [| c | | negated items | | r1 IH1 r2 IH2 | r1 IH1 r2 IH2
                  | greedy r1 IH1 | n r1 IH1 | n];
    intros Hw st st' k k' Hst Hk; simpl in *.
  - by apply Hk.
  - destruct Hst as [Hr Hc]. rewrite <- Hr.
    destruct (rest st) as [|a s]; [done|].
    destruct (Ascii.eqb _ _); [|done]. apply Hk. by split.
  - destruct Hst as [Hr Hc]. rewrite <- Hr.
    destruct (rest st) as [|a s]; [done|].
    destruct (Js.isLineTerminator a); [done|]. apply Hk. by split.
  - destruct Hst as [Hr Hc]. rewrite <- Hr.
    destruct (rest st) as [|a s]; [done|].
    destruct (class_matches _ _ _ _); [|done]. apply Hk. by split.
  - done.
  - apply andb_true_iff in Hw as [H1 H2].
    apply IH1; [done|done|]. intros a b Hab. by apply IH2.
  - apply andb_true_iff in Hw as [H1 H2].
    apply orElse_alike; [by apply IH1|by apply IH2].
  - destruct Hst as [Hr Hc]. rewrite <- Hr.
    apply iterate_alike; [|done|by split].
    intros a b c c' Hab Hcc. by apply IH1.
  - apply IH1; [done|done|]. intros a b [Hr' Hc']. apply Hk.
    destruct Hst as [Hr Hc]. split; simpl; [done|].
    unfold consumed. by rewrite Hr, Hr', Hc'.
  - destruct Hst as [Hr Hc]. rewrite <- Hc.
    destruct (capture n (caps st)) as [t|]; [|by apply Hk].
    pose proof (eat_alike t st st' (conj Hr Hc)) as He.
    destruct (eat ic t st), (eat ic t st'); try done. by apply Hk.
Qed.

Lemma search_alike r s p p' :
  wordFree r = true -> alikeOpt (search ic r s p) (search ic r s p').
Proof.
  intros Hw.
  assert (Hrun : forall s p p',
            alikeOpt (run ic r (MState s p []) Some)
              (run ic r (MState s p' []) Some)).
  { intros. apply run_alike; [done|by split|]. by intros a b Hab. }
  destruct s as [|a s]; simpl.
  - specialize (Hrun "" p p').
    by destruct (run ic r (MState "" p []) Some),
      (run ic r (MState "" p' []) Some).
  - specialize (Hrun (String a s) p p').
    destruct (run ic r (MState (String a s) p []) Some),
      (run ic r (MState (String a s) p' []) Some); try done.
    apply alikeOpt_refl.
Qed.

Lemma execLoop_prev r :
  wordFree r = true ->
  forall fuel s p p', execLoop ic r fuel s p = execLoop ic r fuel s p'.
Proof.
  intros Hw. induction fuel as [|fuel IH]; intros s p p'; simpl;
    pose proof (search_alike r s p p' Hw) as Hs;
    destruct (search ic r s p) as [fin|], (search ic r s p') as [fin'|];
    try done; destruct Hs as [Hr Hc]; rewrite Hr; [done|].
  destruct (Nat.ltb _ _); [|done].
  by rewrite (IH (rest fin') (prev fin) (prev fin')), Hc.
Qed.

Lemma execLoop_fuel r :
  1 <= minLen r ->
  forall fuel fuel' s p,
    String.length s <= fuel -> String.length s <= fuel' ->
    execLoop ic r fuel s p = execLoop ic r fuel' s p.
Proof.
  intros Hmin. induction fuel as [|fuel IH]; intros fuel' s p Hs Hs'.
  - destruct s; [|simpl in Hs; lia]. destruct fuel'; simpl;
      destruct (run ic r _ Some) eqn:Hrun; try done;
      apply run_reads in Hrun as (st' & Hl & _); simpl in Hl; lia.
  - destruct fuel' as [|fuel'].
    + destruct s; [|simpl in Hs'; lia]. simpl.
      by destruct (run ic r _ Some).
    + simpl. destruct (search ic r s p) as [fin|] eqn:Hsearch; [|done].
      pose proof (search_reads _ _ _ _ _ Hsearch) as Hl.
      destruct (Nat.ltb _ _); [|done].
      by rewrite (IH fuel' (rest fin) (prev fin)) by lia.
Qed.

(** The loop resumes behind a match as it would start on the remaining
    text. *)
Lemma scan_cons r s fin :
  1 <= minLen r -> wordFree r = true ->
  search ic r s None = Some fin ->
  Patterns.scan ic r s = caps fin :: Patterns.scan ic r (rest fin).
Proof.
  intros Hmin Hw Hs. pose proof (search_reads _ _ _ _ _ Hs) as Hl.
  unfold Patterns.scan, matchAll.
  destruct (String.length s) as [|n] eqn:Hn; [lia|]. simpl. rewrite Hs.
  replace (Nat.ltb _ _) with true by (symmetry; apply Nat.ltb_lt; lia).
  rewrite (execLoop_prev r Hw n (rest fin) (prev fin) None).
  rewrite (execLoop_fuel r Hmin n (String.length (rest fin)) (rest fin) None)
    by lia.
  destruct (execLoop_total ic r Hmin (String.length (rest fin)) (rest fin)
              None) as [ms ->]; done.
Qed.

End Successive.

(** ** A construct anywhere in a style sheet *)

Lemma toLowerCase_app s t :
  Js.toLowerCase (s +:+ t) = Js.toLowerCase s +:+ Js.toLowerCase t.
Proof. induction s as [|c s IH]; simpl; [done|by rewrite IH]. Qed.

(** A keyword whose first character does not come back further on cannot
    start inside a text and end inside a copy of itself behind it. *)
Lemma startsWith_into c0 kk y : forall k l,
  lacks c0 k = true ->
  Js.startsWith (l +:+ String c0 (kk +:+ y)) k = true ->
  Js.startsWith l k = true.
Proof.
  induction k as [|b k IH]; intros l Hk H.
  - by destruct l.
  - unfold lacks in Hk. simpl in Hk. apply andb_true_iff in Hk as [Hb Hk].
    apply negb_true_iff in Hb.
    destruct l as [|a l]; simpl in *.
    + rewrite Ascii.eqb_sym in Hb. by rewrite Hb in H.
    + apply andb_true_iff in H as [-> H]. simpl. by apply (IH l).
Qed.

Lemma startsWith_across c0 kk y a l :
  lacks c0 kk = true ->
  Js.startsWith (String a l) (String c0 kk) = false ->
  Js.startsWith (String a l +:+ String c0 (kk +:+ y)) (String c0 kk) = false.
Proof.
  intros Hk H. simpl in *.
  destruct (Ascii.eqb a c0); [|done]. simpl in *.
  destruct (Js.startsWith (l +:+ String c0 (kk +:+ y)) kk) eqn:Hs; [|done].
  by rewrite (startsWith_into c0 kk y kk l Hk Hs) in H.
Qed.

Section Anywhere.
Import Regex.

Local Arguments run : simpl never.
Local Arguments iterate : simpl never.
Local Arguments class_matches : simpl never.
Local Arguments canon : simpl never.
Local Arguments Nat.ltb : simpl never.

Local Ltac decide_char :=
  match goal with
  | |- context [Ascii.eqb (canon ?i ?a) (canon ?i ?c)] =>
      let b := eval vm_compute in (Ascii.eqb (canon i a) (canon i c)) in
      change (Ascii.eqb (canon i a) (canon i c)) with b
  | |- context [class_matches ?i ?n ?items ?a] =>
      let b := eval vm_compute in (class_matches i n items a) in
      change (class_matches i n items a) with b
  end; cbv iota.

Local Ltac lit := rewrite ?run_Seq; rewrite run_Lit; decide_char; cbv beta.

(** The search passes over a text without the keyword in front of a place
    where the pattern matches. *)
Lemma search_first r c0 kk pre kwt x fin :
  lacks c0 kk = true ->
  (forall s p, Js.startsWith (Js.toLowerCase s) (String c0 kk) = false ->
               run true r (MState s p []) Some = None) ->
  Js.toLowerCase kwt = String c0 kk ->
  Js.includes (Js.toLowerCase pre) (String c0 kk) = false ->
  (forall p', run true r (MState (kwt +:+ x) p' []) Some = Some fin) ->
  forall p, search true r (pre +:+ kwt +:+ x) p = Some fin.
Proof.
  intros Hk Hneeds Hkw Hpre Hx.
  induction pre as [|a pre IH]; intros p.
  - by apply search_hit.
  - change (Js.toLowerCase (String a pre))
      with (String (Js.lowerChar a) (Js.toLowerCase pre)) in Hpre.
    simpl Js.includes in Hpre. apply orb_false_iff in Hpre as [Hs Hpre].
    simpl String.append. rewrite search_miss; [by apply IH|].
    apply Hneeds.
    change (String a (pre +:+ kwt +:+ x)) with (String a pre +:+ kwt +:+ x).
    rewrite !toLowerCase_app, Hkw.
    change (Js.toLowerCase (String a pre))
      with (String (Js.lowerChar a) (Js.toLowerCase pre)).
    by apply startsWith_across.
Qed.

(** The keyword in any letter case. *)
Lemma run_Str_folded kw :
  Forall foldsLike (list_ascii_of_string kw) ->
  forall kwt rest0 p cs k,
    Js.toLowerCase kwt = kw ->
    exists p', run true (Str kw) (MState (kwt +:+ rest0) p cs) k
               = k (MState rest0 p' cs).
Proof.
  induction kw as [|c kw IH]; intros Hkw kwt rest0 p cs k Hlow.
  - destruct kwt; [|done]. exists p. by rewrite run_Eps.
  - destruct kwt as [|a kwt]; [done|]. simpl in Hlow.
    injection Hlow as Ha Hlow. simpl in Hkw.
    apply Forall_cons in Hkw as [Hc Hkw].
    destruct (IH Hkw kwt rest0 (Some a) cs k Hlow) as [p' Hp'].
    exists p'. simpl Str. simpl String.append.
    rewrite run_Seq, run_Lit, (Hc a), Ha, Ascii.eqb_refl. exact Hp'.
Qed.

Lemma url_keyword_folds : Forall foldsLike (list_ascii_of_string "url(").
Proof.
  pose proof keyword_chars_fold as Hk.
  repeat (apply Forall_cons in Hk as [? Hk]).
  by repeat (apply Forall_cons; split).
Qed.

Lemma import_keyword_folds : Forall foldsLike (list_ascii_of_string "@import").
Proof.
  pose proof keyword_chars_fold as Hk.
  repeat (apply Forall_cons in Hk as [? Hk]).
  by repeat (apply Forall_cons; split).
Qed.

Lemma cssUrlPattern_needs s p :
  Js.startsWith (Js.toLowerCase s) "url(" = false ->
  run true Patterns.cssUrlPattern (MState s p []) Some = None.
Proof.
  intros Hs. unfold Patterns.cssUrlPattern. cbn [SeqAll]. rewrite run_Seq.
  change (Str "url(") with (Str ("url(" +:+ "")).
  apply run_keyword_folded; [apply url_keyword_folds|done].
Qed.

Lemma cssImportPattern_needs s p :
  Js.startsWith (Js.toLowerCase s) "@import" = false ->
  run true Patterns.cssImportPattern (MState s p []) Some = None.
Proof.
  intros Hs. unfold Patterns.cssImportPattern. cbn [SeqAll]. rewrite run_Seq.
  change (Str "@import") with (Str ("@import" +:+ "")).
  apply run_keyword_folded; [apply import_keyword_folds|done].
Qed.

(** What stands between the parentheses of [url( Q t Q )]. *)
Lemma url_body_quoted ws q t ws' tail p :
  isBlank ws = true -> isQuote q = true -> quotedBy q t = true ->
  isBlank ws' = true ->
  run true
    (SeqAll [Star true Space; Group 1 (Opt Patterns.Quote);
             Group 2 (Star false AnyChar); Backref 1; Star true Space;
             Lit ")"])
    (MState (ws +:+ String q (t +:+ String q (ws' +:+ String ")" tail))) p [])
    Some
  = Some (MState tail (Some ")"%char) [(2, t); (1, String q "")]).
Proof.
  intros Hws Hq Ht Hws'. destruct (quote_folded q Hq) as (Hq1 & Hq2 & Hq3).
  unfold Space. cbn [SeqAll].
  rewrite run_Seq, run_Star. simpl rest.
  apply iterate_greedy_run;
    [by apply blank_spaces_folded|rewrite length_append; lia|exact Hq2|].
  intros p1. rewrite run_Seq, run_Group. unfold Opt, Patterns.Quote.
  rewrite run_Alt, run_Class, Hq1.
  match goal with |- orElse ?a _ = Some ?f => assert (a = Some f) as -> end;
    [|done].
  cbv beta. simpl rest. simpl prev. simpl caps. rewrite consumed_one.
  rewrite run_Seq, run_Group, run_Star. simpl rest.
  apply iterate_lazy_run
    with (good := fun c => negb (Ascii.eqb c q) && negb (Js.isLineTerminator c)).
  - exact Ht.
  - intros c [_ Hc]%andb_true_iff. by apply negb_true_iff in Hc.
  - rewrite length_append. lia.
  - intros c r p' [Hc _]%andb_true_iff. apply negb_true_iff in Hc.
    simpl. rewrite run_Seq, run_Backref. simpl. by rewrite Hq3, Hc.
  - intros p'. simpl. rewrite consumed_prefix.
    rewrite run_Seq, run_Backref. simpl.
    rewrite Hq3, Ascii.eqb_refl. unfold advance. simpl.
    rewrite run_Seq, run_Star. simpl rest.
    apply iterate_greedy_run;
      [by apply blank_spaces_folded|rewrite length_append; lia|reflexivity|].
    intros p2. by lit.
Qed.

(** What stands between the parentheses of [url( t )]. *)
Lemma url_body_plain ws t ws' tail p :
  isBlank ws = true -> isTarget t = true -> isBlank ws' = true ->
  run true
    (SeqAll [Star true Space; Group 1 (Opt Patterns.Quote);
             Group 2 (Star false AnyChar); Backref 1; Star true Space;
             Lit ")"])
    (MState (ws +:+ t +:+ ws' +:+ String ")" tail) p []) Some
  = Some (MState tail (Some ")"%char) [(2, t); (1, "")]).
Proof.
  intros Hws Ht Hws'. unfold Space. cbn [SeqAll].
  destruct (starts_target t (ws' +:+ String ")" tail) Ht)
    as (c & r & Heq & Hc).
  destruct (targetChar_facts c Hc) as (Hsp & Hsp' & Hq & Hparen & Hlt).
  rewrite run_Seq, run_Star. simpl rest.
  apply iterate_greedy_run;
    [by apply blank_spaces_folded|rewrite length_append; lia
    |by rewrite Heq|].
  intros p1. rewrite run_Seq, run_Group. unfold Opt, Patterns.Quote.
  rewrite Heq, run_Alt, run_Class, Hq, run_Eps. simpl orElse. cbv beta.
  rewrite consumed_none. simpl.
  rewrite run_Seq, run_Group, run_Star. rewrite <- Heq.
  apply andb_true_iff in Ht as [Hne Ht].
  apply iterate_lazy_run with (good := targetChar).
  - done.
  - intros c' Hc'. by destruct (targetChar_facts c' Hc') as (_ & _ & _ & _ & ?).
  - simpl. rewrite length_append. lia.
  - intros c' r' p' Hc'.
    destruct (targetChar_facts c' Hc') as (Hsp1 & Hsp1' & Hq1 & Hparen1 & Hlt1).
    simpl. rewrite run_Seq, run_Backref. simpl.
    rewrite run_Seq, run_Star. rewrite iterate_greedy_stop by done.
    by rewrite run_Seq, run_Lit, Hparen1.
  - intros p'. simpl. rewrite consumed_prefix.
    rewrite run_Seq, run_Backref. simpl.
    rewrite run_Seq, run_Star. simpl rest.
    apply iterate_greedy_run;
      [by apply blank_spaces_folded|rewrite length_append; lia|reflexivity|].
    intros p2. by lit.
Qed.

Lemma cssUrlPattern_split st k :
  run true Patterns.cssUrlPattern st k
  = run true (Str "url(") st (fun st1 =>
      run true
        (SeqAll [Star true Space; Group 1 (Opt Patterns.Quote);
                 Group 2 (Star false AnyChar); Backref 1; Star true Space;
                 Lit ")"]) st1 k).
Proof. reflexivity. Qed.

(** The first [url(...)] behind a text without the keyword. *)
Lemma search_url_quoted pre kw ws q t ws' tail :
  Js.includes (Js.toLowerCase pre) "url(" = false ->
  Js.toLowerCase kw = "url(" ->
  isBlank ws = true -> isQuote q = true -> quotedBy q t = true ->
  isBlank ws' = true ->
  search true Patterns.cssUrlPattern
    (pre +:+ kw +:+ ws
     +:+ String q (t +:+ String q (ws' +:+ String ")" tail))) None
  = Some (MState tail (Some ")"%char) [(2, t); (1, String q "")]).
Proof.
  intros Hpre Hkw Hws Hq Ht Hws'.
  apply (search_first Patterns.cssUrlPattern "u" "rl(");
    [reflexivity|apply cssUrlPattern_needs|exact Hkw|exact Hpre|].
  intros p'. rewrite cssUrlPattern_split.
  destruct (run_Str_folded "url(" url_keyword_folds kw
              (ws +:+ String q (t +:+ String q (ws' +:+ String ")" tail)))
              p' []
              (fun st1 =>
                 run true
                   (SeqAll [Star true Space; Group 1 (Opt Patterns.Quote);
                            Group 2 (Star false AnyChar); Backref 1;
                            Star true Space; Lit ")"]) st1 Some) Hkw)
    as [p1 ->].
  by apply url_body_quoted.
Qed.

Lemma search_url_plain pre kw ws t ws' tail :
  Js.includes (Js.toLowerCase pre) "url(" = false ->
  Js.toLowerCase kw = "url(" ->
  isBlank ws = true -> isTarget t = true -> isBlank ws' = true ->
  search true Patterns.cssUrlPattern
    (pre +:+ kw +:+ ws +:+ t +:+ ws' +:+ String ")" tail) None
  = Some (MState tail (Some ")"%char) [(2, t); (1, "")]).
Proof.
  intros Hpre Hkw Hws Ht Hws'.
  apply (search_first Patterns.cssUrlPattern "u" "rl(");
    [reflexivity|apply cssUrlPattern_needs|exact Hkw|exact Hpre|].
  intros p'. rewrite cssUrlPattern_split.
  destruct (run_Str_folded "url(" url_keyword_folds kw
              (ws +:+ t +:+ ws' +:+ String ")" tail) p' []
              (fun st1 =>
                 run true
                   (SeqAll [Star true Space; Group 1 (Opt Patterns.Quote);
                            Group 2 (Star false AnyChar); Backref 1;
                            Star true Space; Lit ")"]) st1 Some) Hkw)
    as [p1 ->].
  by apply url_body_plain.
Qed.

Lemma css_urls_cons text fin :
  search true Patterns.cssUrlPattern text None = Some fin ->
  css_urls (extractCssDependencies text)
  = kept (group 2 (caps fin)) ++ css_urls (extractCssDependencies (rest fin)).
Proof.
  intros Hs. unfold extractCssDependencies. cbn [css_urls].
  rewrite (scan_cons true Patterns.cssUrlPattern text fin);
    [|vm_compute; lia|reflexivity|exact Hs].
  rewrite !pushTrimmed_all. simpl. unfold kept, cssCapture.
  by destruct (Js.truthy _).
Qed.

Lemma css_imports_cons text fin :
  search true Patterns.cssImportPattern text None = Some fin ->
  css_imports (extractCssDependencies text)
  = kept (group 2 (caps fin))
    ++ css_imports (extractCssDependencies (rest fin)).
Proof.
  intros Hs. unfold extractCssDependencies. cbn [css_imports].
  rewrite (scan_cons true Patterns.cssImportPattern text fin);
    [|vm_compute; lia|reflexivity|exact Hs].
  rewrite !pushTrimmed_all. simpl. unfold kept, cssCapture.
  by destruct (Js.truthy _).
Qed.

Lemma kept_target t : isTarget t = true -> kept t = [t].
Proof.
  intros Ht. unfold kept. rewrite (trim_target t Ht).
  by apply andb_true_iff in Ht as [-> _].
Qed.

(** The end of [cssImportPattern], optional white space and an optional
    closing parenthesis, reads no [@]. *)
Lemma import_tail_rest n : forall s p cs,
  exists fin junk,
    iterate true (run true (Class false [CSpace]))
      (fun st => run true (Seq (Opt (Lit ")")) Eps) st Some) n (MState s p cs)
    = Some fin
    /\ caps fin = cs /\ s = junk +:+ rest fin /\ lacks "@" junk = true.
Proof.
  assert (Hk : forall s p cs, exists fin junk,
            run true (Seq (Opt (Lit ")")) Eps) (MState s p cs) Some = Some fin
            /\ caps fin = cs /\ s = junk +:+ rest fin
            /\ lacks "@" junk = true).
  { intros s p cs. unfold Opt. rewrite run_Seq, run_Alt.
    destruct s as [|a s].
    - rewrite run_Lit_nil. simpl. exists (MState "" p cs), "".
      by rewrite !run_Eps.
    - rewrite run_Lit. destruct (Ascii.eqb _ _) eqn:Ha; simpl.
      + exists (MState s (Some a) cs), (String a "").
        rewrite !run_Eps. split_and!; try done.
        unfold lacks. simpl. rewrite andb_true_r. apply negb_true_iff.
        destruct (Ascii.eqb a "@") eqn:Hat; [|done].
        apply Ascii.eqb_eq in Hat. subst a. by vm_compute in Ha.
      + exists (MState (String a s) p cs), "". by rewrite !run_Eps. }
  induction n as [|n IH]; intros s p cs.
  - rewrite iterate_O. apply Hk.
  - rewrite iterate_S. simpl. destruct s as [|a s].
    + rewrite run_Class_nil. simpl. apply Hk.
    + rewrite run_Class. destruct (class_matches _ _ _ _) eqn:Ha; simpl;
        [|apply Hk].
      replace (Nat.ltb _ _) with true by (symmetry; apply Nat.ltb_lt; lia).
      destruct (IH s (Some a) cs) as (fin & junk & -> & Hfin & Hs & Hj).
      simpl. exists fin, (String a junk). split_and!; try done.
      * simpl. by rewrite <- Hs.
      * unfold lacks in *. simpl. rewrite Hj, andb_true_r.
        apply negb_true_iff.
        destruct (Ascii.eqb a "@") eqn:Hat; [|done].
        apply Ascii.eqb_eq in Hat. subst a. by vm_compute in Ha.
Qed.

(** [Q t Q] and what follows, for the part of the pattern behind the
    optional [url(]. *)
Lemma import_core_quoted q t tail :
  isQuote q = true -> isTarget t = true ->
  exists fin junk,
    (forall p,
       run true
         (SeqAll [Group 1 (Opt Patterns.Quote);
                  Group 2 (Plus (Class true
                                   [CChar Patterns.squote;
                                    CChar Patterns.dquote; CChar ")";
                                    CSpace]));
                  Backref 1; Star true Space; Opt (Lit ")")])
         (MState (String q (t +:+ String q tail)) p []) Some
       = Some fin)
    /\ caps fin = [(2, t); (1, String q "")]
    /\ tail = junk +:+ rest fin /\ lacks "@" junk = true.
Proof.
  intros Hq Ht. destruct (quote_folded q Hq) as (Hq1 & Hq2 & Hq3).
  assert (Hnt : targetChar q = false).
  { unfold isQuote in Hq.
    apply orb_true_iff in Hq as [H|H]; apply Ascii.eqb_eq in H; by subst. }
  destruct (import_tail_rest (String.length tail) tail (Some q)
              [(2, t); (1, String q "")])
    as (fin & junk & Hfin & Hcaps & Hrest & Hjunk).
  exists fin, junk. split; [|done].
  intros p. cbn [SeqAll]. unfold Plus, Space.
  rewrite run_Seq, run_Group. unfold Opt at 1. unfold Patterns.Quote.
  rewrite run_Alt, run_Class, Hq1. cbv beta. simpl rest. simpl prev.
  simpl caps. rewrite consumed_one.
  match goal with |- orElse ?a _ = Some ?f => assert (a = Some f) as -> end;
    [|done].
  rewrite run_Seq, run_Group, run_Seq.
  apply andb_true_iff in Ht as [Hne Ht].
  destruct t as [|c t']; [done|]. simpl in Ht.
  apply andb_true_iff in Ht as [Hc Ht].
  simpl String.append. rewrite run_Class. fold (targetChar c). rewrite Hc.
  rewrite run_Star. simpl.
  apply iterate_greedy_run.
  - exact Ht.
  - rewrite length_append. lia.
  - exact Hnt.
  - intros p'. simpl.
    change (String c (t' +:+ String q tail))
      with (String c t' +:+ String q tail).
    rewrite consumed_prefix.
    rewrite run_Seq, run_Backref. simpl. rewrite Hq3, Ascii.eqb_refl. simpl.
    rewrite run_Seq, run_Star. exact Hfin.
Qed.

(** [t )] behind [url(]. *)
Lemma import_core_plain t ws3 tail p :
  isTarget t = true -> isBlank ws3 = true ->
  run true
    (SeqAll [Group 1 (Opt Patterns.Quote);
             Group 2 (Plus (Class true
                              [CChar Patterns.squote; CChar Patterns.dquote;
                               CChar ")"; CSpace]));
             Backref 1; Star true Space; Opt (Lit ")")])
    (MState (t +:+ ws3 +:+ String ")" tail) p []) Some
  = Some (MState tail (Some ")"%char) [(2, t); (1, "")]).
Proof.
  intros Ht Hws3. cbn [SeqAll]. unfold Plus, Space.
  destruct (starts_target t (ws3 +:+ String ")" tail) Ht)
    as (c & r & Heq & Hc).
  destruct (targetChar_facts c Hc) as (Hsp & Hsp' & Hq & Hparen & Hlt).
  rewrite run_Seq, run_Group. unfold Opt at 1. unfold Patterns.Quote.
  rewrite Heq, run_Alt, run_Class, Hq, run_Eps. simpl orElse. cbv beta.
  rewrite consumed_none. simpl.
  rewrite run_Seq, run_Group, run_Seq, run_Class.
  fold (targetChar c). rewrite Hc. simpl.
  rewrite run_Star. simpl.
  apply andb_true_iff in Ht as [Hne Ht].
  destruct t as [|c' t']; [done|]. simpl in Heq. injection Heq as -> <-.
  simpl in Ht. apply andb_true_iff in Ht as [_ Ht].
  assert (Hnext : match ws3 +:+ String ")" tail with
                  | String a _ => targetChar a = false
                  | "" => True
                  end).
  { destruct ws3 as [|a ws3]; simpl; [done|]. simpl in Hws3.
    apply andb_true_iff in Hws3 as [Ha _].
    unfold targetChar, class_matches. simpl. rewrite Ha.
    by rewrite !orb_true_r. }
  apply iterate_greedy_run.
  - exact Ht.
  - rewrite length_append. lia.
  - exact Hnext.
  - intros p'. simpl.
    change (String c (t' +:+ ws3 +:+ String ")" tail))
      with (String c t' +:+ ws3 +:+ String ")" tail).
    rewrite consumed_prefix.
    rewrite run_Seq, run_Backref. simpl.
    rewrite run_Seq, run_Star. simpl rest.
    apply iterate_greedy_run;
      [by apply blank_spaces_folded|rewrite length_append; lia|reflexivity|].
    intros p2. rewrite run_Seq. unfold Opt. rewrite run_Alt. by lit.
Qed.

Lemma cssImportPattern_split st k :
  run true Patterns.cssImportPattern st k
  = run true (Str "@import") st (fun st1 =>
      run true (Plus Space) st1 (fun st2 =>
        run true (Opt (Seq (Str "url(") (Star true Space))) st2 (fun st3 =>
          run true
            (SeqAll [Group 1 (Opt Patterns.Quote);
                     Group 2 (Plus (Class true
                                      [CChar Patterns.squote;
                                       CChar Patterns.dquote; CChar ")";
                                       CSpace]));
                     Backref 1; Star true Space; Opt (Lit ")")]) st3 k))).
Proof. reflexivity. Qed.

Lemma letter_u_facts a :
  Js.lowerChar a = "u"%char ->
  class_matches true false [CSpace] a = false.
Proof.
  destruct a as [[] [] [] [] [] [] [] []]; vm_compute; congruence.
Qed.

Lemma not_at_facts a :
  Ascii.eqb a "@" = false -> Ascii.eqb (Js.lowerChar a) "@" = false.
Proof.
  destruct a as [[] [] [] [] [] [] [] []]; vm_compute; congruence.
Qed.

Lemma space_class a :
  Js.isSpace a = true -> class_matches true false [CSpace] a = true.
Proof.
  intros Ha. unfold class_matches. simpl. by rewrite Ha.
Qed.

Lemma run_spaces1 ws1 X fin k :
  isBlank ws1 = true -> Js.truthy ws1 = true ->
  match X with
  | String c _ => class_matches true false [CSpace] c = false
  | "" => True
  end ->
  (forall p', k (MState X p' []) = Some fin) ->
  forall p, run true (Plus Space) (MState (ws1 +:+ X) p []) k = Some fin.
Proof.
  intros Hws1 Hne HX Hk p. destruct ws1 as [|s ws1]; [done|].
  simpl in Hws1. apply andb_true_iff in Hws1 as [Hs Hws1].
  unfold Plus, Space. simpl String.append.
  rewrite run_Seq, run_Class, (space_class s Hs), run_Star. simpl rest.
  apply iterate_greedy_run;
    [by apply blank_spaces_folded|rewrite length_append; lia|exact HX|exact Hk].
Qed.

(** [@import], white space and [url(] in front of the target. *)
Lemma import_head_wrapped kw1 ws1 kw2 ws2 Y fin :
  Js.toLowerCase kw1 = "@import" ->
  isBlank ws1 = true -> Js.truthy ws1 = true ->
  Js.toLowerCase kw2 = "url(" -> isBlank ws2 = true ->
  match Y with
  | String c _ => class_matches true false [CSpace] c = false
  | "" => True
  end ->
  (forall p',
     run true
       (SeqAll [Group 1 (Opt Patterns.Quote);
                Group 2 (Plus (Class true
                                 [CChar Patterns.squote;
                                  CChar Patterns.dquote; CChar ")";
                                  CSpace]));
                Backref 1; Star true Space; Opt (Lit ")")])
       (MState Y p' []) Some = Some fin) ->
  forall p,
    run true Patterns.cssImportPattern
      (MState (kw1 +:+ ws1 +:+ kw2 +:+ ws2 +:+ Y) p []) Some
    = Some fin.
Proof.
  intros Hkw1 Hws1 Hne Hkw2 Hws2 HY Hcore p.
  rewrite cssImportPattern_split.
  destruct (run_Str_folded "@import" import_keyword_folds kw1
              (ws1 +:+ kw2 +:+ ws2 +:+ Y) p []
              (fun st1 =>
                 run true (Plus Space) st1 (fun st2 =>
                   run true (Opt (Seq (Str "url(") (Star true Space))) st2
                     (fun st3 =>
                        run true
                          (SeqAll
                             [Group 1 (Opt Patterns.Quote);
                              Group 2 (Plus (Class true
                                               [CChar Patterns.squote;
                                                CChar Patterns.dquote;
                                                CChar ")"; CSpace]));
                              Backref 1; Star true Space; Opt (Lit ")")])
                          st3 Some))) Hkw1) as [p1 ->].
  apply run_spaces1; [done|done| |].
  { destruct kw2 as [|a kw2]; [done|]. simpl in Hkw2.
    injection Hkw2 as Ha _. simpl. by apply letter_u_facts. }
  intros p2. unfold Opt at 1. rewrite run_Alt.
  match goal with |- orElse ?a _ = Some ?f => assert (a = Some f) as -> end;
    [|done].
  rewrite run_Seq.
  destruct (run_Str_folded "url(" url_keyword_folds kw2 (ws2 +:+ Y) p2 []
              (fun st1 =>
                 run true (Star true Space) st1 (fun st3 =>
                   run true
                     (SeqAll
                        [Group 1 (Opt Patterns.Quote);
                         Group 2 (Plus (Class true
                                          [CChar Patterns.squote;
                                           CChar Patterns.dquote;
                                           CChar ")"; CSpace]));
                         Backref 1; Star true Space; Opt (Lit ")")])
                     st3 Some)) Hkw2) as [p3 ->].
  rewrite run_Star. unfold Space. simpl rest.
  apply iterate_greedy_run;
    [by apply blank_spaces_folded|rewrite length_append; lia|exact HY
    |exact Hcore].
Qed.

(** [@import] and white space in front of a quoted target. *)
Lemma import_head_bare kw1 ws1 q Y fin :
  Js.toLowerCase kw1 = "@import" ->
  isBlank ws1 = true -> Js.truthy ws1 = true ->
  isQuote q = true ->
  (forall p',
     run true
       (SeqAll [Group 1 (Opt Patterns.Quote);
                Group 2 (Plus (Class true
                                 [CChar Patterns.squote;
                                  CChar Patterns.dquote; CChar ")";
                                  CSpace]));
                Backref 1; Star true Space; Opt (Lit ")")])
       (MState (String q Y) p' []) Some = Some fin) ->
  forall p,
    run true Patterns.cssImportPattern
      (MState (kw1 +:+ ws1 +:+ String q Y) p []) Some
    = Some fin.
Proof.
  intros Hkw1 Hws1 Hne Hq Hcore p.
  destruct (quote_folded q Hq) as (Hq1 & Hq2 & Hq3).
  rewrite cssImportPattern_split.
  destruct (run_Str_folded "@import" import_keyword_folds kw1
              (ws1 +:+ String q Y) p []
              (fun st1 =>
                 run true (Plus Space) st1 (fun st2 =>
                   run true (Opt (Seq (Str "url(") (Star true Space))) st2
                     (fun st3 =>
                        run true
                          (SeqAll
                             [Group 1 (Opt Patterns.Quote);
                              Group 2 (Plus (Class true
                                               [CChar Patterns.squote;
                                                CChar Patterns.dquote;
                                                CChar ")"; CSpace]));
                              Backref 1; Star true Space; Opt (Lit ")")])
                          st3 Some))) Hkw1) as [p1 ->].
  apply run_spaces1; [done|done|exact Hq2|].
  intros p2. unfold Opt at 1. rewrite run_Alt.
  assert (Hnu : Ascii.eqb (canon true q) (canon true "u") = false).
  { unfold isQuote in Hq.
    apply orb_true_iff in Hq as [H|H]; apply Ascii.eqb_eq in H; by subst. }
  cbn [Str]. rewrite !run_Seq, run_Lit, Hnu. simpl orElse. rewrite run_Eps.
  apply Hcore.
Qed.

Lemma search_past_junk r junk s :
  wordFree r = true ->
  (forall s' p, Js.startsWith (Js.toLowerCase s') "@import" = false ->
                run true r (MState s' p []) Some = None) ->
  lacks "@" junk = true ->
  forall p, alikeOpt (search true r (junk +:+ s) p) (search true r s None).
Proof.
  intros Hw Hneeds. induction junk as [|a junk IH]; intros Hj p.
  - by apply search_alike.
  - unfold lacks in Hj. simpl in Hj. apply andb_true_iff in Hj as [Ha Hj].
    apply negb_true_iff in Ha. simpl String.append.
    rewrite search_miss; [by apply IH|].
    apply Hneeds. simpl. by rewrite (not_at_facts a Ha).
Qed.

Lemma scan_alike r s s' :
  1 <= minLen r -> wordFree r = true ->
  alikeOpt (search true r s None) (search true r s' None) ->
  Patterns.scan true r s = Patterns.scan true r s'.
Proof.
  intros Hmin Hw H.
  destruct (search true r s None) as [fin|] eqn:Hs,
    (search true r s' None) as [fin'|] eqn:Hs'; try done.
  - rewrite (scan_cons true r s fin Hmin Hw Hs),
      (scan_cons true r s' fin' Hmin Hw Hs').
    destruct H as [-> ->]. done.
  - by rewrite (scan_nowhere true r s Hs), (scan_nowhere true r s' Hs').
Qed.

Lemma css_imports_junk junk s :
  lacks "@" junk = true ->
  css_imports (extractCssDependencies (junk +:+ s))
  = css_imports (extractCssDependencies s).
Proof.
  intros Hj. unfold extractCssDependencies. cbn [css_imports]. f_equal.
  apply scan_alike; [vm_compute; lia|reflexivity|].
  apply search_past_junk; [reflexivity|apply cssImportPattern_needs|done].
Qed.

End Anywhere.

Lemma target_starts_unspaced t rest0 :
  isTarget t = true ->
  match t +:+ rest0 with
  | String c _ => Regex.class_matches true false [Regex.CSpace] c = false
  | "" => True
  end.
Proof.
  intros Ht. destruct (starts_target t rest0 Ht) as (c & r & -> & Hc).
  by destruct (targetChar_facts c Hc) as (_ & ? & _).
Qed.

Lemma target_quotedBy q t :
  isQuote q = true -> isTarget t = true -> quotedBy q t = true.
Proof.
  intros Hq [_ Ht]%andb_true_iff. unfold quotedBy.
  apply (allChars_impl targetChar); [|done]. intros c Hc.
  destruct (targetChar_facts c Hc) as (_ & _ & Hcq & _ & ->).
  rewrite andb_true_r. apply negb_true_iff.
  destruct (Ascii.eqb c q) eqn:Heq; [|done]. apply Ascii.eqb_eq in Heq.
  subst c. unfold isQuote in Hq.
  apply orb_true_iff in Hq as [H|H]; apply Ascii.eqb_eq in H; by subst.
Qed.

(** A quoted import, bare or inside [url(...)], anywhere in a style
    sheet. *)
Lemma quoted_import_anywhere pre kw1 ws1 wrapper q t tail :
  Js.includes (Js.toLowerCase pre) "@import" = false ->
  Js.toLowerCase kw1 = "@import" ->
  isBlank ws1 = true -> Js.truthy ws1 = true ->
  (wrapper = ""
   \/ exists kw2 ws2, wrapper = kw2 +:+ ws2
                      /\ Js.toLowerCase kw2 = "url(" /\ isBlank ws2 = true) ->
  isQuote q = true -> isTarget t = true ->
  css_imports
    (extractCssDependencies
       (pre +:+ kw1 +:+ ws1 +:+ wrapper +:+ String q (t +:+ String q tail)))
  = t :: css_imports (extractCssDependencies tail).
Proof.
  intros Hpre Hkw1 Hws1 Hne Hwrap Hq Ht.
  destruct (import_core_quoted q t tail Hq Ht)
    as (fin & junk & Hrun & Hcaps & Htail & Hjunk).
  assert (Hs : Regex.search true Patterns.cssImportPattern
                 (pre +:+ kw1 +:+ ws1 +:+ wrapper
                  +:+ String q (t +:+ String q tail)) None = Some fin).
  { apply (search_first Patterns.cssImportPattern "@" "import");
      [reflexivity|apply cssImportPattern_needs|exact Hkw1|exact Hpre|].
    destruct Hwrap as [->|(kw2 & ws2 & -> & Hkw2 & Hws2)].
    - simpl String.append. by apply import_head_bare.
    - rewrite append_assoc.
      apply import_head_wrapped; try done.
      by destruct (quote_folded q Hq) as (_ & ? & _). }
  rewrite (css_imports_cons _ fin Hs), Hcaps.
  change (Regex.group 2 [(2, t); (1, String q "")]) with t.
  rewrite (kept_target t Ht). simpl. f_equal.
  rewrite Htail. symmetry.
  exact (css_imports_junk junk (Regex.rest fin) Hjunk).
Qed.

(** An unquoted import inside [url(...)], anywhere in a style sheet. *)
Lemma wrapped_import_anywhere pre kw1 ws1 kw2 ws2 t ws3 tail :
  Js.includes (Js.toLowerCase pre) "@import" = false ->
  Js.toLowerCase kw1 = "@import" ->
  isBlank ws1 = true -> Js.truthy ws1 = true ->
  Js.toLowerCase kw2 = "url(" -> isBlank ws2 = true ->
  isTarget t = true -> isBlank ws3 = true ->
  css_imports
    (extractCssDependencies
       (pre +:+ kw1 +:+ ws1 +:+ kw2 +:+ ws2 +:+ t +:+ ws3
        +:+ String ")" tail))
  = t :: css_imports (extractCssDependencies tail).
Proof.
  intros Hpre Hkw1 Hws1 Hne Hkw2 Hws2 Ht Hws3.
  assert (Hs : Regex.search true Patterns.cssImportPattern
                 (pre +:+ kw1 +:+ ws1 +:+ kw2 +:+ ws2 +:+ t +:+ ws3
                  +:+ String ")" tail) None
               = Some (Regex.MState tail (Some ")"%char) [(2, t); (1, "")])).
  { apply (search_first Patterns.cssImportPattern "@" "import");
      [reflexivity|apply cssImportPattern_needs|exact Hkw1|exact Hpre|].
    apply import_head_wrapped; try done.
    - by apply target_starts_unspaced.
    - intros p'. by apply import_core_plain. }
  rewrite (css_imports_cons _ _ Hs). simpl Regex.caps. simpl Regex.rest.
  change (Regex.group 2 [(2, t); (1, "")]) with t.
  by rewrite (kept_target t Ht).
Qed.

Lemma quoted_url_anywhere pre kw ws q t ws' tail :
  Js.includes (Js.toLowerCase pre) "url(" = false ->
  Js.toLowerCase kw = "url(" ->
  isBlank ws = true -> isQuote q = true -> quotedBy q t = true ->
  isBlank ws' = true ->
  css_urls
    (extractCssDependencies
       (pre +:+ kw +:+ ws
        +:+ String q (t +:+ String q (ws' +:+ String ")" tail))))
  = kept t ++ css_urls (extractCssDependencies tail).
Proof.
  intros Hpre Hkw Hws Hq Ht Hws'.
  by rewrite (css_urls_cons _ _
                (search_url_quoted pre kw ws q t ws' tail Hpre Hkw Hws Hq Ht
                   Hws')).
Qed.

Lemma plain_url_anywhere pre kw ws t ws' tail :
  Js.includes (Js.toLowerCase pre) "url(" = false ->
  Js.toLowerCase kw = "url(" ->
  isBlank ws = true -> isTarget t = true -> isBlank ws' = true ->
  css_urls
    (extractCssDependencies
       (pre +:+ kw +:+ ws +:+ t +:+ ws' +:+ String ")" tail))
  = t :: css_urls (extractCssDependencies tail).
Proof.
  intros Hpre Hkw Hws Ht Hws'.
  rewrite (css_urls_cons _ _
             (search_url_plain pre kw ws t ws' tail Hpre Hkw Hws Ht Hws')).
  simpl Regex.caps. simpl Regex.rest.
  change (Regex.group 2 [(2, t); (1, "")]) with t.
  by rewrite (kept_target t Ht).
Qed.

(** C7 (the amended claim).  [extractCssDependencies] puts the target of an
    [@import], written with a [url()] wrapper or as a quoted string, into
    [imports], and every [url(...)] occurrence into [urls], the one that
    wraps an [@import] target included: such a target is in both
    sequences.  A capture that is empty or white space only is dropped, so
    neither sequence holds a blank string.  This holds wherever the
    construct stands in the text and for every one of them in turn:
    behind a text without [url(], in any letter case, [url( Q t Q )]
    yields what is left of [t] without the white space around it,
    [url( t )] yields [t], and the URLs of the rest of the text follow;
    behind a text without [@import], [@import Q t Q], [@import url( Q t Q]
    and [@import url( t )] yield [t], and the imports of the rest of the
    text follow; the [url(...)] of such an import is a URL of the text as
    well; and a text without the keyword yields nothing.  ([Q] is either
    quote character; between two quotes of [url(...)] stands a text on one
    line without that quote, elsewhere a target: a non-empty text without
    quotes, closing parentheses and white space.) *)
Theorem css_imports_and_urls :
  (forall t tail,
     isTarget t = true ->
     let d := extractCssDependencies ("@import url(" +:+ t +:+ ")" +:+ tail) in
     t ∈ css_imports d /\ t ∈ css_urls d)
  /\ (forall q t tail,
        q = Patterns.squote \/ q = Patterns.dquote ->
        isTarget t = true ->
        t ∈ css_imports
              (extractCssDependencies
                 ("@import " +:+ String q (t +:+ String q tail))))
  /\ (forall t tail,
        isTarget t = true ->
        t ∈ css_urls (extractCssDependencies ("url(" +:+ t +:+ ")" +:+ tail)))
  /\ (forall out m,
        isBlank (Regex.group 2 m) = true -> pushTrimmed out m = out)
  /\ (forall cssText,
        let d := extractCssDependencies cssText in
        Forall (fun x => isBlank x = false) (css_imports d)
        /\ Forall (fun x => isBlank x = false) (css_urls d))
  /\ (forall pre kw ws q t ws' tail,
        Js.includes (Js.toLowerCase pre) "url(" = false ->
        Js.toLowerCase kw = "url(" ->
        isBlank ws = true -> isQuote q = true -> quotedBy q t = true ->
        isBlank ws' = true ->
        css_urls
          (extractCssDependencies
             (pre +:+ kw +:+ ws
              +:+ String q (t +:+ String q (ws' +:+ String ")" tail))))
        = kept t ++ css_urls (extractCssDependencies tail))
  /\ (forall pre kw ws t ws' tail,
        Js.includes (Js.toLowerCase pre) "url(" = false ->
        Js.toLowerCase kw = "url(" ->
        isBlank ws = true -> isTarget t = true -> isBlank ws' = true ->
        css_urls
          (extractCssDependencies
             (pre +:+ kw +:+ ws +:+ t +:+ ws' +:+ String ")" tail))
        = t :: css_urls (extractCssDependencies tail))
  /\ (forall pre kw ws wrapper q t tail,
        Js.includes (Js.toLowerCase pre) "@import" = false ->
        Js.toLowerCase kw = "@import" ->
        isBlank ws = true -> Js.truthy ws = true ->
        isWrapper wrapper ->
        isQuote q = true -> isTarget t = true ->
        css_imports
          (extractCssDependencies
             (pre +:+ kw +:+ ws +:+ wrapper
              +:+ String q (t +:+ String q tail)))
        = t :: css_imports (extractCssDependencies tail))
  /\ (forall pre kw1 ws1 kw2 ws2 t ws3 tail,
        Js.includes (Js.toLowerCase pre) "@import" = false ->
        Js.toLowerCase kw1 = "@import" ->
        isBlank ws1 = true -> Js.truthy ws1 = true ->
        Js.toLowerCase kw2 = "url(" -> isBlank ws2 = true ->
        isTarget t = true -> isBlank ws3 = true ->
        let text :=
          pre +:+ kw1 +:+ ws1 +:+ kw2 +:+ ws2 +:+ t +:+ ws3
          +:+ String ")" tail in
        css_imports (extractCssDependencies text)
        = t :: css_imports (extractCssDependencies tail)
        /\ (Js.includes (Js.toLowerCase (pre +:+ kw1 +:+ ws1)) "url(" = false ->
            css_urls (extractCssDependencies text)
            = t :: css_urls (extractCssDependencies tail)))
  /\ (forall cssText,
        (Js.includes (Js.toLowerCase cssText) "url(" = false ->
         css_urls (extractCssDependencies cssText) = [])
        /\ (Js.includes (Js.toLowerCase cssText) "@import" = false ->
            css_imports (extractCssDependencies cssText) = [])).
Proof.
  split; [exact wrapped_import_in_both|].
  split; [exact quoted_import_in_imports|].
  split; [exact plain_url_in_urls|].
  split.
  { intros out m Hb. unfold pushTrimmed, Js.trim.
    by rewrite (trimStart_blank _ Hb). }
  split.
  { intros cssText d. subst d. unfold extractCssDependencies. simpl.
    rewrite !pushTrimmed_all. simpl. split; apply css_captures_not_blank. }
  split; [exact quoted_url_anywhere|].
  split; [exact plain_url_anywhere|].
  split; [exact quoted_import_anywhere|].
  split.
  { intros pre kw1 ws1 kw2 ws2 t ws3 tail Hpre Hkw1 Hws1 Hne Hkw2 Hws2 Ht
      Hws3 text. subst text. split.
    - by apply wrapped_import_anywhere.
    - intros Hpre'.
      rewrite <- (plain_url_anywhere (pre +:+ kw1 +:+ ws1) kw2 ws2 t ws3 tail
                    Hpre' Hkw2 Hws2 Ht Hws3).
      by rewrite !append_assoc. }
  intros cssText. unfold extractCssDependencies. cbn [css_urls css_imports].
  split; intros H.
  - unfold Patterns.cssUrlPattern.
    by rewrite scan_without_keyword_folded;
      [|apply url_keyword_folds|].
  - unfold Patterns.cssImportPattern.
    by rewrite scan_without_keyword_folded;
      [|apply import_keyword_folds|].
Qed.

(** C7 (witness): the three shapes at the target [a.css], a capture of
    two blanks, and a style sheet with three references, taken apart
    construct by construct. *)
Lemma css_imports_and_urls_witness :
  ("a.css" ∈ css_imports (extractCssDependencies "@import url(a.css);")
   /\ "a.css" ∈ css_urls (extractCssDependencies "@import url(a.css);"))
  /\ "a.css" ∈ css_imports (extractCssDependencies "@import 'a.css';")
  /\ "a.css" ∈ css_urls (extractCssDependencies "url(a.css)")
  /\ pushTrimmed ["kept"] [(2, "  "); (1, "")] = ["kept"]
  /\ css_urls (extractCssDependencies Examples.sheet) = ["a.css"; "b.png"]
  /\ css_imports (extractCssDependencies Examples.sheet)
     = ["a.css"; "c.css"].
Proof.
  destruct css_imports_and_urls
    as (H1 & H2 & H3 & H4 & _ & H6 & H7 & H8 & H9 & H10).
  split; [|split; [|split; [|split; [|split]]]].
  - apply (H1 "a.css" ";"). reflexivity.
  - apply (H2 Patterns.squote "a.css" ";"); [by left|reflexivity].
  - apply (H3 "a.css" ""). reflexivity.
  - apply (H4 ["kept"] [(2, "  "); (1, "")]). reflexivity.
  - change Examples.sheet
      with (".a{} @IMPORT " +:+ "url(" +:+ "" +:+ "a.css" +:+ ""
            +:+ String ")" "; .x { background: URL( 'b.png' ) } @import 'c.css';").
    rewrite H7 by reflexivity.
    change "; .x { background: URL( 'b.png' ) } @import 'c.css';"
      with ("; .x { background: " +:+ "URL(" +:+ " "
            +:+ String "'" ("b.png" +:+ String "'" (" "
            +:+ String ")" " } @import 'c.css';"))).
    rewrite H6 by reflexivity.
    rewrite (proj1 (H10 " } @import 'c.css';") eq_refl). reflexivity.
  - change Examples.sheet
      with (".a{} " +:+ "@IMPORT" +:+ " " +:+ "url(" +:+ "" +:+ "a.css" +:+ ""
            +:+ String ")" "; .x { background: URL( 'b.png' ) } @import 'c.css';").
    rewrite (proj1 (H9 ".a{} " "@IMPORT" " " "url(" "" "a.css" ""
                      "; .x { background: URL( 'b.png' ) } @import 'c.css';"
                      eq_refl eq_refl eq_refl eq_refl eq_refl eq_refl eq_refl
                      eq_refl)).
    change "; .x { background: URL( 'b.png' ) } @import 'c.css';"
      with ("; .x { background: URL( 'b.png' ) } " +:+ "@import" +:+ " "
            +:+ "" +:+ String "'" ("c.css" +:+ String "'" ";")).
    rewrite H8; [|reflexivity|reflexivity|reflexivity|reflexivity|by left
                 |reflexivity|reflexivity].
    by rewrite (proj2 (H10 ";") eq_refl).
Defined.
